(** * simple-statistics: a shallow embedding of the numerical core

    The definitions below transcribe functions of
    [src/js/libs/simple-statistics.js] into Gallina.  Conventions:

    - a JavaScript number is the rational it denotes, or [NaN] or one of the
      two infinities ([num]); the sign of zero is not modelled;
    - arithmetic comes in two kinds.  [Binary64.add], [sub], [mul] and [div]
      round the exact result to the nearest double, ties to even, with
      overflow to an infinity, as the operators of the language do; they are
      used where a statement depends on the value computed ([sum], [mean],
      the variances, the t-test, [factorial], [gamma], the quantiles,
      k-means, [ckmeans]).  [nadd], [nsub], [nmul] and [ndiv] are the exact
      operations; they stand for the operators where the statements only
      depend on comparisons, on integers that doubles hold exactly, on the
      structure of arrays or on which operations are applied to what (the
      permutation test, the chi-squared test, ranks and counters);
    - a JavaScript array that the code indexes out of range, leaves sparse or
      mutates through an alias is a finite map from integer keys together
      with its [length] ([jsarr]); arrays that are only read in range are
      lists;
    - [throw] is the [Throw] outcome of [result]; loops that are not
      structurally bounded take a fuel argument and answer [OutOfFuel] when
      it runs out;
    - [Math.sqrt], [Math.log] and the other transcendental functions are
      Section variables. *)

From Stdlib Require Import QArith Qround Qabs Qminmax ZArith List Lia Bool Lqa
  Sorted.
From Stdlib Require PrimFloat SpecFloat FloatOps.
From stdpp Require Import gmap strings list fin_maps pretty.

Open Scope Z_scope.

(* ===================================================================== *)
(** * Part I: definitions                                                  *)
(* ===================================================================== *)

(** ** Outcomes of a call *)

Inductive error :=
  | Error (msg : string)        (* throw new Error(msg) *)
  | TypeError (msg : string)    (* raised by the runtime itself *)
  | RangeError (msg : string).

Inductive result (A : Type) :=
  | Ret (a : A)
  | Throw (e : error)
  | OutOfFuel.
Arguments Ret {A} a.
Arguments Throw {A} e.
Arguments OutOfFuel {A}.

Global Instance result_ret : MRet result := fun A a => Ret a.
Global Instance result_bind : MBind result := fun A B k r =>
  match r with
  | Ret a => k a
  | Throw e => Throw e
  | OutOfFuel => OutOfFuel
  end.

Global Instance result_fmap : FMap result := fun A B f r =>
  match r with
  | Ret a => Ret (f a)
  | Throw e => Throw e
  | OutOfFuel => OutOfFuel
  end.

(** ** Rationals in lowest terms *)

Definition qadd (a b : Q) : Q := Qred (a + b).
Definition qsub (a b : Q) : Q := Qred (a - b).
Definition qmul (a b : Q) : Q := Qred (a * b).
Definition qdiv (a b : Q) : Q := Qred (a / b).
Definition qofZ (z : Z) : Q := inject_Z z.
Definition qlt (a b : Q) : bool := negb (Qle_bool b a).
Definition qle (a b : Q) : bool := Qle_bool a b.
Definition qeq (a b : Q) : bool := Qeq_bool a b.

(** [n % 1 === 0] on a finite number. *)
Definition q_is_int (a : Q) : bool := qeq (qofZ (Qfloor a)) a.

(** ** JavaScript numbers and values *)

Inductive num :=
  | Fin (q : Q)
  | NaN
  | PInf
  | NInf.

(** A value that is a number or [undefined]. *)
Abbreviation val := (option num).
Abbreviation VUndef := None (only parsing).
Abbreviation VNum := Some (only parsing).

(** ToNumber: [undefined] becomes [NaN]. *)
Definition to_num (v : val) : num :=
  match v with VUndef => NaN | VNum n => n end.

Definition vnum (q : Q) : val := VNum (Fin q).

(** [typeof v === "number"] *)
Definition is_number (v : val) : bool :=
  match v with VUndef => false | VNum _ => true end.

Definition nofZ (z : Z) : num := Fin (qofZ z).
Definition nofnat (n : nat) : num := nofZ (Z.of_nat n).

Definition qsign (q : Q) : comparison := (q ?= 0)%Q.

Definition nneg (a : num) : num :=
  match a with
  | Fin x => Fin (Qred (- x))
  | NaN => NaN
  | PInf => NInf
  | NInf => PInf
  end.

Definition nadd (a b : num) : num :=
  match a, b with
  | Fin x, Fin y => Fin (qadd x y)
  | NaN, _ | _, NaN => NaN
  | PInf, NInf | NInf, PInf => NaN
  | PInf, _ | _, PInf => PInf
  | NInf, _ | _, NInf => NInf
  end.

Definition nsub (a b : num) : num :=
  match a, b with
  | Fin x, Fin y => Fin (qsub x y)
  | _, _ => nadd a (nneg b)
  end.

(** An infinity times a number of the given sign. *)
Definition inf_signed (pos : bool) (s : comparison) : num :=
  match s with
  | Eq => NaN
  | Gt => if pos then PInf else NInf
  | Lt => if pos then NInf else PInf
  end.

Definition nmul (a b : num) : num :=
  match a, b with
  | Fin x, Fin y => Fin (qmul x y)
  | NaN, _ | _, NaN => NaN
  | PInf, Fin y => inf_signed true (qsign y)
  | NInf, Fin y => inf_signed false (qsign y)
  | Fin x, PInf => inf_signed true (qsign x)
  | Fin x, NInf => inf_signed false (qsign x)
  | PInf, PInf | NInf, NInf => PInf
  | PInf, NInf | NInf, PInf => NInf
  end.

Definition ndiv (a b : num) : num :=
  match a, b with
  | Fin x, Fin y =>
      match qsign y with
      | Eq => inf_signed true (qsign x)
      | _ => Fin (qdiv x y)
      end
  | NaN, _ | _, NaN => NaN
  | Fin _, (PInf | NInf) => Fin 0
  | PInf, Fin y => match qsign y with Lt => NInf | _ => PInf end
  | NInf, Fin y => match qsign y with Lt => PInf | _ => NInf end
  | (PInf | NInf), (PInf | NInf) => NaN
  end.

Definition nlt (a b : num) : bool :=
  match a, b with
  | Fin x, Fin y => qlt x y
  | NaN, _ | _, NaN => false
  | _, NInf => false
  | NInf, _ => true
  | PInf, _ => false
  | _, PInf => true
  end.

(** [a === b] on numbers. *)
Definition neq (a b : num) : bool :=
  match a, b with
  | Fin x, Fin y => qeq x y
  | PInf, PInf | NInf, NInf => true
  | _, _ => false
  end.

Definition ngt (a b : num) : bool := nlt b a.
Definition nle (a b : num) : bool := nlt a b || neq a b.
Definition nge (a b : num) : bool := nle b a.

Definition nabs (a : num) : num :=
  match a with
  | Fin x => Fin (Qred (Qabs x))
  | NaN => NaN
  | PInf | NInf => PInf
  end.

(** [Number.isInteger] *)
Definition isInteger (a : num) : bool :=
  match a with Fin x => q_is_int x | _ => false end.

(** [!n]: zero and [NaN] are falsy. *)
Definition num_falsy (a : num) : bool :=
  match a with Fin x => qeq x 0 | NaN => true | _ => false end.

(** [Number.MAX_VALUE], the largest finite double. *)
Definition MAX_VALUE : num := nofZ (2 ^ 1024 - 2 ^ 971).

(** [a === b] on values. *)
Definition veq (a b : val) : bool :=
  match a, b with
  | VUndef, VUndef => true
  | VNum x, VNum y => neq x y
  | _, _ => false
  end.

(** ** IEEE 754 binary64

    A double is a rational [m * 2 ^ e] with [|m| < 2 ^ 53] and
    [e >= -1074], below [2 ^ 1024] in size.  [Binary64.nearest] is rounding
    to nearest with ties to even; [Binary64.of_float] reads a float of the
    kernel, which is a double, as a number. *)

Module Binary64.

(** [2 ^ e] for any integer [e]. *)
Definition pow2 (e : Z) : Q :=
  match e with
  | Z0 => 1
  | Zpos p => inject_Z (2 ^ Zpos p)
  | Zneg p => 1 # (2 ^ p)
  end.

(** [floor (log2 q)] for [q > 0]. *)
Definition ilog2 (q : Q) : Z :=
  let e := Z.log2 (Qnum q) - Z.log2 (Zpos (Qden q)) in
  if Qle_bool (pow2 e) q then e else e - 1.

(** The integer nearest to [q], the even one of two that are equally near. *)
Definition nearest_even (q : Q) : Z :=
  let f := Qfloor q in
  match (q - inject_Z f ?= 1 # 2)%Q with
  | Lt => f
  | Gt => f + 1
  | Eq => if Z.even f then f else f + 1
  end.

(** The spacing of the doubles at [q > 0]: [2 ^ (e - 52)] in the binade of
    [2 ^ e], and [2 ^ -1074] below [2 ^ -1022]. *)
Definition ulp (q : Q) : Q := pow2 (Z.max (ilog2 q) (-1022) - 52).

(** Rounding to 53 bits with gradual underflow; the exponent is not bounded
    above. *)
Definition nearest (q : Q) : Q :=
  let q := Qred q in
  match Qnum q with
  | Z0 => 0%Q
  | Zpos _ => Qred (inject_Z (nearest_even (q / ulp q)) * ulp q)
  | Zneg _ => Qred (- (inject_Z (nearest_even (- q / ulp (- q))) * ulp (- q)))
  end.

(** The double that an exact result is rounded to: an infinity from
    [2 ^ 1024] on. *)
Definition round (q : Q) : num :=
  let r := nearest q in
  if Qle_bool (pow2 1024) r then PInf
  else if Qle_bool r (- pow2 1024) then NInf
  else Fin r.

Definition rounded (a : num) : num :=
  match a with Fin q => round q | _ => a end.

(** [a + b], [a - b], [a * b] and [a / b] in the language. *)
Definition add (a b : num) : num := rounded (nadd a b).
Definition sub (a b : num) : num := rounded (nsub a b).
Definition mul (a b : num) : num := rounded (nmul a b).
Definition div (a b : num) : num := rounded (ndiv a b).

(** [a * b] and [a - b] where the result is finite. *)
Definition times (a b : Q) : Q := nearest (a * b).
Definition minus (a b : Q) : Q := nearest (a - b).

(** A numeric literal: the double nearest to the decimal written. *)
Definition literal (q : Q) : Q := nearest q.

(** [q] is a double. *)
Definition is_double (q : Q) : Prop := round q = Fin (Qred q).

(** The number that a float of the kernel denotes. *)
Definition of_float (f : PrimFloat.float) : num :=
  match FloatOps.Prim2SF f with
  | SpecFloat.S754_zero _ => Fin 0
  | SpecFloat.S754_infinity s => if s then NInf else PInf
  | SpecFloat.S754_nan => NaN
  | SpecFloat.S754_finite s m e =>
      Fin (Qred (inject_Z (if s then Zneg m else Zpos m) * pow2 e))
  end.

(** The float of the kernel nearest to an integer. *)
Definition float_of_Z (z : Z) : PrimFloat.float :=
  FloatOps.SF2Prim (SpecFloat.binary_normalize 53 1024 z 0 false).
End Binary64.

(** ** JavaScript arrays

    An array is its integer-keyed properties and its [length].  Reading a key
    that is absent gives [undefined] ([None]); writing at or past [length]
    extends the array; writing at a negative key sets a property and leaves
    [length] alone.  An element set to [undefined] and a hole read alike and
    are both an absent key. *)

Record jsarr (A : Type) := JsArr { elems : gmap Z A; len : Z }.
Arguments JsArr {A} elems len.
Arguments elems {A} j.
Arguments len {A} j.

Definition arr_empty {A} : jsarr A := JsArr ∅ 0.

Definition arr_get {A} (a : jsarr A) (i : Z) : option A := elems a !! i.

Definition arr_set {A} (a : jsarr A) (i : Z) (v : option A) : jsarr A :=
  JsArr (match v with Some x => <[i := x]> (elems a) | None => delete i (elems a) end)
        (if len a <=? i then i + 1 else len a).

(** [i in a] *)
Definition arr_has {A} (a : jsarr A) (i : Z) : bool :=
  match elems a !! i with Some _ => true | None => false end.

Definition arr_push {A} (a : jsarr A) (v : option A) : jsarr A :=
  arr_set a (len a) v.

(** [a.pop()]: drops the last index; an empty array stays as it is. *)
Definition arr_pop {A} (a : jsarr A) : jsarr A :=
  if len a <=? 0 then a else JsArr (delete (len a - 1) (elems a)) (len a - 1).

Fixpoint arr_of_list_from {A} (i : Z) (l : list (option A)) : gmap Z A :=
  match l with
  | [] => ∅
  | Some v :: l' => <[i := v]> (arr_of_list_from (i + 1) l')
  | None :: l' => arr_of_list_from (i + 1) l'
  end.

Definition arr_of_list {A} (l : list (option A)) : jsarr A :=
  JsArr (arr_of_list_from 0 l) (Z.of_nat (length l)).

(** The elements at indices [0 .. length - 1]. *)
Definition arr_to_list {A} (a : jsarr A) : list (option A) :=
  map (fun i => arr_get a (Z.of_nat i)) (seq 0 (Z.to_nat (len a))).

(** [a.slice(start, end)] with both bounds given as integers. *)
Definition slice_bound (n i : Z) : Z :=
  if i <? 0 then Z.max (n + i) 0 else Z.min i n.

Definition arr_slice {A} (a : jsarr A) (start stop : Z) : jsarr A :=
  let from := slice_bound (len a) start in
  let upto := slice_bound (len a) stop in
  let count := Z.max (upto - from) 0 in
  JsArr
    (fold_right
       (fun k m =>
          match elems a !! (from + Z.of_nat k) with
          | Some v => <[Z.of_nat k := v]> m
          | None => m
          end)
       ∅ (seq 0 (Z.to_nat count)))
    count.

(** [a.slice()] *)
Definition arr_copy {A} (a : jsarr A) : jsarr A := arr_slice a 0 (len a).

(** ** [Array.prototype.sort] with a comparator

    The comparator returns a number; an element moves before another only
    when the comparator is positive the other way round, and elements that
    compare equal keep their order (the sort is stable). *)

Section Sort.
Context {A : Type} (cmp : A → A → Q).

Fixpoint sort_insert (x : A) (l : list A) : list A :=
  match l with
  | [] => [x]
  | y :: l' => if qle (cmp x y) 0 then x :: y :: l' else y :: sort_insert x l'
  end.

Fixpoint js_sort (l : list A) : list A :=
  match l with
  | [] => []
  | x :: l' => sort_insert x (js_sort l')
  end.
End Sort.

(** ** Sums, means and the mode *)

Module Descriptive.

(** [sum]: Kahan-Babuska summation.  [sum_loop] is the loop from index 1;
    an element that is not a number ends it with [NaN]. *)
Fixpoint sum_loop (xs : list val) (sum correction : num) : num :=
  match xs with
  | [] => Binary64.add sum correction
  | VUndef :: _ => NaN
  | VNum xi :: xs' =>
      let transition := Binary64.add sum xi in
      let correction' :=
        if nge (nabs sum) (nabs xi)
        then Binary64.add correction (Binary64.add (Binary64.sub sum transition) xi)
        else Binary64.add correction (Binary64.add (Binary64.sub xi transition) sum) in
      sum_loop xs' transition correction'
  end.

Definition sum (x : list val) : num :=
  match x with
  | [] => Fin 0
  | VUndef :: _ => NaN
  | VNum x0 :: xs => sum_loop xs x0 (Fin 0)
  end.

Definition empty_sample_error : error :=
  Error "mean requires at least one data point".

Definition mean (x : list val) : result num :=
  if (length x =? 0)%nat then Throw empty_sample_error
  else Ret (Binary64.div (sum x) (nofnat (length x))).

Section Pow.
Context (Math_pow : num → num → num).

Definition sumNthPowerDeviations (x : list val) (n : num) : result num :=
  meanValue ← mean x;
  if neq n (Fin 2) then
    Ret (fold_left
           (fun sum xi =>
              let tempValue := Binary64.sub (to_num xi) meanValue in
              Binary64.add sum (Binary64.mul tempValue tempValue))
           x (Fin 0))
  else
    Ret (fold_left
           (fun sum xi => Binary64.add sum (Math_pow (Binary64.sub (to_num xi) meanValue) n))
           x (Fin 0)).

Definition sampleVariance (x : list val) : result num :=
  if (length x <? 2)%nat then
    Throw (Error "sampleVariance requires at least two data points")
  else
    sumSquaredDeviationsValue ← sumNthPowerDeviations x (Fin 2);
    let besselsCorrection := nofZ (Z.of_nat (length x) - 1) in
    Ret (Binary64.div sumSquaredDeviationsValue besselsCorrection).
End Pow.

(** [numericSort]: a sorted copy. *)
Definition numericSort (x : list Q) : list Q := js_sort (fun a b => qsub a b) x.

Record mode_state := ModeState {
  ms_last : val; ms_value : val; ms_maxSeen : nat; ms_seenThis : nat }.

(** One turn of the loop of [modeSorted] at the element [cur = sorted[i]]. *)
Definition modeSorted_step (st : mode_state) (cur : val) : mode_state :=
  if negb (veq cur (ms_last st)) then
    if (ms_maxSeen st <? ms_seenThis st)%nat
    then ModeState cur (ms_last st) (ms_seenThis st) 1
    else ModeState cur (ms_value st) (ms_maxSeen st) 1
  else
    ModeState (ms_last st) (ms_value st) (ms_maxSeen st) (S (ms_seenThis st)).

(** The loop runs [i] from 1 to [sorted.length] inclusive; the last turn
    reads past the end, that is [undefined]. *)
Definition modeSorted (sorted : list val) : result val :=
  match sorted with
  | [] => Throw (Error "mode requires at least one data point")
  | [x] => Ret x
  | x0 :: rest =>
      Ret (ms_value
             (fold_left modeSorted_step (rest ++ [VUndef])
                (ModeState x0 (VNum NaN) 0 1)))
  end.

Definition mode (x : list Q) : result val :=
  modeSorted (map vnum (numericSort x)).

(** [modeFast]: the [Map] from values to counts is an association list. *)
Fixpoint index_get (index : list (Q * nat)) (key : Q) : option nat :=
  match index with
  | [] => None
  | (k, c) :: index' => if qeq k key then Some c else index_get index' key
  end.

Fixpoint index_set (index : list (Q * nat)) (key : Q) (c : nat)
  : list (Q * nat) :=
  match index with
  | [] => [(key, c)]
  | (k, c0) :: index' =>
      if qeq k key then (k, c) :: index' else (k, c0) :: index_set index' key c
  end.

Fixpoint modeFast_loop (x : list Q) (index : list (Q * nat)) (mode : val)
    (modeCount : nat) : val * nat :=
  match x with
  | [] => (mode, modeCount)
  | xi :: x' =>
      let newCount :=
        match index_get index xi with None => 1%nat | Some c => S c end in
      if (modeCount <? newCount)%nat
      then modeFast_loop x' (index_set index xi newCount) (vnum xi) newCount
      else modeFast_loop x' (index_set index xi newCount) mode modeCount
  end.

Definition modeFast (x : list Q) : result val :=
  let '(mode, modeCount) := modeFast_loop x [] VUndef 0 in
  if (modeCount =? 0)%nat then Throw (Error "mode requires at last one data point")
  else Ret mode.

End Descriptive.

(** ** Two-sample t-test (tTestTwoSample) *)

Module TTest.
Import Descriptive.

Section Math.
Context (Math_sqrt : num → num) (Math_pow : num → num → num).

(** The statistic for samples of sizes [n] and [m] with the given means
    and sample variances, under the hypothesized difference [d]: the
    closed form that [tTestTwoSample] evaluates. *)
Definition t_statistic (n m : nat) (meanX meanY varX varY d : num) : num :=
  Binary64.div (Binary64.sub (Binary64.sub meanX meanY) d)
       (Math_sqrt
          (Binary64.mul (Binary64.div (Binary64.add (Binary64.mul (nofZ (Z.of_nat n - 1)) varX)
                            (Binary64.mul (nofZ (Z.of_nat m - 1)) varY))
                      (nofZ (Z.of_nat n + Z.of_nat m - 2)))
                (Binary64.add (Binary64.div (Fin 1) (nofnat n)) (Binary64.div (Fin 1) (nofnat m))))).

(** [difference] is [None] when the argument is omitted.  The function
    answers [null] ([None]) or a number; every intermediate result is a
    number, so the [typeof] guard before the final formula holds. *)
Definition tTestTwoSample (sampleX sampleY : list val)
    (difference : option num) : result (option num) :=
  let n := length sampleX in
  let m := length sampleY in
  if (n =? 0)%nat || (m =? 0)%nat then Ret None
  else
    let difference :=
      match difference with
      | None => Fin 0
      | Some d => if num_falsy d then Fin 0 else d
      end in
    meanX ← mean sampleX;
    meanY ← mean sampleY;
    sampleVarianceX ← sampleVariance Math_pow sampleX;
    sampleVarianceY ← sampleVariance Math_pow sampleY;
    let weightedVariance :=
      Binary64.div (Binary64.add (Binary64.mul (nofZ (Z.of_nat n - 1)) sampleVarianceX)
                 (Binary64.mul (nofZ (Z.of_nat m - 1)) sampleVarianceY))
           (nofZ (Z.of_nat n + Z.of_nat m - 2)) in
    Ret (Some
           (Binary64.div (Binary64.sub (Binary64.sub meanX meanY) difference)
                 (Math_sqrt
                    (Binary64.mul weightedVariance
                          (Binary64.add (Binary64.div (Fin 1) (nofnat n))
                                (Binary64.div (Fin 1) (nofnat m))))))).
End Math.
End TTest.

(** ** Factorial and gamma *)

Module Gamma.
Import Binary64.

Definition nfloor (a : num) : num :=
  match a with Fin x => nofZ (Qfloor x) | _ => a end.

(** The loop [for (i = 2; i <= n; i++) accumulator *= i].  From [2 ^ 53]
    on [i++] leaves [i] as it is, so for such [n], and for [Infinity], the
    loop does not end. *)
Fixpoint factorial_loop (fuel : nat) (n i accumulator : num) : result num :=
  match fuel with
  | O => OutOfFuel
  | S fuel' =>
      if nle i n
      then factorial_loop fuel' n (add i (Fin 1)) (mul accumulator i)
      else Ret accumulator
  end.

Definition factorial (fuel : nat) (n : num) : result num :=
  if nlt n (Fin 0) then Throw (Error "factorial requires a non-negative value")
  else if negb (neq (nfloor n) n) then
    Throw (Error "factorial requires an integer input")
  else factorial_loop fuel n (Fin 2) (Fin 1).

Section Math.
Context (Math_PI Math_E : num) (Math_sin Math_sqrt : num → num)
        (Math_pow : num → num → num).

Definition nemes (n : num) : num :=
  let seriesCoefficient :=
    mul (Math_pow (div n Math_E) n)
        (Math_sqrt (mul (mul (Fin 2) Math_PI) (add n (div (Fin 1) (Fin 6))))) in
  let seriesDenom := add n (div (Fin 1) (Fin 4)) in
  let term (a b : Z) (e : Z) :=
    div (div (nofZ a) (nofZ b)) (Math_pow seriesDenom (nofZ e)) in
  let seriesExpansion :=
    add (add (sub (sub (sub (add (Fin 1) (term 1 144 2))
                            (term 1 12960 3))
                       (term 257 207360 4))
                  (term 52 2612736 5))
             (term 5741173 9405849600 6))
        (term 37529 18811699200 7) in
  mul seriesCoefficient seriesExpansion.

(** [fuel] bounds the turns of the loop of [factorial] and the depth of the
    reflection-formula recursion. *)
Fixpoint gamma (fuel : nat) (n : num) : result num :=
  if isInteger n then
    if nle n (Fin 0) then Ret NaN else factorial fuel (sub n (Fin 1))
  else
    match fuel with
    | O => OutOfFuel
    | S fuel' =>
        let n := sub n (Fin 1) in
        if nlt n (Fin 0) then
          g ← gamma fuel' (nneg n);
          Ret (div Math_PI (mul (Math_sin (mul Math_PI (nneg n))) g))
        else Ret (nemes n)
    end.
End Math.

(** [n!] as an integer. *)
Fixpoint zfact (n : nat) : Z :=
  match n with
  | O => 1
  | S k => Z.of_nat n * zfact k
  end.

(** The product [2 * 3 * ... * n] in the floats of the kernel, in the order
    of the loop of [factorial]. *)
Fixpoint kernel_product (todo : nat) (i : Z) (accumulator : PrimFloat.float)
  : PrimFloat.float :=
  match todo with
  | O => accumulator
  | S todo' =>
      kernel_product todo' (i + 1) (PrimFloat.mul accumulator (float_of_Z i))
  end.
End Gamma.

(** ** Shuffling and the permutation test *)

Module Permutation.
Import Descriptive.

Section Random.
(** A randomness source is a function on the state [RS] of the generators
    that returns the next draw; [Math_random] is the global one. *)
Context {RS : Type} (Math_random : RS → Q * RS).

(** The loop of [shuffleInPlace]; [todo] is the local [length]. *)
Fixpoint shuffle_loop {A} (randomSource : RS → Q * RS) (todo : nat)
    (x : jsarr A) (rs : RS) : jsarr A * RS :=
  match todo with
  | O => (x, rs)
  | S todo' =>
      let '(r, rs') := randomSource rs in
      let index := Qfloor (r * qofZ (Z.of_nat todo)) in
      let length := Z.of_nat todo' in
      let temporary := arr_get x length in
      let x1 := arr_set x length (arr_get x index) in
      let x2 := arr_set x1 index temporary in
      shuffle_loop randomSource todo' x2 rs'
  end.

Definition shuffleInPlace {A} (x : jsarr A)
    (randomSource : option (RS → Q * RS)) (rs : RS) : jsarr A * RS :=
  let randomSource := default Math_random randomSource in
  shuffle_loop randomSource (Z.to_nat (len x)) x rs.

Definition shuffle {A} (x : jsarr A) (randomSource : option (RS → Q * RS))
    (rs : RS) : jsarr A * RS :=
  shuffleInPlace (arr_copy x) randomSource rs.

Definition sample {A} (x : jsarr A) (n : Z)
    (randomSource : option (RS → Q * RS)) (rs : RS) : jsarr A * RS :=
  let '(shuffled, rs') := shuffle x randomSource rs in
  (arr_slice shuffled 0 n, rs').

(** The selector values that [permutationTest] lets through. *)
Definition accepted_alternatives : list string :=
  ["two_side"; "greater"; "less"]%string.

Definition alternative_error : error :=
  Error "`alternative` must be either 'two_side', 'greater', or 'less'.".

(** The loop that fills [testStatDsn]; the statistics are collected in
    order. *)
Fixpoint perm_loop (randomSource : option (RS → Q * RS)) (todo : nat)
    (allData : jsarr num) (midIndex : Z) (rs : RS)
  : result (list num * RS) :=
  match todo with
  | O => Ret ([], rs)
  | S todo' =>
      let '(allData', rs') := shuffleInPlace allData randomSource rs in
      let permLeft := arr_slice allData' 0 midIndex in
      let permRight := arr_slice allData' midIndex (len allData') in
      meanLeft ← mean (arr_to_list permLeft);
      meanRight ← mean (arr_to_list permRight);
      let permTestStatistic := nsub meanLeft meanRight in
      '(rest, rs'') ← perm_loop randomSource todo' allData' midIndex rs';
      Ret (permTestStatistic :: rest, rs'')
  end.

(** The counting loops run [i] from 0 to [k] inclusive; [testStatDsn[k]]
    is [undefined]. *)
Definition count_extreme (extreme : num → bool) (testStatDsn : list num)
  : nat :=
  length
    (filter (fun i => extreme (to_num (testStatDsn !! i)) = true)
            (seq 0 (S (length testStatDsn)))).

Definition permutationTest (sampleX sampleY : list val)
    (alternative : option string) (k : option Z)
    (randomSource : option (RS → Q * RS)) (rs : RS)
  : result (num * RS) :=
  let k := default 10000 k in
  let alternative := default "two_side"%string alternative in
  if negb (String.eqb alternative "two_side")
     && negb (String.eqb alternative "greater")
     && negb (String.eqb alternative "less")
  then Throw alternative_error
  else
    meanX ← mean sampleX;
    meanY ← mean sampleY;
    let testStatistic := nsub meanX meanY in
    if k <? 0 then Throw (RangeError "Invalid array length")
    else
      let allData := arr_of_list (sampleX ++ sampleY) in
      let midIndex := len allData / 2 in
      '(testStatDsn, rs') ←
        perm_loop randomSource (Z.to_nat k) allData midIndex rs;
      let numExtremeTStats :=
        if String.eqb alternative "two_side" then
          count_extreme
            (fun t => nge (nabs t) (nabs testStatistic)) testStatDsn
        else if String.eqb alternative "greater" then
          count_extreme (fun t => nge t testStatistic) testStatDsn
        else
          count_extreme (fun t => nle t testStatistic) testStatDsn in
      Ret (ndiv (nofnat numExtremeTStats) (nofZ k), rs').
End Random.
End Permutation.

(** ** Quantiles: quickselect on a shared store *)

Module Quantile.

(** Arrays live in a store; a variable that holds an array holds its
    location, so two variables may name the same array. *)
Definition loc := positive.
Abbreviation heap := (gmap loc (jsarr num)).

Definition M (A : Type) : Type := heap → result A * heap.

Definition ret {A} (a : A) : M A := fun h => (Ret a, h).
Definition throw {A} (e : error) : M A := fun h => (Throw e, h).
Definition out_of_fuel {A} : M A := fun h => (OutOfFuel, h).

Definition seq_bind {A B} (m : M A) (k : A → M B) : M B := fun h =>
  match m h with
  | (Ret a, h') => k a h'
  | (Throw e, h') => (Throw e, h')
  | (OutOfFuel, h') => (OutOfFuel, h')
  end.

Global Instance M_ret : MRet M := @ret.
Global Instance M_bind : MBind M := fun A B k m => seq_bind m k.

Definition not_an_array : error :=
  TypeError "Cannot read properties of undefined".

(** [arr[i]] *)
Definition load (arr : loc) (i : Z) : M val := fun h =>
  match h !! arr with
  | Some a => (Ret (arr_get a i), h)
  | None => (Throw not_an_array, h)
  end.

(** [arr[i] = v] *)
Definition store (arr : loc) (i : Z) (v : val) : M unit := fun h =>
  match h !! arr with
  | Some a => (Ret tt, <[arr := arr_set a i v]> h)
  | None => (Throw not_an_array, h)
  end.

(** [arr.length] *)
Definition length_of (arr : loc) : M Z := fun h =>
  match h !! arr with
  | Some a => (Ret (len a), h)
  | None => (Throw not_an_array, h)
  end.

(** The whole array, for functions that only read it. *)
Definition read (arr : loc) : M (jsarr num) := fun h =>
  match h !! arr with
  | Some a => (Ret a, h)
  | None => (Throw not_an_array, h)
  end.

(** [x.slice()]: a new array at a location not yet in use. *)
Definition slice_copy (x : loc) : M loc := fun h =>
  match h !! x with
  | Some a => let l := fresh (dom h) in (Ret l, <[l := arr_copy a]> h)
  | None => (Throw not_an_array, h)
  end.

Definition vlt (a b : val) : bool := nlt (to_num a) (to_num b).
Definition vgt (a b : val) : bool := vlt b a.

(** [idx] is the product [x.length * p] as the language computes it, in
    doubles; [idx % 1 !== 0] asks whether that double is an integer. *)
Definition quantileSorted (x : jsarr num) (p : Q) : result val :=
  let idx := Binary64.times (qofZ (len x)) p in
  if len x =? 0 then Throw (Error "quantile requires at least one data point.")
  else if qlt p 0 || qlt 1 p then Throw (Error "quantiles must be between 0 and 1")
  else if qeq p 1 then Ret (arr_get x (len x - 1))
  else if qeq p 0 then Ret (arr_get x 0)
  else if negb (q_is_int idx) then Ret (arr_get x (Qceiling idx - 1))
  else if Z.even (len x) then
    Ret (VNum (Binary64.div
                 (Binary64.add (to_num (arr_get x (Qfloor idx - 1)))
                               (to_num (arr_get x (Qfloor idx))))
                 (Fin 2)))
  else Ret (arr_get x (Qfloor idx)).

Definition quantileIndex (len : Z) (p : Q) : Q :=
  let idx := Binary64.times (qofZ len) p in
  if qeq p 1 then qofZ (len - 1)
  else if qeq p 0 then 0%Q
  else if negb (q_is_int idx) then qofZ (Qceiling idx - 1)
  else if Z.even len then Binary64.minus idx (1 # 2)
  else idx.

Definition swap (arr : loc) (i j : Z) : M unit :=
  tmp ← load arr i;
  v ← load arr j;
  _ ← store arr i v;
  store arr j tmp.

(** [while (arr[i] < t) i++] *)
Fixpoint scan_up (fuel : nat) (arr : loc) (t : val) (i : Z) : M Z :=
  match fuel with
  | O => out_of_fuel
  | S fuel' =>
      v ← load arr i;
      if vlt v t then scan_up fuel' arr t (i + 1) else ret i
  end.

(** [while (arr[j] > t) j--] *)
Fixpoint scan_down (fuel : nat) (arr : loc) (t : val) (j : Z) : M Z :=
  match fuel with
  | O => out_of_fuel
  | S fuel' =>
      v ← load arr j;
      if vgt v t then scan_down fuel' arr t (j - 1) else ret j
  end.

(** [while (i < j) { swap(arr, i, j); i++; j--; ... }] *)
Fixpoint partition_loop (fuel : nat) (arr : loc) (t : val) (i j : Z)
  : M (Z * Z) :=
  match fuel with
  | O => out_of_fuel
  | S fuel' =>
      if i <? j then
        _ ← swap arr i j;
        i' ← scan_up fuel' arr t (i + 1);
        j' ← scan_down fuel' arr t (j - 1);
        partition_loop fuel' arr t i' j'
      else ret (i, j)
  end.

(** [right || arr.length - 1] *)
Definition right_or_last (arr : loc) (right : Z) : M Z :=
  if right =? 0 then n ← length_of arr; ret (n - 1) else ret right.

Section Math.
Context (Math_log Math_exp Math_sqrt : Q → Q).

(** The bounds of the Floyd-Rivest sampling step. *)
Definition sample_bounds (k left right : Z) : Z * Z :=
  let n := qofZ (right - left + 1) in
  let m := qofZ (k - left + 1) in
  let z := Math_log n in
  let s := qmul (1 # 2) (Math_exp (qdiv (qmul 2 z) 3)) in
  let sd0 := qmul (1 # 2) (Math_sqrt (qdiv (qmul (qmul z s) (qsub n s)) n)) in
  let sd := if qlt (qsub m (qdiv n 2)) 0 then qmul sd0 (-1) else sd0 in
  let newLeft :=
    Z.max left (Qfloor (qadd (qsub (qofZ k) (qdiv (qmul m s) n)) sd)) in
  let newRight :=
    Z.min right
          (Qfloor (qadd (qadd (qofZ k) (qdiv (qmul (qsub n m) s) n)) sd)) in
  (newLeft, newRight).

(** The [while (right > left)] loop of [quickselect]; the nested call
    re-enters it after the defaulting of [right]. *)
Fixpoint quickselect_loop (fuel : nat) (arr : loc) (k left right : Z)
  : M unit :=
  match fuel with
  | O => out_of_fuel
  | S fuel' =>
      if left <? right then
        _ ← (if 600 <? right - left then
               let '(newLeft, newRight) := sample_bounds k left right in
               newRight' ← right_or_last arr newRight;
               quickselect_loop fuel' arr k newLeft newRight'
             else ret tt);
        t ← load arr k;
        _ ← swap arr left k;
        ar ← load arr right;
        _ ← (if vgt ar t then swap arr left right else ret tt);
        '(i, j) ← partition_loop fuel' arr t left right;
        al ← load arr left;
        j' ← (if veq al t then _ ← swap arr left j; ret j
              else _ ← swap arr (j + 1) right; ret (j + 1));
        let left' := if j' <=? k then j' + 1 else left in
        let right' := if k <=? j' then j' - 1 else right in
        quickselect_loop fuel' arr k left' right'
      else ret tt
  end.

(** [left || 0] leaves an integer as it is. *)
Definition quickselect (fuel : nat) (arr : loc) (k left right : Z) : M unit :=
  right' ← right_or_last arr right;
  quickselect_loop fuel arr k left right'.

Definition quantileSelect (fuel : nat) (arr : loc) (k : Q) (left right : Z)
  : M unit :=
  if q_is_int k then quickselect fuel arr (Qfloor k) left right
  else
    let k := Qfloor k in
    _ ← quickselect fuel arr k left right;
    quickselect fuel arr (k + 1) (k + 1) right.

(** The work stack of [multiQuantileSelect] holds index pairs [(l, r)];
    [l < m < r] are positions of [indices]. *)
Fixpoint multi_loop (fuel : nat) (arr : loc) (indices : list Q)
    (stack : list (Z * Z)) : M unit :=
  match fuel with
  | O => out_of_fuel
  | S fuel' =>
      match stack with
      | [] => ret tt
      | (l, r) :: stack' =>
          if r - l <=? 1 then multi_loop fuel' arr indices stack'
          else
            let m := (l + r) / 2 in
            let at_ i := nth (Z.to_nat i) indices 0%Q in
            _ ← quantileSelect fuel' arr (at_ m)
                  (Qfloor (at_ l)) (Qceiling (at_ r));
            multi_loop fuel' arr indices ((m, r) :: (l, m) :: stack')
      end
  end.

Definition multiQuantileSelect (fuel : nat) (arr : loc) (p : list Q)
  : M unit :=
  n ← length_of arr;
  let indices :=
    js_sort (fun a b => qsub a b)
      ([0%Q] ++ map (quantileIndex n) p ++ [qofZ (n - 1)]) in
  multi_loop fuel arr indices [(0, Z.of_nat (length indices) - 1)].

(** [p] is a number or an array of numbers. *)
Inductive parg := PNum (p : Q) | PArr (ps : list Q).
Inductive qres := QNum (v : val) | QArr (vs : list val).

Definition lift {A} (r : result A) : M A := fun h => (r, h).

Fixpoint quantiles_sorted (copy : jsarr num) (ps : list Q) : result (list val) :=
  match ps with
  | [] => Ret []
  | p :: ps' =>
      v ← quantileSorted copy p;
      vs ← quantiles_sorted copy ps';
      Ret (v :: vs)
  end.

Definition quantile (fuel : nat) (x : loc) (p : parg) : M qres :=
  copy ← slice_copy x;
  match p with
  | PArr ps =>
      _ ← multiQuantileSelect fuel copy ps;
      sorted ← read copy;
      results ← lift (quantiles_sorted sorted ps);
      ret (QArr results)
  | PNum p =>
      n ← length_of copy;
      let idx := quantileIndex n p in
      _ ← quantileSelect fuel copy idx 0 (n - 1);
      sorted ← read copy;
      v ← lift (quantileSorted sorted p);
      ret (QNum v)
  end.

(** [+quantile(x, 0.5)] *)
Definition median (fuel : nat) (x : loc) : M num :=
  r ← quantile fuel x (PNum (1 # 2));
  match r with
  | QNum v => ret (to_num v)
  | QArr _ => ret NaN
  end.
End Math.
(** [frame x m]: running [m] leaves the array at [x] as it was, whatever
    the outcome. *)
Definition frame {A} (x : loc) (m : M A) : Prop :=
  ∀ h : heap, (m h).2 !! x = h !! x.

(** *** The quantile of a sorted sample as the specification words it

    The wording names "the element at the ceiling index", "the element at
    that index and its successor" and "that element" without saying from
    where indices count.  [base] is the index of the first element: 0 reads
    the words as indices of the array, 1 as positions counted from one. *)
Definition element_at (base : Z) (x : list num) (i : Z) : val :=
  if i - base <? 0 then None else x !! Z.to_nat (i - base).

Definition quantileSorted_spec (base : Z) (x : list num) (p : Q) : val :=
  let n := Z.of_nat (length x) in
  let idx := Binary64.times (qofZ n) p in
  if qeq p 0 then x !! 0%nat
  else if qeq p 1 then x !! (length x - 1)%nat
  else if negb (q_is_int idx) then element_at base x (Qceiling idx)
  else if Z.even n then
    Some (Binary64.div
            (Binary64.add (to_num (element_at base x (Qfloor idx)))
                          (to_num (element_at base x (Qfloor idx + 1))))
            (Fin 2))
  else element_at base x (Qfloor idx).

(** *** Stores used in the statements: the sample at location 1 *)
Definition store_of (sample : list Q) : heap :=
  {[ 1%positive := arr_of_list (map vnum sample) ]}.

Definition deciles_example : list Q := [3; 6; 7; 8; 8; 9; 10; 13; 15; 16; 20]%Q.

(** The sorted sample [0, 1, ..., n - 1]. *)
Definition first_integers (n : nat) : list num := map nofnat (seq 0 n).
Definition median_example : list Q := [10; 2; 5; 100; 2; 1]%Q.

End Quantile.

(** ** Chi-squared goodness of fit *)

Module ChiSquared.
Import Descriptive.

(** The significance levels that key every row of the table. *)
Definition significance_levels : list Q :=
  [0.995; 0.99; 0.975; 0.95; 0.9; 0.5; 0.1; 0.05; 0.025; 0.01; 0.005]%Q.

(** [chiSquaredDistributionTable]: for each number of degrees of freedom,
    the critical values at the levels of [significance_levels], in that
    order. *)
Definition chiSquaredDistributionTable : list (Z * list Q) :=
  [
    (1%Z, [0; 0; 0; 0; 0.02; 0.45; 2.71; 3.84; 5.02; 6.63; 7.88]);
    (2%Z, [0.01; 0.02; 0.05; 0.1; 0.21; 1.39; 4.61; 5.99; 7.38; 9.21; 10.6]);
    (3%Z, [0.07; 0.11; 0.22; 0.35; 0.58; 2.37; 6.25; 7.81; 9.35; 11.34; 12.84]);
    (4%Z, [0.21; 0.3; 0.48; 0.71; 1.06; 3.36; 7.78; 9.49; 11.14; 13.28; 14.86]);
    (5%Z, [0.41; 0.55; 0.83; 1.15; 1.61; 4.35; 9.24; 11.07; 12.83; 15.09; 16.75]);
    (6%Z, [0.68; 0.87; 1.24; 1.64; 2.2; 5.35; 10.65; 12.59; 14.45; 16.81; 18.55]);
    (7%Z, [0.99; 1.25; 1.69; 2.17; 2.83; 6.35; 12.02; 14.07; 16.01; 18.48; 20.28]);
    (8%Z, [1.34; 1.65; 2.18; 2.73; 3.49; 7.34; 13.36; 15.51; 17.53; 20.09; 21.96]);
    (9%Z, [1.73; 2.09; 2.7; 3.33; 4.17; 8.34; 14.68; 16.92; 19.02; 21.67; 23.59]);
    (10%Z, [2.16; 2.56; 3.25; 3.94; 4.87; 9.34; 15.99; 18.31; 20.48; 23.21; 25.19]);
    (11%Z, [2.6; 3.05; 3.82; 4.57; 5.58; 10.34; 17.28; 19.68; 21.92; 24.72; 26.76]);
    (12%Z, [3.07; 3.57; 4.4; 5.23; 6.3; 11.34; 18.55; 21.03; 23.34; 26.22; 28.3]);
    (13%Z, [3.57; 4.11; 5.01; 5.89; 7.04; 12.34; 19.81; 22.36; 24.74; 27.69; 29.82]);
    (14%Z, [4.07; 4.66; 5.63; 6.57; 7.79; 13.34; 21.06; 23.68; 26.12; 29.14; 31.32]);
    (15%Z, [4.6; 5.23; 6.27; 7.26; 8.55; 14.34; 22.31; 25; 27.49; 30.58; 32.8]);
    (16%Z, [5.14; 5.81; 6.91; 7.96; 9.31; 15.34; 23.54; 26.3; 28.85; 32; 34.27]);
    (17%Z, [5.7; 6.41; 7.56; 8.67; 10.09; 16.34; 24.77; 27.59; 30.19; 33.41; 35.72]);
    (18%Z, [6.26; 7.01; 8.23; 9.39; 10.87; 17.34; 25.99; 28.87; 31.53; 34.81; 37.16]);
    (19%Z, [6.84; 7.63; 8.91; 10.12; 11.65; 18.34; 27.2; 30.14; 32.85; 36.19; 38.58]);
    (20%Z, [7.43; 8.26; 9.59; 10.85; 12.44; 19.34; 28.41; 31.41; 34.17; 37.57; 40]);
    (21%Z, [8.03; 8.9; 10.28; 11.59; 13.24; 20.34; 29.62; 32.67; 35.48; 38.93; 41.4]);
    (22%Z, [8.64; 9.54; 10.98; 12.34; 14.04; 21.34; 30.81; 33.92; 36.78; 40.29; 42.8]);
    (23%Z, [9.26; 10.2; 11.69; 13.09; 14.85; 22.34; 32.01; 35.17; 38.08; 41.64; 44.18]);
    (24%Z, [9.89; 10.86; 12.4; 13.85; 15.66; 23.34; 33.2; 36.42; 39.36; 42.98; 45.56]);
    (25%Z, [10.52; 11.52; 13.12; 14.61; 16.47; 24.34; 34.28; 37.65; 40.65; 44.31; 46.93]);
    (26%Z, [11.16; 12.2; 13.84; 15.38; 17.29; 25.34; 35.56; 38.89; 41.92; 45.64; 48.29]);
    (27%Z, [11.81; 12.88; 14.57; 16.15; 18.11; 26.34; 36.74; 40.11; 43.19; 46.96; 49.65]);
    (28%Z, [12.46; 13.57; 15.31; 16.93; 18.94; 27.34; 37.92; 41.34; 44.46; 48.28; 50.99]);
    (29%Z, [13.12; 14.26; 16.05; 17.71; 19.77; 28.34; 39.09; 42.56; 45.72; 49.59; 52.34]);
    (30%Z, [13.79; 14.95; 16.79; 18.49; 20.6; 29.34; 40.26; 43.77; 46.98; 50.89; 53.67]);
    (40%Z, [20.71; 22.16; 24.43; 26.51; 29.05; 39.34; 51.81; 55.76; 59.34; 63.69; 66.77]);
    (50%Z, [27.99; 29.71; 32.36; 34.76; 37.69; 49.33; 63.17; 67.5; 71.42; 76.15; 79.49]);
    (60%Z, [35.53; 37.48; 40.48; 43.19; 46.46; 59.33; 74.4; 79.08; 83.3; 88.38; 91.95]);
    (70%Z, [43.28; 45.44; 48.76; 51.74; 55.33; 69.33; 85.53; 90.53; 95.02; 100.42; 104.22]);
    (80%Z, [51.17; 53.54; 57.15; 60.39; 64.28; 79.33; 96.58; 101.88; 106.63; 112.33; 116.32]);
    (90%Z, [59.2; 61.75; 65.65; 69.13; 73.29; 89.33; 107.57; 113.14; 118.14; 124.12; 128.3]);
    (100%Z, [67.33; 70.06; 74.22; 77.93; 82.36; 99.33; 118.5; 124.34; 129.56; 135.81; 140.17])
  ]%Q.

Fixpoint table_row (table : list (Z * list Q)) (df : Z) : option (list Q) :=
  match table with
  | [] => None
  | (d, row) :: table' => if d =? df then Some row else table_row table' df
  end.

Fixpoint row_cell (levels row : list Q) (significance : Q) : option Q :=
  match levels, row with
  | l :: levels', v :: row' =>
      if qeq l significance then Some v else row_cell levels' row' significance
  | _, _ => None
  end.

(** [observedFrequencies[d]++] for every datum, creating the entry at 0. *)
Fixpoint count_data (data : list Z) (observed : jsarr num) : jsarr num :=
  match data with
  | [] => observed
  | d :: data' =>
      let observed1 :=
        match arr_get observed d with
        | None => arr_set observed d (Some (Fin 0))
        | Some _ => observed
        end in
      count_data data'
        (arr_set observed1 d (Some (nadd (to_num (arr_get observed1 d)) (Fin 1))))
  end.

(** Gaps of the histogram become 0. *)
Definition fill_gaps (observed : jsarr num) : jsarr num :=
  fold_left
    (fun o i =>
       match arr_get o (Z.of_nat i) with
       | None => arr_set o (Z.of_nat i) (Some (Fin 0))
       | Some _ => o
       end)
    (seq 0 (Z.to_nat (len observed))) observed.

(** [for (k in hypothesizedDistribution)]: the keys of the returned array in
    ascending order; nothing to visit when the function returned
    [undefined]. *)
Fixpoint expected_loop (k : Z) (cells : list num) (dataLength : nat)
    (observed expected : jsarr num) : jsarr num :=
  match cells with
  | [] => expected
  | c :: cells' =>
      expected_loop (k + 1) cells' dataLength observed
        (if arr_has observed k
         then arr_set expected k (Some (nmul c (nofnat dataLength)))
         else expected)
  end.

(** The collapsing loop, [k] running down from [expectedFrequencies.length - 1]
    to 0; [todo] is [k + 1]. *)
Fixpoint collapse_loop (todo : nat) (expected observed : jsarr num)
  : jsarr num * jsarr num :=
  match todo with
  | O => (expected, observed)
  | S k' =>
      let k := Z.of_nat k' in
      if nlt (to_num (arr_get expected k)) (Fin 3) then
        let expected1 :=
          arr_set expected (k - 1)
            (Some (nadd (to_num (arr_get expected (k - 1)))
                        (to_num (arr_get expected k)))) in
        let expected2 := arr_pop expected1 in
        let observed1 :=
          arr_set observed (k - 1)
            (Some (nadd (to_num (arr_get observed (k - 1)))
                        (to_num (arr_get observed k)))) in
        let observed2 := arr_pop observed1 in
        collapse_loop k' expected2 observed2
      else collapse_loop k' expected observed
  end.

(** [Math.pow(d, 2)] *)
Definition pow2 (d : num) : num := nmul d d.

Definition chi_statistic (observed expected : jsarr num) : num :=
  fold_left
    (fun chiSquared i =>
       let k := Z.of_nat i in
       nadd chiSquared
         (ndiv (pow2 (nsub (to_num (arr_get observed k)) (to_num (arr_get expected k))))
               (to_num (arr_get expected k))))
    (seq 0 (Z.to_nat (len observed))) (Fin 0).

(** The two histograms after the collapsing loop. *)
Definition histograms (data : list Z) (cells : option (list num))
  : jsarr num * jsarr num :=
  let observed := fill_gaps (count_data data arr_empty) in
  let expected :=
    expected_loop 0 (default [] cells) (length data) observed arr_empty in
  collapse_loop (Z.to_nat (len expected)) expected observed.

(** [data] holds integers; [distributionType] answers an array of
    probabilities or [undefined]. *)
Definition chiSquaredGoodnessOfFit (data : list Z)
    (distributionType : num → option (list num)) (significance : Q)
  : result bool :=
  inputMean ← mean (map (fun d => Some (nofZ d)) data);
  let c := 1 in
  let hypothesizedDistribution := distributionType inputMean in
  let '(expected, observed) := histograms data hypothesizedDistribution in
  let chiSquared := chi_statistic observed expected in
  let degreesOfFreedom := len observed - c - 1 in
  match table_row chiSquaredDistributionTable degreesOfFreedom with
  | None => Throw (TypeError "Cannot read properties of undefined")
  | Some row =>
      Ret (nlt (to_num (Fin <$> row_cell significance_levels row significance))
               chiSquared)
  end.

(** *** The collapsing step as the specification words it

    Going from the upper end downward, a class whose expected count is
    below 3 is merged into its predecessor, in both histograms.  [classes]
    lists the pairs (expected, observed) from the upper end; [carry] is what
    the classes above have merged into the one at hand.  The lowest class
    has no predecessor and is kept. *)
Fixpoint merge_down (classes : list (Q * Q)) (carry : Q * Q) : list (Q * Q) :=
  match classes with
  | [] => []
  | (e, o) :: below =>
      let merged := (qadd e (fst carry), qadd o (snd carry)) in
      match below with
      | [] => [merged]
      | _ :: _ =>
          if qlt (fst merged) 3 then merge_down below merged
          else merge_down below (0, 0)%Q ++ [merged]
      end
  end.

Definition merge_low_classes (expected observed : list Q) : list (Q * Q) :=
  merge_down (rev (zip expected observed)) (0, 0)%Q.

(** The statistic of merged classes: the sum of [(o - e)^2 / e]. *)
Definition chi_of_classes (classes : list (Q * Q)) : Q :=
  fold_left
    (fun chi '(e, o) => qadd chi (qdiv (qmul (qsub o e) (qsub o e)) e))
    classes 0%Q.

(** *** An input with a sparse class in the middle

    A sample of 100 values with 20, 2, 24, 24 and 30 observations in the
    classes 0 to 4, and a distribution function that answers the
    probabilities 0.2, 0.02, 0.3, 0.3 and 0.18 whatever the mean: the
    expected counts are 20, 2, 30, 30 and 18. *)
Definition sample_counts : list Z :=
  replicate 20 0 ++ replicate 2 1 ++ replicate 24 2 ++ replicate 24 3
    ++ replicate 30 4.

Definition five_classes (inputMean : num) : option (list num) :=
  Some [Fin 0.2; Fin 0.02; Fin 0.3; Fin 0.3; Fin 0.18].

End ChiSquared.

(** ** K-means clustering *)

Module KMeans.
Import Permutation.

(** A point is an array of numbers that is only read. *)
Abbreviation point := (list num).

Definition undefined_read : error :=
  TypeError "Cannot read properties of undefined".

(** [makeMatrix(columns, rows)] *)
Definition makeMatrix (columns rows : Z) : list (list num) :=
  replicate (Z.to_nat columns) (replicate (Z.to_nat rows) (Fin 0)).

Section Math.
Context (Math_sqrt : num → num).
Context {RS : Type} (Math_random : RS → Q * RS).

(** [right] is [None] when the caller indexed past its array. *)
Definition euclideanDistance (left : point) (right : option point)
  : result num :=
  match left, right with
  | _ :: _, None => Throw undefined_read
  | _, _ =>
      let right := default [] right in
      Ret (Math_sqrt
             (fold_left
                (fun sum i =>
                   let diff := Binary64.sub (to_num (left !! i)) (to_num (right !! i)) in
                   Binary64.add sum (Binary64.mul diff diff))
                (seq 0 (length left)) (Fin 0)))
  end.

(** The Euclidean distance of two points of one dimension, said without
    indices: the square root of the squares of the differences of the
    coordinates, added up from 0 in their order, every operation rounded to
    a double. *)
Definition squared_distance (a b : point) : num :=
  fold_left (fun sum d => Binary64.add sum (Binary64.mul d d)) (zip_with Binary64.sub a b) (Fin 0).

Definition distance (a b : point) : num := Math_sqrt (squared_distance a b).

(** The total movement from the centroids [old] to the centroids [new]: the
    distances of the pairs, added up from 0 in their order. *)
Definition movement (new old : list point) : num :=
  fold_left Binary64.add (zip_with distance new old) (Fin 0).

(** The inner loop of [labelPoints] for one point. *)
Fixpoint nearest (p : point) (centroids : list (option point)) (i : Z)
    (minDist : num) (label : Z) : result Z :=
  match centroids with
  | [] => Ret label
  | c :: centroids' =>
      dist ← euclideanDistance p c;
      if nlt dist minDist then nearest p centroids' (i + 1) dist i
      else nearest p centroids' (i + 1) minDist label
  end.

Fixpoint labelPoints (points : list point) (centroids : list (option point))
  : result (list Z) :=
  match points with
  | [] => Ret []
  | p :: points' =>
      label ← nearest p centroids 0 MAX_VALUE (-1);
      labels ← labelPoints points' centroids;
      Ret (label :: labels)
  end.

(** [centroids[label]], [None] when [label] names no row. *)
Definition row_at {A} (rows : list A) (label : Z) : option A :=
  if label <? 0 then None else rows !! Z.to_nat label.

(** [current[j] += point[j]] for [j < dimension]. *)
Definition add_point (dimension : nat) (current pt : point) : point :=
  fold_left
    (fun cur j => <[j := Binary64.add (to_num (cur !! j)) (to_num (pt !! j))]> cur)
    (seq 0 dimension) current.

(** The accumulation loop of [calculateCentroids]; [labels] is what is left
    of the label array, so its head is [labels[i]]. *)
Fixpoint accumulate (dimension : nat) (points : list point) (labels : list Z)
    (centroids : list point) (counts : jsarr num)
  : result (list point * jsarr num) :=
  match points with
  | [] => Ret (centroids, counts)
  | pt :: points' =>
      let label := head labels in
      centroids' ←
        match label ≫= row_at centroids, label with
        | Some current, Some l =>
            Ret (<[Z.to_nat l := add_point dimension current pt]> centroids)
        | _, _ =>
            if (dimension =? 0)%nat then Ret centroids
            else Throw undefined_read
        end;
      let counts' :=
        match label with
        | Some l =>
            arr_set counts l (Some (Binary64.add (to_num (arr_get counts l)) (Fin 1)))
        | None => counts
        end in
      accumulate dimension points' (tail labels) centroids' counts'
  end.

Definition no_friends (i : Z) : error :=
  Error ("Centroid " +:+ pretty i +:+ " has no friends").

(** The rescaling loop of [calculateCentroids]. *)
Fixpoint rescale (i : Z) (centroids : list point) (counts : jsarr num)
  : result (list point) :=
  match centroids with
  | [] => Ret []
  | centroid :: centroids' =>
      let count := to_num (arr_get counts i) in
      if neq count (Fin 0) then Throw (no_friends i)
      else
        rest ← rescale (i + 1) centroids' counts;
        Ret (map (fun x => Binary64.div x count) centroid :: rest)
  end.

Definition calculateCentroids (points : list point) (labels : list Z)
    (numCluster : Z) : result (list point) :=
  match points with
  | [] => Throw undefined_read
  | p0 :: _ =>
      let dimension := length p0 in
      let centroids := makeMatrix numCluster (Z.of_nat dimension) in
      if numCluster <? 0 then Throw (RangeError "Invalid array length")
      else
        let counts :=
          arr_of_list (replicate (Z.to_nat numCluster) (Some (Fin 0))) in
        '(sums, counts') ← accumulate dimension points labels centroids counts;
        rescale 0 sums counts'
  end.

Fixpoint change_loop (left : list point) (right : list (option point))
    (total : num) : result num :=
  match left with
  | [] => Ret total
  | l :: left' =>
      d ← euclideanDistance l (mjoin (head right));
      change_loop left' (tail right) (Binary64.add total d)
  end.

Definition calculateChange (left : list point) (right : list (option point))
  : result num :=
  change_loop left right (Fin 0).

Record kMeansReturn := KMeansReturn {
  labels : list Z; centroids : list point }.

(** The [while (change !== 0)] loop, entered with [change] non-zero. *)
Fixpoint kmeans_loop (fuel : nat) (points : list point) (numCluster : Z)
    (newCentroids : list (option point)) : result kMeansReturn :=
  match fuel with
  | O => OutOfFuel
  | S fuel' =>
      labels ← labelPoints points newCentroids;
      let oldCentroids := newCentroids in
      newCentroids' ← calculateCentroids points labels numCluster;
      change ← calculateChange newCentroids' oldCentroids;
      if negb (neq change (Fin 0))
      then kmeans_loop fuel' points numCluster (map Some newCentroids')
      else Ret (KMeansReturn labels newCentroids')
  end.

Definition kMeansCluster (fuel : nat) (points : list point) (numCluster : Z)
    (randomSource : option (RS → Q * RS)) (rs : RS)
  : result kMeansReturn * RS :=
  let '(newCentroids, rs') :=
    sample Math_random (arr_of_list (map Some points)) numCluster
           (Some (default Math_random randomSource)) rs in
  (kmeans_loop fuel points numCluster (arr_to_list newCentroids), rs').
(** *** What the label of a point says

    [best_so_far dists minDist label]: among the distances [dists] to the
    centroids seen so far, either none is below [Number.MAX_VALUE] and the
    label is still [-1], or [label] is the position of [minDist], which is
    below [Number.MAX_VALUE], no distance is smaller, and no earlier one is as
    small. *)
Definition best_so_far (dists : list num) (minDist : num) (label : Z) : Prop :=
  (label = -1 ∧ minDist = MAX_VALUE
   ∧ Forall (fun d => nlt d MAX_VALUE = false) dists)
  ∨ (0 <= label
     ∧ dists !! Z.to_nat label = Some minDist
     ∧ nlt minDist MAX_VALUE = true
     ∧ (∀ j d, dists !! j = Some d → nlt d minDist = false)
     ∧ (∀ j d, (j < Z.to_nat label)%nat → dists !! j = Some d →
               nle d minDist = false)).

(** *** What a labelling says

    The points that carry the label [i], in the order of [points]. *)
Fixpoint group_of (points : list point) (labels : list Z) (i : Z) : list point :=
  match points, labels with
  | pt :: points', l :: labels' =>
      if l =? i then pt :: group_of points' labels' i
      else group_of points' labels' i
  | _, _ => []
  end.

(** The sum of the coordinate [j] over a group, added up from 0 in order. *)
Definition coordinate_sum (group : list point) (j : nat) : num :=
  fold_left (fun sum pt => Binary64.add sum (to_num (pt !! j))) group (Fin 0).

(** The sums of a group over [dimension] coordinates: a row of the
    accumulator of [calculateCentroids]. *)
Definition sums_of (dimension : nat) (group : list point) : point :=
  map (coordinate_sum group) (seq 0 dimension).

(** The mean of a group over its first [dimension] coordinates. *)
Definition group_mean (dimension : nat) (group : list point) : point :=
  map (fun j => Binary64.div (coordinate_sum group j) (nofnat (length group)))
      (seq 0 dimension).

(** For every label [i] below [k] the accumulator row of [centroids] is the
    sums of the group [G i] and the counter is its size. *)
Definition acc_inv (dimension k : nat) (G : Z → list point)
    (centroids : list point) (counts : jsarr num) : Prop :=
  length centroids = k
  ∧ ∀ i, 0 <= i < Z.of_nat k →
         centroids !! Z.to_nat i = Some (sums_of dimension (G i))
         ∧ arr_get counts i = Some (nofnat (length (G i))).

(** The groups of the labels [from], [from + 1], ..., [count] of them. *)
Fixpoint groups_from (points : list point) (labels : list Z) (from : Z)
    (count : nat) : list (list point) :=
  match count with
  | O => []
  | S count' =>
      group_of points labels from :: groups_from points labels (from + 1) count'
  end.

(** The first label from [from] on whose group is empty. *)
Fixpoint first_starved (from : Z) (groups : list (list point)) : option Z :=
  match groups with
  | [] => None
  | [] :: _ => Some from
  | (_ :: _) :: groups' => first_starved (from + 1) groups'
  end.

(** One turn of the loop that does not end it: the points are labelled by
    their nearest centroid in [cs], the centroids are recomputed, and they
    have moved. *)
Definition lloyd_step (points : list point) (numCluster : Z)
    (cs cs' : list (option point)) : Prop :=
  ∃ labels new change,
    labelPoints points cs = Ret labels
    ∧ calculateCentroids points labels numCluster = Ret new
    ∧ calculateChange new cs = Ret change
    ∧ neq change (Fin 0) = false
    ∧ cs' = map Some new.

(** [n] such turns in a row. *)
Fixpoint lloyd_steps (n : nat) (points : list point) (numCluster : Z)
    (cs cs' : list (option point)) : Prop :=
  match n with
  | O => cs' = cs
  | S n' =>
      ∃ mid, lloyd_step points numCluster cs mid
             ∧ lloyd_steps n' points numCluster mid cs'
  end.
End Math.

(** The square root of a number that is the square of a rational, and a
    rounded-down root otherwise: it stands for [Math.sqrt] where an example is
    run on such numbers. *)
Definition rational_sqrt (a : num) : num :=
  match a with
  | Fin q =>
      if qlt q 0 then NaN
      else Fin (Qred (Z.sqrt (Qnum q) # Pos.sqrt (Qden q)))
  | NaN | NInf => NaN
  | PInf => PInf
  end.

(** A generator that always draws 0. *)
Definition zero_source : unit → Q * unit := fun u => (0%Q, u).
End KMeans.

(** ** Ckmeans: optimal one-dimensional clustering *)

Module Ckmeans.
Import Descriptive.

(** Reads of the arrays of the dynamic programme.  Every index the code
    computes for them lies inside the array whenever
    [1 <= nClusters <= x.length]; the default is what [|| 0] makes of an
    entry that is still 0 or missing. *)
Definition zget {A} (d : A) (l : list A) (i : Z) : A :=
  if i <? 0 then d else default d (l !! Z.to_nat i).

Definition mget {A} (d : A) (m : list (list A)) (r c : Z) : A :=
  zget d (zget [] m r) c.

(** [m[r][c] = v] *)
Definition mset {A} (m : list (list A)) (r c : Z) (v : A) : list (list A) :=
  <[Z.to_nat r := <[Z.to_nat c := v]> (zget [] m r)]> m.

Definition makeMatrix {A} (zero : A) (columns rows : Z) : list (list A) :=
  replicate (Z.to_nat columns) (replicate (Z.to_nat rows) zero).

Fixpoint uniqueCount_loop (x : list Q) (lastSeenValue : Q) (count : Z) : Z :=
  match x with
  | [] => count
  | xi :: x' =>
      if negb (qeq xi lastSeenValue)
      then uniqueCount_loop x' xi (count + 1)
      else uniqueCount_loop x' lastSeenValue count
  end.

Definition uniqueCountSorted (x : list Q) : Z :=
  match x with
  | [] => 0
  | x0 :: x' => uniqueCount_loop x' x0 1
  end.

(** The arithmetic of the sums and costs.  [double] is the arithmetic of
    the language (the values in this function stay far from overflow, which
    is not modelled); [exact] is the arithmetic of the rationals, in which
    the dynamic programme is analysed. *)
Record arithmetic := Arithmetic {
  a_add : Q → Q → Q;
  a_sub : Q → Q → Q;
  a_mul : Q → Q → Q;
  a_div : Q → Q → Q }.

Definition double : arithmetic :=
  Arithmetic (fun a b => Binary64.nearest (a + b))
             (fun a b => Binary64.nearest (a - b))
             (fun a b => Binary64.nearest (a * b))
             (fun a b => Binary64.nearest (a / b)).

Definition exact : arithmetic := Arithmetic qadd qsub qmul qdiv.

Record matrices := Matrices {
  matrix : list (list Q);
  backtrackMatrix : list (list Z) }.

Section Arithmetic.
Context (ar : arithmetic).

Definition ssq (j i : Z) (sums sumsOfSquares : list Q) : Q :=
  let sji :=
    if 0 <? j then
      let muji :=
        a_div ar (a_sub ar (zget 0%Q sums i) (zget 0%Q sums (j - 1))) (qofZ (i - j + 1)) in
      a_sub ar (a_sub ar (zget 0%Q sumsOfSquares i) (zget 0%Q sumsOfSquares (j - 1)))
           (a_mul ar (a_mul ar (qofZ (i - j + 1)) muji) muji)
    else
      a_sub ar (zget 0%Q sumsOfSquares i)
           (a_div ar (a_mul ar (zget 0%Q sums i) (zget 0%Q sums i)) (qofZ (i + 1))) in
  if qlt sji 0 then 0%Q else sji.

(** The loop [for (var j = jhigh; j >= jlow; --j)] of [fillMatrixColumn];
    [todo] bounds the turns that remain. *)
Fixpoint column_loop (todo : nat) (j jlow : Z) (cluster i : Z)
    (sums sumsOfSquares : list Q) (ms : matrices) : matrices :=
  match todo with
  | O => ms
  | S todo' =>
      if j <? jlow then ms
      else
        let sji := ssq j i sums sumsOfSquares in
        if qle (mget 0%Q (matrix ms) cluster i)
               (a_add ar sji (mget 0%Q (matrix ms) (cluster - 1) (jlow - 1)))
        then ms
        else
          let sjlowi := ssq jlow i sums sumsOfSquares in
          let ssqjlow := a_add ar sjlowi (mget 0%Q (matrix ms) (cluster - 1) (jlow - 1)) in
          let ms1 :=
            if qlt ssqjlow (mget 0%Q (matrix ms) cluster i)
            then Matrices (mset (matrix ms) cluster i ssqjlow)
                          (mset (backtrackMatrix ms) cluster i jlow)
            else ms in
          let jlow' := jlow + 1 in
          let ssqj := a_add ar sji (mget 0%Q (matrix ms1) (cluster - 1) (j - 1)) in
          let ms2 :=
            if qlt ssqj (mget 0%Q (matrix ms1) cluster i)
            then Matrices (mset (matrix ms1) cluster i ssqj)
                          (mset (backtrackMatrix ms1) cluster i j)
            else ms1 in
          column_loop todo' (j - 1) jlow' cluster i sums sumsOfSquares ms2
  end.

(** The body of [fillMatrixColumn] at the midpoint [i]: the cell is set to
    the cost of a last cluster of one value, the bounds of [j] are read off
    the neighbouring cells, and the loop runs. *)
Definition fill_cell (iMin iMax cluster i : Z)
    (sums sumsOfSquares : list Q) (ms : matrices) : matrices :=
  let ms0 :=
    Matrices
      (mset (matrix ms) cluster i (mget 0%Q (matrix ms) (cluster - 1) (i - 1)))
      (mset (backtrackMatrix ms) cluster i i) in
  let jlow0 := cluster in
  let jlow1 :=
    if cluster <? iMin
    then Z.max jlow0 (mget 0 (backtrackMatrix ms0) cluster (iMin - 1))
    else jlow0 in
  let jlow := Z.max jlow1 (mget 0 (backtrackMatrix ms0) (cluster - 1) i) in
  let jhigh0 := i - 1 in
  let jhigh :=
    if iMax <? Z.of_nat (length (zget [] (matrix ms0) 0)) - 1
    then Z.min jhigh0 (mget 0 (backtrackMatrix ms0) cluster (iMax + 1))
    else jhigh0 in
  column_loop (Z.to_nat (jhigh - jlow + 1)) jhigh jlow cluster i
    sums sumsOfSquares ms0.

(** [fuel] bounds the depth of the divide-and-conquer recursion. *)
Fixpoint fillMatrixColumn (fuel : nat) (iMin iMax cluster : Z)
    (sums sumsOfSquares : list Q) (ms : matrices) : option matrices :=
  match fuel with
  | O => None
  | S fuel' =>
      if iMax <? iMin then Some ms
      else
        let i := (iMin + iMax) / 2 in
        let ms1 := fill_cell iMin iMax cluster i sums sumsOfSquares ms in
        ms2 ← fillMatrixColumn fuel' iMin (i - 1) cluster sums sumsOfSquares ms1;
        fillMatrixColumn fuel' (i + 1) iMax cluster sums sumsOfSquares ms2
  end.

(** The first loop of [fillMatrices]: prefix sums of the shifted values and
    the row of one cluster. *)
Fixpoint first_row (data : list Q) (shift : Q) (i : Z)
    (sums sumsOfSquares : list Q) (ms : matrices)
  : list Q * list Q * matrices :=
  match data with
  | [] => (sums, sumsOfSquares, ms)
  | d :: data' =>
      let shiftedValue := a_sub ar d shift in
      let sums' :=
        if i =? 0 then sums ++ [shiftedValue]
        else sums ++ [a_add ar (zget 0%Q sums (i - 1)) shiftedValue] in
      let sumsOfSquares' :=
        if i =? 0 then sumsOfSquares ++ [a_mul ar shiftedValue shiftedValue]
        else sumsOfSquares
               ++ [a_add ar (zget 0%Q sumsOfSquares (i - 1))
                        (a_mul ar shiftedValue shiftedValue)] in
      let ms' :=
        Matrices (mset (matrix ms) 0 i (ssq 0 i sums' sumsOfSquares'))
                 (mset (backtrackMatrix ms) 0 i 0) in
      first_row data' shift (i + 1) sums' sumsOfSquares' ms'
  end.

(** The loop over [cluster] of [fillMatrices], [todo] rows left. *)
Fixpoint rows_loop (todo : nat) (cluster nValues : Z)
    (sums sumsOfSquares : list Q) (ms : matrices) : option matrices :=
  match todo with
  | O => Some ms
  | S todo' =>
      let iMin :=
        if cluster <? Z.of_nat (length (matrix ms)) - 1 then cluster
        else nValues - 1 in
      ms' ← fillMatrixColumn (S (Z.to_nat nValues)) iMin (nValues - 1) cluster
              sums sumsOfSquares ms;
      rows_loop todo' (cluster + 1) nValues sums sumsOfSquares ms'
  end.

Definition fillMatrices (data : list Q) (ms : matrices) : option matrices :=
  let nValues := Z.of_nat (length (zget [] (matrix ms) 0)) in
  let shift := zget 0%Q data (nValues / 2) in
  let '(sums, sumsOfSquares, ms0) := first_row data shift 0 [] [] ms in
  rows_loop (length (matrix ms) - 1) 1 nValues sums sumsOfSquares ms0.

End Arithmetic.

(** [sorted.slice(start, stop)] *)
Definition list_slice {A} (l : list A) (start stop : Z) : list A :=
  let n := Z.of_nat (length l) in
  let from := slice_bound n start in
  let upto := slice_bound n stop in
  take (Z.to_nat (upto - from)) (drop (Z.to_nat from) l).

(** The backtracking loop, [cluster] running down to 0; [todo] is
    [cluster + 1] and the clusters found so far are [acc]. *)
Fixpoint backtrack (todo : nat) (clusterRight : Z) (sorted : list Q)
    (back : list (list Z)) (acc : list (list Q)) : list (list Q) :=
  match todo with
  | O => acc
  | S cluster =>
      let clusterLeft := mget 0 back (Z.of_nat cluster) clusterRight in
      let group := list_slice sorted clusterLeft (clusterRight + 1) in
      backtrack cluster
        (if (0 <? cluster)%nat then clusterLeft - 1 else clusterRight)
        sorted back (group :: acc)
  end.

Definition ckmeans (ar : arithmetic) (x : list Q) (nClusters : Z)
  : result (list (list Q)) :=
  if Z.of_nat (length x) <? nClusters then
    Throw (Error "cannot generate more classes than there are data values")
  else
    let sorted := numericSort x in
    let uniqueCount := uniqueCountSorted sorted in
    if uniqueCount =? 1 then Ret [sorted]
    else if nClusters <=? 0 then
      Throw (TypeError "Cannot read properties of undefined")
    else
      let n := Z.of_nat (length sorted) in
      let ms := Matrices (makeMatrix 0%Q nClusters n) (makeMatrix 0 nClusters n) in
      match fillMatrices ar sorted ms with
      | None => OutOfFuel
      | Some ms' =>
          Ret (backtrack (length (backtrackMatrix ms'))
                 (Z.of_nat (length (zget [] (backtrackMatrix ms') 0)) - 1)
                 sorted (backtrackMatrix ms') [])
      end.

End Ckmeans.

(** ** Wilcoxon rank sum (wilcoxonRankSum) *)

Module Wilcoxon.

Inductive label := LX | LY.

Record entry := Entry { e_label : label; e_value : Q; e_rank : Q }.

Definition set_rank (e : entry) (r : Q) : entry :=
  Entry (e_label e) (e_value e) r.

(** [pooledSamples[rank].rank = rank] for every position. *)
Fixpoint init_ranks (rank : Z) (l : list entry) : list entry :=
  match l with
  | [] => []
  | e :: l' => set_rank e (qofZ rank) :: init_ranks (rank + 1) l'
  end.

(** [pooledSamples[r].rank = average]: the index is the stored rank [r];
    an index that names no element makes the assignment throw. *)
Definition assign_rank (pooled : list entry) (r : Q) (average : Q)
  : result (list entry) :=
  if q_is_int r && (0 <=? Qfloor r) then
    match pooled !! Z.to_nat (Qfloor r) with
    | Some e => Ret (<[Z.to_nat (Qfloor r) := set_rank e average]> pooled)
    | None => Throw (TypeError "Cannot set properties of undefined")
    end
  else Throw (TypeError "Cannot set properties of undefined").

Fixpoint assign_ranks (pooled : list entry) (rs : list Q) (average : Q)
  : result (list entry) :=
  match rs with
  | [] => Ret pooled
  | r :: rs' =>
      pooled' ← assign_rank pooled r average;
      assign_ranks pooled' rs' average
  end.

Definition replaceRanksInPlace (pooled : list entry) (tiedRanks : list Q)
  : result (list entry) :=
  match tiedRanks, last tiedRanks with
  | first :: _, Some final =>
      assign_ranks pooled tiedRanks (qdiv (qadd first final) 2)
  | _, _ => Ret pooled
  end.

(** The loop [for (var i = 1; i < pooledSamples.length; i++)]; [todo] counts
    the iterations that remain, [prev] is [pooledSamples[i - 1].value]. *)
Fixpoint tie_loop (todo : nat) (i : nat) (pooled : list entry)
    (tiedRanks : list Q) : result (list entry) :=
  match todo with
  | O => Ret pooled
  | S todo' =>
      match pooled !! i, pooled !! (i - 1)%nat with
      | Some cur, Some prev =>
          if qeq (e_value cur) (e_value prev) then
            let tiedRanks' := tiedRanks ++ [e_rank cur] in
            if (i =? length pooled - 1)%nat then
              pooled' ← replaceRanksInPlace pooled tiedRanks';
              tie_loop todo' (S i) pooled' tiedRanks'
            else tie_loop todo' (S i) pooled tiedRanks'
          else if (1 <? length tiedRanks)%nat then
            pooled' ← replaceRanksInPlace pooled tiedRanks;
            tie_loop todo' (S i) pooled' tiedRanks
          else tie_loop todo' (S i) pooled [e_rank cur]
      | _, _ => Throw (TypeError "Cannot read properties of undefined")
      end
  end.

Definition is_x (e : entry) : bool :=
  match e_label e with LX => true | LY => false end.

Fixpoint rank_sum (pooled : list entry) (rankSum : Q) : Q :=
  match pooled with
  | [] => rankSum
  | e :: l' =>
      rank_sum l' (if is_x e then qadd rankSum (qadd (e_rank e) 1) else rankSum)
  end.

Definition pool (sampleX sampleY : list Q) : list entry :=
  js_sort (fun a b => qsub (e_value a) (e_value b))
    (map (fun x => Entry LX x 0) sampleX ++ map (fun y => Entry LY y 0) sampleY).

(** The ranked pool just before the rank sum is taken. *)
Definition ranked_pool (sampleX sampleY : list Q) : result (list entry) :=
  let pooled := init_ranks 0 (pool sampleX sampleY) in
  match pooled with
  | [] => Throw (TypeError "Cannot read properties of undefined")
  | e0 :: _ => tie_loop (length pooled - 1) 1 pooled [e_rank e0]
  end.

Definition wilcoxonRankSum (sampleX sampleY : list Q) : result Q :=
  if (length sampleX =? 0)%nat || (length sampleY =? 0)%nat then
    Throw (Error "Neither sample can be empty")
  else
    pooled ← ranked_pool sampleX sampleY;
    Ret (rank_sum pooled 0).

End Wilcoxon.

(** ** The optimum of the dynamic programme of ckmeans *)

Module CkOptimum.
Section Optimum.
Context (w : Z → Z → Q).

(** The least of [f lo], [f (lo + 1)], ..., [f (lo + count)]. *)
Fixpoint least (f : Z → Q) (lo : Z) (count : nat) : Q :=
  match count with
  | O => f lo
  | S count' => Qmin (f lo) (least f (lo + 1) count')
  end.

(** [opt q i]: the least cost of cutting the positions [0 .. i] into [q + 1]
    runs, when a run from [j] to [i] costs [w j i]. *)
Fixpoint opt (q : nat) (i : Z) : Q :=
  match q with
  | O => w 0 i
  | S q' =>
      least (fun j => opt q' (j - 1) + w j i)%Q
            (Z.of_nat q) (Z.to_nat (i - Z.of_nat q))
  end.

(** The cost of ending with the run [j .. i] after [q] optimal runs. *)
Definition cost_at (q : nat) (i j : Z) : Q := (opt (q - 1) (j - 1) + w j i)%Q.

(** [j] starts a last run of an optimal cut of [0 .. i] into [q + 1] runs. *)
Definition argmin (q : nat) (i j : Z) : Prop :=
  Z.of_nat q <= j <= i ∧ (cost_at q i j <= opt q i)%Q.
(** One more value costs less with one more cluster: the exchange property
    of the optima of two successive rows, for the values [0..n-1]. *)
Definition exchange (n : Z) (q : nat) : Prop :=
  ∀ t, Z.of_nat (S q) <= t → t + 1 < n →
       (opt (S q) (t + 1) + opt q t <= opt (S q) t + opt q (t + 1))%Q.
End Optimum.
End CkOptimum.

(** ** Invariants of the matrices of ckmeans *)

Module CkInv.
Import Ckmeans CkOptimum.

(** A matrix of [rows] rows of [cols] entries. *)
Definition wf_matrix {A} (rows cols : Z) (m : list (list A)) : Prop :=
  Z.of_nat (length m) = rows
  ∧ Forall (fun row => Z.of_nat (length row) = cols) m.

Definition wf (rows cols : Z) (ms : matrices) : Prop :=
  wf_matrix rows cols (matrix ms) ∧ wf_matrix rows cols (backtrackMatrix ms).

(** The two matrices agree outside the cells [(q, lo)] to [(q, hi)]. *)
Definition same_outside (q lo hi : Z) (ms ms' : matrices) : Prop :=
  ∀ r c, ¬ (r = q ∧ lo <= c <= hi) →
         mget 0%Q (matrix ms') r c = mget 0%Q (matrix ms) r c
         ∧ mget 0 (backtrackMatrix ms') r c = mget 0 (backtrackMatrix ms) r c.

(** What the cell [(q, i)] holds once it is filled: the least cost of
    [q + 1] clusters of the values [0..i], a start of the last cluster that
    attains it, which is [i] only if nothing is strictly better, and which
    is not left of the one the row above chose. *)
Definition cell_ok (w : Z → Z → Q) (q : nat) (i : Z) (ms : matrices) : Prop :=
  let J := mget 0 (backtrackMatrix ms) (Z.of_nat q) i in
  (mget 0%Q (matrix ms) (Z.of_nat q) i == opt w q i)%Q
  ∧ argmin w q i J
  ∧ (J ≠ i → (opt w q i < opt w (q - 1) (i - 1))%Q)
  ∧ mget 0 (backtrackMatrix ms) (Z.of_nat q - 1) i <= J.

(** A finished row, as the row below reads it. *)
Definition row_ok (w : Z → Z → Q) (n : Z) (q : nat) (ms : matrices) : Prop :=
  (∀ i, Z.of_nat q <= i < n →
        (mget 0%Q (matrix ms) (Z.of_nat q) i == opt w q i)%Q)
  ∧ (∀ i, Z.of_nat q <= i < n →
          0 <= mget 0 (backtrackMatrix ms) (Z.of_nat q) i <= i
          ∧ (q = 0%nat → mget 0 (backtrackMatrix ms) (Z.of_nat q) i = 0)
          ∧ ((0 < q)%nat →
             argmin w q i (mget 0 (backtrackMatrix ms) (Z.of_nat q) i)))
  ∧ (∀ i i', Z.of_nat q <= i → i <= i' → i' < n →
             mget 0 (backtrackMatrix ms) (Z.of_nat q) i
             <= mget 0 (backtrackMatrix ms) (Z.of_nat q) i').

(** The loop of [fillMatrixColumn] at the cell [(q, i)], the starts in
    [seen] and [i] itself examined so far. *)
Definition col_inv (w : Z → Z → Q) (q : nat) (i : Z) (seen : Z → Prop)
    (ms : matrices) : Prop :=
  let best := mget 0%Q (matrix ms) (Z.of_nat q) i in
  let J := mget 0 (backtrackMatrix ms) (Z.of_nat q) i in
  (J = i ∨ seen J)
  ∧ (best == cost_at w q i J)%Q
  ∧ (J ≠ i → (best < opt w (q - 1) (i - 1))%Q)
  ∧ (∀ t, t = i ∨ seen t → (best <= cost_at w q i t)%Q).

(** The rows below [c] are filled: row 0 with the cost of one cluster, the
    rows up to the last but one completely, the last row at its last cell;
    the rows from [c] on still hold the zeros of [makeMatrix] in the
    backtrack matrix. *)
Definition rows_inv (w : Z → Z → Q) (rows n c : Z) (ms : matrices) : Prop :=
  wf rows n ms
  ∧ (∀ i, 0 <= i < n →
          (mget 0%Q (matrix ms) 0 i == opt w 0 i)%Q
          ∧ mget 0 (backtrackMatrix ms) 0 i = 0)
  ∧ (∀ q : nat, (0 < q)%nat → Z.of_nat q < c →
       (Z.of_nat q < rows - 1 →
        (∀ i, Z.of_nat q <= i < n → cell_ok w q i ms)
        ∧ (∀ i i', Z.of_nat q <= i → i <= i' → i' < n →
                   mget 0 (backtrackMatrix ms) (Z.of_nat q) i
                   <= mget 0 (backtrackMatrix ms) (Z.of_nat q) i'))
       ∧ (Z.of_nat q = rows - 1 → cell_ok w q (n - 1) ms))
  ∧ (∀ r col, c <= r → mget 0 (backtrackMatrix ms) r col = 0).
End CkInv.

(** ** Sums over segments of the sorted values *)

Module CkCost.
(** The sum of the first [count] values of a sequence. *)
Fixpoint prefix_sum (f : Z → Q) (count : nat) : Q :=
  match count with
  | O => 0
  | S c => prefix_sum f c + f (Z.of_nat c)
  end.

(** The sum of the values at the positions [j..i]. *)
Definition segment_sum (f : Z → Q) (j i : Z) : Q :=
  (prefix_sum f (Z.to_nat (i + 1)%Z) - prefix_sum f (Z.to_nat j))%Q.

(** The sum of squared deviations of the values at [j..i] from their mean,
    written with sums and sums of squares. *)
Definition within (y : Z → Q) (j i : Z) : Q :=
  (segment_sum (fun t => y t * y t) j i
   - segment_sum y j i * segment_sum y j i / inject_Z (i - j + 1)%Z)%Q.

(** The values as [fillMatrices] sums them, shifted by the median. *)
Definition shifted (data : list Q) (shift : Q) (t : Z) : Q :=
  (Ckmeans.zget 0%Q data t - shift)%Q.
End CkCost.

(** ** Within-group sum of squares *)

Module CkSpec.
(** The sum of a list of numbers. *)
Definition list_sum (l : list Q) : Q := foldr Qplus 0%Q l.

Definition list_mean (l : list Q) : Q :=
  (list_sum l / inject_Z (Z.of_nat (length l)))%Q.

(** The within-group sum of squares: the squared deviations of the values
    of a group from the mean of the group. *)
Definition wss (g : list Q) : Q :=
  list_sum (map (fun v => ((v - list_mean g) * (v - list_mean g))%Q) g).

Definition total_wss (groups : list (list Q)) : Q := list_sum (map wss groups).

(** All the values are the same number, and there is one at least. *)
Definition all_same (x : list Q) : bool :=
  match x with
  | [] => false
  | a :: rest => forallb (fun b => qeq b a) rest
  end.
End CkSpec.

(** ** Extremes (min, max, extent) *)

Module Extremes.

Definition min (x : list num) : result num :=
  match x with
  | [] => Throw (Error "min requires at least one data point")
  | x0 :: rest =>
      Ret (fold_left (fun value xi => if nlt xi value then xi else value) rest x0)
  end.

Definition max (x : list num) : result num :=
  match x with
  | [] => Throw (Error "max requires at least one data point")
  | x0 :: rest =>
      Ret (fold_left (fun value xi => if ngt xi value then xi else value) rest x0)
  end.

(** [extent]: the pair is [[min, max]]. *)
Definition extent (x : list num) : result (num * num) :=
  match x with
  | [] => Throw (Error "extent requires at least one data point")
  | x0 :: rest =>
      Ret (fold_left
             (fun '(min, max) xi =>
                let max' := if ngt xi max then xi else max in
                let min' := if nlt xi min then xi else min in
                (min', max'))
             rest (x0, x0))
  end.

End Extremes.

(** ** chunk *)

Module Chunk.
Import Gamma Ckmeans.

(** The loop [for (start = 0; start < x.length; start += chunkSize)], at
    most [todo] turns left. *)
Fixpoint chunk_loop {A} (todo : nat) (x : list A) (start chunkSize : Z)
  : list (list A) :=
  match todo with
  | O => []
  | S todo' =>
      if start <? Z.of_nat (length x)
      then list_slice x start (start + chunkSize)
           :: chunk_loop todo' x (start + chunkSize) chunkSize
      else []
  end.

(** A chunk size that passes both guards is a positive integer or
    [Infinity]; with [Infinity] the first slice takes everything. *)
Definition chunk {A} (x : list A) (chunkSize : num) : result (list (list A)) :=
  if nlt chunkSize (Fin 1) then
    Throw (Error "chunk size must be a positive number")
  else if negb (neq (nfloor chunkSize) chunkSize) then
    Throw (Error "chunk size must be an integer")
  else
    match chunkSize with
    | Fin q => Ret (chunk_loop (length x) x 0 (Qfloor q))
    | _ => Ret (if (0 <? length x)%nat then [x] else [])
    end.
End Chunk.

(** ** Ranks by binary search (quantileRankSorted, quantileRank) *)

Module Rank.
Import Descriptive.

(** [z >>> 1]: the operand is taken modulo [2^32]. *)
Definition ushr1 (z : Z) : Z := Z.shiftr (z mod 2 ^ 32) 1.

(** ToInt32, and [-~z], which is how the code writes [z + 1]. *)
Definition to_int32 (z : Z) : Z := (z + 2 ^ 31) mod 2 ^ 32 - 2 ^ 31.
Definition neg_bitnot (z : Z) : Z := - (- to_int32 z - 1).

(** [x[i]] as a number: a read outside the array gives [undefined], which
    every comparison below treats as [NaN]. *)
Definition at_index (x : list Q) (i : Z) : num :=
  if i <? 0 then NaN
  else match x !! Z.to_nat i with Some q => Fin q | None => NaN end.

Fixpoint lowerBound_loop (fuel : nat) (x : list Q) (value : num) (lo hi : Z)
  : result Z :=
  match fuel with
  | O => OutOfFuel
  | S fuel' =>
      if lo <? hi then
        let mid := ushr1 (lo + hi) in
        if nle value (at_index x mid)
        then lowerBound_loop fuel' x value lo mid
        else lowerBound_loop fuel' x value (neg_bitnot mid) hi
      else Ret lo
  end.

Definition lowerBound (fuel : nat) (x : list Q) (value : num) : result Z :=
  lowerBound_loop fuel x value 0 (Z.of_nat (length x)).

Fixpoint upperBound_loop (fuel : nat) (x : list Q) (value : num) (lo hi : Z)
  : result Z :=
  match fuel with
  | O => OutOfFuel
  | S fuel' =>
      if lo <? hi then
        let mid := ushr1 (lo + hi) in
        if nge value (at_index x mid)
        then upperBound_loop fuel' x value (neg_bitnot mid) hi
        else upperBound_loop fuel' x value lo mid
      else Ret lo
  end.

Definition upperBound (fuel : nat) (x : list Q) (value : num) : result Z :=
  upperBound_loop fuel x value 0 (Z.of_nat (length x)).

Definition quantileRankSorted (fuel : nat) (x : list Q) (value : num)
  : result num :=
  let length := Z.of_nat (length x) in
  if nlt value (at_index x 0) then Ret (Fin 0)
  else if ngt value (at_index x (length - 1)) then Ret (Fin 1)
  else
    l ← lowerBound fuel x value;
    if negb (neq (at_index x l) value) then Ret (ndiv (nofZ l) (nofZ length))
    else
      let l := l + 1 in
      u ← upperBound fuel x value;
      if u =? l then Ret (ndiv (nofZ l) (nofZ length))
      else
        let r := nofZ (u - l + 1) in
        let sum := ndiv (nmul r (nofZ (u + l))) (Fin 2) in
        let mean := ndiv sum r in
        Ret (ndiv mean (nofZ length)).

Definition quantileRank (fuel : nat) (x : list Q) (value : num) : result num :=
  quantileRankSorted fuel (numericSort x) value.

(** How many of the values are below [v], and how many are not above it. *)
Definition count_below (v : Q) (x : list Q) : nat :=
  length (List.filter (fun a => qlt a v) x).
Definition count_upto (v : Q) (x : list Q) : nat :=
  length (List.filter (fun a => qle a v) x).

(** [b] is where [f] turns from true to false along [x]. *)
Definition boundary (f : Q → bool) (x : list Q) (b : nat) : Prop :=
  (b <= length x)%nat
  ∧ (∀ i a, x !! i = Some a → (i < b)%nat → f a = true)
  ∧ (∀ i a, x !! i = Some a → (b <= i)%nat → f a = false).

(** The rank of [v] among the values: the share of values below it when it
    is absent; when it is present, the middle of the positions (counted
    from one) that its occurrences take in sorted order, divided by the
    number of values. *)
Definition rank (v : Q) (x : list Q) : Q :=
  let n := inject_Z (Z.of_nat (length x)) in
  if existsb (qeq v) x
  then inject_Z (Z.of_nat (count_below v x + count_upto v x + 1)) / (2 * n)
  else inject_Z (Z.of_nat (count_below v x)) / n.
End Rank.

(** ** Combinations (combinations, combinationsReplacement) *)

Module Combinations.
Import Ckmeans.

Section Elements.
Context {A : Type}.

(** The loop over [i], with [todo] turns left.  [sub i] is the recursive
    call that turn [i] makes; the inner loop puts [x[i]] in front of each
    of its results and pushes them in order. *)
Fixpoint combinations_loop (sub : Z → result (list (list A))) (x : list A)
    (k : num) (todo : nat) (i : Z) (combinationList : list (list A))
  : result (list (list A)) :=
  match todo with
  | O => Ret combinationList
  | S todo' =>
      match x !! Z.to_nat i with
      | None => Ret combinationList
      | Some xi =>
          if neq k (Fin 1)
          then combinations_loop sub x k todo' (i + 1) (combinationList ++ [[xi]])
          else
            subsetCombinations ← sub i;
            combinations_loop sub x k todo' (i + 1)
              (combinationList ++ map (cons xi) subsetCombinations)
      end
  end.

(** [fuel] bounds the depth of the recursion. *)
Fixpoint combinations (fuel : nat) (x : list A) (k : num)
  : result (list (list A)) :=
  match fuel with
  | O => OutOfFuel
  | S fuel' =>
      combinations_loop
        (fun i => combinations fuel'
                    (list_slice x (i + 1) (Z.of_nat (length x)))
                    (nsub k (Fin 1)))
        x k (length x) 0 []
  end.

Fixpoint combinationsReplacement (fuel : nat) (x : list A) (k : num)
  : result (list (list A)) :=
  match fuel with
  | O => OutOfFuel
  | S fuel' =>
      combinations_loop
        (fun i => combinationsReplacement fuel'
                    (list_slice x i (Z.of_nat (length x)))
                    (nsub k (Fin 1)))
        x k (length x) 0 []
  end.
(** What the loop of [combinations] builds, turn by turn. *)
Fixpoint choose (x : list A) (k : Z) : list (list A) :=
  match x with
  | [] => []
  | xi :: rest =>
      (if k =? 1 then [[xi]] else map (cons xi) (choose rest (k - 1)))
      ++ choose rest k
  end.

(** What the loop of [combinationsReplacement] builds for [k >= 1]. *)
Fixpoint multichoose (k : nat) (x : list A) : list (list A) :=
  match k with
  | O => []
  | S k' =>
      (fix go (s : list A) : list (list A) :=
         match s with
         | [] => []
         | xi :: rest =>
             (match k' with
              | O => [[xi]]
              | S _ => map (cons xi) (multichoose k' s)
              end) ++ go rest
         end) x
  end.

(** The array with every element written [k] times in a row. *)
Definition each_times (k : nat) (x : list A) : list A :=
  concat (map (replicate k) x).

End Elements.

(** Pascal's triangle. *)
Fixpoint binomial (n k : nat) : nat :=
  match k, n with
  | O, _ => 1
  | S _, O => 0
  | S k', S n' => binomial n' k' + binomial n' k
  end.
End Combinations.

(** ** Sampling with replacement (sampleWithReplacement) *)

Module Sampling.

Section Random.
Context {RS : Type} (Math_random : RS → Q * RS).

(** [x[index]]: [undefined] outside the array. *)
Definition item {A} (x : list A) (index : Z) : option A :=
  if index <? 0 then None else x !! Z.to_nat index.

(** The loop over [i]; [todo] is [n - i] and the sample is built in order. *)
Fixpoint sample_loop {A} (randomSource : RS → Q * RS) (todo : nat)
    (x : list A) (rs : RS) : list (option A) * RS :=
  match todo with
  | O => ([], rs)
  | S todo' =>
      let '(r, rs') := randomSource rs in
      let index := Qfloor (r * qofZ (Z.of_nat (length x))) in
      let '(sample, rs'') := sample_loop randomSource todo' x rs' in
      (item x index :: sample, rs'')
  end.

Definition sampleWithReplacement {A} (x : list A) (n : Z)
    (randomSource : option (RS → Q * RS)) (rs : RS)
  : list (option A) * RS :=
  if (length x =? 0)%nat then ([], rs)
  else
    let randomSource := default Math_random randomSource in
    sample_loop randomSource (Z.to_nat n) x rs.
End Random.

(** A source of draws that keeps to the range [0, 1). *)
Definition in_unit_range {RS} (randomSource : RS → Q * RS) : Prop :=
  ∀ rs, (0 <= (randomSource rs).1 < 1)%Q.

(** Exchanging the indices [i] and [j]. *)
Definition exchange (i j k : nat) : nat :=
  if decide (k = i) then j else if decide (k = j) then i else k.

(** A counter as the state of the generator, every draw one half. *)
Definition half_source (rs : nat) : Q * nat := ((1 # 2)%Q, S rs).
End Sampling.

(** ** Samples without ties *)

Module Ties.

(** No value occurs twice. *)
Definition distinct_values (l : list Q) : Prop :=
  ∀ v, (length (List.filter (qeq v) l) <= 1)%nat.

(** The same, as a test. *)
Fixpoint distinctb (l : list Q) : bool :=
  match l with
  | [] => true
  | a :: l' => forallb (fun c => negb (qeq a c)) l' && distinctb l'
  end.

(** One plus the number of pooled values below [v]: the rank of [v] in a
    pool without ties. *)
Definition rank_in (pooled : list Q) (v : Q) : Q :=
  (1 + inject_Z (Z.of_nat (Rank.count_below v pooled)))%Q.
End Ties.

(** ** Extremes of a sorted array (minSorted, maxSorted, extentSorted) *)

Module SortedExtremes.

Definition minSorted (x : list num) : val := x !! 0%nat.

(** [x[x.length - 1]]; the index is [-1] on an empty array. *)
Definition maxSorted (x : list num) : val :=
  match x with
  | [] => VUndef
  | _ => x !! (length x - 1)%nat
  end.

Definition extentSorted (x : list num) : val * val :=
  (minSorted x, maxSorted x).
End SortedExtremes.

(** ** The values of an array, each once *)

Module Values.

Fixpoint values_of (l : list Q) : list Q :=
  match l with
  | [] => []
  | a :: l' => if existsb (qeq a) l' then values_of l' else a :: values_of l'
  end.
End Values.

(** ** How often a value occurs *)

Module Frequency.
Import Descriptive.

Definition occurrences (v : Q) (l : list Q) : nat :=
  length (List.filter (qeq v) l).

(** What the loop of [modeSorted] knows after the prefix [P] of a sorted
    array: the value of the run it is in and its length so far, and among
    the values of the finished runs the least of the most frequent ones. *)
Definition mode_inv (P : list Q) (st : mode_state) : Prop :=
  ∃ l, ms_last st = vnum l ∧ l ∈ P
       ∧ (∀ v, v ∈ P → (v <= l)%Q)
       ∧ ms_seenThis st = occurrences l P
       ∧ ((ms_maxSeen st = 0%nat ∧ ms_value st = VNum NaN
           ∧ ∀ v, v ∈ P → (v == l)%Q)
          ∨ ∃ m, ms_value st = vnum m ∧ m ∈ P ∧ (m < l)%Q
                 ∧ occurrences m P = ms_maxSeen st
                 ∧ (∀ v, (v < l)%Q → (occurrences v P <= ms_maxSeen st)%nat)
                 ∧ (∀ v, (v < l)%Q → v ∈ P →
                         occurrences v P = ms_maxSeen st → (m <= v)%Q)).
End Frequency.

(** ** Selection in an array of finite numbers *)

Module Selection.
Import Quantile.

(** The array that holds the numbers of [l], and a store in which the
    array at [arr] is that one. *)
Definition array_of (l : list Q) : jsarr num := arr_of_list (map vnum l).

Definition holding (arr : loc) (h : heap) (l : list Q) : heap :=
  <[arr := array_of l]> h.

(** The list with the elements at [i] and [j] exchanged. *)
Definition swapped (l : list Q) (i j : nat) : list Q :=
  match l !! i, l !! j with
  | Some a, Some c => <[j := a]> (<[i := c]> l)
  | _, _ => l
  end.

(** [l'] has the elements of [l], rearranged between [left] and [right]
    only. *)
Definition rearranged (left right : Z) (l l' : list Q) : Prop :=
  length l' = length l
  ∧ l' ≡ₚ l
  ∧ (∀ x : nat, ¬ (left <= Z.of_nat x <= right) → l' !! x = l !! x)
  ∧ (∀ (y : nat) (c : Q), left <= Z.of_nat y <= right → l' !! y = Some c →
       ∃ y' : nat, left <= Z.of_nat y' <= right ∧ l !! y' = Some c).

(** Everything from [left] up to [i] is at most [t], everything after [j]
    up to [right] is at least [t]. *)
Definition split_at (t : Q) (left right : Z) (l : list Q) (i j : Z) : Prop :=
  (∀ (x : nat) (a : Q), left <= Z.of_nat x < i → l !! x = Some a → (a <= t)%Q)
  ∧ (∀ (y : nat) (c : Q), j < Z.of_nat y <= right → l !! y = Some c → (t <= c)%Q).

(** Every element before [left] is at most every element from [left] on;
    every element up to [right] is at most every element after [right]. *)
Definition ordered_before (l : list Q) (left : Z) : Prop :=
  ∀ (x y : nat) (a c : Q),
    Z.of_nat x < left <= Z.of_nat y → l !! x = Some a → l !! y = Some c →
    (a <= c)%Q.

Definition ordered_after (l : list Q) (right : Z) : Prop :=
  ∀ (x y : nat) (a c : Q),
    Z.of_nat x <= right < Z.of_nat y → l !! x = Some a → l !! y = Some c →
    (a <= c)%Q.

(** The element at [k] is where a sort would put it. *)
Definition placed (k : nat) (l : list Q) : Prop :=
  ∃ t, l !! k = Some t
       ∧ (∀ x a, (x < k)%nat → l !! x = Some a → (a <= t)%Q)
       ∧ (∀ y c, (k < y)%nat → l !! y = Some c → (t <= c)%Q).

(** Two lists hold equal numbers at index [k]. *)
Definition agree_at (l1 l2 : list Q) (k : Z) : Prop :=
  ∃ a c, l1 !! Z.to_nat k = Some a ∧ l2 !! Z.to_nat k = Some c ∧ (a == c)%Q.

(** Two values that are the same: equal numbers, or both the same
    infinity, both [NaN] or both [undefined]. *)
Definition same_value (v w : val) : Prop :=
  match v, w with
  | Some (Fin a), Some (Fin c) => (a == c)%Q
  | _, _ => v = w
  end.
End Selection.

(* ===================================================================== *)
(** * Part II: theorems                                                    *)
(* ===================================================================== *)

(** ** Numbers that are integers *)

Lemma qofZ_red (z : Z) : Qred (qofZ z) = qofZ z.
Proof. apply inject_Z_Qred. Qed.

Lemma qsub_ofZ (a b : Z) : qsub (qofZ a) (qofZ b) = qofZ (a - b).
Proof.
  unfold qsub, qofZ. rewrite <- (inject_Z_Qred (a - b)). apply Qred_complete.
  unfold Z.sub. rewrite inject_Z_plus, inject_Z_opp. reflexivity.
Qed.

Lemma qmul_ofZ (a b : Z) : qmul (qofZ a) (qofZ b) = qofZ (a * b).
Proof.
  unfold qmul, qofZ. rewrite <- (inject_Z_Qred (a * b)). apply Qred_complete.
  rewrite inject_Z_mult. reflexivity.
Qed.

Lemma q_is_int_ofZ (z : Z) : q_is_int (qofZ z) = true.
Proof. unfold q_is_int, qofZ, qeq. rewrite Qfloor_Z. apply Qeq_bool_refl. Qed.

Lemma qlt_ofZ (a b : Z) : qlt (qofZ a) (qofZ b) = (a <? b).
Proof.
  unfold qlt, qofZ. destruct (Z.ltb_spec a b) as [H|H].
  - apply negb_true_iff. destruct (Qle_bool _ _) eqn:E; [|reflexivity].
    apply Qle_bool_iff in E. rewrite <- Zle_Qle in E. lia.
  - apply negb_false_iff. apply Qle_bool_iff. rewrite <- Zle_Qle. lia.
Qed.

Lemma qeq_ofZ (a b : Z) : qeq (qofZ a) (qofZ b) = (a =? b).
Proof.
  unfold qeq, qofZ. destruct (Z.eqb_spec a b) as [->|H].
  - apply Qeq_bool_refl.
  - destruct (Qeq_bool _ _) eqn:E; [|reflexivity].
    apply Qeq_bool_eq in E. rewrite inject_Z_injective in E. contradiction.
Qed.

(** ** Rounding to doubles *)

Module Binary64Facts.
Import Binary64.

(** ** Powers of two *)

Lemma pow2_pos (e : Z) : (0 < pow2 e)%Q.
Proof.
  destruct e as [|p|p]; cbn [pow2]; [done| |done].
  change 0%Q with (inject_Z 0). rewrite <- Zlt_Qlt. lia.
Qed.

Lemma pow2_succ (e : Z) : (pow2 (e + 1) == 2 * pow2 e)%Q.
Proof.
  destruct e as [|p|p].
  - reflexivity.
  - cbn [pow2]. replace (Z.pos p + 1) with (Z.pos (p + 1)) by lia. cbn [pow2].
    rewrite <- (inject_Z_mult 2). apply inject_Z_injective.
    rewrite Pos2Z.inj_add, Z.pow_add_r by lia. lia.
  - destruct (decide (p = 1%positive)) as [->|Hp].
    + reflexivity.
    + replace (Z.neg p + 1) with (Z.neg (p - 1)) by lia. cbn [pow2].
      unfold Qeq. cbn [Qnum Qden Qmult]. 
      replace (2 ^ p)%positive with (2 * 2 ^ (p - 1))%positive; [lia|].
      rewrite <- Pos.pow_succ_r. f_equal. lia.
Qed.

Lemma pow2_add_nat (e : Z) (k : nat) :
  (pow2 (e + Z.of_nat k) == inject_Z (2 ^ Z.of_nat k) * pow2 e)%Q.
Proof.
  induction k as [|k IH].
  - rewrite Z.add_0_r. change (inject_Z (2 ^ Z.of_nat 0)) with 1%Q. ring.
  - replace (e + Z.of_nat (S k)) with (e + Z.of_nat k + 1) by lia.
    rewrite pow2_succ, IH.
    replace (Z.of_nat (S k)) with (Z.of_nat k + 1) by lia.
    rewrite Z.pow_add_r by lia. rewrite inject_Z_mult.
    change (inject_Z (2 ^ 1)) with 2%Q. ring.
Qed.

(** [pow2 e' = 2 ^ (e' - e) * pow2 e] for [e <= e']. *)
Lemma pow2_split (e e' : Z) :
  e <= e' → (pow2 e' == inject_Z (2 ^ (e' - e)) * pow2 e)%Q.
Proof.
  intros H. replace e' with (e + Z.of_nat (Z.to_nat (e' - e))) at 1 by lia.
  rewrite pow2_add_nat. by rewrite Z2Nat.id by lia.
Qed.

Lemma pow2_nonneg (e : Z) : 0 <= e → pow2 e = inject_Z (2 ^ e).
Proof. destruct e as [|p|p]; [done|done|lia]. Qed.

Lemma pow2_le (e e' : Z) : e <= e' → (pow2 e <= pow2 e')%Q.
Proof.
  intros H. rewrite (pow2_split e e' H).
  assert (1 <= inject_Z (2 ^ (e' - e)))%Q.
  { change 1%Q with (inject_Z 1). rewrite <- Zle_Qle.
    pose proof (Z.pow_pos_nonneg 2 (e' - e)). lia. }
  pose proof (pow2_pos e). nra.
Qed.

Lemma pow2_lt (e e' : Z) : e < e' → (pow2 e < pow2 e')%Q.
Proof.
  intros H. rewrite (pow2_split e e') by lia.
  assert (2 <= inject_Z (2 ^ (e' - e)))%Q.
  { change 2%Q with (inject_Z 2). rewrite <- Zle_Qle.
    replace (e' - e) with (1 + (e' - e - 1)) by lia.
    rewrite Z.pow_add_r by lia.
    pose proof (Z.pow_pos_nonneg 2 (e' - e - 1)). lia. }
  pose proof (pow2_pos e). nra.
Qed.

(** Comparing two powers compares the exponents. *)
Lemma pow2_lt_inv (e e' : Z) : (pow2 e < pow2 e')%Q → e < e'.
Proof.
  intros H. destruct (Z.lt_ge_cases e e') as [|Hge]; [done|].
  apply pow2_le in Hge. lra.
Qed.

(** ** The exponent *)

Lemma Qle_bool_reflect (a c : Q) : reflect (a <= c)%Q (Qle_bool a c).
Proof.
  destruct (Qle_bool a c) eqn:E; constructor.
  - by apply Qle_bool_iff.
  - intros H. apply Qle_bool_iff in H. congruence.
Qed.

(** A fraction of two powers. *)
Lemma pow2_quotient (a b : Z) :
  0 <= a → 0 <= b → (pow2 (a - b) == inject_Z (2 ^ a) / inject_Z (2 ^ b))%Q.
Proof.
  intros Ha Hb.
  assert (Hb' : ¬ (inject_Z (2 ^ b) == 0)%Q).
  { change 0%Q with (inject_Z 0). rewrite inject_Z_injective.
    pose proof (Z.pow_pos_nonneg 2 b). lia. }
  destruct (Z.le_ge_cases b a) as [H|H].
  - rewrite pow2_nonneg by lia.
    replace a with (a - b + b) at 2 by lia.
    rewrite Z.pow_add_r, inject_Z_mult by lia. by field.
  - apply (Qmult_inj_r _ _ (pow2 (b - a))); [pose proof (pow2_pos (b - a)); lra|].
    transitivity (pow2 (a - b + (b - a))).
    + rewrite (pow2_split (a - b) (a - b + (b - a))) by lia.
      replace (a - b + (b - a) - (a - b)) with (b - a) by lia.
      rewrite (pow2_nonneg (b - a)) by lia. ring.
    + replace (a - b + (b - a)) with 0 by lia. rewrite (pow2_nonneg (b - a)) by lia.
      replace b with (b - a + a) at 1 by lia.
      rewrite Z.pow_add_r, inject_Z_mult by lia.
      assert (¬ (inject_Z (2 ^ a) == 0)%Q).
      { change 0%Q with (inject_Z 0). rewrite inject_Z_injective.
        pose proof (Z.pow_pos_nonneg 2 a). lia. }
      assert (¬ (inject_Z (2 ^ (b - a)) == 0)%Q).
      { change 0%Q with (inject_Z 0). rewrite inject_Z_injective.
        pose proof (Z.pow_pos_nonneg 2 (b - a)). lia. }
      change (pow2 0) with 1%Q. by field.
Qed.

Lemma ilog2_spec (q : Q) :
  (0 < q)%Q → (pow2 (ilog2 q) <= q < pow2 (ilog2 q + 1))%Q.
Proof.
  intros Hq. unfold ilog2.
  set (a := Z.log2 (Qnum q)). set (b := Z.log2 (Z.pos (Qden q))).
  assert (Hn : 0 < Qnum q).
  { unfold Qlt in Hq. cbn in Hq. lia. }
  assert (Ha : 2 ^ a <= Qnum q < 2 ^ (a + 1)).
  { pose proof (Z.log2_spec (Qnum q) Hn). unfold a. by rewrite <- Z.add_1_r in *. }
  assert (Hb : 2 ^ b <= Z.pos (Qden q) < 2 ^ (b + 1)).
  { pose proof (Z.log2_spec (Z.pos (Qden q)) ltac:(lia)). unfold b.
    by rewrite <- Z.add_1_r in *. }
  assert (Ha0 : 0 <= a) by apply Z.log2_nonneg.
  assert (Hb0 : 0 <= b) by apply Z.log2_nonneg.
  assert (Hq' : (q == inject_Z (Qnum q) / inject_Z (Z.pos (Qden q)))%Q).
  { rewrite <- Qmake_Qdiv. by destruct q. }
  assert (Hd : (0 < inject_Z (Z.pos (Qden q)))%Q).
  { change 0%Q with (inject_Z 0). rewrite <- Zlt_Qlt. lia. }
  assert (Hpa : (0 < inject_Z (2 ^ a))%Q).
  { change 0%Q with (inject_Z 0). rewrite <- Zlt_Qlt. lia. }
  assert (Hpb : (0 < inject_Z (2 ^ b))%Q).
  { change 0%Q with (inject_Z 0). rewrite <- Zlt_Qlt.
    pose proof (Z.pow_pos_nonneg 2 b). lia. }
  assert (HqD : (q * inject_Z (Z.pos (Qden q)) == inject_Z (Qnum q))%Q).
  { clear. destruct q as [n d]. unfold Qeq. cbn. lia. }
  assert (HA : (inject_Z (2 ^ a) <= inject_Z (Qnum q))%Q) by (rewrite <- Zle_Qle; lia).
  assert (HA1 : (inject_Z (Qnum q) < inject_Z (2 ^ (a + 1)))%Q)
    by (rewrite <- Zlt_Qlt; lia).
  assert (HB : (inject_Z (2 ^ b) <= inject_Z (Z.pos (Qden q)))%Q)
    by (rewrite <- Zle_Qle; lia).
  assert (HB1 : (inject_Z (Z.pos (Qden q)) < inject_Z (2 ^ (b + 1)))%Q)
    by (rewrite <- Zlt_Qlt; lia).
  assert (Hpb1 : (0 < inject_Z (2 ^ (b + 1)))%Q).
  { change 0%Q with (inject_Z 0). rewrite <- Zlt_Qlt. lia. }
  destruct (Qle_bool_reflect (pow2 (a - b)) q) as [Hle|Hnle].
  - split; [done|].
    replace (a - b + 1) with (a + 1 - b) by lia.
    assert (E : (pow2 (a + 1 - b) * inject_Z (2 ^ b) == inject_Z (2 ^ (a + 1)))%Q).
    { rewrite pow2_quotient by lia. field. lra. }
    pose proof (pow2_pos (a + 1 - b)) as HP.
    apply Qnot_le_lt. intros Hc.
    assert (pow2 (a + 1 - b) * inject_Z (2 ^ b)
            <= q * inject_Z (Z.pos (Qden q)))%Q; [|lra].
    apply Qle_trans with (pow2 (a + 1 - b) * inject_Z (Z.pos (Qden q)))%Q.
    + apply Qmult_le_l; [done|done].
    + apply Qmult_le_r; [done|done].
  - apply Qnot_le_lt in Hnle. replace (a - b - 1 + 1) with (a - b) by lia.
    split; [|done].
    replace (a - b - 1) with (a - (b + 1)) by lia.
    assert (E : (pow2 (a - (b + 1)) * inject_Z (2 ^ (b + 1)) == inject_Z (2 ^ a))%Q).
    { rewrite pow2_quotient by lia. field. lra. }
    pose proof (pow2_pos (a - (b + 1))) as HP.
    apply Qnot_lt_le. intros Hc.
    assert (q * inject_Z (Z.pos (Qden q))
            < pow2 (a - (b + 1)) * inject_Z (2 ^ (b + 1)))%Q; [|lra].
    apply Qlt_trans with (pow2 (a - (b + 1)) * inject_Z (Z.pos (Qden q)))%Q.
    + apply Qmult_lt_r; [done|done].
    + apply Qmult_lt_l; [done|done].
Qed.

(** The exponent is the only one whose binade holds [q]. *)
Lemma ilog2_unique (q : Q) (e : Z) :
  (pow2 e <= q < pow2 (e + 1))%Q → ilog2 q = e.
Proof.
  intros [Hlow Hhigh].
  assert (Hq : (0 < q)%Q) by (pose proof (pow2_pos e); lra).
  destruct (ilog2_spec q Hq) as [Hl Hh].
  assert (e < ilog2 q + 1) by (apply pow2_lt_inv; lra).
  assert (ilog2 q < e + 1) by (apply pow2_lt_inv; lra). lia.
Qed.

(** ** Rounding to an integer *)

Lemma nearest_even_bounds (x : Q) :
  Qfloor x <= nearest_even x <= Qfloor x + 1.
Proof.
  unfold nearest_even. destruct (x - inject_Z (Qfloor x) ?= 1 # 2)%Q; [|lia..].
  destruct (Z.even (Qfloor x)); lia.
Qed.

Lemma nearest_even_ge (x : Q) (k : Z) :
  (inject_Z k <= x)%Q → k <= nearest_even x.
Proof.
  intros H. pose proof (nearest_even_bounds x).
  assert (k <= Qfloor x); [|lia].
  rewrite <- (Qfloor_Z k). by apply Qfloor_resp_le.
Qed.

Lemma nearest_even_le (x : Q) (k : Z) :
  (x <= inject_Z k)%Q → nearest_even x <= k.
Proof.
  intros H. pose proof (Qfloor_le x) as Hf.
  assert (Hfk : Qfloor x <= k) by (rewrite Zle_Qle; lra).
  unfold nearest_even.
  destruct (Qcompare_spec (x - inject_Z (Qfloor x)) (1 # 2)) as [E|E|E].
  - assert (Qfloor x < k); [|destruct (Z.even (Qfloor x)); lia].
    rewrite Zlt_Qlt. lra.
  - done.
  - assert (Qfloor x < k); [|lia]. rewrite Zlt_Qlt. lra.
Qed.

(** Below the midpoint the rounding goes down. *)
Lemma nearest_even_below (x : Q) (k : Z) :
  (x < inject_Z k - (1 # 2))%Q → nearest_even x <= k - 1.
Proof.
  intros H. pose proof (Qfloor_le x) as Hf.
  assert (Hfk : Qfloor x <= k - 1).
  { assert (Qfloor x < k); [|lia]. rewrite Zlt_Qlt. lra. }
  unfold nearest_even.
  destruct (Qcompare_spec (x - inject_Z (Qfloor x)) (1 # 2)) as [E|E|E].
  - assert (Qfloor x < k - 1); [|destruct (Z.even (Qfloor x)); lia].
    rewrite Zlt_Qlt. unfold Z.sub. rewrite inject_Z_plus. 
    change (inject_Z (- (1))) with (-1)%Q. lra.
  - done.
  - assert (Qfloor x < k - 1); [|lia].
    rewrite Zlt_Qlt. unfold Z.sub. rewrite inject_Z_plus.
    change (inject_Z (- (1))) with (-1)%Q. lra.
Qed.

Lemma nearest_even_int (x : Q) (k : Z) :
  (x == inject_Z k)%Q → nearest_even x = k.
Proof.
  intros H. pose proof (nearest_even_ge x k ltac:(lra)).
  pose proof (nearest_even_le x k ltac:(lra)). lia.
Qed.

(** ** Rounding to a double *)

Lemma nearest_proper (a c : Q) : (a == c)%Q → nearest a = nearest c.
Proof. intros H. unfold nearest. by rewrite (Qred_complete a c H). Qed.

Lemma ilog2_proper (a c : Q) : (0 < a)%Q → (a == c)%Q → ilog2 a = ilog2 c.
Proof.
  intros Ha H. symmetry. apply ilog2_unique. rewrite <- H. by apply ilog2_spec.
Qed.

Lemma nearest_even_proper (a c : Q) :
  (a == c)%Q → nearest_even a = nearest_even c.
Proof.
  intros H. unfold nearest_even. rewrite (Qfloor_comp a c H).
  assert (E : (a - inject_Z (Qfloor c) ?= 1 # 2)%Q
              = (c - inject_Z (Qfloor c) ?= 1 # 2)%Q) by (by rewrite H).
  by rewrite E.
Qed.

Lemma ulp_pos (q : Q) : (0 < ulp q)%Q.
Proof. apply pow2_pos. Qed.

Lemma ulp_proper (a c : Q) : (0 < a)%Q → (a == c)%Q → ulp a = ulp c.
Proof. intros Ha H. unfold ulp. by rewrite (ilog2_proper a c Ha H). Qed.

Lemma nearest_zero (q : Q) : (q == 0)%Q → nearest q = 0%Q.
Proof. intros H. by rewrite (nearest_proper q 0 H). Qed.

(** A positive number is rounded to a multiple of its spacing. *)
Lemma nearest_pos (q : Q) :
  (0 < q)%Q →
  (nearest q == inject_Z (nearest_even (q / ulp q)) * ulp q)%Q.
Proof.
  intros Hq. unfold nearest.
  assert (Hr : (Qred q == q)%Q) by apply Qred_correct.
  assert (Hr0 : (0 < Qred q)%Q) by lra.
  destruct (Qnum (Qred q)) as [|n|n] eqn:E.
  - unfold Qlt in Hr0. cbn in Hr0. lia.
  - rewrite Qred_correct. rewrite (ulp_proper (Qred q) q Hr0 Hr).
    assert (E' : (Qred q / ulp q == q / ulp q)%Q) by (by rewrite Hr).
    by rewrite (nearest_even_proper _ _ E').
  - unfold Qlt in Hr0. cbn in Hr0. lia.
Qed.

(** Rounding is odd. *)
Lemma opp_opp (x : Q) : Qopp (Qopp x) = x.
Proof. destruct x as [[|n|n] d]; reflexivity. Qed.

Lemma nearest_neg (q : Q) :
  (q < 0)%Q →
  (nearest q == - (inject_Z (nearest_even (- q / ulp (- q))) * ulp (- q)))%Q.
Proof.
  intros Hq. unfold nearest.
  assert (Hr : (- Qred q == - q)%Q) by (by rewrite Qred_correct).
  assert (Hr0 : (0 < - Qred q)%Q) by lra.
  destruct (Qnum (Qred q)) as [|n|n] eqn:E.
  - unfold Qlt in Hr0. cbn in Hr0. lia.
  - unfold Qlt in Hr0. cbn in Hr0. lia.
  - rewrite Qred_correct. rewrite (ulp_proper (- Qred q) (- q) Hr0 Hr).
    assert (E' : (- Qred q / ulp (- q) == - q / ulp (- q))%Q) by (by rewrite Hr).
    by rewrite (nearest_even_proper _ _ E').
Qed.

Lemma nearest_opp (q : Q) : (nearest (- q) == - nearest q)%Q.
Proof.
  destruct (Q_dec q 0) as [[Hneg|Hpos]|Hz].
  - rewrite (nearest_pos (- q)) by lra. rewrite (nearest_neg q Hneg). ring.
  - rewrite (nearest_neg (- q)) by lra. rewrite (nearest_pos q Hpos).
    by rewrite opp_opp.
  - rewrite (nearest_zero q Hz). rewrite nearest_zero; [done|]. lra.
Qed.

(** ** Numbers that are doubles *)

(** [m * 2 ^ k] with [m] below [2 ^ 53] and [k] from [-1074] on is rounded
    to itself. *)
Lemma nearest_dyadic_pos (m k : Z) :
  0 < m < 2 ^ 53 → -1074 <= k →
  (nearest (inject_Z m * pow2 k) == inject_Z m * pow2 k)%Q.
Proof.
  intros Hm Hk. set (q := (inject_Z m * pow2 k)%Q).
  pose proof (pow2_pos k) as Hpk.
  assert (Hm0 : (1 <= inject_Z m)%Q).
  { change 1%Q with (inject_Z 1). rewrite <- Zle_Qle. lia. }
  assert (Hq : (0 < q)%Q) by (unfold q; nra).
  rewrite (nearest_pos q Hq).
  destruct (ilog2_spec q Hq) as [Hlow _].
  assert (He : ilog2 q < k + 53).
  { apply pow2_lt_inv. apply Qle_lt_trans with q; [done|].
    rewrite (pow2_split k (k + 53)) by lia.
    replace (k + 53 - k) with 53 by lia. unfold q.
    assert (inject_Z m < inject_Z (2 ^ 53))%Q by (rewrite <- Zlt_Qlt; lia).
    nra. }
  unfold ulp. set (g := Z.max (ilog2 q) (-1022) - 52).
  assert (Hg : g <= k) by lia.
  pose proof (pow2_pos g) as Hpg.
  assert (Hsplit : (pow2 k == inject_Z (2 ^ (k - g)) * pow2 g)%Q)
    by (by apply pow2_split).
  assert (E : (q / pow2 g == inject_Z (m * 2 ^ (k - g)))%Q).
  { unfold q. rewrite Hsplit, inject_Z_mult. field. lra. }
  rewrite (nearest_even_int _ _ E). unfold q.
  rewrite Hsplit, inject_Z_mult. ring.
Qed.

Lemma nearest_dyadic (m k : Z) :
  - 2 ^ 53 < m < 2 ^ 53 → -1074 <= k →
  (nearest (inject_Z m * pow2 k) == inject_Z m * pow2 k)%Q.
Proof.
  intros Hm Hk. destruct (Z.lt_trichotomy m 0) as [Hneg|[->|Hpos]].
  - assert (E : (inject_Z m * pow2 k == - (inject_Z (- m) * pow2 k))%Q).
    { rewrite inject_Z_opp. ring. }
    rewrite (nearest_proper _ _ E), nearest_opp.
    rewrite nearest_dyadic_pos by lia. rewrite inject_Z_opp. ring.
  - rewrite nearest_zero; [|ring]. ring.
  - apply nearest_dyadic_pos; [lia|done].
Qed.

(** Integers below [2 ^ 53] in size are doubles. *)
Lemma nearest_integer (z : Z) :
  - 2 ^ 53 < z < 2 ^ 53 → (nearest (inject_Z z) == inject_Z z)%Q.
Proof.
  intros Hz. pose proof (nearest_dyadic z 0 Hz ltac:(lia)) as H.
  change (pow2 0) with 1%Q in H.
  assert (E : (inject_Z z * 1 == inject_Z z)%Q) by ring.
  by rewrite (nearest_proper _ _ E) in H; rewrite E in H.
Qed.

(** And so are the halves between them, below [2 ^ 52]. *)
Lemma nearest_half_integer (z : Z) :
  - 2 ^ 52 < z < 2 ^ 52 →
  (nearest (inject_Z z - (1 # 2)) == inject_Z z - (1 # 2))%Q.
Proof.
  intros Hz. pose proof (nearest_dyadic (2 * z - 1) (-1) ltac:(lia) ltac:(lia)) as H.
  assert (E : (inject_Z (2 * z - 1) * pow2 (-1) == inject_Z z - (1 # 2))%Q).
  { unfold Z.sub. rewrite inject_Z_plus, inject_Z_mult. 
    change (pow2 (-1)) with (1 # 2)%Q. change (inject_Z (- (1))) with (-1)%Q.
    change (inject_Z 2) with 2%Q. field. }
  by rewrite (nearest_proper _ _ E) in H; rewrite E in H.
Qed.

Lemma inject_Z_minus_one (z : Z) : (inject_Z (z - 1) == inject_Z z - 1)%Q.
Proof.
  unfold Z.sub. rewrite inject_Z_plus, inject_Z_opp. reflexivity.
Qed.

Lemma inject_Z_plus_one (z : Z) : (inject_Z (z + 1) == inject_Z z + 1)%Q.
Proof. rewrite inject_Z_plus. reflexivity. Qed.

Lemma is_double_nearest (q : Q) : is_double q → (nearest q == q)%Q.
Proof.
  unfold is_double, round. intros H.
  destruct (Qle_bool (pow2 1024) (nearest q)); [done|].
  destruct (Qle_bool (nearest q) (- pow2 1024)); [done|].
  injection H as ->. apply Qred_correct.
Qed.

(** The least positive double is [2 ^ -1074]. *)
Lemma double_least (p : Q) :
  is_double p → (0 < p)%Q → (pow2 (-1074) <= p)%Q.
Proof.
  intros Hd Hp. apply is_double_nearest in Hd.
  rewrite (nearest_pos p Hp) in Hd.
  pose proof (ulp_pos p) as Hu.
  assert (Hm : 1 <= nearest_even (p / ulp p)).
  { destruct (Z.lt_ge_cases (nearest_even (p / ulp p)) 1) as [Hlt|]; [|done].
    assert (inject_Z (nearest_even (p / ulp p)) <= 0)%Q.
    { change 0%Q with (inject_Z 0). rewrite <- Zle_Qle. lia. }
    nra. }
  assert (Hm' : (1 <= inject_Z (nearest_even (p / ulp p)))%Q).
  { change 1%Q with (inject_Z 1). by rewrite <- Zle_Qle. }
  assert (Hg : (pow2 (-1074) <= ulp p)%Q) by (apply pow2_le; lia).
  nra.
Qed.

(** The greatest double below 1 is [1 - 2 ^ -53]. *)
Lemma double_below_one (p : Q) :
  is_double p → (0 < p)%Q → (p < 1)%Q → (p <= 1 - pow2 (-53))%Q.
Proof.
  intros Hd Hp Hp1. apply is_double_nearest in Hd.
  rewrite (nearest_pos p Hp) in Hd.
  destruct (ilog2_spec p Hp) as [Hlow Hhigh].
  assert (He : ilog2 p < 0).
  { apply pow2_lt_inv. change (pow2 0) with 1%Q. lra. }
  destruct (Z.eq_dec (ilog2 p) (-1)) as [E|Hne].
  - unfold ulp in Hd. rewrite E in Hd.
    change (Z.max (-1) (-1022) - 52) with (-53) in Hd.
    set (m := nearest_even (p / pow2 (-53))) in Hd.
    assert (Hm : m < 2 ^ 53).
    { rewrite Zlt_Qlt.
      assert (E1 : (inject_Z (2 ^ 53) * pow2 (-53) == 1)%Q) by reflexivity.
      pose proof (pow2_pos (-53)). 
      apply Qnot_le_lt. intros Hc.
      assert (inject_Z (2 ^ 53) * pow2 (-53) <= inject_Z m * pow2 (-53))%Q
        by (apply Qmult_le_r; done).
      lra. }
    assert (Hm' : (inject_Z m <= inject_Z (2 ^ 53) - 1)%Q).
    { rewrite <- inject_Z_minus_one, <- Zle_Qle. lia. }
    assert (E1 : (inject_Z (2 ^ 53) * pow2 (-53) == 1)%Q) by reflexivity.
    pose proof (pow2_pos (-53)). nra.
  - assert (Hp2 : (p < pow2 (-1))%Q).
    { apply Qlt_le_trans with (pow2 (ilog2 p + 1)); [done|].
      apply pow2_le. lia. }
    change (pow2 (-1)) with (1 # 2)%Q in Hp2.
    assert (pow2 (-53) <= 1 # 2)%Q by (by vm_compute). lra.
Qed.

(** The product of a positive integer [n] below [2 ^ 53] and a double
    strictly between 0 and 1 is rounded to a double strictly between 0 and
    [n]. *)
Lemma times_range (n : Z) (p : Q) :
  0 < n < 2 ^ 53 → is_double p → (0 < p)%Q → (p < 1)%Q →
  (0 < times (inject_Z n) p < inject_Z n)%Q.
Proof.
  intros Hn Hd Hp Hp1. unfold times. set (q := (inject_Z n * p)%Q).
  pose proof (double_least p Hd Hp) as Hleast.
  pose proof (double_below_one p Hd Hp Hp1) as Hmost.
  assert (Hn1 : (1 <= inject_Z n)%Q).
  { change 1%Q with (inject_Z 1). rewrite <- Zle_Qle. lia. }
  assert (Hn53 : (inject_Z n < pow2 53)%Q).
  { rewrite pow2_nonneg by lia. rewrite <- Zlt_Qlt. lia. }
  assert (Hq : (0 < q)%Q) by (unfold q; nra).
  assert (Hqp : (p <= q)%Q) by (unfold q; nra).
  assert (Hqn : (q <= inject_Z n - inject_Z n * pow2 (-53))%Q) by (unfold q; nra).
  pose proof (pow2_pos (-53)) as H53.
  assert (Hqn' : (q < inject_Z n)%Q) by nra.
  rewrite (nearest_pos q Hq).
  destruct (ilog2_spec q Hq) as [Hlow Hhigh].
  assert (He : ilog2 q < 53).
  { apply pow2_lt_inv. lra. }
  unfold ulp. set (ge := Z.max (ilog2 q) (-1022)). set (g := ge - 52).
  pose proof (pow2_pos g) as Hu.
  assert (Hgq : (pow2 g <= q)%Q).
  { unfold g, ge. destruct (Z.max_spec (ilog2 q) (-1022)) as [[_ ->]|[_ ->]].
    - change (-1022 - 52) with (-1074). lra.
    - apply Qle_trans with (pow2 (ilog2 q)); [apply pow2_le; lia|done]. }
  assert (Hgen : (pow2 ge < inject_Z n)%Q).
  { unfold ge. destruct (Z.max_spec (ilog2 q) (-1022)) as [[_ ->]|[_ ->]].
    - assert (pow2 (-1022) < 1)%Q by (by vm_compute). lra.
    - lra. }
  split.
  - assert (1 <= nearest_even (q / pow2 g)).
    { apply nearest_even_ge. change (inject_Z 1) with 1%Q.
      apply Qle_shift_div_l; [done|]. by rewrite Qmult_1_l. }
    assert (1 <= inject_Z (nearest_even (q / pow2 g)))%Q.
    { change 1%Q with (inject_Z 1). by rewrite <- Zle_Qle. }
    nra.
  - (* [n] is a multiple [N] of the spacing *)
    assert (Hg0 : g <= 0) by lia.
    set (N := n * 2 ^ (0 - g)).
    assert (HN : (inject_Z n == inject_Z N * pow2 g)%Q).
    { unfold N. rewrite inject_Z_mult.
      pose proof (pow2_split g 0 Hg0) as Hs. change (pow2 0) with 1%Q in Hs.
      rewrite <- Qmult_assoc, <- Hs. ring. }
    assert (H52 : (pow2 ge == inject_Z (2 ^ 52) * pow2 g)%Q).
    { rewrite (pow2_split g ge) by lia. by replace (ge - g) with 52 by lia. }
    assert (HNbig : 2 ^ 52 < N).
    { rewrite Zlt_Qlt. apply Qnot_le_lt. intros Hc.
      assert (inject_Z N * pow2 g <= inject_Z (2 ^ 52) * pow2 g)%Q
        by (apply Qmult_le_r; done).
      lra. }
    assert (HNbig' : (inject_Z (2 ^ 52) + 1 <= inject_Z N)%Q).
    { rewrite <- inject_Z_plus_one, <- Zle_Qle. lia. }
    assert (Hhalf : (inject_Z (2 ^ 52) * pow2 (-53) == 1 # 2)%Q) by reflexivity.
    assert (Hx : (q / pow2 g < inject_Z N - (1 # 2))%Q).
    { apply Qlt_shift_div_r; [done|]. nra. }
    pose proof (nearest_even_below _ _ Hx) as Hm.
    assert (Hm' : (inject_Z (nearest_even (q / pow2 g)) <= inject_Z N - 1)%Q).
    { by rewrite <- inject_Z_minus_one, <- Zle_Qle. }
    nra.
Qed.

(** Integers below [2 ^ 53] are doubles, and so are their sums. *)
Lemma nearest_canonical (q : Q) : Qred (nearest q) = nearest q.
Proof.
  unfold nearest. destruct (Qnum (Qred q)); [done| |];
    apply Qred_complete, Qred_correct.
Qed.

Lemma round_integer (z : Z) :
  - 2 ^ 53 < z < 2 ^ 53 → round (inject_Z z) = nofZ z.
Proof.
  intros Hz. unfold round.
  assert (nearest (inject_Z z) = inject_Z z) as ->.
  { rewrite <- nearest_canonical. rewrite <- (inject_Z_Qred z) at 2.
    apply Qred_complete, nearest_integer, Hz. }
  destruct (Qle_bool_reflect (pow2 1024) (inject_Z z)) as [H|_].
  { exfalso. rewrite pow2_nonneg in H by lia. rewrite <- Zle_Qle in H.
    assert (2 ^ 53 < 2 ^ 1024) by (apply Z.pow_lt_mono_r; lia). lia. }
  destruct (Qle_bool_reflect (inject_Z z) (- pow2 1024)) as [H|_]; [|done].
  exfalso. rewrite pow2_nonneg in H by lia. rewrite <- inject_Z_opp in H.
  rewrite <- Zle_Qle in H.
  assert (2 ^ 53 < 2 ^ 1024) by (apply Z.pow_lt_mono_r; lia). lia.
Qed.

Lemma add_integers (a c : Z) :
  - 2 ^ 53 < a + c < 2 ^ 53 → add (nofZ a) (nofZ c) = nofZ (a + c).
Proof.
  intros H. unfold add, nofZ. cbn [nadd rounded]. unfold qadd, qofZ, round.
  rewrite (nearest_proper _ (inject_Z (a + c)))
    by (rewrite Qred_correct, inject_Z_plus; reflexivity).
  by apply round_integer.
Qed.
End Binary64Facts.

(** ** Factorial and gamma *)

Module GammaFacts.
Import Binary64 Gamma.

Lemma nle_ofZ_0 (z : Z) : nle (nofZ z) (Fin 0) = (z <=? 0).
Proof.
  unfold nle, nofZ. simpl. change 0%Q with (qofZ 0).
  rewrite qlt_ofZ, qeq_ofZ. lia.
Qed.

Lemma zfact_fact (n : nat) : zfact n = Z.of_nat (fact n).
Proof.
  induction n as [|n IH]; [done|]. cbn [zfact fact]. rewrite IH. lia.
Qed.

(** More fuel does not change a result. *)
Lemma factorial_loop_more_fuel (fuel : nat) :
  ∀ (fuel' : nat) (n i accumulator r : num),
    (fuel <= fuel')%nat →
    factorial_loop fuel n i accumulator = Ret r →
    factorial_loop fuel' n i accumulator = Ret r.
Proof.
  induction fuel as [|fuel IH]; intros fuel' n i accumulator r Hle Hrun; [done|].
  destruct fuel' as [|fuel']; [lia|]. cbn [factorial_loop] in *.
  destruct (nle i n); [|done]. apply (IH fuel'); [lia|done].
Qed.

Lemma factorial_more_fuel (fuel fuel' : nat) (n r : num) :
  (fuel <= fuel')%nat →
  factorial fuel n = Ret r → factorial fuel' n = Ret r.
Proof.
  intros Hle. unfold factorial. destruct (nlt n (Fin 0)); [done|].
  destruct (negb (neq (nfloor n) n)); [done|].
  by apply factorial_loop_more_fuel.
Qed.

(** The integers from [from] on, [count] of them. *)
Lemma in_range (z from : Z) (count : nat) :
  from <= z < from + Z.of_nat count →
  In z (map (fun k => from + Z.of_nat k) (seq 0 count)).
Proof.
  intros Hz. apply in_map_iff. exists (Z.to_nat (z - from)).
  split; [lia|]. apply in_seq. lia.
Qed.

(** Up to [22!] every product of the loop is a double, and [factorial] is
    exact. *)
Lemma factorial_small (fuel : nat) (z : Z) :
  0 <= z <= 22 → (Z.to_nat z < fuel)%nat →
  factorial fuel (nofZ z) = Ret (nofZ (zfact (Z.to_nat z))).
Proof.
  intros Hz Hfuel.
  apply (factorial_more_fuel (S (Z.to_nat z))); [lia|]. clear Hfuel.
  pose proof (in_range z 0 23 ltac:(lia)) as Hin. cbn in Hin.
  repeat (destruct Hin as [<-|Hin]; [by vm_compute|]). done.
Qed.

(** The same products in the floats of the kernel: the rounded product for
    [28] is what the kernel computes, and it is neither [28!] nor the double
    nearest to [28!]. *)
Lemma factorial_rounds :
  factorial 28 (nofZ 28) = Ret (of_float (kernel_product 27 2 PrimFloat.one))
  ∧ factorial 28 (nofZ 28) = Ret (nofZ 304888344611713836734530715648)
  ∧ zfact 28 = 304888344611713860501504000000
  ∧ round (inject_Z (zfact 28)) = nofZ 304888344611713871918902804480.
Proof. by vm_compute. Qed.

Section Math.
Context (Math_PI Math_E : num) (Math_sin Math_sqrt : num → num)
        (Math_pow : num → num → num).

Local Abbreviation gamma := (gamma Math_PI Math_E Math_sin Math_sqrt Math_pow).

Lemma gamma_ofZ (fuel : nat) (z : Z) :
  gamma fuel (nofZ z)
  = if z <=? 0 then Ret NaN else factorial fuel (sub (nofZ z) (Fin 1)).
Proof.
  destruct fuel; simpl; unfold nofZ at 1; simpl;
    rewrite q_is_int_ofZ; fold (nofZ z); rewrite nle_ofZ_0;
    by destruct (z <=? 0).
Qed.

Lemma sub_one_small (z : Z) :
  1 <= z <= 23 → sub (nofZ z) (Fin 1) = nofZ (z - 1).
Proof.
  intros Hz. pose proof (in_range z 1 23 ltac:(lia)) as Hin. cbn in Hin.
  repeat (destruct Hin as [<-|Hin]; [by vm_compute|]). done.
Qed.

(** C8 (gamma), as the code has it.  For an integer [z <= 0], [gamma(z)] is
    the [NaN] value, returned and not thrown.  For an integer [z >= 1] it is
    what [factorial(z - 1)] returns, the product [2 * 3 * ... * (z - 1)]
    built up in doubles: for [z <= 23] that is exactly [(z - 1)!], so
    [gamma(5)] is 24 and [factorial(5)] is 120. *)
Theorem gamma_integer (fuel : nat) (z : Z) :
  (z <= 0 → gamma fuel (nofZ z) = Ret NaN)
  ∧ (1 <= z → gamma fuel (nofZ z) = factorial fuel (sub (nofZ z) (Fin 1)))
  ∧ (1 <= z <= 23 → (Z.to_nat z <= fuel)%nat →
       gamma fuel (nofZ z) = Ret (nofZ (zfact (Z.to_nat (z - 1)))))
  ∧ ((6 <= fuel)%nat →
       gamma fuel (Fin 5) = Ret (Fin 24)
       ∧ factorial fuel (Fin 5) = Ret (Fin 120)).
Proof.
  split; [|split; [|split]].
  - intros Hz. rewrite gamma_ofZ. by destruct (Z.leb_spec z 0); [|lia].
  - intros Hz. rewrite gamma_ofZ. by destruct (Z.leb_spec z 0); [lia|].
  - intros Hz Hfuel. rewrite gamma_ofZ. destruct (Z.leb_spec z 0); [lia|].
    rewrite sub_one_small by done. apply factorial_small; lia.
  - intros Hfuel. split.
    + change (Fin 5) with (nofZ 5). rewrite gamma_ofZ.
      change (5 <=? 0) with false. cbv iota.
      rewrite (sub_one_small 5) by lia.
      by rewrite factorial_small by (lia || (cbn; lia)).
    + change (Fin 5) with (nofZ 5).
      by rewrite factorial_small by (lia || (cbn; lia)).
Qed.
End Math.

Lemma gamma_integer_witness :
  gamma NaN NaN (fun a => a) (fun a => a) (fun a _ => a) 23 (nofZ 23)
  = Ret (nofZ (zfact (Z.to_nat (23 - 1))))
  ∧ gamma NaN NaN (fun a => a) (fun a => a) (fun a _ => a) 23 (nofZ (-2))
    = Ret NaN
  ∧ gamma NaN NaN (fun a => a) (fun a => a) (fun a _ => a) 23 (Fin 5)
    = Ret (Fin 24).
Proof.
  destruct (gamma_integer NaN NaN (fun a => a) (fun a => a) (fun a _ => a)
              23 23) as (_ & _ & Hexact & Hfive).
  destruct (gamma_integer NaN NaN (fun a => a) (fun a => a) (fun a _ => a)
              23 (-2)) as (Hnan & _).
  split; [apply Hexact; [lia|cbn; lia]|].
  split; [apply Hnan; lia|]. apply Hfive. lia.
Defined.

(** C8, the claim as stated fails from [23!] on, which no double holds:
    [gamma(24)] is not [23!]; [gamma(29)] is not even the double nearest to
    [28!]; and [gamma(172)] is [Infinity]. *)
Lemma gamma_not_factorial :
  gamma NaN NaN (fun a => a) (fun a => a) (fun a _ => a) 200 (nofZ 24)
  ≠ Ret (nofZ (zfact 23))
  ∧ gamma NaN NaN (fun a => a) (fun a => a) (fun a _ => a) 200 (nofZ 29)
    ≠ Ret (nofZ (zfact 28))
  ∧ gamma NaN NaN (fun a => a) (fun a => a) (fun a _ => a) 200 (nofZ 29)
    ≠ Ret (round (inject_Z (zfact 28)))
  ∧ gamma NaN NaN (fun a => a) (fun a => a) (fun a _ => a) 200 (nofZ 172)
    = Ret PInf.
Proof.
  split; [vm_compute; intros [=]|].
  split; [vm_compute; intros [=]|].
  split; [vm_compute; intros [=]|].
  vm_compute. reflexivity.
Qed.
End GammaFacts.

Module TTestFacts.
Import Descriptive TTest.

Section Math.
Context (Math_sqrt : num → num) (Math_pow : num → num → num).

Local Abbreviation tTestTwoSample := (tTestTwoSample Math_sqrt Math_pow).

Lemma tTestTwoSample_statistic (X Y : list val) (d : option num)
    (mX mY vX vY : num) :
  X ≠ [] → Y ≠ [] →
  mean X = Ret mX → mean Y = Ret mY →
  sampleVariance Math_pow X = Ret vX → sampleVariance Math_pow Y = Ret vY →
  tTestTwoSample X Y d
  = Ret (Some (t_statistic Math_sqrt (length X) (length Y) mX mY vX vY
                 (match d with
                  | None => Fin 0
                  | Some d => if num_falsy d then Fin 0 else d
                  end))).
Proof.
  intros HX HY EmX EmY EvX EvY. unfold TTest.tTestTwoSample.
  destruct X as [|x X]; [done|]. destruct Y as [|y Y]; [done|].
  cbn [length Nat.eqb orb]. rewrite EmX, EmY, EvX, EvY. reflexivity.
Qed.

(** C10 (tTestTwoSample): the result is [null], returned and not thrown,
    as soon as one of the samples is empty; a [difference] that is omitted
    and one that is zero give the same result, which for samples that have
    a mean and a sample variance is the t statistic with hypothesized
    difference 0. *)
Theorem tTestTwoSample_null_and_default (X Y : list val) (d : option num) :
  tTestTwoSample [] Y d = Ret None
  ∧ tTestTwoSample X [] d = Ret None
  ∧ tTestTwoSample X Y None = tTestTwoSample X Y (Some (Fin 0))
  ∧ ∀ mX mY vX vY,
      X ≠ [] → Y ≠ [] →
      mean X = Ret mX → mean Y = Ret mY →
      sampleVariance Math_pow X = Ret vX →
      sampleVariance Math_pow Y = Ret vY →
      tTestTwoSample X Y None
      = Ret (Some (t_statistic Math_sqrt (length X) (length Y) mX mY vX vY (Fin 0))).
Proof.
  split; [reflexivity|]. split.
  { unfold TTest.tTestTwoSample. by destruct X. }
  split; [reflexivity|].
  intros mX mY vX vY HX HY EmX EmY EvX EvY.
  by rewrite (tTestTwoSample_statistic X Y None mX mY vX vY).
Qed.
End Math.

(** The example of the documentation,
    [tTestTwoSample([1, 2, 3, 4], [3, 4, 5, 6], 0)], with the difference
    left out and the identity standing for [Math.sqrt]: the means are 2.5
    and 4.5 and both sample variances are the double nearest to 5/3. *)
Lemma tTestTwoSample_null_and_default_witness :
  tTestTwoSample (fun x => x) (fun x _ => x)
    (map vnum [1; 2; 3; 4]%Q) (map vnum [3; 4; 5; 6]%Q) None
  = Ret (Some (t_statistic (fun x => x) 4 4 (Fin (5 # 2)) (Fin (9 # 2))
                 (Binary64.div (Fin 5) (Fin 3)) (Binary64.div (Fin 5) (Fin 3))
                 (Fin 0))).
Proof.
  destruct (tTestTwoSample_null_and_default (fun x => x) (fun x _ => x)
              (map vnum [1; 2; 3; 4]%Q) (map vnum [3; 4; 5; 6]%Q) None)
    as (_ & _ & _ & H).
  rewrite (H (Fin (5 # 2)) (Fin (9 # 2))
             (Binary64.div (Fin 5) (Fin 3)) (Binary64.div (Fin 5) (Fin 3)));
    try (by vm_compute); discriminate.
Defined.
End TTestFacts.

Module WilcoxonFacts.
Import Wilcoxon.

(** C1 (wilcoxonRankSum): on the pooled values 1, 1, 2, 2 the second group
    of ties is averaged together with the first one, whose ranks are still
    in [tiedRanks]: the ranks come out as 2.5, 2.5, 3, 2.5, the two rank
    sums are 5 and 5.5, and their total 10.5 is not [n(n+1)/2 = 10]. *)
Theorem wilcoxon_rank_mass_not_preserved :
  let n := 4%Q in
  (map (fun e => qadd (e_rank e) 1) <$> ranked_pool [1; 1]%Q [2; 2]%Q)
  = Ret [5 # 2; 5 # 2; 3; 5 # 2]%Q
  ∧ wilcoxonRankSum [1; 1]%Q [2; 2]%Q = Ret 5%Q
  ∧ wilcoxonRankSum [2; 2]%Q [1; 1]%Q = Ret (11 # 2)%Q
  ∧ ¬ (5 + (11 # 2) == n * (n + 1) / 2)%Q.
Proof. repeat split. intros H. discriminate H. Qed.
End WilcoxonFacts.

Module ModeFacts.
Import Descriptive.

(** C4 (mode): in [1, 1, 2, 2] the values 1 and 2 both occur twice; [mode]
    and [modeFast] answer 1, the first value to reach the highest count,
    not the value seen last (2). *)
Theorem mode_tie_keeps_first :
  mode [1; 1; 2; 2]%Q = Ret (vnum 1)
  ∧ mode [2; 1; 2; 1]%Q = Ret (vnum 1)
  ∧ modeSorted (map vnum [1; 1; 2; 2]%Q) = Ret (vnum 1)
  ∧ modeFast [1; 1; 2; 2]%Q = Ret (vnum 1).
Proof. repeat split. Qed.
End ModeFacts.

Module PermutationFacts.
Import Descriptive Permutation.

Lemma mean_throws (x : list val) (e : error) :
  mean x = Throw e → e = empty_sample_error.
Proof.
  unfold mean. destruct (_ =? _)%nat; intros H;
    [by injection H as <-|discriminate H].
Qed.

(** Splits a membership in an explicit list into its cases. *)
Ltac elem_cases H :=
  repeat (apply elem_of_cons in H as [H|H]; [try done; try discriminate H|]);
  try (by apply elem_of_nil in H).

Lemma bind_throws {A B} (r : result A) (k : A → result B) (e : error) :
  r ≫= k = Throw e → r = Throw e ∨ ∃ a, r = Ret a ∧ k a = Throw e.
Proof.
  destruct r as [a| |]; cbn; intros H;
    [right; eauto|left; congruence|discriminate H].
Qed.

Section Random.
Context {RS : Type} (Math_random : RS → Q * RS).

Lemma perm_loop_throws randomSource todo allData midIndex (rs : RS) e :
  perm_loop Math_random randomSource todo allData midIndex rs = Throw e →
  e = empty_sample_error.
Proof.
  revert allData rs. induction todo as [|todo IH]; intros allData rs; [done|].
  cbn [perm_loop]. destruct (shuffleInPlace _ _ _ _) as [allData' rs'].
  intros H. apply bind_throws in H as [H|(mL & _ & H)];
    [by apply mean_throws in H|].
  apply bind_throws in H as [H|(mR & _ & H)]; [by apply mean_throws in H|].
  apply bind_throws in H as [H|([rest rs''] & _ & H)];
    [by apply IH in H|discriminate H].
Qed.

Lemma permutationTest_accepted (sampleX sampleY : list val)
    (alternative : option string) (k : option Z) randomSource (rs : RS) e :
  default "two_side"%string alternative ∈ accepted_alternatives →
  permutationTest Math_random sampleX sampleY alternative k randomSource rs
  = Throw e →
  e ≠ alternative_error.
Proof.
  intros Ha. unfold permutationTest.
  set (a := default "two_side"%string alternative) in *.
  assert (negb (String.eqb a "two_side") && negb (String.eqb a "greater")
          && negb (String.eqb a "less") = false) as ->.
  { unfold accepted_alternatives in Ha.
    destruct (String.eqb_spec a "two_side"); [done|].
    destruct (String.eqb_spec a "greater"); [done|].
    destruct (String.eqb_spec a "less"); [done|]. elem_cases Ha. }
  intros H. apply bind_throws in H as [H|(mX & _ & H)];
    [apply mean_throws in H; by subst e|].
  apply bind_throws in H as [H|(mY & _ & H)];
    [apply mean_throws in H; by subst e|].
  destruct (_ <? 0); [by injection H as <-|].
  apply bind_throws in H as [H|([d rs'] & _ & H)]; [|discriminate H].
  apply perm_loop_throws in H. by subst e.
Qed.

(** C2 (permutationTest), as the code has it: the call ends in the error
    about [alternative] exactly when a selector is given that is none of
    ["two_side"], ["greater"] and ["less"]; an omitted selector stands for
    ["two_side"], and ["two-sided"] is among the rejected ones. *)
Theorem permutationTest_alternatives (sampleX sampleY : list val)
    (alternative : option string) (k : option Z)
    (randomSource : option (RS → Q * RS)) (rs : RS) :
  (permutationTest Math_random sampleX sampleY alternative k randomSource rs
   = Throw alternative_error
   ↔ ∃ a, alternative = Some a ∧ a ∉ accepted_alternatives)
  ∧ "two-sided"%string ∉ accepted_alternatives.
Proof.
  split.
  2:{ unfold accepted_alternatives. intros H. elem_cases H. }
  destruct (decide (default "two_side"%string alternative
                    ∈ accepted_alternatives)) as [Ha|Ha].
  - split.
    + intros H. by apply permutationTest_accepted in H.
    + intros (a & -> & Hn). done.
  - assert (∃ a, alternative = Some a ∧ a ∉ accepted_alternatives) as Hex.
    { destruct alternative as [a|]; [by exists a|].
      exfalso. apply Ha. apply elem_of_cons. by left. }
    split; [done|]. intros _. destruct Hex as (a & -> & Hn).
    unfold permutationTest, accepted_alternatives in *. cbn [default from_option id].
    destruct (String.eqb_spec a "two_side") as [->|];
      [exfalso; apply Hn; repeat constructor|].
    destruct (String.eqb_spec a "greater") as [->|];
      [exfalso; apply Hn; repeat constructor|].
    destruct (String.eqb_spec a "less") as [->|];
      [exfalso; apply Hn; repeat constructor|].
    reflexivity.
Qed.
End Random.

(** C2, the claim as stated fails: with the selector ["two-sided"] the call
    throws, whatever the samples; here [permutationTest([2, 5, 3], [20, 5,
    13], "two-sided")] with a generator that always draws 0. *)
Lemma permutationTest_rejects_two_sided :
  permutationTest (RS := unit) (fun u => (0%Q, u))
    (map vnum [2; 5; 3]%Q) (map vnum [20; 5; 13]%Q)
    (Some "two-sided"%string) None None tt
  = Throw alternative_error.
Proof. reflexivity. Qed.
End PermutationFacts.

Module ChiSquaredFacts.
Import ChiSquared.

(** C6 (chiSquaredGoodnessOfFit), on [sample_counts] and [five_classes]:
    the class 1, with 2 expected
    observations, is not the last one when the loop reaches it.  The code
    adds it to class 0 and then pops the last class: class 4 and its 30
    observations disappear, class 1 stays, the statistic is 2.4 and the
    answer is [false].  Merging class 1 into class 0 gives the classes
    (22, 30, 30, 18) against (22, 24, 24, 30), whose statistic 10.4 is above
    the critical value 5.99 for 2 degrees of freedom at 0.05. *)
Theorem chiSquared_collapse_drops_last_class :
  let '(expected, observed) :=
    histograms sample_counts (five_classes NaN) in
  arr_to_list expected = map vnum [22; 2; 30; 30]%Q
  ∧ arr_to_list observed = map vnum [22; 2; 24; 24]%Q
  ∧ chi_statistic observed expected = Fin (12 # 5)
  ∧ chiSquaredGoodnessOfFit sample_counts five_classes 0.05 = Ret false
  ∧ merge_low_classes [20; 2; 30; 30; 18]%Q [20; 2; 24; 24; 30]%Q
    = [(22, 22); (30, 24); (30, 24); (18, 30)]%Q
  ∧ chi_of_classes [(22, 22); (30, 24); (30, 24); (18, 30)]%Q = (52 # 5)%Q
  ∧ (table_row chiSquaredDistributionTable 2
       ≫= fun row => row_cell significance_levels row 0.05) = Some 5.99%Q
  ∧ qlt 5.99 (52 # 5) = true.
Proof. vm_compute. repeat split. Qed.
End ChiSquaredFacts.

Module QuantileFacts.
Import Quantile.

(** ** Arrays built from lists *)

Lemma arr_of_list_from_lookup {A} (l : list (option A)) (from i : Z) :
  arr_of_list_from from l !! i
  = if i <? from then None else mjoin (l !! Z.to_nat (i - from)).
Proof.
  revert from. induction l as [|v l IH]; intros from; cbn [arr_of_list_from].
  - rewrite lookup_empty. by destruct (i <? from).
  - assert (arr_of_list_from (from + 1) l !! i
            = if i <=? from then None
              else mjoin ((v :: l) !! Z.to_nat (i - from))) as Hrest.
    { rewrite IH. destruct (Z.ltb_spec i (from + 1)), (Z.leb_spec i from);
        try lia; [done|].
      replace (Z.to_nat (i - from)) with (S (Z.to_nat (i - (from + 1)))) by lia.
      done. }
    destruct v as [v|].
    + destruct (decide (from = i)) as [->|Hne].
      * rewrite lookup_insert_eq, Z.ltb_irrefl, Z.sub_diag. done.
      * rewrite lookup_insert_ne, Hrest by done.
        destruct (Z.leb_spec i from), (Z.ltb_spec i from); try lia; done.
    + rewrite Hrest.
      destruct (Z.leb_spec i from), (Z.ltb_spec i from); try lia; try done.
      assert (i = from) as -> by lia. by rewrite Z.sub_diag.
Qed.

Lemma arr_get_of_list (l : list num) (i : Z) :
  0 <= i → arr_get (arr_of_list (map Some l)) i = l !! Z.to_nat i.
Proof.
  intros Hi. unfold arr_get, arr_of_list. cbn [elems].
  rewrite arr_of_list_from_lookup.
  destruct (Z.ltb_spec i 0); [lia|]. rewrite Z.sub_0_r, list_lookup_fmap.
  by destruct (l !! Z.to_nat i).
Qed.

Lemma len_of_list (l : list num) :
  len (arr_of_list (map Some l)) = Z.of_nat (length l).
Proof. unfold arr_of_list. cbn [len]. by rewrite length_map. Qed.

(** ** Comparisons as propositions *)

Lemma qlt_spec (a b : Q) : reflect (a < b)%Q (qlt a b).
Proof.
  unfold qlt. destruct (Qle_bool b a) eqn:E; constructor.
  - apply Qle_bool_iff in E. by apply Qle_not_lt.
  - apply Qnot_le_lt. intros H. apply Qle_bool_iff in H. congruence.
Qed.

Lemma qeq_spec (a b : Q) : reflect (a == b)%Q (qeq a b).
Proof.
  unfold qeq. destruct (Qeq_bool a b) eqn:E; constructor.
  - by apply Qeq_bool_eq.
  - by apply Qeq_bool_neq.
Qed.

Lemma q_is_int_floor (a : Q) :
  q_is_int a = true → (a == inject_Z (Qfloor a))%Q.
Proof. unfold q_is_int. intros H%Qeq_bool_eq. by symmetry. Qed.

(** ** The index [x.length * p] for a double [p] with [0 < p < 1] *)

Section Index.
Context (n : Z) (p : Q) (Hn : 0 < n < 2 ^ 53).
Context (Hd : Binary64.is_double p) (Hp0 : (0 < p)%Q) (Hp1 : (p < 1)%Q).

Let idx : Q := Binary64.times (qofZ n) p.

Lemma idx_pos : (0 < idx)%Q.
Proof. by apply Binary64Facts.times_range. Qed.

Lemma idx_below : (idx < inject_Z n)%Q.
Proof. by apply Binary64Facts.times_range. Qed.

Lemma ceiling_index_range : 0 <= Qceiling idx - 1 < n.
Proof.
  split.
  - assert (0 < Qceiling idx); [|lia].
    rewrite Zlt_Qlt. eapply Qlt_le_trans; [apply idx_pos|apply Qle_ceiling].
  - rewrite Zlt_Qlt. eapply Qlt_trans; [apply Qceiling_lt|apply idx_below].
Qed.

Lemma integer_index_range : q_is_int idx = true → 1 <= Qfloor idx < n.
Proof.
  intros Hint%q_is_int_floor. split.
  - assert (0 < Qfloor idx); [|lia].
    rewrite Zlt_Qlt, <- Hint. apply idx_pos.
  - rewrite Zlt_Qlt, <- Hint. apply idx_below.
Qed.
End Index.

(** ** quantileSorted on an array built from a list *)

Section Sorted.
Context (l : list num) (p : Q).

Let x : jsarr num := arr_of_list (map Some l).
Let n : Z := Z.of_nat (length l).
Let idx : Q := Binary64.times (qofZ n) p.

Lemma quantileSorted_first :
  l ≠ [] → (p == 0)%Q → quantileSorted x p = Ret (l !! 0%nat).
Proof.
  intros Hl Hp. unfold quantileSorted, x. rewrite len_of_list.
  destruct (Z.eqb_spec (Z.of_nat (length l)) 0) as [E|_];
    [by destruct l|].
  destruct (qlt_spec p 0) as [H|_]; [rewrite Hp in H; by apply Qlt_irrefl in H|].
  destruct (qlt_spec 1 p) as [H|_]; [rewrite Hp in H; done|]. cbn [orb].
  destruct (qeq_spec p 1) as [H|_]; [rewrite Hp in H; done|].
  destruct (qeq_spec p 0) as [_|H]; [|done].
  by rewrite arr_get_of_list.
Qed.

Lemma quantileSorted_last :
  l ≠ [] → (p == 1)%Q →
  quantileSorted x p = Ret (l !! (length l - 1)%nat).
Proof.
  intros Hl Hp. unfold quantileSorted, x. rewrite len_of_list.
  destruct (Z.eqb_spec (Z.of_nat (length l)) 0) as [E|_];
    [by destruct l|].
  destruct (qlt_spec p 0) as [H|_]; [rewrite Hp in H; done|].
  destruct (qlt_spec 1 p) as [H|_]; [rewrite Hp in H; by apply Qlt_irrefl in H|].
  cbn [orb]. destruct (qeq_spec p 1) as [_|H]; [|done].
  rewrite arr_get_of_list by (destruct l; [done|cbn [length]; lia]).
  do 2 f_equal. lia.
Qed.

Context (Hp0 : (0 < p)%Q) (Hp1 : (p < 1)%Q) (Hl : l ≠ []).

Lemma quantileSorted_inner :
  quantileSorted x p
  = if negb (q_is_int idx) then Ret (arr_get x (Qceiling idx - 1))
    else if Z.even n then
      Ret (Some (Binary64.div
                   (Binary64.add (to_num (arr_get x (Qfloor idx - 1)))
                                 (to_num (arr_get x (Qfloor idx))))
                   (Fin 2)))
    else Ret (arr_get x (Qfloor idx)).
Proof.
  unfold quantileSorted, x. rewrite len_of_list.
  destruct (Z.eqb_spec (Z.of_nat (length l)) 0) as [E|_];
    [by destruct l|].
  destruct (qlt_spec p 0) as [H|_];
    [exfalso; apply Qlt_not_le in H; apply H; by apply Qlt_le_weak|].
  destruct (qlt_spec 1 p) as [H|_];
    [exfalso; apply Qlt_not_le in H; apply H; by apply Qlt_le_weak|].
  cbn [orb].
  destruct (qeq_spec p 1) as [H|_];
    [rewrite H in Hp1; by apply Qlt_irrefl in Hp1|].
  destruct (qeq_spec p 0) as [H|_];
    [rewrite H in Hp0; by apply Qlt_irrefl in Hp0|].
  done.
Qed.

Lemma n_pos : 0 < n.
Proof. unfold n. destruct l; [done|cbn [length]; lia]. Qed.

Context (Hsize : n < 2 ^ 53) (Hd : Binary64.is_double p).

Lemma quantileSorted_ceiling :
  q_is_int idx = false →
  quantileSorted x p = Ret (l !! Z.to_nat (Qceiling idx - 1))
  ∧ 0 <= Qceiling idx - 1 < n.
Proof.
  intros Hint.
  pose proof (ceiling_index_range n p (conj n_pos Hsize) Hd Hp0 Hp1) as Hr.
  split; [|done]. rewrite quantileSorted_inner. fold idx. rewrite Hint.
  cbn [negb]. unfold x. rewrite arr_get_of_list; [done|]. apply Hr.
Qed.

Lemma quantileSorted_even :
  q_is_int idx = true → Z.even n = true →
  quantileSorted x p
  = Ret (Some (Binary64.div
                 (Binary64.add (to_num (l !! Z.to_nat (Qfloor idx - 1)))
                               (to_num (l !! Z.to_nat (Qfloor idx))))
                 (Fin 2)))
  ∧ 1 <= Qfloor idx < n.
Proof.
  intros Hint Hev.
  pose proof (integer_index_range n p (conj n_pos Hsize) Hd Hp0 Hp1 Hint) as Hr.
  split; [|done]. rewrite quantileSorted_inner. fold idx. rewrite Hint, Hev.
  cbn [negb]. unfold x. rewrite !arr_get_of_list; [done|unfold idx; lia..].
Qed.

Lemma quantileSorted_odd :
  q_is_int idx = true → Z.even n = false →
  quantileSorted x p = Ret (l !! Z.to_nat (Qfloor idx))
  ∧ 1 <= Qfloor idx < n.
Proof.
  intros Hint Hev.
  pose proof (integer_index_range n p (conj n_pos Hsize) Hd Hp0 Hp1 Hint) as Hr.
  split; [|done]. rewrite quantileSorted_inner. fold idx. rewrite Hint, Hev.
  cbn [negb]. unfold x. rewrite !arr_get_of_list; [done|unfold idx; lia..].
Qed.
End Sorted.
End QuantileFacts.

Module QuantileFrame.
Import Quantile.

Lemma frame_ret {A} x (a : A) : frame x (mret a).
Proof. by intros h. Qed.

Lemma frame_ret' {A} x (a : A) : frame x (ret a).
Proof. by intros h. Qed.

Lemma frame_out_of_fuel {A} x : frame x (@out_of_fuel A).
Proof. by intros h. Qed.

Lemma frame_lift {A} x (r : result A) : frame x (lift r).
Proof. by intros h. Qed.

Lemma frame_bind {A B} x (m : M A) (k : A → M B) :
  frame x m → (∀ a, frame x (k a)) → frame x (m ≫= k).
Proof.
  intros Hm Hk h. unfold mbind, M_bind, seq_bind. specialize (Hm h).
  destruct (m h) as [[a| |] h']; cbn [snd] in *; [|done..].
  by rewrite Hk.
Qed.

Lemma frame_load x arr i : frame x (load arr i).
Proof. intros h. unfold load. by destruct (h !! arr). Qed.

Lemma frame_length_of x arr : frame x (length_of arr).
Proof. intros h. unfold length_of. by destruct (h !! arr). Qed.

Lemma frame_read x arr : frame x (read arr).
Proof. intros h. unfold read. by destruct (h !! arr). Qed.

Lemma frame_store x arr i v : arr ≠ x → frame x (store arr i v).
Proof.
  intros Hne h. unfold store. destruct (h !! arr); [|done].
  cbn [snd]. by rewrite lookup_insert_ne.
Qed.

(** Discharges [frame] goals over sequences of the operations above. *)
Ltac frame_step :=
  first
    [ apply frame_ret | apply frame_ret' | apply frame_out_of_fuel
    | apply frame_lift | apply frame_load | apply frame_length_of
    | apply frame_read | apply frame_store; assumption
    | apply frame_bind; [|intros ?] ].

Section Frame.
Context (x arr : loc) (Hne : arr ≠ x).

Lemma frame_swap i j : frame x (swap arr i j).
Proof. unfold swap. repeat frame_step. Qed.

Lemma frame_scan_up fuel t i : frame x (scan_up fuel arr t i).
Proof.
  revert i. induction fuel as [|fuel IH]; intros i; cbn [scan_up];
    repeat frame_step.
  destruct (vlt _ _); [apply IH|frame_step].
Qed.

Lemma frame_scan_down fuel t j : frame x (scan_down fuel arr t j).
Proof.
  revert j. induction fuel as [|fuel IH]; intros j; cbn [scan_down];
    repeat frame_step.
  destruct (vgt _ _); [apply IH|frame_step].
Qed.

Lemma frame_partition_loop fuel t i j :
  frame x (partition_loop fuel arr t i j).
Proof.
  revert i j. induction fuel as [|fuel IH]; intros i j;
    cbn [partition_loop]; [frame_step|].
  destruct (i <? j); [|frame_step].
  apply frame_bind; [apply frame_swap|intros _].
  apply frame_bind; [apply frame_scan_up|intros i'].
  apply frame_bind; [apply frame_scan_down|intros j'].
  apply IH.
Qed.

Lemma frame_right_or_last right : frame x (right_or_last arr right).
Proof. unfold right_or_last. destruct (right =? 0); repeat frame_step. Qed.

Context (Math_log Math_exp Math_sqrt : Q → Q).

Lemma frame_quickselect_loop fuel k left right :
  frame x (quickselect_loop Math_log Math_exp Math_sqrt fuel arr k left right).
Proof.
  revert k left right. induction fuel as [|fuel IH]; intros k left right;
    cbn [quickselect_loop]; [frame_step|].
  destruct (left <? right); [|frame_step].
  apply frame_bind.
  { destruct (600 <? right - left); [|frame_step].
    destruct (sample_bounds _ _ _ _ _ _) as [newLeft newRight].
    apply frame_bind; [apply frame_right_or_last|intros newRight'].
    apply IH. }
  intros _. apply frame_bind; [apply frame_load|intros t].
  apply frame_bind; [apply frame_swap|intros _].
  apply frame_bind; [apply frame_load|intros ar].
  apply frame_bind; [destruct (vgt ar t); [apply frame_swap|frame_step]|].
  intros _. apply frame_bind; [apply frame_partition_loop|intros [i j]].
  apply frame_bind; [apply frame_load|intros al].
  apply frame_bind.
  { destruct (veq al t);
      (apply frame_bind; [apply frame_swap|intros _; frame_step]). }
  intros j'. apply IH.
Qed.

Lemma frame_quickselect fuel k left right :
  frame x (quickselect Math_log Math_exp Math_sqrt fuel arr k left right).
Proof.
  unfold quickselect.
  apply frame_bind; [apply frame_right_or_last|intros right'].
  apply frame_quickselect_loop.
Qed.

Lemma frame_quantileSelect fuel k left right :
  frame x (quantileSelect Math_log Math_exp Math_sqrt fuel arr k left right).
Proof.
  unfold quantileSelect. destruct (q_is_int k); [apply frame_quickselect|].
  apply frame_bind; [apply frame_quickselect|intros _].
  apply frame_quickselect.
Qed.

Lemma frame_multi_loop fuel indices stack :
  frame x (multi_loop Math_log Math_exp Math_sqrt fuel arr indices stack).
Proof.
  revert stack. induction fuel as [|fuel IH]; intros stack;
    cbn [multi_loop]; [frame_step|].
  destruct stack as [|[l r] stack]; [frame_step|].
  destruct (r - l <=? 1); [apply IH|].
  apply frame_bind; [apply frame_quantileSelect|intros _]. apply IH.
Qed.

Lemma frame_multiQuantileSelect fuel p :
  frame x (multiQuantileSelect Math_log Math_exp Math_sqrt fuel arr p).
Proof.
  unfold multiQuantileSelect.
  apply frame_bind; [apply frame_length_of|intros n].
  apply frame_multi_loop.
Qed.
End Frame.

Section Quantile.
Context (Math_log Math_exp Math_sqrt : Q → Q).

Local Abbreviation quantile := (quantile Math_log Math_exp Math_sqrt).
Local Abbreviation median := (median Math_log Math_exp Math_sqrt).
Local Abbreviation quickselect := (quickselect Math_log Math_exp Math_sqrt).

(** C9 (quantile): whatever the store [h], the array [x], the argument [p]
    (a number or an array of numbers), the fuel and the outcome, the
    array found at [x] after [quantile(x, p)] is the one that was there
    before; [quickselect] itself does rearrange the array it is given, as
    on the array [10, 2, 5, 100, 2, 1]. *)
Theorem quantile_leaves_input_unchanged (fuel : nat) (x : loc) (p : parg)
    (h : heap) :
  (quantile fuel x p h).2 !! x = h !! x
  ∧ (quickselect 16 1%positive 3 0 5 (store_of median_example)).2
      !! 1%positive
    = Some (arr_of_list (map vnum [1; 2; 2; 5; 10; 100]%Q)).
Proof.
  split; [|by vm_compute].
  unfold Quantile.quantile, mbind, M_bind, seq_bind at 1, slice_copy.
  destruct (h !! x) as [a|] eqn:Hx; [|exact Hx].
  set (copy := fresh (dom h)).
  assert (copy ≠ x) as Hne.
  { intros E. apply (is_fresh (dom h)). fold copy. rewrite E.
    apply elem_of_dom. by exists a. }
  match goal with
  | |- (?m _).2 !! _ = _ =>
      assert (frame x m) as Hframe
  end.
  { destruct p as [p|ps].
    - apply frame_bind; [apply frame_length_of|intros n].
      apply frame_bind; [by apply frame_quantileSelect|intros _].
      repeat frame_step.
    - apply frame_bind; [by apply frame_multiQuantileSelect|intros _].
      repeat frame_step. }
  rewrite Hframe, lookup_insert_ne by done. exact Hx.
Qed.
End Quantile.
End QuantileFrame.

Module QuantileCases.
Import Quantile QuantileFacts.

Section Cases.
Context (Math_log Math_exp Math_sqrt : Q → Q).

Local Abbreviation quantile := (quantile Math_log Math_exp Math_sqrt).
Local Abbreviation median := (median Math_log Math_exp Math_sqrt).

(** C3 (quantileSorted), as the code has it.  For a non-empty sample [l]
    (as an array [x]) of length [n], with [idx] the product [n * p] in
    doubles and indices counted from zero: [p = 0] gives [x[0]]; [p = 1]
    gives [x[n - 1]]; for [0 < p < 1], a fractional [idx] gives
    [x[ceil(idx) - 1]], an integer [idx] gives the average (in doubles) of
    [x[idx - 1]] and [x[idx]] when [n] is even and [x[idx]], the later of
    the two, when [n] is odd.  When [p] is a double all these indices are
    inside the sample.  [quantile([3, 6, 7, 8, 8, 9, 10, 13, 15, 16, 20],
    0.5)] is 9 and [median([10, 2, 5, 100, 2, 1])] is 3.5.  The product is
    the rounded one: [50 * 0.14] is above 7 in doubles, so on fifty
    elements [p = 0.14] gives [x[7]], and [10 * 0.1] is 1, so on ten
    elements [p = 0.1] gives the average of [x[0]] and [x[1]]. *)
Theorem quantileSorted_cases (l : list num) (p : Q) :
  let x := arr_of_list (map Some l) in
  let n := Z.of_nat (length l) in
  let idx := Binary64.times (qofZ n) p in
  l ≠ [] →
  ((p == 0)%Q → quantileSorted x p = Ret (l !! 0%nat))
  ∧ ((p == 1)%Q → quantileSorted x p = Ret (l !! (length l - 1)%nat))
  ∧ ((0 < p)%Q → (p < 1)%Q →
       quantileSorted x p
       = if negb (q_is_int idx) then Ret (arr_get x (Qceiling idx - 1))
         else if Z.even n then
           Ret (Some (Binary64.div
                        (Binary64.add (to_num (arr_get x (Qfloor idx - 1)))
                                      (to_num (arr_get x (Qfloor idx))))
                        (Fin 2)))
         else Ret (arr_get x (Qfloor idx)))
  ∧ (Binary64.is_double p → n < 2 ^ 53 → (0 < p)%Q → (p < 1)%Q →
       (q_is_int idx = false →
          quantileSorted x p = Ret (l !! Z.to_nat (Qceiling idx - 1))
          ∧ 0 <= Qceiling idx - 1 < n)
       ∧ (q_is_int idx = true → Z.even n = true →
            quantileSorted x p
            = Ret (Some (Binary64.div
                           (Binary64.add
                              (to_num (l !! Z.to_nat (Qfloor idx - 1)))
                              (to_num (l !! Z.to_nat (Qfloor idx))))
                           (Fin 2)))
            ∧ 1 <= Qfloor idx < n)
       ∧ (q_is_int idx = true → Z.even n = false →
            quantileSorted x p = Ret (l !! Z.to_nat (Qfloor idx))
            ∧ 1 <= Qfloor idx < n))
  ∧ (quantile 16 1%positive (PNum 0.5) (store_of deciles_example)).1
    = Ret (QNum (vnum 9))
  ∧ (median 16 1%positive (store_of median_example)).1 = Ret (Fin (7 # 2))
  ∧ quantileSorted (arr_of_list (map Some (first_integers 50)))
      (Binary64.literal 0.14)
    = Ret (vnum 7)
  ∧ quantileSorted (arr_of_list (map Some (first_integers 10)))
      (Binary64.literal 0.1)
    = Ret (vnum (1 # 2)).
Proof.
  intros x n idx Hl.
  split; [by apply quantileSorted_first|].
  split; [by apply quantileSorted_last|].
  split; [intros; by apply quantileSorted_inner|].
  split.
  { intros Hd Hn Hp0 Hp1.
    split; [by apply quantileSorted_ceiling|].
    split; [by apply quantileSorted_even|by apply quantileSorted_odd]. }
  split; [by vm_compute|]. split; [by vm_compute|].
  split; by vm_compute.
Qed.
End Cases.

(** The odd-length case with an integer index: in [1, 2, 3, 4, 5] at
    [p = 0.2] the index is 1 and the result is [x[1] = 2]. *)
Lemma quantileSorted_cases_witness :
  quantileSorted (arr_of_list (map Some (Fin <$> [1; 2; 3; 4; 5]%Q)))
    (Binary64.literal 0.2)
  = Ret (vnum 2)
  ∧ 1 <= Qfloor (Binary64.times (qofZ 5) (Binary64.literal 0.2)) < 5.
Proof.
  refine ((λ H, _)
            (quantileSorted_cases (λ q, q) (λ q, q) (λ q, q)
               (Fin <$> [1; 2; 3; 4; 5]%Q) (Binary64.literal 0.2) _));
    [|discriminate].
  destruct H as (_ & _ & _ & H & _).
  destruct H as (_ & _ & H); [by vm_compute|by vm_compute|by vm_compute
                             |by vm_compute|].
  apply H; by vm_compute.
Defined.

(** C3, the claim as stated fails under either reading of its indices.
    Counting positions from one, "that element" for the odd-length sample
    [1, 2, 3, 4, 5] at [p = 0.2] (index 1) is 1, and the code answers 2.
    Counting indices from zero, "the element at the ceiling index" for the
    eleven-element sample at [p = 0.5] (index 5.5) is [x[6] = 10], and the
    code answers 9. *)
Lemma quantileSorted_not_as_worded :
  quantileSorted (arr_of_list (map Some (Fin <$> [1; 2; 3; 4; 5]%Q)))
    (Binary64.literal 0.2)
  ≠ Ret (quantileSorted_spec 1 (Fin <$> [1; 2; 3; 4; 5]%Q)
           (Binary64.literal 0.2))
  ∧ quantileSorted (arr_of_list (map vnum deciles_example)) 0.5
    ≠ Ret (quantileSorted_spec 0 (Fin <$> deciles_example) 0.5).
Proof. split; vm_compute; discriminate. Qed.
End QuantileCases.

Module KMeansFacts.
Import KMeans.

(** ** Counting in [num] *)

Lemma add_nofnat_1 (c : nat) :
  Z.of_nat c + 1 < 2 ^ 53 → Binary64.add (nofnat c) (Fin 1) = nofnat (S c).
Proof.
  intros Hc. unfold nofnat. change (Fin 1) with (nofZ 1).
  rewrite Binary64Facts.add_integers by lia. f_equal. lia.
Qed.

Lemma neq_nofnat_0 (c : nat) : neq (nofnat c) (Fin 0) = (c =? 0)%nat.
Proof.
  unfold nofnat, nofZ. cbn [neq]. change 0%Q with (qofZ 0). rewrite qeq_ofZ.
  destruct c; [done|]. cbn [Nat.eqb]. apply Z.eqb_neq. lia.
Qed.

(** ** Groups *)

Lemma coordinate_sum_snoc (group : list point) (pt : point) (j : nat) :
  coordinate_sum (group ++ [pt]) j
  = Binary64.add (coordinate_sum group j) (to_num (pt !! j)).
Proof. unfold coordinate_sum. by rewrite fold_left_app. Qed.

Lemma add_point_lookup (dimension : nat) (current pt : point) (j : nat) :
  length current = dimension →
  add_point dimension current pt !! j
  = if (j <? dimension)%nat
    then Some (Binary64.add (to_num (current !! j)) (to_num (pt !! j)))
    else None.
Proof.
  unfold add_point. intros Hlen.
  set (step := fun (cur : point) (j : nat) =>
                 <[j := Binary64.add (to_num (cur !! j)) (to_num (pt !! j))]> cur).
  assert (∀ done,
    (done <= dimension)%nat →
    length (fold_left step (seq 0 done) current) = dimension
    ∧ ∀ j, fold_left step (seq 0 done) current !! j
           = if (j <? done)%nat
             then Some (Binary64.add (to_num (current !! j)) (to_num (pt !! j)))
             else current !! j) as H.
  { induction done as [|done IH]; intros Hle.
    - cbn. split; [done|]. intros j'. done.
    - rewrite seq_S, fold_left_app. cbn [fold_left Nat.add].
      destruct IH as [IHlen IHget]; [lia|]. unfold step at 1 3.
      rewrite length_insert. split; [done|]. intros j'.
      destruct (decide (done = j')) as [<-|Hne].
      + rewrite list_lookup_insert_eq by lia.
        rewrite IHget, Nat.ltb_irrefl.
        destruct (Nat.ltb_spec done (S done)); [done|lia].
      + rewrite list_lookup_insert_ne by done. rewrite IHget.
        destruct (Nat.ltb_spec j' done), (Nat.ltb_spec j' (S done));
          try lia; done. }
  destruct (H dimension) as [_ Hget]; [lia|]. rewrite Hget.
  destruct (Nat.ltb_spec j dimension); [done|].
  apply lookup_ge_None. lia.
Qed.

Lemma add_point_sums (dimension : nat) (group : list point) (pt : point) :
  add_point dimension (sums_of dimension group) pt
  = sums_of dimension (group ++ [pt]).
Proof.
  apply list_eq. intros j.
  rewrite add_point_lookup by (unfold sums_of; by rewrite length_map, length_seq).
  unfold sums_of. rewrite !list_lookup_fmap.
  destruct (Nat.ltb_spec j dimension) as [Hj|Hj].
  - rewrite !lookup_seq_lt by done. cbn. by rewrite coordinate_sum_snoc.
  - by rewrite !lookup_seq_ge by done.
Qed.

Lemma group_mean_sums (dimension : nat) (group : list point) :
  map (fun x => Binary64.div x (nofnat (length group))) (sums_of dimension group)
  = group_mean dimension group.
Proof. unfold sums_of, group_mean. by rewrite map_map. Qed.

Lemma groups_from_lookup points labels (from : Z) (count t : nat) :
  (t < count)%nat →
  groups_from points labels from count !! t
  = Some (group_of points labels (from + Z.of_nat t)).
Proof.
  revert from t. induction count as [|count IH]; intros from t Ht; [lia|].
  cbn [groups_from]. destruct t as [|t]; cbn.
  - by rewrite Z.add_0_r.
  - rewrite IH by lia. do 2 f_equal. lia.
Qed.

Lemma groups_from_length points labels (from : Z) (count : nat) :
  length (groups_from points labels from count) = count.
Proof.
  revert from. induction count as [|count IH]; intros from; cbn; [done|].
  by rewrite IH.
Qed.

Lemma arr_get_set {A} (a : jsarr A) (i j : Z) (v : option A) :
  arr_get (arr_set a i v) j = if decide (i = j) then v else arr_get a j.
Proof.
  unfold arr_get, arr_set. cbn [elems]. destruct v as [v|].
  - rewrite lookup_insert. by destruct (decide (i = j)).
  - rewrite lookup_delete. by destruct (decide (i = j)).
Qed.

(** ** The accumulation loop

    [acc_inv dimension k G centroids counts]: for every label [i] below [k]
    the accumulator row is the sums of the group [G i] and the counter is its
    size. *)

Lemma accumulate_groups (dimension k : nat) (points : list point) :
  ∀ (labels : list Z) (G : Z → list point) (centroids : list point)
    (counts : jsarr num),
    length labels = length points →
    Forall (fun l => 0 <= l < Z.of_nat k) labels →
    (∀ i, Z.of_nat (length (G i)) + Z.of_nat (length points) < 2 ^ 53) →
    acc_inv dimension k G centroids counts →
    ∃ centroids' counts',
      accumulate dimension points labels centroids counts
      = Ret (centroids', counts')
      ∧ acc_inv dimension k (fun i => G i ++ group_of points labels i)
          centroids' counts'.
Proof.
  induction points as [|pt points IH]; intros labels G centroids counts
    Hlen Hrange Hsize [Hk Hinv].
  - exists centroids, counts. split; [done|]. split; [done|].
    intros i Hi. cbn [group_of]. rewrite app_nil_r. by apply Hinv.
  - destruct labels as [|l labels]; [done|]. cbn [accumulate head tail].
    apply Forall_cons in Hrange as [Hl Hrange].
    destruct (Hinv l Hl) as [Hrow Hcount].
    cbn [mbind option_bind]. unfold row_at.
    destruct (Z.ltb_spec l 0) as [?|_]; [lia|]. rewrite Hrow.
    cbn [mbind result_bind]. rewrite add_point_sums, Hcount.
    cbn [to_num].
    rewrite add_nofnat_1 by (specialize (Hsize l); cbn [length] in Hsize; lia).
    set (G' := fun i => if decide (l = i) then G i ++ [pt] else G i).
    destruct (IH labels G'
                (<[Z.to_nat l := sums_of dimension (G l ++ [pt])]> centroids)
                (arr_set counts l (Some (nofnat (S (length (G l)))))))
      as (centroids' & counts' & Hrun & Hk' & Hinv').
    + cbn [length] in Hlen. lia.
    + done.
    + intros i. specialize (Hsize i). cbn [length] in Hsize. unfold G'.
      destruct (decide (l = i)); [rewrite length_app; cbn [length]|]; lia.
    + split; [by rewrite length_insert|]. intros i Hi. unfold G'.
      rewrite arr_get_set. destruct (decide (l = i)) as [->|Hne].
      * rewrite list_lookup_insert_eq by lia. split; [done|].
        rewrite length_app. cbn [length]. do 2 f_equal. lia.
      * rewrite list_lookup_insert_ne by lia. by apply Hinv.
    + exists centroids', counts'. split; [done|]. split; [done|].
      intros i Hi. destruct (Hinv' i Hi) as [Hr Hc]. unfold G' in Hr, Hc.
      cbn [group_of]. destruct (Z.eqb_spec l i) as [->|Hne].
      * destruct (decide (i = i)); [|done].
        rewrite <- app_assoc in Hr, Hc. done.
      * destruct (decide (l = i)); done.
Qed.

(** ** The rescaling loop *)

Lemma rescale_groups (dimension : nat) (counts : jsarr num) :
  ∀ (groups : list (list point)) (cents : list point) (from : Z),
    length cents = length groups →
    (∀ t g, groups !! t = Some g →
            cents !! t = Some (sums_of dimension g)
            ∧ arr_get counts (from + Z.of_nat t) = Some (nofnat (length g))) →
    rescale from cents counts
    = match first_starved from groups with
      | Some i => Throw (no_friends i)
      | None => Ret (map (group_mean dimension) groups)
      end.
Proof.
  induction groups as [|g groups IH]; intros cents from Hlen Hinv.
  - by destruct cents.
  - destruct cents as [|c cents]; [done|].
    destruct (Hinv 0%nat g eq_refl) as [Hc Hcount]. cbn in Hc.
    injection Hc as ->. rewrite Z.add_0_r in Hcount.
    cbn [rescale]. rewrite Hcount. cbn [to_num]. rewrite neq_nofnat_0.
    destruct g as [|pt g]; [done|]. cbn [length Nat.eqb first_starved].
    rewrite (IH cents (from + 1)).
    + destruct (first_starved _ _); [done|]. cbn [mbind result_bind map].
      pose proof (group_mean_sums dimension (pt :: g)) as Hm.
      cbn [length] in Hm. by rewrite Hm.
    + cbn [length] in Hlen. lia.
    + intros t g' Hg'. destruct (Hinv (S t) g' Hg') as [Hr Hcnt].
      split; [done|]. rewrite <- Hcnt. f_equal. lia.
Qed.

(** The accumulator at the start: no point in any group. *)
Lemma acc_inv_start (dimension : nat) (numCluster : Z) :
  0 <= numCluster →
  acc_inv dimension (Z.to_nat numCluster) (fun _ => [])
    (makeMatrix numCluster (Z.of_nat dimension))
    (arr_of_list (replicate (Z.to_nat numCluster) (Some (Fin 0)))).
Proof.
  intros Hk. set (k := Z.to_nat numCluster). split.
  - unfold makeMatrix. by rewrite length_replicate.
  - intros i Hi. unfold makeMatrix. rewrite Nat2Z.id. fold k. split.
    + rewrite lookup_replicate_2 by lia. f_equal. unfold sums_of.
      apply list_eq. intros j. rewrite list_lookup_fmap.
      destruct (Nat.ltb_spec j dimension).
      * rewrite lookup_replicate_2, lookup_seq_lt by done. done.
      * rewrite lookup_seq_ge by done. apply lookup_ge_None.
        by rewrite length_replicate.
    + unfold arr_get, arr_of_list. cbn [elems].
      rewrite QuantileFacts.arr_of_list_from_lookup.
      destruct (Z.ltb_spec i 0); [lia|]. rewrite Z.sub_0_r.
      rewrite lookup_replicate_2 by lia. done.
Qed.

(** A point whose label is [-1] has no row to be added to: the read of
    [centroids[-1][0]] fails. *)
Lemma accumulate_unlabelled (dimension k : nat) (points : list point) :
  ∀ (labels : list Z) (G : Z → list point) (centroids : list point)
    (counts : jsarr num),
    length labels = length points →
    dimension ≠ 0%nat →
    Forall (fun l => -1 <= l < Z.of_nat k) labels →
    Exists (fun l => l = -1) labels →
    (∀ i, Z.of_nat (length (G i)) + Z.of_nat (length points) < 2 ^ 53) →
    acc_inv dimension k G centroids counts →
    accumulate dimension points labels centroids counts = Throw undefined_read.
Proof.
  induction points as [|pt points IH]; intros labels G centroids counts
    Hlen Hdim Hrange Hsome Hsize [Hk Hinv].
  - destruct labels; [by apply Exists_nil in Hsome|done].
  - destruct labels as [|l labels]; [done|]. cbn [accumulate head tail].
    apply Forall_cons in Hrange as [Hl Hrange].
    destruct (decide (l = -1)) as [->|Hne].
    + cbn [mbind option_bind]. unfold row_at. cbn.
      by destruct dimension.
    + apply Exists_cons in Hsome as [?|Hsome]; [done|].
      destruct (Hinv l ltac:(lia)) as [Hrow Hcount].
      cbn [mbind option_bind]. unfold row_at.
      destruct (Z.ltb_spec l 0) as [?|_]; [lia|]. rewrite Hrow.
      cbn [mbind result_bind]. rewrite add_point_sums, Hcount.
      cbn [to_num].
      rewrite add_nofnat_1 by (specialize (Hsize l); cbn [length] in Hsize; lia).
      set (G' := fun i => if decide (l = i) then G i ++ [pt] else G i).
      apply (IH labels G'); [cbn [length] in Hlen; lia|done|done|done| |].
      { intros i. specialize (Hsize i). cbn [length] in Hsize. unfold G'.
        destruct (decide (l = i)); [rewrite length_app; cbn [length]|]; lia. }
      split; [by rewrite length_insert|]. intros i Hi. unfold G'.
      rewrite arr_get_set. destruct (decide (l = i)) as [->|Hne'].
      * rewrite list_lookup_insert_eq by lia. split; [done|].
        rewrite length_app. cbn [length]. do 2 f_equal. lia.
      * rewrite list_lookup_insert_ne by lia. by apply Hinv.
Qed.

Lemma calculateCentroids_unlabelled (p0 : point) (points : list point)
    (labels : list Z) (numCluster : Z) :
  length labels = S (length points) →
  Z.of_nat (S (length points)) < 2 ^ 53 →
  p0 ≠ [] →
  Forall (fun l => -1 <= l < numCluster) labels →
  Exists (fun l => l = -1) labels →
  calculateCentroids (p0 :: points) labels numCluster = Throw undefined_read.
Proof.
  intros Hlen Hsize Hp0 Hrange Hsome. unfold calculateCentroids.
  destruct (Z.ltb_spec numCluster 0) as [Hneg|Hk].
  { destruct labels as [|l labels]; [done|].
    apply Forall_cons in Hrange as [? _]. lia. }
  rewrite (accumulate_unlabelled (length p0) (Z.to_nat numCluster)
             (p0 :: points) labels (fun _ => [])); [done|done| | |done| |].
  - by destruct p0.
  - eapply Forall_impl; [exact Hrange|]. intros l Hl. cbn in Hl. lia.
  - intros _. cbn [length]. lia.
  - by apply acc_inv_start.
Qed.

(** [calculateCentroids] on labels that name clusters: the error of the first
    cluster without a point, or the means of the groups. *)
Lemma calculateCentroids_groups (p0 : point) (points : list point)
    (labels : list Z) (numCluster : Z) :
  length labels = S (length points) →
  Z.of_nat (S (length points)) < 2 ^ 53 →
  Forall (fun l => 0 <= l < numCluster) labels →
  calculateCentroids (p0 :: points) labels numCluster
  = match first_starved 0
            (groups_from (p0 :: points) labels 0 (Z.to_nat numCluster)) with
    | Some i => Throw (no_friends i)
    | None =>
        Ret (map (group_mean (length p0))
               (groups_from (p0 :: points) labels 0 (Z.to_nat numCluster)))
    end.
Proof.
  intros Hlen Hsize Hrange. unfold calculateCentroids.
  destruct (Z.ltb_spec numCluster 0) as [Hneg|Hk].
  { destruct labels as [|l labels]; [done|].
    apply Forall_cons in Hrange as [? _]. lia. }
  set (k := Z.to_nat numCluster). set (dimension := length p0).
  destruct (accumulate_groups dimension k (p0 :: points) labels (fun _ => [])
              (makeMatrix numCluster (Z.of_nat dimension))
              (arr_of_list (replicate k (Some (Fin 0)))))
    as (sums & counts & Hrun & Hk' & Hinv).
  - done.
  - eapply Forall_impl; [exact Hrange|]. intros l Hl. cbn in Hl. lia.
  - intros _. cbn [length]. lia.
  - split.
    + unfold makeMatrix. by rewrite length_replicate.
    + intros i Hi. unfold makeMatrix. rewrite Nat2Z.id. fold k. split.
      * rewrite lookup_replicate_2 by lia. f_equal. unfold sums_of.
        apply list_eq. intros j. rewrite list_lookup_fmap.
        destruct (Nat.ltb_spec j dimension).
        -- rewrite lookup_replicate_2, lookup_seq_lt by done. done.
        -- rewrite lookup_seq_ge by done. apply lookup_ge_None.
           by rewrite length_replicate.
      * unfold arr_get, arr_of_list. cbn [elems].
        rewrite QuantileFacts.arr_of_list_from_lookup.
        destruct (Z.ltb_spec i 0); [lia|]. rewrite Z.sub_0_r.
        rewrite lookup_replicate_2 by lia. done.
  - rewrite Hrun. cbn [mbind result_bind].
    apply rescale_groups.
    + rewrite groups_from_length. by rewrite Hk'.
    + intros t g Hg.
      assert (t < k)%nat as Ht.
      { apply lookup_lt_Some in Hg. by rewrite groups_from_length in Hg. }
      rewrite groups_from_lookup in Hg by done. injection Hg as <-.
      destruct (Hinv (Z.of_nat t)) as [Hr Hc]; [lia|].
      rewrite Nat2Z.id in Hr. cbn [app] in Hr, Hc. done.
Qed.
End KMeansFacts.

Module NumOrder.
Import QuantileFacts.

(** ** The order of [num] *)

Lemma nlt_irrefl (a : num) : nlt a a = false.
Proof.
  destruct a as [x| | |]; cbn; try done.
  destruct (qlt_spec x x) as [H|_]; [by apply Qlt_irrefl in H|done].
Qed.

Lemma nlt_trans (a b c : num) :
  nlt a b = true → nlt b c = true → nlt a c = true.
Proof.
  destruct a as [x| | |], b as [y| | |], c as [z| | |]; cbn; try done.
  destruct (qlt_spec x y), (qlt_spec y z), (qlt_spec x z); try done.
  exfalso. eauto using Qlt_trans.
Qed.

Lemma nlt_neq_l (a b c : num) : neq a b = true → nlt a c = nlt b c.
Proof.
  destruct a as [x| | |], b as [y| | |], c as [z| | |]; cbn; try done.
  intros E%Qeq_bool_eq. unfold qlt. by rewrite E.
Qed.

Lemma nle_false (a b : num) :
  nlt a b = false → neq a b = false → nle a b = false.
Proof. unfold nle. by intros -> ->. Qed.
End NumOrder.

Module KMeansLabels.
Import KMeans NumOrder.

Section Math.
Context (Math_sqrt : num → num).

Local Abbreviation euclideanDistance := (euclideanDistance Math_sqrt).
Local Abbreviation nearest := (nearest Math_sqrt).
Local Abbreviation labelPoints := (labelPoints Math_sqrt).

Lemma nearest_inv (p : point) (cs : list (option point)) :
  ∀ (seen : list num) (minDist : num) (label label' : Z),
    best_so_far seen minDist label →
    nearest p cs (Z.of_nat (length seen)) minDist label = Ret label' →
    ∃ dists minDist',
      Forall2 (fun c d => euclideanDistance p c = Ret d) cs dists
      ∧ best_so_far (seen ++ dists) minDist' label'.
Proof.
  induction cs as [|c cs IH]; intros seen minDist label label' Hinv Hrun.
  - injection Hrun as <-. exists [], minDist. split; [constructor|].
    by rewrite app_nil_r.
  - cbn [KMeans.nearest] in Hrun.
    destruct (euclideanDistance p c) as [d| |] eqn:Hd; [|done..].
    cbn [mbind result_bind] in Hrun.
    replace (Z.of_nat (length seen) + 1) with (Z.of_nat (length (seen ++ [d])))
      in Hrun by (rewrite length_app; cbn [length]; lia).
    assert (best_so_far (seen ++ [d])
              (if nlt d minDist then d else minDist)
              (if nlt d minDist then Z.of_nat (length seen) else label))
      as Hinv'.
    { destruct (nlt d minDist) eqn:Hlt.
      - right. split; [lia|]. split.
        { rewrite Nat2Z.id. by rewrite lookup_app_r, Nat.sub_diag. }
        assert (nlt d MAX_VALUE = true) as HdM.
        { destruct Hinv as [(_ & -> & _)|(_ & _ & HmM & _)]; [done|].
          eauto using nlt_trans. }
        assert (∀ j d', seen !! j = Some d' → nlt d' d = false) as Hseen.
        { intros j d' Hj. destruct (nlt d' d) eqn:E; [|done].
          assert (nlt d' minDist = true) as Hc by eauto using nlt_trans.
          destruct Hinv as [(_ & -> & Hall)|(_ & _ & _ & Hall & _)].
          - rewrite Forall_forall in Hall.
            rewrite (Hall d') in Hc; [done|]. by eapply list_elem_of_lookup_2.
          - by rewrite (Hall j d' Hj) in Hc. }
        split; [done|]. split.
        + intros j d' Hj. apply lookup_app_Some in Hj as [Hj|[_ Hj]].
          * by eapply Hseen.
          * apply list_lookup_singleton_Some in Hj as [_ <-].
            apply nlt_irrefl.
        + intros j d' Hjl Hj. rewrite lookup_app_l in Hj by lia.
          apply nle_false; [by eapply Hseen|].
          destruct (neq d' d) eqn:E; [|done].
          rewrite <- (nlt_neq_l d' d minDist E) in Hlt.
          destruct Hinv as [(_ & -> & Hall)|(_ & _ & _ & Hall & _)].
          * rewrite Forall_forall in Hall.
            rewrite (Hall d') in Hlt; [done|]. by eapply list_elem_of_lookup_2.
          * by rewrite (Hall j d' Hj) in Hlt.
      - destruct Hinv as [(-> & -> & Hall)|(Hl & Hget & HmM & Hall & Hfirst)].
        + left. split; [done|]. split; [done|].
          apply Forall_app. split; [done|]. by repeat constructor.
        + right. split; [done|]. split.
          { rewrite lookup_app_l; [done|]. by eapply lookup_lt_Some. }
          split; [done|]. split.
          * intros j d' Hj. apply lookup_app_Some in Hj as [Hj|[_ Hj]].
            -- by eapply Hall.
            -- by apply list_lookup_singleton_Some in Hj as [_ <-].
          * intros j d' Hjl Hj.
            assert (Z.to_nat label < length seen)%nat
              by by eapply lookup_lt_Some.
            rewrite lookup_app_l in Hj by lia. by eapply Hfirst. }
    destruct (nlt d minDist);
      destruct (IH _ _ _ _ Hinv' Hrun) as (dists & m' & Hds & Hbest);
      exists (d :: dists), m'; rewrite <- app_assoc in Hbest;
      (split; [by constructor|done]).
Qed.

(** The label of a point names the first of its nearest centroids, or is
    [-1] when no centroid is nearer than [Number.MAX_VALUE]. *)
Lemma nearest_is_nearest (p : point) (cs : list (option point)) (label : Z) :
  nearest p cs 0 MAX_VALUE (-1) = Ret label →
  ∃ dists minDist,
    Forall2 (fun c d => euclideanDistance p c = Ret d) cs dists
    ∧ best_so_far dists minDist label.
Proof.
  intros Hrun. apply (nearest_inv p cs [] MAX_VALUE (-1) label); [|done].
  left. split; [done|]. split; [done|]. constructor.
Qed.

Lemma labelPoints_nearest (points : list point) (cs : list (option point))
    (labels : list Z) :
  labelPoints points cs = Ret labels →
  Forall2 (fun p label => nearest p cs 0 MAX_VALUE (-1) = Ret label)
    points labels.
Proof.
  revert labels. induction points as [|p points IH]; intros labels Hrun.
  - injection Hrun as <-. constructor.
  - cbn [KMeans.labelPoints] in Hrun.
    destruct (nearest p cs 0 MAX_VALUE (-1)) as [l| |] eqn:Hl; [|done..].
    cbn [mbind result_bind] in Hrun.
    destruct (labelPoints points cs) as [ls| |] eqn:Hls; [|done..].
    injection Hrun as <-. constructor; [done|]. by apply IH.
Qed.

(** *** The distance, said without indices *)

Lemma squares_fold (a : list num) :
  ∀ (b before_a before_b : list num) (sum : num),
    length before_a = length before_b → length a = length b →
    fold_left
      (fun sum i =>
         let diff := Binary64.sub (to_num ((before_a ++ a) !! i))
                          (to_num ((before_b ++ b) !! i)) in
         Binary64.add sum (Binary64.mul diff diff))
      (seq (length before_a) (length a)) sum
    = fold_left (fun sum d => Binary64.add sum (Binary64.mul d d)) (zip_with Binary64.sub a b) sum.
Proof.
  induction a as [|x a IH]; intros b before_a before_b sum Hbefore Hlen.
  - by destruct b.
  - destruct b as [|y b]; [done|]. cbn [length seq fold_left zip_with].
    rewrite list_lookup_middle by done.
    rewrite list_lookup_middle by done. cbn [to_num].
    specialize (IH b (before_a ++ [x]) (before_b ++ [y])
                  (Binary64.add sum (Binary64.mul (Binary64.sub x y) (Binary64.sub x y)))).
    rewrite <- !app_assoc in IH. cbn [app] in IH.
    rewrite !length_app in IH. cbn [length] in IH.
    rewrite Nat.add_1_r in IH. apply IH; [lia|].
    cbn [length] in Hlen. lia.
Qed.

Lemma euclideanDistance_distance (a b : point) :
  length a = length b →
  euclideanDistance a (Some b) = Ret (distance Math_sqrt a b).
Proof.
  intros Hlen. unfold KMeans.euclideanDistance, distance, squared_distance.
  assert (E : ∀ c : result num,
            match a, Some b with
            | _ :: _, None => Throw undefined_read
            | _, _ => c
            end = c) by (intros c; by destruct a).
  rewrite E. do 2 f_equal. cbn [default].
  exact (squares_fold a b [] [] (Fin 0) eq_refl Hlen).
Qed.

Lemma distances_of (pt : point) (cs : list point) (dists : list num) :
  Forall (fun c => length c = length pt) cs →
  Forall2 (fun c d => euclideanDistance pt c = Ret d) (map Some cs) dists →
  dists = map (distance Math_sqrt pt) cs.
Proof.
  revert dists. induction cs as [|c cs IH]; intros dists Hdim Hds.
  - by apply Forall2_nil_inv_l in Hds.
  - apply Forall_cons in Hdim as [Hc Hdim]. cbn [map] in Hds.
    apply Forall2_cons_inv_l in Hds as (d & dists' & Hd & Hds & ->).
    rewrite euclideanDistance_distance in Hd by done. injection Hd as <-.
    cbn [map]. f_equal. by apply IH.
Qed.

(** With centroids that are there, the labelling returns. *)
Lemma nearest_returns (pt : point) (cs : list point) :
  ∀ (i : Z) (minDist : num) (label : Z),
    ∃ label', nearest pt (map Some cs) i minDist label = Ret label'.
Proof.
  induction cs as [|c cs IH]; intros i minDist label; [by eexists|].
  cbn [map KMeans.nearest].
  assert (∃ d, euclideanDistance pt (Some c) = Ret d) as [d ->].
  { unfold KMeans.euclideanDistance. destruct pt; by eexists. }
  cbn [mbind result_bind]. destruct (nlt d minDist); apply IH.
Qed.

Lemma labelPoints_returns (points : list point) (cs : list point) :
  ∃ labels, labelPoints points (map Some cs) = Ret labels.
Proof.
  induction points as [|pt points [labels IH]]; [by eexists|].
  cbn [KMeans.labelPoints].
  destruct (nearest_returns pt cs 0 MAX_VALUE (-1)) as [label ->].
  cbn [mbind result_bind]. rewrite IH. by eexists.
Qed.

(** A label is [-1] or names a centroid. *)
Lemma best_so_far_range (dists : list num) (minDist : num) (label : Z) :
  best_so_far dists minDist label → -1 <= label < Z.of_nat (length dists).
Proof.
  intros [(-> & _)|(Hl & Hget & _)]; [lia|].
  apply lookup_lt_Some in Hget. lia.
Qed.

(** Every point gets the first of its nearest centroids, by [distance],
    or [-1] when no centroid is nearer than [Number.MAX_VALUE]. *)
Lemma labelPoints_by_distance (dimension : nat) (points cs : list point)
    (labels : list Z) :
  Forall (fun pt => length pt = dimension) points →
  Forall (fun c => length c = dimension) cs →
  labelPoints points (map Some cs) = Ret labels →
  Forall2
    (fun pt label =>
       (∃ minDist,
          best_so_far (map (distance Math_sqrt pt) cs) minDist label)
       ∧ -1 <= label < Z.of_nat (length cs))
    points labels.
Proof.
  intros Hpoints Hcs Hrun. apply labelPoints_nearest in Hrun.
  revert Hpoints. induction Hrun as [|pt label points labels Hl _ IH];
    intros Hpoints; [constructor|].
  apply Forall_cons in Hpoints as [Hpt Hpoints].
  constructor; [|by apply IH].
  destruct (nearest_is_nearest _ _ _ Hl) as (dists & minDist & Hds & Hbest).
  rewrite (distances_of pt cs dists) in Hbest; [| |done].
  - split; [by exists minDist|].
    apply best_so_far_range in Hbest. by rewrite length_map in Hbest.
  - eapply Forall_impl; [exact Hcs|]. intros c Hc. cbn in Hc. congruence.
Qed.

(** *** The total movement *)

Lemma change_loop_movement (new : list point) :
  ∀ (old : list point) (total : num),
    Forall2 (fun a b => length a = length b) new old →
    change_loop Math_sqrt new (map Some old) total
    = Ret (fold_left Binary64.add (zip_with (distance Math_sqrt) new old) total).
Proof.
  induction new as [|a new IH]; intros old total Hshape.
  - by apply Forall2_nil_inv_l in Hshape as ->.
  - apply Forall2_cons_inv_l in Hshape as (b & old' & Hab & Hshape & ->).
    cbn [map change_loop head tail mjoin option_join].
    change (mjoin (Some (Some b))) with (Some b).
    rewrite euclideanDistance_distance by done.
    cbn [mbind result_bind zip_with fold_left]. by apply IH.
Qed.

Lemma calculateChange_movement (new old : list point) :
  Forall2 (fun a b => length a = length b) new old →
  calculateChange Math_sqrt new (map Some old)
  = Ret (movement Math_sqrt new old).
Proof. apply change_loop_movement. Qed.
End Math.
End KMeansLabels.

Module KMeansLoop.
Import Permutation KMeans KMeansFacts KMeansLabels.

Section Math.
Context (Math_sqrt : num → num).
Context {RS : Type} (Math_random : RS → Q * RS).

Local Abbreviation euclideanDistance := (euclideanDistance Math_sqrt).
Local Abbreviation labelPoints := (labelPoints Math_sqrt).
Local Abbreviation calculateChange := (calculateChange Math_sqrt).
Local Abbreviation kmeans_loop := (kmeans_loop Math_sqrt).
Local Abbreviation lloyd_steps := (fun n => lloyd_steps Math_sqrt n).
Local Abbreviation kMeansCluster := (kMeansCluster Math_sqrt Math_random).

(** A result comes out of the turn in which the centroids did not move. *)
Lemma kmeans_loop_returns (points : list point) (numCluster : Z) (fuel : nat) :
  ∀ (cs : list (option point)) (r : kMeansReturn),
    kmeans_loop fuel points numCluster cs = Ret r →
    ∃ n old change,
      lloyd_steps n points numCluster cs old
      ∧ labelPoints points old = Ret (labels r)
      ∧ calculateCentroids points (labels r) numCluster = Ret (centroids r)
      ∧ calculateChange (centroids r) old = Ret change
      ∧ neq change (Fin 0) = true.
Proof.
  induction fuel as [|fuel IH]; intros cs r Hrun; [done|].
  cbn [KMeans.kmeans_loop] in Hrun.
  destruct (labelPoints points cs) as [ls| |] eqn:Hls; [|done..].
  cbn [mbind result_bind] in Hrun.
  destruct (calculateCentroids points ls numCluster) as [new| |] eqn:Hnew;
    [|done..].
  cbn [mbind result_bind] in Hrun.
  destruct (calculateChange new cs) as [change| |] eqn:Hch; [|done..].
  cbn [mbind result_bind] in Hrun.
  destruct (neq change (Fin 0)) eqn:Hzero; cbn [negb] in Hrun.
  - injection Hrun as <-. by exists 0%nat, cs, change.
  - destruct (IH _ _ Hrun) as (n & old & change' & Hsteps & Hrest).
    exists (S n), old, change'. split; [|done].
    exists (map Some new). split; [|done]. by exists ls, new, change.
Qed.

(** Turns that move the centroids use up one unit of fuel each. *)
Lemma kmeans_loop_steps (points : list point) (numCluster : Z) (n : nat) :
  ∀ (fuel : nat) (cs old : list (option point)),
    lloyd_steps n points numCluster cs old →
    kmeans_loop (n + fuel) points numCluster cs
    = kmeans_loop fuel points numCluster old.
Proof.
  induction n as [|n IH]; intros fuel cs old Hsteps.
  - cbn in Hsteps. by subst old.
  - destruct Hsteps as (mid & (ls & new & change & Hls & Hnew & Hch & Hz & ->)
                        & Hsteps).
    cbn [Nat.add KMeans.kmeans_loop]. rewrite Hls. cbn [mbind result_bind].
    rewrite Hnew. cbn [mbind result_bind]. rewrite Hch.
    cbn [mbind result_bind]. rewrite Hz. cbn [negb]. by apply IH.
Qed.

(** The loop returns from the first turn in which the centroids do not
    move. *)
Lemma kmeans_loop_stops (points : list point) (numCluster : Z) (n fuel : nat)
    (cs old : list (option point)) (ls : list Z) (new : list point)
    (change : num) :
  lloyd_steps n points numCluster cs old →
  labelPoints points old = Ret ls →
  calculateCentroids points ls numCluster = Ret new →
  calculateChange new old = Ret change →
  neq change (Fin 0) = true →
  (n < fuel)%nat →
  kmeans_loop fuel points numCluster cs = Ret (KMeansReturn ls new).
Proof.
  intros Hsteps Hls Hnew Hch Hzero Hfuel.
  replace fuel with (n + S (fuel - S n))%nat by lia.
  rewrite (kmeans_loop_steps points numCluster n _ cs old Hsteps).
  cbn [KMeans.kmeans_loop]. rewrite Hls. cbn [mbind result_bind].
  rewrite Hnew. cbn [mbind result_bind]. rewrite Hch.
  cbn [mbind result_bind]. by rewrite Hzero.
Qed.

End Math.

End KMeansLoop.

(** ** ckmeans: the recurrence and its optimum *)


Module CkDP.
Import CkOptimum.

Lemma least_le (f : Z → Q) (lo : Z) (count : nat) (j : Z) :
  lo <= j <= lo + Z.of_nat count → (least f lo count <= f j)%Q.
Proof.
  revert lo. induction count as [|count IH]; intros lo Hj; cbn [least].
  - assert (j = lo) as -> by lia. apply Qle_refl.
  - destruct (decide (j = lo)) as [->|Hne].
    + apply Q.le_min_l.
    + eapply Qle_trans; [apply Q.le_min_r|]. apply IH. lia.
Qed.

Lemma least_ex (f : Z → Q) (lo : Z) (count : nat) :
  ∃ j, lo <= j <= lo + Z.of_nat count ∧ (least f lo count == f j)%Q.
Proof.
  revert lo. induction count as [|count IH]; intros lo; cbn [least].
  - exists lo. split; [lia|reflexivity].
  - destruct (IH (lo + 1)) as (j & Hj & Hv).
    destruct (Q.min_spec (f lo) (least f (lo + 1) count)) as [[_ E]|[_ E]].
    + exists lo. split; [lia|exact E].
    + exists j. split; [lia|]. by rewrite E.
Qed.

Section Monge.
Context (n : Z) (w : Z → Z → Q) (same : Z → Z → Prop).

Hypothesis w_diag : ∀ i, 0 <= i < n → (w i i == 0)%Q.
Hypothesis w_mono : ∀ j j' i' i,
  0 <= j <= j' → j' <= i' → i' <= i < n → (w j' i' <= w j i)%Q.
Hypothesis w_monge : ∀ j1 j2 i1 i2,
  0 <= j1 <= j2 → j2 <= i1 → i1 <= i2 < n →
  (w j1 i1 + w j2 i2 <= w j1 i2 + w j2 i1)%Q.
Hypothesis same_zero : ∀ j i j' i',
  same j i → 0 <= j <= j' → j' <= i' → i' <= i < n → (w j' i' == 0)%Q.
Hypothesis w_free : ∀ j i i',
  0 <= j <= i → i < i' < n → (w j i' <= w j i)%Q → same j i'.
Hypothesis monge_tight : ∀ j1 j2 i1 i2,
  0 <= j1 < j2 → j2 <= i1 → i1 < i2 < n →
  (w j1 i2 + w j2 i1 <= w j1 i1 + w j2 i2)%Q → same j1 i2.
Hypothesis same_join : ∀ j i j' i',
  same j i → same j' i' → 0 <= j <= j' → j' <= i → i <= i' < n → same j i'.

Local Abbreviation opt := (opt w).
Local Abbreviation cost_at := (cost_at w).
Local Abbreviation argmin := (argmin w).
Local Abbreviation exchange := (exchange w n).

Lemma w_nonneg j i : 0 <= j <= i → i < n → (0 <= w j i)%Q.
Proof.
  intros Hj Hi. rewrite <- (w_diag i) by lia. apply w_mono; lia.
Qed.

Lemma opt_le (q : nat) (i j : Z) :
  (0 < q)%nat → Z.of_nat q <= j <= i → (opt q i <= cost_at q i j)%Q.
Proof.
  intros Hq Hj. destruct q as [|q]; [lia|]. unfold CkOptimum.cost_at.
  cbn [CkOptimum.opt]. rewrite Nat.sub_1_r. cbn [Nat.pred].
  apply (least_le (fun j => opt q (j - 1) + w j i)%Q). lia.
Qed.

Lemma opt_ex (q : nat) (i : Z) :
  (0 < q)%nat → Z.of_nat q <= i → ∃ j, argmin q i j.
Proof.
  intros Hq Hi. destruct q as [|q]; [lia|].
  destruct (least_ex (fun j => opt q (j - 1) + w j i)%Q (Z.of_nat (S q))
              (Z.to_nat (i - Z.of_nat (S q)))) as (j & Hj & Hv).
  exists j. split; [lia|]. unfold CkOptimum.cost_at.
  cbn [CkOptimum.opt]. rewrite Nat.sub_1_r. cbn [Nat.pred]. rewrite Hv.
  apply Qle_refl.
Qed.

Lemma argmin_eq q i j : (0 < q)%nat → argmin q i j → (cost_at q i j == opt q i)%Q.
Proof.
  intros Hq [Hj Hle]. apply Qle_antisym; [done|]. by apply opt_le.
Qed.

(** More positions cost more, and one more run costs less. *)
Lemma opt_mono_step (q : nat) :
  (∀ i, Z.of_nat q <= i → i + 1 < n → (opt q i <= opt q (i + 1))%Q)
  ∧ (∀ i, Z.of_nat (S q) <= i < n → (opt (S q) i <= opt q i)%Q).
Proof.
  induction q as [|q [IHr IHq]].
  - assert (∀ i, 0 <= i → i + 1 < n → (opt 0 i <= opt 0 (i + 1))%Q) as Hr.
    { intros i Hi Hn. cbn. apply w_mono; lia. }
    split; [exact Hr|]. intros i Hi.
    eapply Qle_trans; [apply (opt_le 1 i i); lia|].
    unfold CkOptimum.cost_at. cbn [Nat.sub]. rewrite w_diag by lia.
    rewrite Qplus_0_r. replace i with (i - 1 + 1) at 2 by lia.
    apply Hr; lia.
  - assert (∀ i, Z.of_nat (S q) <= i → i + 1 < n
                 → (opt (S q) i <= opt (S q) (i + 1))%Q) as Hr.
    { intros i Hi Hn.
      destruct (opt_ex (S q) (i + 1)) as (j & [Hj Hle]); [lia..|].
      eapply Qle_trans; [|exact Hle]. unfold CkOptimum.cost_at.
      cbn [Nat.sub]. rewrite Nat.sub_0_r.
      destruct (decide (j = i + 1)) as [->|Hne].
      - rewrite w_diag by lia. rewrite Qplus_0_r.
        replace (i + 1 - 1) with i by lia. apply IHq. lia.
      - eapply Qle_trans; [apply (opt_le (S q) i j); lia|].
        unfold CkOptimum.cost_at. cbn [Nat.sub]. rewrite Nat.sub_0_r.
        apply Qplus_le_r. apply w_mono; lia. }
    split; [exact Hr|]. intros i Hi.
    eapply Qle_trans; [apply (opt_le (S (S q)) i i); lia|].
    unfold CkOptimum.cost_at. cbn [Nat.sub]. rewrite w_diag by lia.
    rewrite Qplus_0_r. replace i with (i - 1 + 1) at 2 by lia.
    apply Hr; lia.
Qed.

Lemma opt_mono (q : nat) (i i' : Z) :
  Z.of_nat q <= i → i <= i' → i' < n → (opt q i <= opt q i')%Q.
Proof.
  intros Hq Hi Hn.
  assert (∀ d : nat, i + Z.of_nat d < n → (opt q i <= opt q (i + Z.of_nat d))%Q)
    as H.
  { induction d as [|d IH]; intros Hd.
    - rewrite Z.add_0_r. apply Qle_refl.
    - eapply Qle_trans; [apply IH; lia|].
      replace (i + Z.of_nat (S d)) with (i + Z.of_nat d + 1) by lia.
      apply (proj1 (opt_mono_step q)); lia. }
  replace i' with (i + Z.of_nat (Z.to_nat (i' - i))) by lia. apply H. lia.
Qed.

Lemma opt_nonneg (q : nat) (i : Z) : Z.of_nat q <= i < n → (0 <= opt q i)%Q.
Proof.
  revert i. induction q as [|q IH]; intros i Hi.
  - cbn. apply w_nonneg; lia.
  - destruct (opt_ex (S q) i) as (j & Hj & Hle); [lia..|].
    eapply Qle_trans; [|exact Hle]. unfold CkOptimum.cost_at.
    cbn [Nat.sub]. rewrite Nat.sub_0_r.
    pose proof (IH (j - 1)) as H1. pose proof (w_nonneg j i) as H2.
    specialize (H1 ltac:(lia)). specialize (H2 ltac:(lia) ltac:(lia)). lra.
Qed.

(** ** One more run helps more on more positions *)


Lemma exchange_far (q : nat) (t t' : Z) :
  exchange q → Z.of_nat (S q) <= t → t <= t' → t' < n →
  (opt (S q) t' + opt q t <= opt (S q) t + opt q t')%Q.
Proof.
  intros Hx Ht Hle Hn.
  assert (∀ d : nat, t + Z.of_nat d < n →
            (opt (S q) (t + Z.of_nat d) + opt q t
             <= opt (S q) t + opt q (t + Z.of_nat d))%Q) as H.
  { induction d as [|d IH]; intros Hd.
    - rewrite Z.add_0_r. lra.
    - specialize (IH ltac:(lia)).
      pose proof (Hx (t + Z.of_nat d) ltac:(lia) ltac:(lia)) as Hs.
      replace (t + Z.of_nat (S d)) with (t + Z.of_nat d + 1) by lia. lra. }
  replace t' with (t + Z.of_nat (Z.to_nat (t' - t))) by lia. apply H. lia.
Qed.

Lemma exchange_all (q : nat) : exchange q.
Proof.
  induction q as [|q IH]; intros t Ht Hn.
  - destruct (opt_ex 1 t) as (j1 & Hj1 & Hle1); [lia..|].
    pose proof (opt_le 1 (t + 1) j1 ltac:(lia) ltac:(lia)) as Hup.
    unfold CkOptimum.cost_at in *. cbn [Nat.sub] in Hle1, Hup.
    change (CkOptimum.opt w 0 t) with (w 0 t).
    change (CkOptimum.opt w 0 (t + 1)) with (w 0 (t + 1)).
    pose proof (w_monge 0 j1 t (t + 1) ltac:(lia) ltac:(lia) ltac:(lia)). lra.
  - destruct (opt_ex (S (S q)) t) as (j1 & Hj1 & Hle1); [lia..|].
    destruct (opt_ex (S q) (t + 1)) as (j2 & Hj2 & Hle2); [lia..|].
    unfold CkOptimum.cost_at in Hle1, Hle2.
    cbn [Nat.sub] in Hle1, Hle2. rewrite Nat.sub_0_r in Hle2.
    destruct (Z.le_gt_cases j2 j1) as [Hc|Hc].
    + pose proof (opt_le (S (S q)) (t + 1) j1 ltac:(lia) ltac:(lia)) as Hup.
      pose proof (opt_le (S q) t j2 ltac:(lia) ltac:(lia)) as Hdn.
      unfold CkOptimum.cost_at in Hup, Hdn. cbn [Nat.sub] in Hup, Hdn.
      rewrite Nat.sub_0_r in Hdn.
      pose proof (w_monge j2 j1 t (t + 1) ltac:(lia) ltac:(lia) ltac:(lia)).
      lra.
    + pose proof (opt_le (S (S q)) (t + 1) j2 ltac:(lia) ltac:(lia)) as Hup.
      pose proof (opt_le (S q) t j1 ltac:(lia) ltac:(lia)) as Hdn.
      unfold CkOptimum.cost_at in Hup, Hdn. cbn [Nat.sub] in Hup, Hdn.
      rewrite Nat.sub_0_r in Hdn.
      pose proof (exchange_far q (j1 - 1) (j2 - 1) IH ltac:(lia) ltac:(lia)
                    ltac:(lia)) as Hfar.
      lra.
Qed.

(** ** Optimal starts of the last run *)

(** Two optimal starts that cross can be swapped. *)
Lemma argmin_cross (q : nat) (i1 i2 j j' : Z) :
  (0 < q)%nat → i1 < i2 → i2 < n → j < j' →
  argmin q i1 j' → argmin q i2 j →
  argmin q i2 j' ∧ argmin q i1 j
  ∧ (w j i2 + w j' i1 <= w j i1 + w j' i2)%Q.
Proof.
  intros Hq Hi Hn Hj [Hr1 H1] [Hr2 H2].
  pose proof (opt_le q i1 j Hq ltac:(lia)) as H3.
  pose proof (opt_le q i2 j' Hq ltac:(lia)) as H4.
  pose proof (w_monge j j' i1 i2 ltac:(lia) ltac:(lia) ltac:(lia)) as Hm.
  unfold CkOptimum.argmin, CkOptimum.cost_at in *.
  repeat split; try lia; lra.
Qed.

(** An optimal start for one run less is not too far right. *)
Lemma argmin_above (q : nat) (i j b : Z) :
  (1 < q)%nat → i < n → j < b →
  argmin (q - 1) i b → argmin q i j → argmin q i b.
Proof.
  intros Hq Hn Hjb [Hrb Hb] [Hrj Hj].
  destruct q as [|[|q]]; [lia..|]. cbn [Nat.sub] in *.
  pose proof (opt_le (S q) i j ltac:(lia) ltac:(lia)) as H1.
  pose proof (exchange_far q (j - 1) (b - 1) (exchange_all q) ltac:(lia)
                ltac:(lia) ltac:(lia)) as Hfar.
  unfold CkOptimum.argmin, CkOptimum.cost_at in *. cbn [Nat.sub] in *.
  rewrite ?Nat.sub_0_r in *. split; [lia|]. lra.
Qed.

(** Positions of one value that came for free stay free. *)
Lemma opt_free_run (q : nat) (c t u : Z) :
  Z.of_nat q <= c - 1 → c <= t → t <= u → u < n →
  same c u → (opt q t <= opt q (c - 1))%Q → (opt q u <= opt q (c - 1))%Q.
Proof.
  intros Hq Hct Htu Hn Hsame Hfree. destruct q as [|q].
  - cbn [CkOptimum.opt] in *.
    assert (same 0 t) as H0 by (apply (w_free 0 (c - 1) t); [lia..|done]).
    assert (same 0 u) as H1 by (apply (same_join 0 t c u); [done..|lia|lia|lia]).
    rewrite (same_zero 0 u 0 u) by (done || lia).
    apply w_nonneg; lia.
  - destruct (opt_ex (S q) t) as (J & [HJ HJle]); [lia..|].
    pose proof (opt_le (S q) u J ltac:(lia) ltac:(lia)) as Hu.
    unfold CkOptimum.cost_at in *. cbn [Nat.sub] in *.
    rewrite Nat.sub_0_r in *.
    destruct (Z.le_gt_cases c J) as [Hc|Hc].
    + rewrite (same_zero c u J u) in Hu by (done || lia).
      rewrite (same_zero c u J t) in HJle by (done || lia). lra.
    + pose proof (opt_le (S q) (c - 1) J ltac:(lia) ltac:(lia)) as Hc1.
      unfold CkOptimum.cost_at in Hc1. cbn [Nat.sub] in Hc1.
      rewrite Nat.sub_0_r in Hc1.
      assert (w J t <= w J (c - 1))%Q as Hw by lra.
      assert (same J t) as H0 by (apply (w_free J (c - 1) t); [lia..|done]).
      assert (same J u) as H1
        by (apply (same_join J t c u); [done..|lia|lia|lia]).
      rewrite (same_zero J u J u) in Hu by (done || lia).
      rewrite (same_zero J u J t) in HJle by (done || lia). lra.
Qed.
End Monge.
End CkDP.

(** ** ckmeans: filling the matrices *)


Module CkMatrix.
Import Ckmeans CkInv.

Local Abbreviation ssq := (Ckmeans.ssq exact).
Local Abbreviation column_loop := (Ckmeans.column_loop exact).
Local Abbreviation fill_cell := (Ckmeans.fill_cell exact).
Local Abbreviation fillMatrixColumn := (Ckmeans.fillMatrixColumn exact).
Local Abbreviation first_row := (Ckmeans.first_row exact).
Local Abbreviation rows_loop := (Ckmeans.rows_loop exact).
Local Abbreviation fillMatrices := (Ckmeans.fillMatrices exact).
Local Abbreviation ckmeans := (Ckmeans.ckmeans exact).

Lemma zget_lookup {A} (d : A) (l : list A) (i : Z) (v : A) :
  0 <= i → l !! Z.to_nat i = Some v → zget d l i = v.
Proof.
  intros Hi Hl. unfold zget. destruct (Z.ltb_spec i 0); [lia|]. by rewrite Hl.
Qed.

Lemma zget_insert {A} (d : A) (l : list A) (i j : Z) (v : A) :
  0 <= i < Z.of_nat (length l) →
  zget d (<[Z.to_nat i := v]> l) j = if decide (i = j) then v else zget d l j.
Proof.
  intros Hi. unfold zget. destruct (Z.ltb_spec j 0) as [Hj|Hj].
  - destruct (decide (i = j)); [lia|done].
  - destruct (decide (i = j)) as [->|Hne].
    + rewrite list_lookup_insert_eq by lia. done.
    + rewrite list_lookup_insert_ne by lia. done.
Qed.

Section Matrix.
Context {A : Type} (d : A) (rows cols : Z).

Lemma wf_row (m : list (list A)) (r : Z) :
  wf_matrix rows cols m → 0 <= r < rows →
  Z.of_nat (length (zget [] m r)) = cols.
Proof.
  intros [Hlen Hrows] Hr.
  destruct (lookup_lt_is_Some_2 m (Z.to_nat r)) as [row Hrow]; [lia|].
  rewrite (zget_lookup [] m r row) by (lia || done).
  rewrite Forall_lookup in Hrows. by eapply Hrows.
Qed.

Lemma wf_mset (m : list (list A)) (r c : Z) (v : A) :
  0 <= r < rows → wf_matrix rows cols m → wf_matrix rows cols (mset m r c v).
Proof.
  intros Hr [Hlen Hrows]. unfold mset. split; [by rewrite length_insert|].
  apply Forall_insert; [done|]. rewrite length_insert. by apply wf_row.
Qed.

Lemma mget_mset (m : list (list A)) (r c r' c' : Z) (v : A) :
  wf_matrix rows cols m → 0 <= r < rows → 0 <= c < cols →
  mget d (mset m r c v) r' c'
  = if decide (r = r' ∧ c = c') then v else mget d m r' c'.
Proof.
  intros Hwf Hr Hc. unfold mget, mset.
  rewrite zget_insert by (destruct Hwf; lia).
  destruct (decide (r = r')) as [<-|Hne].
  - rewrite zget_insert by (rewrite (wf_row m r Hwf Hr); lia).
    destruct (decide (c = c')), (decide (r = r ∧ c = c')); try done; tauto.
  - destruct (decide (r = r' ∧ c = c')); [tauto|done].
Qed.
End Matrix.

Lemma same_outside_refl (q lo hi : Z) (ms : matrices) : same_outside q lo hi ms ms.
Proof. by intros r c _. Qed.

Lemma same_outside_trans (q lo hi lo1 hi1 lo2 hi2 : Z) (ms ms1 ms2 : matrices) :
  same_outside q lo1 hi1 ms ms1 → same_outside q lo2 hi2 ms1 ms2 →
  (∀ c, lo1 <= c <= hi1 ∨ lo2 <= c <= hi2 → lo <= c <= hi) →
  same_outside q lo hi ms ms2.
Proof.
  intros H1 H2 Hsub r c Hrc.
  destruct (H1 r c) as [E1 E1']; [intros [-> ?]; apply Hrc; split; [done|apply Hsub; by left]|].
  destruct (H2 r c) as [E2 E2']; [intros [-> ?]; apply Hrc; split; [done|apply Hsub; by right]|].
  split; congruence.
Qed.

Lemma row_ok_same (w : Z → Z → Q) (n : Z) (q : nat) (lo hi : Z) (ms ms' : matrices) :
  (0 < q)%nat → same_outside (Z.of_nat q) lo hi ms ms' →
  row_ok w n (q - 1) ms → row_ok w n (q - 1) ms'.
Proof.
  intros Hq Hsame (Hval & Hback & Hmono).
  assert (Hm : ∀ c, mget 0%Q (matrix ms') (Z.of_nat (q - 1)) c
                    = mget 0%Q (matrix ms) (Z.of_nat (q - 1)) c).
  { intros c. destruct (Hsame (Z.of_nat (q - 1)) c) as [E _]; [lia|done]. }
  assert (Hb : ∀ c, mget 0 (backtrackMatrix ms') (Z.of_nat (q - 1)) c
                    = mget 0 (backtrackMatrix ms) (Z.of_nat (q - 1)) c).
  { intros c. destruct (Hsame (Z.of_nat (q - 1)) c) as [_ E]; [lia|done]. }
  split; [|split].
  - intros i Hi. rewrite Hm. by apply Hval.
  - intros i Hi. rewrite Hb. by apply Hback.
  - intros i i' H1 H2 H3. rewrite !Hb. by apply Hmono.
Qed.

Lemma cell_ok_same (w : Z → Z → Q) (q : nat) (i lo hi : Z) (ms ms' : matrices) :
  same_outside (Z.of_nat q) lo hi ms ms' → ¬ lo <= i <= hi →
  cell_ok w q i ms → cell_ok w q i ms'.
Proof.
  intros Hsame Hi. unfold cell_ok.
  destruct (Hsame (Z.of_nat q) i) as [-> ->]; [lia|].
  destruct (Hsame (Z.of_nat q - 1) i) as [_ ->]; [lia|]. done.
Qed.

Lemma cell_ok_other_row (w : Z → Z → Q) (q : nat) (i c lo hi : Z)
    (ms ms' : matrices) :
  same_outside c lo hi ms ms' → Z.of_nat q < c →
  cell_ok w q i ms → cell_ok w q i ms'.
Proof.
  intros Hsame Hq. unfold cell_ok.
  destruct (Hsame (Z.of_nat q) i) as [-> ->]; [lia|].
  destruct (Hsame (Z.of_nat q - 1) i) as [_ ->]; [lia|]. done.
Qed.
End CkMatrix.

Module CkColumn.
Import Ckmeans CkOptimum CkInv CkMatrix.

Local Abbreviation ssq := (Ckmeans.ssq exact).
Local Abbreviation column_loop := (Ckmeans.column_loop exact).
Local Abbreviation fill_cell := (Ckmeans.fill_cell exact).
Local Abbreviation fillMatrixColumn := (Ckmeans.fillMatrixColumn exact).
Local Abbreviation first_row := (Ckmeans.first_row exact).
Local Abbreviation rows_loop := (Ckmeans.rows_loop exact).
Local Abbreviation fillMatrices := (Ckmeans.fillMatrices exact).
Local Abbreviation ckmeans := (Ckmeans.ckmeans exact).

Lemma qadd_eq (a b : Q) : (qadd a b == a + b)%Q.
Proof. apply Qred_correct. Qed.

Lemma qle_spec (a b : Q) : reflect (a <= b)%Q (qle a b).
Proof.
  unfold qle. destruct (Qle_bool a b) eqn:E; constructor.
  - by apply Qle_bool_iff.
  - intros H. apply Qle_bool_iff in H. congruence.
Qed.

Lemma qlt_reflect (a b : Q) : reflect (a < b)%Q (qlt a b).
Proof.
  unfold qlt. destruct (Qle_bool b a) eqn:E; constructor.
  - apply Qle_bool_iff in E. by apply Qle_not_lt.
  - apply Qnot_le_lt. intros H. apply Qle_bool_iff in H. congruence.
Qed.

Section Column.
Context (n rows : Z) (sums sumsOfSquares : list Q).
Local Abbreviation w := (fun j i => ssq j i sums sumsOfSquares).
Hypothesis w_diag : ∀ i, 0 <= i < n → (w i i == 0)%Q.
Hypothesis w_mono : ∀ j j' i' i,
  0 <= j <= j' → j' <= i' → i' <= i < n → (w j' i' <= w j i)%Q.
Context (q : nat) (Hq : (0 < q)%nat) (Hrows : Z.of_nat q < rows).
Local Abbreviation cluster := (Z.of_nat q).
Context (i : Z) (Hi : cluster <= i < n).
Context (ms0 : matrices) (Hprev : row_ok w n (q - 1) ms0).

Lemma prev_value (ms : matrices) (t : Z) :
  same_outside cluster i i ms0 ms → cluster - 1 <= t < n →
  (mget 0%Q (matrix ms) (cluster - 1) t == opt w (q - 1) t)%Q.
Proof.
  intros Hsame Ht. destruct (Hsame (cluster - 1) t) as [-> _]; [lia|].
  destruct Hprev as [Hval _].
  replace (cluster - 1) with (Z.of_nat (q - 1)) by lia. apply Hval. lia.
Qed.

Lemma col_inv_iff (seen seen' : Z → Prop) (ms : matrices) :
  (∀ t, seen t ↔ seen' t) → col_inv w q i seen ms → col_inv w q i seen' ms.
Proof.
  intros Hiff (HJ & Hbest & Hstrict & Hleast). repeat split; try done.
  - destruct HJ as [?|HJ]; [by left|right; by apply Hiff].
  - intros t [?|Ht]; apply Hleast; [by left|right; by apply Hiff].
Qed.

(** Trying one more start [t0]. *)
Lemma col_try (seen : Z → Prop) (ms : matrices) (t0 : Z) (v : Q) :
  wf rows n ms → same_outside cluster i i ms0 ms → col_inv w q i seen ms →
  t0 ≠ i → (v == cost_at w q i t0)%Q →
  let ms1 :=
    if qlt v (mget 0%Q (matrix ms) cluster i)
    then Matrices (mset (matrix ms) cluster i v)
                  (mset (backtrackMatrix ms) cluster i t0)
    else ms in
  wf rows n ms1 ∧ same_outside cluster i i ms0 ms1
  ∧ col_inv w q i (fun t => seen t ∨ t = t0) ms1.
Proof.
  intros [Hwm Hwb] Hsame (HJ & Hbest & Hstrict & Hleast) Hne Hv ms1.
  subst ms1. destruct (qlt_reflect v (mget 0%Q (matrix ms) cluster i)) as [Hlt|Hge].
  - split; [|split].
    + split; cbn; apply wf_mset; (lia || done).
    + intros r c Hrc. cbn.
      rewrite (mget_mset _ rows n), (mget_mset _ rows n) by (lia || done).
      destruct (decide (cluster = r ∧ i = c)) as [[<- <-]|_]; [lia|].
      by apply Hsame.
    + unfold col_inv. cbn.
      rewrite (mget_mset _ rows n), (mget_mset _ rows n) by (lia || done).
      destruct (decide (cluster = cluster ∧ i = i)) as [_|Hn]; [|tauto].
      split; [right; by right|]. split; [done|]. split.
      * intros _. pose proof (Hleast i (or_introl eq_refl)) as Hsingle.
        unfold cost_at in Hsingle. pose proof (w_diag i ltac:(lia)) as Hd.
        cbn beta in Hd. lra.
      * intros t [-> | [Ht | ->]].
        -- pose proof (Hleast i (or_introl eq_refl)). lra.
        -- pose proof (Hleast t (or_intror Ht)). lra.
        -- lra.
  - split; [done|]. split; [done|]. split; [|split; [done|split; [done|]]].
    + destruct HJ as [?|?]; [by left|right; by left].
    + intros t [-> | [Ht | ->]].
      * by apply Hleast; left.
      * by apply Hleast; right.
      * lra.
Qed.

(** The loop examines every start of [L..U], or stops when none of the
    remaining ones can improve the cell. *)
Lemma column_loop_inv (L U : Z) (todo : nat) :
  cluster <= L → U <= i - 1 →
  ∀ (j jlow : Z) (ms : matrices),
    L <= jlow → j <= U → j - jlow + 1 <= Z.of_nat todo →
    wf rows n ms → same_outside cluster i i ms0 ms →
    col_inv w q i (fun t => L <= t <= U ∧ (t < jlow ∨ j < t)) ms →
    let ms' := column_loop todo j jlow cluster i sums sumsOfSquares ms in
    wf rows n ms' ∧ same_outside cluster i i ms0 ms'
    ∧ col_inv w q i (fun t => L <= t <= U) ms'.
Proof.
  intros HL HU. induction todo as [|todo IH]; intros j jlow ms Hlo Hhi Htodo Hwf Hsame Hinv.
  - cbn. split; [done|]. split; [done|].
    eapply col_inv_iff; [|exact Hinv]. intros t. cbn beta. lia.
  - cbn [Ckmeans.column_loop a_add a_sub a_mul a_div exact]. destruct (Z.ltb_spec j jlow) as [Hlt|Hge].
    { split; [done|]. split; [done|].
      eapply col_inv_iff; [|exact Hinv]. intros t. cbn beta. lia. }
    pose proof (prev_value ms (jlow - 1) Hsame ltac:(lia)) as Hplow.
    destruct (qle_spec (mget 0%Q (matrix ms) cluster i)
                (qadd (ssq j i sums sumsOfSquares)
                      (mget 0%Q (matrix ms) (cluster - 1) (jlow - 1)))) as [Hbreak|_].
    { split; [done|]. split; [done|].
      destruct Hinv as (HJ & Hbest & Hstrict & Hleast).
      split; [|split; [done|split; [done|]]].
      - destruct HJ as [?|?]; [by left|right; lia].
      - intros t [->|Ht]; [by apply Hleast; left|].
        destruct (decide (L <= t <= U ∧ (t < jlow ∨ j < t))) as [Hseen|Hnew];
          [by apply Hleast; right|].
        rewrite qadd_eq in Hbreak. unfold cost_at.
        pose proof (CkDP.opt_mono n w w_diag w_mono (q - 1) (jlow - 1) (t - 1)
                      ltac:(lia) ltac:(lia) ltac:(lia)) as Hm.
        pose proof (w_mono t j i i ltac:(lia) ltac:(lia) ltac:(lia)) as Hw.
        cbn beta in Hw. lra. }
    set (ssqjlow := qadd (ssq jlow i sums sumsOfSquares)
                         (mget 0%Q (matrix ms) (cluster - 1) (jlow - 1))).
    assert (Hv1 : (ssqjlow == cost_at w q i jlow)%Q).
    { unfold ssqjlow, cost_at. rewrite qadd_eq, Hplow. ring. }
    destruct (col_try _ ms jlow ssqjlow Hwf Hsame Hinv ltac:(lia) Hv1)
      as (Hwf1 & Hsame1 & Hinv1).
    set (ms1 := if qlt ssqjlow (mget 0%Q (matrix ms) cluster i)
                then _ else ms) in *.
    pose proof (prev_value ms1 (j - 1) Hsame1 ltac:(lia)) as Hpj.
    set (ssqj := qadd (ssq j i sums sumsOfSquares)
                      (mget 0%Q (matrix ms1) (cluster - 1) (j - 1))).
    assert (Hv2 : (ssqj == cost_at w q i j)%Q).
    { unfold ssqj, cost_at. rewrite qadd_eq, Hpj. ring. }
    destruct (col_try _ ms1 j ssqj Hwf1 Hsame1 Hinv1 ltac:(lia) Hv2)
      as (Hwf2 & Hsame2 & Hinv2).
    apply IH; try done; try lia.
    eapply col_inv_iff; [|exact Hinv2]. intros t. cbn beta. lia.
Qed.
End Column.
End CkColumn.

Module CkCell.
Import Ckmeans CkOptimum CkInv CkMatrix CkColumn.

Local Abbreviation ssq := (Ckmeans.ssq exact).
Local Abbreviation column_loop := (Ckmeans.column_loop exact).
Local Abbreviation fill_cell := (Ckmeans.fill_cell exact).
Local Abbreviation fillMatrixColumn := (Ckmeans.fillMatrixColumn exact).
Local Abbreviation first_row := (Ckmeans.first_row exact).
Local Abbreviation rows_loop := (Ckmeans.rows_loop exact).
Local Abbreviation fillMatrices := (Ckmeans.fillMatrices exact).
Local Abbreviation ckmeans := (Ckmeans.ckmeans exact).

Section Cell.
Context (n rows : Z) (sums sumsOfSquares : list Q) (same : Z → Z → Prop).
Local Abbreviation w := (fun j i => ssq j i sums sumsOfSquares).
Hypothesis w_diag : ∀ i, 0 <= i < n → (w i i == 0)%Q.
Hypothesis w_mono : ∀ j j' i' i,
  0 <= j <= j' → j' <= i' → i' <= i < n → (w j' i' <= w j i)%Q.
Hypothesis w_monge : ∀ j1 j2 i1 i2,
  0 <= j1 <= j2 → j2 <= i1 → i1 <= i2 < n →
  (w j1 i1 + w j2 i2 <= w j1 i2 + w j2 i1)%Q.
Hypothesis same_zero : ∀ j i j' i',
  same j i → 0 <= j <= j' → j' <= i' → i' <= i < n → (w j' i' == 0)%Q.
Hypothesis w_free : ∀ j i i',
  0 <= j <= i → i < i' < n → (w j i' <= w j i)%Q → same j i'.
Hypothesis monge_tight : ∀ j1 j2 i1 i2,
  0 <= j1 < j2 → j2 <= i1 → i1 < i2 < n →
  (w j1 i2 + w j2 i1 <= w j1 i1 + w j2 i2)%Q → same j1 i2.
Hypothesis same_join : ∀ j i j' i',
  same j i → same j' i' → 0 <= j <= j' → j' <= i → i <= i' < n → same j i'.
Context (q : nat) (Hq : (0 < q)%nat) (Hrows : Z.of_nat q < rows).
Local Abbreviation cluster := (Z.of_nat q).

(** A cell whose last cluster is the single value [i] has no cell to its
    right whose last cluster starts before [i] and is strictly better than
    a single value. *)
Lemma singleton_blocks (i i2 c : Z) :
  c < i → i < i2 → i2 < n →
  argmin w q i i → argmin w q i2 c →
  (opt w q i2 < opt w (q - 1) (i2 - 1))%Q → False.
Proof.
  intros Hci Hii Hn Hsingle Hc Hstrict.
  assert (Hcq : cluster <= c) by (destruct Hc; lia).
  destruct (CkDP.argmin_cross n w w_monge q i i2 c i Hq Hii Hn Hci Hsingle Hc)
    as (_ & Hic & Htight).
  assert (Hsame : same c i2).
  { apply (monge_tight c i i i2); [lia|lia|lia|]. cbn beta in *. lra. }
  pose proof (same_zero c i2 c i2 Hsame ltac:(lia) ltac:(lia) ltac:(lia)) as Hz2.
  pose proof (same_zero c i2 c i Hsame ltac:(lia) ltac:(lia) ltac:(lia)) as Hz1.
  pose proof (same_zero c i2 c (i2 - 1) Hsame ltac:(lia) ltac:(lia) ltac:(lia)) as Hz3.
  pose proof (w_diag i ltac:(lia)) as Hdi.
  pose proof (w_diag c ltac:(lia)) as Hdc.
  cbn beta in *.
  apply (CkDP.argmin_eq w) in Hc; [|done].
  apply (CkDP.argmin_eq w) in Hic; [|done].
  apply (CkDP.argmin_eq w) in Hsingle; [|done].
  unfold cost_at in *.
  assert (Hsame' : same c (i2 - 1)).
  { apply (w_free c c (i2 - 1)); [lia|lia|]. cbn beta. lra. }
  pose proof (CkDP.opt_free_run n w same w_diag w_mono same_zero w_free same_join
                (q - 1) c (i - 1) (i2 - 1)
                ltac:(lia) ltac:(lia) ltac:(lia) ltac:(lia) Hsame') as Hrun.
  cbn beta in Hrun. lra.
Qed.

Lemma fill_cell_ok (iMin iMax i : Z) (ms : matrices) :
  cluster <= iMin → iMin <= i → i <= iMax → iMax < n →
  wf rows n ms → row_ok w n (q - 1) ms →
  (cluster < iMin →
   mget 0 (backtrackMatrix ms) cluster (iMin - 1) = 0
   ∨ cell_ok w q (iMin - 1) ms) →
  (iMax < n - 1 → cell_ok w q (iMax + 1) ms) →
  (cluster < iMin → iMax < n - 1 →
   mget 0 (backtrackMatrix ms) cluster (iMin - 1)
   <= mget 0 (backtrackMatrix ms) cluster (iMax + 1)) →
  let ms1 := fill_cell iMin iMax cluster i sums sumsOfSquares ms in
  wf rows n ms1 ∧ same_outside cluster i i ms ms1 ∧ cell_ok w q i ms1
  ∧ (cluster < iMin →
     mget 0 (backtrackMatrix ms) cluster (iMin - 1)
     <= mget 0 (backtrackMatrix ms1) cluster i)
  ∧ (iMax < n - 1 →
     mget 0 (backtrackMatrix ms1) cluster i
     <= mget 0 (backtrackMatrix ms) cluster (iMax + 1)).
Proof.
  intros Hqi Hlo Hhi Hn Hwf Hprev Hleft Hright Hac ms1. subst ms1.
  unfold Ckmeans.fill_cell. cbn [a_add a_sub a_mul a_div exact].
  set (ms0 := Matrices _ _).
  destruct Hwf as [Hwm Hwb].
  assert (Hwf0 : wf rows n ms0).
  { split; cbn; apply wf_mset; (lia || done). }
  assert (Hsame0 : same_outside cluster i i ms ms0).
  { intros r c Hrc. cbn.
    rewrite (mget_mset _ rows n), (mget_mset _ rows n) by (lia || done).
    destruct (decide (cluster = r ∧ i = c)) as [[<- <-]|_]; [lia|done]. }
  assert (Hprev0 : row_ok w n (q - 1) ms0) by (by eapply row_ok_same).
  rewrite (wf_row rows n (matrix ms0) 0 (proj1 Hwf0)) by lia.
  destruct (Hsame0 cluster (iMin - 1)) as [_ ->]; [lia|].
  destruct (Hsame0 (cluster - 1) i) as [_ ->]; [lia|].
  destruct (Hsame0 cluster (iMax + 1)) as [_ ->]; [lia|].
  set (a := mget 0 (backtrackMatrix ms) cluster (iMin - 1)) in *.
  set (b := mget 0 (backtrackMatrix ms) (cluster - 1) i) in *.
  set (c := mget 0 (backtrackMatrix ms) cluster (iMax + 1)) in *.
  set (L := Z.max (if cluster <? iMin then Z.max cluster a else cluster) b).
  set (U := if iMax <? n - 1 then Z.min (i - 1) c else i - 1).
  assert (HL : cluster <= L) by (unfold L; destruct (cluster <? iMin); lia).
  assert (HU : U <= i - 1) by (unfold U; destruct (iMax <? n - 1); lia).
  (* the row above at [i] *)
  destruct Hprev as (Hpval & Hpback & Hpmono).
  destruct (Hpback i ltac:(lia)) as (Hb & Hb0 & Hbmin).
  replace (Z.of_nat (q - 1)) with (cluster - 1) in Hb, Hb0, Hbmin by lia.
  fold b in Hb, Hb0, Hbmin.
  pose proof (w_diag i ltac:(lia)) as Hdi. cbn beta in Hdi.
  (* the cell as it is before the loop *)
  assert (Hinv0 : col_inv w q i (fun t => L <= t <= U ∧ (t < L ∨ U < t)) ms0).
  { unfold col_inv. cbn.
    rewrite (mget_mset _ rows n), (mget_mset _ rows n) by (lia || done).
    destruct (decide (cluster = cluster ∧ i = i)) as [_|Hne]; [|tauto].
    assert (Hv : (mget 0%Q (matrix ms) (cluster - 1) (i - 1)
                  == cost_at w q i i)%Q).
    { unfold cost_at. replace (cluster - 1) with (Z.of_nat (q - 1)) by lia.
      rewrite Hpval by lia. lra. }
    split; [by left|]. split; [done|]. split; [done|].
    intros t [-> | Ht]; [lra|lia]. }
  destruct (column_loop_inv n rows sums sumsOfSquares w_diag w_mono q Hq Hrows i
              ltac:(lia) ms0 Hprev0 L U (Z.to_nat (U - L + 1)) HL HU U L ms0
              ltac:(lia) ltac:(lia) ltac:(lia) Hwf0
              (same_outside_refl _ _ _ _) Hinv0)
    as (Hwf1 & Hsame1 & HJ & Hbest & Hstrict & Hleast).
  set (ms1 := column_loop _ _ _ _ _ _ _ _) in *.
  assert (Hsame : same_outside cluster i i ms ms1).
  { eapply same_outside_trans; [exact Hsame0|exact Hsame1|]. intros; lia. }
  set (J := mget 0 (backtrackMatrix ms1) cluster i) in *.
  set (best := mget 0%Q (matrix ms1) cluster i) in *.
  (* some optimal start lies in the window *)
  assert (Hwindow : ∃ t, argmin w q i t ∧ (t = i ∨ L <= t <= U)).
  { destruct (CkDP.opt_ex w q i Hq ltac:(lia)) as [t0 Ht0].
    assert (H1 : ∃ t1, argmin w q i t1 ∧ b <= t1).
    { destruct (decide (b <= t0)) as [?|Hlt]; [by exists t0|].
      exists b. split; [|lia].
      destruct (decide (q = 1%nat)) as [->|Hq1].
      - specialize (Hb0 eq_refl). destruct Ht0; lia.
      - apply (CkDP.argmin_above n w w_monge q i t0 b); try done; try lia.
        apply Hbmin. lia. }
    destruct H1 as (t1 & Ht1 & Hbt1).
    assert (H2 : ∃ t2, argmin w q i t2 ∧ L <= t2).
    { unfold L. destruct (Z.ltb_spec cluster iMin) as [Hlt|Hge].
      - destruct (Hleft Hlt) as [Ha0|Hcell].
        + exists t1. split; [done|]. fold a in Ha0. destruct Ht1; lia.
        + destruct Hcell as (_ & Hamin & _). fold a in Hamin.
          destruct (decide (a <= t1)) as [?|Hlt1].
          * exists t1. split; [done|]. destruct Ht1; lia.
          * exists a. split; [|destruct Hamin; lia].
            apply (CkDP.argmin_cross n w w_monge q (iMin - 1) i t1 a);
              try done; lia.
      - exists t1. split; [done|]. destruct Ht1; lia. }
    destruct H2 as (t2 & Ht2 & HLt2).
    unfold U. destruct (Z.ltb_spec iMax (n - 1)) as [Hlt|Hge].
    - destruct (Hright Hlt) as (_ & Hcmin & _ & Hce). fold c in Hcmin, Hce.
      destruct (decide (t2 <= c)) as [?|Hlt2].
      + exists t2. split; [done|]. destruct Ht2; lia.
      + exists c. split.
        * apply (CkDP.argmin_cross n w w_monge q i (iMax + 1) c t2);
            try done; lia.
        * right.
          pose proof (Hpmono i (iMax + 1) ltac:(lia) ltac:(lia) ltac:(lia)) as Hbb.
          replace (Z.of_nat (q - 1)) with (cluster - 1) in Hbb by lia.
          fold b in Hbb.
          assert (Hac' : cluster < iMin → a <= c) by (intros; by apply Hac).
          destruct Hcmin as [Hcq _], Ht2 as [Ht2 _]. unfold L.
          destruct (Z.ltb_spec cluster iMin); lia.
    - exists t2. split; [done|]. destruct Ht2; lia. }
  destruct Hwindow as (t & Htmin & Ht).
  assert (HJi : cluster <= J <= i) by (destruct HJ; lia).
  pose proof (CkDP.opt_le w q i J Hq HJi) as HoptJ.
  pose proof (CkDP.argmin_eq w q i t Hq Htmin) as Hopt.
  pose proof (Hleast t Ht) as Hbt.
  assert (Hval : (best == opt w q i)%Q) by lra.
  assert (HJmin : argmin w q i J) by (split; [done|lra]).
  split; [done|]. split; [done|].
  split; [|split].
  - unfold cell_ok. fold J best. split; [done|]. split; [done|]. split.
    + intros Hne. specialize (Hstrict Hne). lra.
    + destruct (Hsame (cluster - 1) i) as [_ ->]; [lia|]. fold b.
      destruct HJ as [->|HJ]; [lia|]. unfold L in HJ. lia.
  - intros Hlt. destruct HJ as [->|HJ].
    + destruct (Hleft Hlt) as [Ha0|(_ & Hamin & _)]; [fold a in Ha0; lia|].
      fold a in Hamin. destruct Hamin; lia.
    + unfold L in HJ. destruct (Z.ltb_spec cluster iMin); lia.
  - intros Hlt. destruct HJ as [HJ|HJ].
    + destruct (decide (i <= c)) as [?|Hci]; [lia|]. exfalso.
      destruct (Hright Hlt) as (_ & Hcmin & Hcstrict & _).
      fold c in Hcmin, Hcstrict.
      apply (singleton_blocks i (iMax + 1) c); try done; try lia.
      * by rewrite HJ in HJmin.
      * apply Hcstrict. lia.
    + unfold U in HJ. destruct (Z.ltb_spec iMax (n - 1)); lia.
Qed.

Local Abbreviation Jat := (fun ms t => mget 0 (backtrackMatrix ms) cluster t).

(** The divide-and-conquer recursion fills the cells [iMin..iMax] of the
    row, between two cells that are already filled. *)
Lemma fillMatrixColumn_ok (fuel : nat) :
  ∀ (iMin iMax : Z) (ms : matrices),
    cluster <= iMin → iMin <= iMax + 1 → iMax < n →
    iMax - iMin + 1 < Z.of_nat fuel →
    wf rows n ms → row_ok w n (q - 1) ms →
    (cluster < iMin → Jat ms (iMin - 1) = 0 ∨ cell_ok w q (iMin - 1) ms) →
    (iMax < n - 1 → cell_ok w q (iMax + 1) ms) →
    (cluster < iMin → iMax < n - 1 → Jat ms (iMin - 1) <= Jat ms (iMax + 1)) →
    ∃ ms',
      fillMatrixColumn fuel iMin iMax cluster sums sumsOfSquares ms = Some ms'
      ∧ wf rows n ms' ∧ same_outside cluster iMin iMax ms ms'
      ∧ (∀ i, iMin <= i <= iMax → cell_ok w q i ms')
      ∧ (∀ i, iMin <= i <= iMax → cluster < iMin →
              Jat ms (iMin - 1) <= Jat ms' i)
      ∧ (∀ i, iMin <= i <= iMax → iMax < n - 1 →
              Jat ms' i <= Jat ms (iMax + 1))
      ∧ (∀ i i', iMin <= i → i <= i' → i' <= iMax → Jat ms' i <= Jat ms' i').
Proof.
  induction fuel as [|fuel IH]; intros iMin iMax ms Hq1 Hrange Hn Hfuel Hwf Hprev
    Hleft Hright Hac; [lia|].
  cbn [Ckmeans.fillMatrixColumn a_add a_sub a_mul a_div exact]. destruct (Z.ltb_spec iMax iMin) as [Hempty|Hne].
  { exists ms. split; [done|]. split; [done|].
    split; [apply same_outside_refl|]. repeat split; intros; lia. }
  set (i := (iMin + iMax) / 2).
  assert (Hi : iMin <= i <= iMax).
  { unfold i. split; [apply Z.div_le_lower_bound; lia|].
    apply Z.div_le_upper_bound; lia. }
  destruct (fill_cell_ok iMin iMax i ms) as (Hwf1 & Hsame1 & Hcell1 & Hlow1 & Hhigh1);
    try done; try lia.
  set (ms1 := fill_cell _ _ _ _ _ _ _) in *.
  assert (Hprev1 : row_ok w n (q - 1) ms1) by (by eapply row_ok_same).
  assert (Ea1 : Jat ms1 (iMin - 1) = Jat ms (iMin - 1)).
  { cbn beta. destruct (Hsame1 cluster (iMin - 1)) as [_ ->]; [lia|done]. }
  assert (Ec1 : Jat ms1 (iMax + 1) = Jat ms (iMax + 1)).
  { cbn beta. destruct (Hsame1 cluster (iMax + 1)) as [_ ->]; [lia|done]. }
  (* the left half *)
  destruct (IH iMin (i - 1) ms1) as
    (ms2 & -> & Hwf2 & Hsame2 & Hcells2 & Hlow2 & Hhigh2 & Hmono2);
    try done; try lia.
  { intros Hlt. destruct (Hleft Hlt) as [Ha|Ha].
    - left. by rewrite Ea1.
    - right. eapply cell_ok_same; [exact Hsame1|lia|done]. }
  { intros _. by replace (i - 1 + 1) with i by lia. }
  { intros Hlt _. replace (i - 1 + 1) with i by lia. rewrite Ea1. by apply Hlow1. }
  cbn [mbind option_bind].
  assert (Ei2 : Jat ms2 i = Jat ms1 i).
  { cbn beta. destruct (Hsame2 cluster i) as [_ ->]; [lia|done]. }
  assert (Ec2 : Jat ms2 (iMax + 1) = Jat ms (iMax + 1)).
  { rewrite <- Ec1. cbn beta.
    destruct (Hsame2 cluster (iMax + 1)) as [_ ->]; [lia|done]. }
  assert (Hcell2 : cell_ok w q i ms2).
  { eapply cell_ok_same; [exact Hsame2|lia|done]. }
  (* the right half *)
  destruct (IH (i + 1) iMax ms2) as
    (ms3 & -> & Hwf3 & Hsame3 & Hcells3 & Hlow3 & Hhigh3 & Hmono3);
    try done; try lia.
  { by eapply row_ok_same. }
  { intros _. right. by replace (i + 1 - 1) with i by lia. }
  { intros Hlt. eapply cell_ok_same; [exact Hsame2|lia|].
    eapply cell_ok_same; [exact Hsame1|lia|]. by apply Hright. }
  { intros _ Hlt. replace (i + 1 - 1) with i by lia. rewrite Ei2, Ec2.
    by apply Hhigh1. }
  assert (E3 : ∀ t, t <= i → Jat ms3 t = Jat ms2 t).
  { intros t Ht. cbn beta. destruct (Hsame3 cluster t) as [_ ->]; [lia|done]. }
  replace (i - 1 + 1) with i in Hhigh2 by lia.
  replace (i + 1 - 1) with i in Hlow3 by lia.
  exists ms3. split; [done|]. split; [done|]. split; [|split; [|split; [|split]]].
  - apply (same_outside_trans _ iMin iMax i i iMin iMax ms ms1 ms3);
      [exact Hsame1| |intros; lia].
    apply (same_outside_trans _ iMin iMax iMin (i - 1) (i + 1) iMax ms1 ms2 ms3);
      [exact Hsame2|exact Hsame3|intros; lia].
  - intros t Ht. destruct (decide (t <= i)) as [Hle|Hgt]; [|apply Hcells3; lia].
    eapply cell_ok_same; [exact Hsame3|lia|].
    destruct (decide (t = i)) as [->|?]; [done|]. apply Hcells2. lia.
  - intros t Ht Hlt. destruct (decide (t <= i)) as [Hle|Hgt].
    + rewrite E3 by done. destruct (decide (t = i)) as [->|?].
      * rewrite Ei2. by apply Hlow1.
      * rewrite <- Ea1. apply Hlow2; [lia|done].
    + specialize (Hlow3 t ltac:(lia) ltac:(lia)).
      specialize (Hlow1 Hlt). rewrite Ei2 in Hlow3. lia.
  - intros t Ht Hlt. destruct (decide (t <= i)) as [Hle|Hgt].
    + rewrite E3 by done. specialize (Hhigh1 Hlt).
      destruct (decide (t = i)) as [->|?]; [by rewrite Ei2|].
      specialize (Hhigh2 t ltac:(lia) ltac:(lia)). lia.
    + rewrite <- Ec2. apply Hhigh3; [lia|done].
  - intros t t' H1 H2 H3.
    assert (Hleft_i : ∀ u, iMin <= u <= i → Jat ms3 u <= Jat ms2 i).
    { intros u Hu. rewrite E3 by lia. destruct (decide (u = i)) as [->|?]; [lia|].
      rewrite Ei2. apply Hhigh2; lia. }
    assert (Hright_i : ∀ u, i < u <= iMax → Jat ms2 i <= Jat ms3 u).
    { intros u Hu. apply Hlow3; lia. }
    destruct (decide (t' <= i)) as [Hle'|Hgt'].
    + destruct (decide (t' = i)) as [->|?].
      * rewrite (E3 i) by lia. apply Hleft_i. lia.
      * rewrite !E3 by lia. apply Hmono2; lia.
    + destruct (decide (t <= i)) as [Hle|Hgt].
      * specialize (Hleft_i t ltac:(lia)). specialize (Hright_i t' ltac:(lia)).
        cbn beta in *. lia.
      * apply Hmono3; lia.
Qed.
End Cell.
End CkCell.

(** ** ckmeans: the cost of a cluster *)


Module CkAlgebra.
Import CkCost.

Lemma prefix_sum_succ (f : Z → Q) (k : Z) :
  0 <= k → (prefix_sum f (Z.to_nat (k + 1)%Z) == prefix_sum f (Z.to_nat k) + f k)%Q.
Proof.
  intros Hk. replace (Z.to_nat (k + 1)) with (S (Z.to_nat k)) by lia.
  cbn [prefix_sum]. by rewrite Z2Nat.id.
Qed.

Lemma segment_right (f : Z → Q) (j i : Z) :
  0 <= i + 1 → (segment_sum f j (i + 1)%Z == segment_sum f j i + f (i + 1)%Z)%Q.
Proof.
  intros Hi. unfold segment_sum. rewrite (prefix_sum_succ f (i + 1)) by lia. ring.
Qed.

Lemma segment_left (f : Z → Q) (j i : Z) :
  0 <= j → (segment_sum f j i == f j + segment_sum f (j + 1)%Z i)%Q.
Proof.
  intros Hj. unfold segment_sum. rewrite (prefix_sum_succ f j) by lia. ring.
Qed.

Lemma segment_single (f : Z → Q) (i : Z) :
  0 <= i → (segment_sum f i i == f i)%Q.
Proof.
  intros Hi. unfold segment_sum. rewrite (prefix_sum_succ f i) by lia. ring.
Qed.

Lemma inject_Z_succ (m : Z) : (inject_Z (m + 1)%Z == inject_Z m + 1)%Q.
Proof. by rewrite inject_Z_plus. Qed.

Lemma inject_Z_pos (m : Z) : 0 < m → (0 < inject_Z m)%Q.
Proof. intros H. replace 0%Q with (inject_Z 0) by done. by rewrite <- Zlt_Qlt. Qed.

Section Within.
Context (y : Z → Q).

Lemma within_single (i : Z) : 0 <= i → (within y i i == 0)%Q.
Proof.
  intros Hi. unfold within. rewrite !segment_single by done.
  replace (i - i + 1) with 1 by lia. change (inject_Z 1) with 1%Q. field.
Qed.

(** Adding a value on the right. *)
Lemma within_right (j i : Z) :
  0 <= j <= i →
  (within y j (i + 1)%Z
   == within y j i
      + (inject_Z (i - j + 1)%Z * y (i + 1)%Z - segment_sum y j i)
        * (inject_Z (i - j + 1)%Z * y (i + 1)%Z - segment_sum y j i)
        / (inject_Z (i - j + 1)%Z * (inject_Z (i - j + 1)%Z + 1)))%Q.
Proof.
  intros Hji. unfold within. rewrite !segment_right by lia.
  replace (i + 1 - j + 1) with (i - j + 1 + 1) by lia.
  rewrite inject_Z_succ.
  pose proof (inject_Z_pos (i - j + 1) ltac:(lia)) as Hm.
  set (m := inject_Z (i - j + 1)) in *.
  field. split; lra.
Qed.

(** Adding a value on the left. *)
Lemma within_left (j i : Z) :
  0 <= j < i →
  (within y j i
   == within y (j + 1)%Z i
      + (inject_Z (i - j)%Z * y j - segment_sum y (j + 1)%Z i)
        * (inject_Z (i - j)%Z * y j - segment_sum y (j + 1)%Z i)
        / (inject_Z (i - j)%Z * (inject_Z (i - j)%Z + 1)))%Q.
Proof.
  intros Hji. unfold within.
  rewrite (segment_left y j), (segment_left (fun t => (y t * y t)%Q) j) by lia.
  replace (i - (j + 1) + 1) with (i - j) by lia.
  rewrite inject_Z_succ.
  pose proof (inject_Z_pos (i - j) ltac:(lia)) as Hm.
  set (m := inject_Z (i - j)) in *.
  field. split; lra.
Qed.
End Within.

Lemma square_div_nonneg (a d : Q) : (0 < d → 0 <= a * a / d)%Q.
Proof.
  intros Hd. unfold Qdiv. apply Qmult_le_0_compat; [nra|].
  apply Qinv_le_0_compat. lra.
Qed.

Lemma div_le_cross (a b c d : Q) :
  (0 < b → 0 < d → a * d <= c * b → a / b <= c / d)%Q.
Proof.
  intros Hb Hd H. apply Qle_shift_div_r; [done|].
  assert (E : (c / d * b == c * b / d)%Q) by (field; lra). rewrite E.
  by apply Qle_shift_div_l.
Qed.

Lemma square_div_zero (a d : Q) : (0 < d → a * a / d <= 0 → a == 0)%Q.
Proof.
  intros Hd H.
  assert (Hsq : (a * a <= 0)%Q).
  { assert (E : (a * a == a * a / d * d)%Q) by (field; lra). rewrite E. nra. }
  nra.
Qed.

Lemma div_le_uncross (a b c d : Q) :
  (0 < b → 0 < d → a / b <= c / d → a * d <= c * b)%Q.
Proof.
  intros Hb Hd H.
  assert (E1 : (a * d == a / b * (b * d))%Q) by (field; lra).
  assert (E2 : (c * b == c / d * (b * d))%Q) by (field; lra).
  rewrite E1, E2. apply Qmult_le_compat_r; [done|nra].
Qed.

Section Sorted.
Context (n : Z) (y : Z → Q).
Hypothesis sorted : ∀ t t', 0 <= t → t <= t' → t' < n → (y t <= y t')%Q.

Lemma segment_bounds (lo hi : Q) (j : Z) (d : nat) :
  0 <= j →
  (∀ t, j <= t <= j + Z.of_nat d → (lo <= y t <= hi)%Q) →
  (inject_Z (Z.of_nat d + 1)%Z * lo <= segment_sum y j (j + Z.of_nat d)%Z
   <= inject_Z (Z.of_nat d + 1)%Z * hi)%Q.
Proof.
  intros Hj. induction d as [|d IH]; intros Hy.
  - change (Z.of_nat 0) with 0 in *. rewrite Z.add_0_r in *.
    rewrite segment_single by done.
    specialize (Hy j ltac:(lia)). change (inject_Z (0 + 1)) with 1%Q. lra.
  - replace (j + Z.of_nat (S d)) with (j + Z.of_nat d + 1) by lia.
    rewrite segment_right by lia.
    replace (Z.of_nat (S d) + 1) with (Z.of_nat d + 1 + 1) by lia.
    rewrite inject_Z_succ.
    specialize (IH ltac:(intros t Ht; apply Hy; lia)).
    specialize (Hy (j + Z.of_nat d + 1) ltac:(lia)). nra.
Qed.

Lemma within_nonneg (j : Z) (d : nat) :
  0 <= j → (0 <= within y j (j + Z.of_nat d)%Z)%Q.
Proof.
  intros Hj. induction d as [|d IH].
  - replace (j + Z.of_nat 0) with j by lia. rewrite within_single by done. lra.
  - replace (j + Z.of_nat (S d)) with (j + Z.of_nat d + 1) by lia.
    rewrite within_right by lia.
    pose proof (inject_Z_pos (j + Z.of_nat d - j + 1) ltac:(lia)) as Hm.
    pose proof (square_div_nonneg
      (inject_Z (j + Z.of_nat d - j + 1) * y (j + Z.of_nat d + 1)
       - segment_sum y j (j + Z.of_nat d))
      (inject_Z (j + Z.of_nat d - j + 1) * (inject_Z (j + Z.of_nat d - j + 1) + 1))
      ltac:(nra)). lra.
Qed.

Lemma within_grow_right (j i : Z) :
  0 <= j <= i → (within y j i <= within y j (i + 1)%Z)%Q.
Proof.
  intros Hji. rewrite (within_right y j i) by done.
  pose proof (inject_Z_pos (i - j + 1) ltac:(lia)) as Hm.
  pose proof (square_div_nonneg
    (inject_Z (i - j + 1) * y (i + 1) - segment_sum y j i)
    (inject_Z (i - j + 1) * (inject_Z (i - j + 1) + 1)) ltac:(nra)). lra.
Qed.

Lemma within_grow_left (j i : Z) :
  0 <= j < i → (within y (j + 1)%Z i <= within y j i)%Q.
Proof.
  intros Hji. rewrite (within_left y j i) by done.
  pose proof (inject_Z_pos (i - j) ltac:(lia)) as Hm.
  pose proof (square_div_nonneg
    (inject_Z (i - j) * y j - segment_sum y (j + 1) i)
    (inject_Z (i - j) * (inject_Z (i - j) + 1)) ltac:(nra)). lra.
Qed.

Lemma within_mono (j j' i' i : Z) :
  0 <= j <= j' → j' <= i' → i' <= i → (within y j' i' <= within y j i)%Q.
Proof.
  intros Hj Hji Hi.
  assert (H1 : (within y j' i' <= within y j' i)%Q).
  { replace i with (i' + Z.of_nat (Z.to_nat (i - i'))) by lia.
    induction (Z.to_nat (i - i')) as [|d IH].
    - replace (i' + Z.of_nat 0) with i' by lia. lra.
    - replace (i' + Z.of_nat (S d)) with (i' + Z.of_nat d + 1) by lia.
      pose proof (within_grow_right j' (i' + Z.of_nat d) ltac:(lia)). lra. }
  assert (H2 : (within y j' i <= within y j i)%Q).
  { replace j with (j' - Z.of_nat (Z.to_nat (j' - j))) by lia.
    assert (Hd : Z.of_nat (Z.to_nat (j' - j)) <= j') by lia.
    induction (Z.to_nat (j' - j)) as [|d IH].
    - replace (j' - Z.of_nat 0) with j' by lia. lra.
    - specialize (IH ltac:(lia)).
      pose proof (within_grow_left (j' - Z.of_nat (S d)) i ltac:(lia)) as Hg.
      replace (j' - Z.of_nat (S d) + 1) with (j' - Z.of_nat d) in Hg by lia. lra. }
  lra.
Qed.

(** The two increments that the quadrangle inequality compares, for the
    segments [j..i] and [j+1..i] extended by the value at [i+1]. *)
Lemma monge_increments (j i : Z) :
  0 <= j < i → i + 1 < n →
  let m := inject_Z (i - j)%Z in
  let D := (m * y (i + 1)%Z - segment_sum y (j + 1)%Z i)%Q in
  let d := (y (i + 1)%Z - y j)%Q in
  (within y j (i + 1)%Z == within y j i + (D + d) * (D + d) / ((m + 1) * (m + 2)))%Q
  ∧ (within y (j + 1)%Z (i + 1)%Z
     == within y (j + 1)%Z i + D * D / (m * (m + 1)))%Q
  ∧ (1 <= m)%Q ∧ (0 <= D)%Q ∧ (D <= m * d)%Q ∧ (0 <= d)%Q.
Proof.
  intros Hji Hn m D d.
  assert (Hm : (1 <= m)%Q).
  { unfold m. change 1%Q with (inject_Z 1). rewrite <- Zle_Qle. lia. }
  pose proof (segment_bounds (y j) (y (i + 1)) (j + 1) (Z.to_nat (i - j - 1))
                ltac:(lia)) as Hb.
  replace (j + 1 + Z.of_nat (Z.to_nat (i - j - 1))) with i in Hb by lia.
  replace (Z.of_nat (Z.to_nat (i - j - 1)) + 1) with (i - j) in Hb by lia.
  fold m in Hb.
  specialize (Hb ltac:(intros t Ht; split; apply sorted; lia)).
  pose proof (sorted j (i + 1) ltac:(lia) ltac:(lia) ltac:(lia)) as Hd.
  split; [|split; [|split; [done|split; [|split]]]].
  - rewrite (within_right y j i) by lia.
    rewrite (segment_left y j i) by lia.
    replace (i - j + 1) with (i - j + 1) by lia. rewrite inject_Z_succ. fold m.
    unfold D, d. field. lra.
  - rewrite (within_right y (j + 1) i) by lia.
    replace (i - (j + 1) + 1) with (i - j) by lia. fold m. unfold D. reflexivity.
  - unfold D. lra.
  - unfold D, d. lra.
  - unfold d. lra.
Qed.

Lemma monge_adjacent (j i : Z) :
  0 <= j < i → i + 1 < n →
  (within y j i + within y (j + 1)%Z (i + 1)%Z
   <= within y j (i + 1)%Z + within y (j + 1)%Z i)%Q.
Proof.
  intros Hji Hn.
  destruct (monge_increments j i Hji Hn) as (E1 & E2 & Hm & HD & HDd & Hd).
  cbv zeta in *. rewrite E1, E2.
  set (m := inject_Z (i - j)) in *.
  set (D := (m * y (i + 1) - segment_sum y (j + 1) i)%Q) in *.
  set (d := (y (i + 1) - y j)%Q) in *.
  assert (H : (D * D / (m * (m + 1)) <= (D + d) * (D + d) / ((m + 1) * (m + 2)))%Q).
  { apply div_le_cross; [nra|nra|].
    assert (H1 : (0 <= D * (m * d - D))%Q) by nra.
    assert (H2 : (0 <= d * d * m)%Q) by nra.
    assert (H3 : (0 <= (m + 1) * ((D + d) * (D + d) * m - D * D * (m + 2)))%Q).
    { apply Qmult_le_0_compat; [lra|]. ring_simplify. ring_simplify in H1.
      ring_simplify in H2. nra. }
    ring_simplify in H3. ring_simplify. lra. }
  lra.
Qed.

Lemma monge_adjacent_tight (j i : Z) :
  0 <= j < i → i + 1 < n →
  (within y j (i + 1)%Z + within y (j + 1)%Z i
   <= within y j i + within y (j + 1)%Z (i + 1)%Z)%Q →
  (y j == y (i + 1)%Z)%Q.
Proof.
  intros Hji Hn Htight.
  destruct (monge_increments j i Hji Hn) as (E1 & E2 & Hm & HD & HDd & Hd).
  cbv zeta in *. rewrite E1, E2 in Htight.
  set (m := inject_Z (i - j)) in *.
  set (D := (m * y (i + 1) - segment_sum y (j + 1) i)%Q) in *.
  set (d := (y (i + 1) - y j)%Q) in *.
  assert (H : ((D + d) * (D + d) / ((m + 1) * (m + 2)) <= D * D / (m * (m + 1)))%Q)
    by lra.
  apply div_le_uncross in H; [|nra|nra].
  assert (H1 : (0 <= D * (m * d - D))%Q) by nra.
  assert (H3 : ((m + 1) * ((D + d) * (D + d) * m - D * D * (m + 2)) <= 0)%Q).
  { ring_simplify. ring_simplify in H. lra. }
  assert (H4 : ((D + d) * (D + d) * m - D * D * (m + 2) <= 0)%Q) by nra.
  assert (H5 : (d * d * m <= 0)%Q).
  { ring_simplify in H4. ring_simplify in H1. ring_simplify. nra. }
  assert (Hd0 : (d == 0)%Q) by nra.
  unfold d in Hd0. lra.
Qed.

Lemma monge_columns (j i1 : Z) (d : nat) :
  0 <= j → j + 1 <= i1 → i1 + Z.of_nat d < n →
  (within y j i1 + within y (j + 1)%Z (i1 + Z.of_nat d)%Z
   <= within y j (i1 + Z.of_nat d)%Z + within y (j + 1)%Z i1)%Q.
Proof.
  intros Hj Hji. induction d as [|d IH]; intros Hn.
  - replace (i1 + Z.of_nat 0) with i1 by lia. lra.
  - specialize (IH ltac:(lia)).
    replace (i1 + Z.of_nat (S d)) with (i1 + Z.of_nat d + 1) by lia.
    pose proof (monge_adjacent j (i1 + Z.of_nat d) ltac:(lia) ltac:(lia)). lra.
Qed.

(** The quadrangle inequality of the cost of a cluster. *)
Lemma within_monge (j1 j2 i1 i2 : Z) :
  0 <= j1 <= j2 → j2 <= i1 → i1 <= i2 < n →
  (within y j1 i1 + within y j2 i2 <= within y j1 i2 + within y j2 i1)%Q.
Proof.
  intros Hj Hji Hi.
  replace j1 with (j2 - Z.of_nat (Z.to_nat (j2 - j1))) by lia.
  assert (Hd : Z.of_nat (Z.to_nat (j2 - j1)) <= j2) by lia.
  induction (Z.to_nat (j2 - j1)) as [|d IH].
  - replace (j2 - Z.of_nat 0) with j2 by lia. lra.
  - specialize (IH ltac:(lia)).
    pose proof (monge_columns (j2 - Z.of_nat (S d)) i1 (Z.to_nat (i2 - i1))
                  ltac:(lia) ltac:(lia) ltac:(lia)) as Hc.
    replace (i1 + Z.of_nat (Z.to_nat (i2 - i1))) with i2 in Hc by lia.
    replace (j2 - Z.of_nat (S d) + 1) with (j2 - Z.of_nat d) in Hc by lia. lra.
Qed.

Lemma within_monge_tight (j1 j2 i1 i2 : Z) :
  0 <= j1 < j2 → j2 <= i1 → i1 < i2 < n →
  (within y j1 i2 + within y j2 i1 <= within y j1 i1 + within y j2 i2)%Q →
  (y j1 == y i2)%Q.
Proof.
  intros Hj Hji Hi Htight.
  pose proof (within_monge j1 j2 i1 (i2 - 1) ltac:(lia) ltac:(lia) ltac:(lia)) as H1.
  pose proof (within_monge (j1 + 1) j2 (i2 - 1) i2 ltac:(lia) ltac:(lia) ltac:(lia)) as H2.
  pose proof (monge_adjacent_tight j1 (i2 - 1) ltac:(lia) ltac:(lia)) as H3.
  replace (i2 - 1 + 1) with i2 in H3 by lia. apply H3. lra.
Qed.

Lemma within_constant (v : Q) (j : Z) (d : nat) :
  0 <= j → (∀ t, j <= t <= j + Z.of_nat d → (y t == v)%Q) →
  (within y j (j + Z.of_nat d)%Z == 0)%Q.
Proof.
  intros Hj. induction d as [|d IH]; intros Hy.
  - replace (j + Z.of_nat 0) with j by lia. by apply within_single.
  - replace (j + Z.of_nat (S d)) with (j + Z.of_nat d + 1) by lia.
    rewrite within_right by lia. rewrite IH by (intros t Ht; apply Hy; lia).
    pose proof (segment_bounds v v j d Hj) as Hb.
    specialize (Hb ltac:(intros t Ht; rewrite (Hy t) by lia; lra)).
    replace (j + Z.of_nat d - j + 1) with (Z.of_nat d + 1) by lia.
    pose proof (inject_Z_pos (Z.of_nat d + 1) ltac:(lia)) as Hm.
    rewrite (Hy (j + Z.of_nat d + 1)) by lia.
    set (m := inject_Z (Z.of_nat d + 1)) in *.
    assert (E : (m * v - segment_sum y j (j + Z.of_nat d) == 0)%Q) by lra.
    rewrite E. field. lra.
Qed.

Lemma within_same_zero (j i j' i' : Z) :
  (y j == y i)%Q → 0 <= j <= j' → j' <= i' → i' <= i < n →
  (within y j' i' == 0)%Q.
Proof.
  intros Hsame Hj Hji Hi.
  replace i' with (j' + Z.of_nat (Z.to_nat (i' - j'))) by lia.
  apply (within_constant (y j)); [lia|]. intros t Ht.
  pose proof (sorted j t ltac:(lia) ltac:(lia) ltac:(lia)).
  pose proof (sorted t i ltac:(lia) ltac:(lia) ltac:(lia)). lra.
Qed.

Lemma within_free (j i i' : Z) :
  0 <= j <= i → i < i' < n → (within y j i' <= within y j i)%Q →
  (y j == y i')%Q.
Proof.
  intros Hj Hi Hle.
  pose proof (within_mono j j i (i' - 1) ltac:(lia) ltac:(lia) ltac:(lia)) as Hm.
  pose proof (within_right y j (i' - 1) ltac:(lia)) as Hr.
  replace (i' - 1 + 1) with i' in Hr by lia.
  replace (i' - 1 - j + 1) with (i' - j) in Hr by lia.
  pose proof (inject_Z_pos (i' - j) ltac:(lia)) as Hpos.
  set (m := inject_Z (i' - j)) in *.
  assert (Hz : (m * y i' - segment_sum y j (i' - 1) == 0)%Q).
  { apply (square_div_zero _ (m * (m + 1))); [nra|]. lra. }
  pose proof (sorted j i' ltac:(lia) ltac:(lia) ltac:(lia)) as Hs.
  destruct (decide (j = i' - 1)) as [E|Hne].
  - rewrite <- E in Hz. rewrite segment_single in Hz by lia.
    assert (Hm1 : (m == 1)%Q).
    { unfold m. replace (i' - j) with 1 by lia. reflexivity. }
    rewrite Hm1 in Hz. lra.
  - rewrite (segment_left y j) in Hz by lia.
    pose proof (segment_bounds (y j) (y i') (j + 1) (Z.to_nat (i' - j - 2))
                  ltac:(lia)) as Hb.
    replace (j + 1 + Z.of_nat (Z.to_nat (i' - j - 2))) with (i' - 1) in Hb by lia.
    replace (Z.of_nat (Z.to_nat (i' - j - 2)) + 1) with (i' - j - 1) in Hb by lia.
    specialize (Hb ltac:(intros t Ht; split; apply sorted; lia)).
    assert (Em : (inject_Z (i' - j - 1) == m - 1)%Q).
    { unfold m. replace (i' - j) with (i' - j - 1 + 1) at 2 by lia.
      rewrite inject_Z_succ. ring. }
    rewrite Em in Hb. lra.
Qed.

Lemma same_value_join (j i j' i' : Z) :
  (y j == y i)%Q → (y j' == y i')%Q → 0 <= j <= j' → j' <= i → i <= i' < n →
  (y j == y i')%Q.
Proof.
  intros H1 H2 Hj Hji Hi.
  pose proof (sorted j j' ltac:(lia) ltac:(lia) ltac:(lia)).
  pose proof (sorted j' i ltac:(lia) ltac:(lia) ltac:(lia)). lra.
Qed.
End Sorted.
End CkAlgebra.

Module CkSums.
Import Ckmeans CkCost CkAlgebra CkColumn.

Local Abbreviation ssq := (Ckmeans.ssq exact).
Local Abbreviation column_loop := (Ckmeans.column_loop exact).
Local Abbreviation fill_cell := (Ckmeans.fill_cell exact).
Local Abbreviation fillMatrixColumn := (Ckmeans.fillMatrixColumn exact).
Local Abbreviation first_row := (Ckmeans.first_row exact).
Local Abbreviation rows_loop := (Ckmeans.rows_loop exact).
Local Abbreviation fillMatrices := (Ckmeans.fillMatrices exact).
Local Abbreviation ckmeans := (Ckmeans.ckmeans exact).

Section Sums.
Context (n : Z) (y : Z → Q) (sums sumsOfSquares : list Q).
Hypothesis sums_prefix : ∀ t, 0 <= t < n →
  (zget 0%Q sums t == prefix_sum y (Z.to_nat (t + 1)))%Q.
Hypothesis squares_prefix : ∀ t, 0 <= t < n →
  (zget 0%Q sumsOfSquares t
   == prefix_sum (fun u => (y u * y u)%Q) (Z.to_nat (t + 1)))%Q.

(** [ssq] is the sum of squared deviations of the segment; its guard
    against a negative value never fires on exact numbers. *)
Lemma ssq_within (j i : Z) :
  0 <= j <= i → i < n → (ssq j i sums sumsOfSquares == within y j i)%Q.
Proof.
  intros Hji Hn.
  pose proof (within_nonneg y j (Z.to_nat (i - j)) ltac:(lia)) as Hnn.
  replace (j + Z.of_nat (Z.to_nat (i - j))) with i in Hnn by lia.
  pose proof (inject_Z_pos (i - j + 1) ltac:(lia)) as Hm.
  pose proof (sums_prefix i ltac:(lia)) as Hsi.
  pose proof (squares_prefix i ltac:(lia)) as Hqi.
  unfold Ckmeans.ssq. cbn [a_add a_sub a_mul a_div exact]. destruct (Z.ltb_spec 0 j) as [Hpos|Hzero].
  - pose proof (sums_prefix (j - 1) ltac:(lia)) as Hsj.
    pose proof (squares_prefix (j - 1) ltac:(lia)) as Hqj.
    replace (j - 1 + 1) with j in Hsj, Hqj by lia.
    set (sji := qsub _ _).
    assert (E : (sji == within y j i)%Q).
    { unfold sji, qsub, qdiv, qmul, qofZ. rewrite !Qred_correct.
      rewrite Hsi, Hsj, Hqi, Hqj. unfold within, segment_sum. field. lra. }
    destruct (qlt_reflect sji 0); [lra|done].
  - assert (j = 0) as -> by lia.
    set (sji := qsub _ _).
    assert (E : (sji == within y 0 i)%Q).
    { unfold sji, qsub, qdiv, qmul, qofZ. rewrite !Qred_correct.
      rewrite Hsi, Hqi. unfold within, segment_sum.
      replace (i - 0 + 1) with (i + 1) by lia.
      change (Z.to_nat 0) with 0%nat. cbn [prefix_sum].
      field. replace (i - 0 + 1) with (i + 1) in Hm by lia. lra. }
    destruct (qlt_reflect sji 0); [lra|done].
Qed.
End Sums.
End CkSums.

(** ** ckmeans: the rows of the matrices *)

Module CkRows.
Import Ckmeans CkOptimum CkInv CkMatrix CkColumn CkCell CkCost CkAlgebra CkSums.

Local Abbreviation ssq := (Ckmeans.ssq exact).
Local Abbreviation column_loop := (Ckmeans.column_loop exact).
Local Abbreviation fill_cell := (Ckmeans.fill_cell exact).
Local Abbreviation fillMatrixColumn := (Ckmeans.fillMatrixColumn exact).
Local Abbreviation first_row := (Ckmeans.first_row exact).
Local Abbreviation rows_loop := (Ckmeans.rows_loop exact).
Local Abbreviation fillMatrices := (Ckmeans.fillMatrices exact).
Local Abbreviation ckmeans := (Ckmeans.ckmeans exact).

Lemma zget_app_l {A} (d : A) (l l' : list A) (t : Z) :
  0 <= t < Z.of_nat (length l) → zget d (l ++ l') t = zget d l t.
Proof.
  intros Ht. unfold zget. destruct (Z.ltb_spec t 0); [lia|].
  by rewrite lookup_app_l by lia.
Qed.

Lemma zget_app_here {A} (d : A) (l l' : list A) (v : A) :
  zget d (l ++ v :: l') (Z.of_nat (length l)) = v.
Proof.
  unfold zget. destruct (Z.ltb_spec (Z.of_nat (length l)) 0); [lia|].
  rewrite Nat2Z.id. by rewrite list_lookup_middle.
Qed.

Section FirstRow.
Context (all : list Q) (shift : Q) (rows : Z) (Hrows : 0 < rows).
Local Abbreviation n := (Z.of_nat (length all)).
Local Abbreviation y := (shifted all shift).
Local Abbreviation y2 := (fun t => (shifted all shift t * shifted all shift t)%Q).

Lemma first_row_ok (data : list Q) :
  ∀ (seen sums sumsOfSquares : list Q) (ms : matrices),
    all = seen ++ data →
    length sums = length seen → length sumsOfSquares = length seen →
    (∀ t, 0 <= t < Z.of_nat (length seen) →
          (zget 0%Q sums t == prefix_sum y (Z.to_nat (t + 1)))%Q
          ∧ (zget 0%Q sumsOfSquares t == prefix_sum y2 (Z.to_nat (t + 1)))%Q) →
    wf rows n ms →
    ∃ sums' sumsOfSquares' ms',
      first_row data shift (Z.of_nat (length seen)) sums sumsOfSquares ms
      = (sums', sumsOfSquares', ms')
      ∧ (∀ t, 0 <= t < n →
              (zget 0%Q sums' t == prefix_sum y (Z.to_nat (t + 1)))%Q
              ∧ (zget 0%Q sumsOfSquares' t
                 == prefix_sum y2 (Z.to_nat (t + 1)))%Q)
      ∧ wf rows n ms'
      ∧ same_outside 0 (Z.of_nat (length seen)) (n - 1) ms ms'
      ∧ (∀ t, Z.of_nat (length seen) <= t < n →
              (mget 0%Q (matrix ms') 0 t == within y 0 t)%Q
              ∧ mget 0 (backtrackMatrix ms') 0 t = 0).
Proof.
  induction data as [|d data IH]; intros seen sums sq ms Hall Hls Hlq Hpre Hwf.
  - exists sums, sq, ms. rewrite app_nil_r in Hall. subst seen.
    split; [done|]. split; [done|]. split; [done|].
    split; [apply same_outside_refl|]. intros t Ht. lia.
  - cbn [Ckmeans.first_row a_add a_sub a_mul a_div exact].
    set (i := Z.of_nat (length seen)) in *.
    assert (Hin : 0 <= i < n).
    { unfold i. rewrite Hall, length_app. cbn [length]. lia. }
    assert (Hyi : (y i == d - shift)%Q).
    { unfold shifted, i. rewrite Hall at 1. by rewrite zget_app_here. }
    set (sv := qsub d shift).
    assert (Hsv : (sv == y i)%Q) by (unfold sv, qsub; rewrite Qred_correct; lra).
    set (sums1 := if i =? 0 then sums ++ [sv] else _).
    set (sq1 := if i =? 0 then sq ++ [qmul sv sv] else _).
    assert (Hs1 : ∃ v, sums1 = sums ++ [v]
                       ∧ (v == prefix_sum y (Z.to_nat (i + 1)))%Q).
    { pose proof (prefix_sum_succ y i ltac:(lia)) as Hp. unfold sums1.
      destruct (Z.eqb_spec i 0) as [E|Hne].
      - exists sv. split; [done|]. rewrite Hp, E. change (Z.to_nat 0) with 0%nat.
        cbn [prefix_sum]. rewrite E in Hsv. lra.
      - eexists. split; [done|]. rewrite Hp, qadd_eq.
        destruct (Hpre (i - 1) ltac:(lia)) as [-> _].
        replace (i - 1 + 1) with i by lia. lra. }
    assert (Hq1 : ∃ v, sq1 = sq ++ [v]
                       ∧ (v == prefix_sum y2 (Z.to_nat (i + 1)))%Q).
    { pose proof (prefix_sum_succ y2 i ltac:(lia)) as Hp. unfold sq1.
      assert (Hsq : (qmul sv sv == y2 i)%Q).
      { unfold qmul. rewrite Qred_correct, Hsv. ring. }
      cbn beta in Hp, Hsq.
      destruct (Z.eqb_spec i 0) as [E|Hne].
      - eexists. split; [done|]. rewrite Hp, E. change (Z.to_nat 0) with 0%nat.
        cbn [prefix_sum]. rewrite E in Hsq. lra.
      - eexists. split; [done|]. rewrite Hp, qadd_eq.
        destruct (Hpre (i - 1) ltac:(lia)) as [_ ->].
        replace (i - 1 + 1) with i by lia. lra. }
    destruct Hs1 as (v1 & Es1 & Hv1). destruct Hq1 as (v2 & Eq1 & Hv2).
    clearbody sums1 sq1. subst sums1 sq1.
    assert (Hpre1 : ∀ t, 0 <= t < i + 1 →
              (zget 0%Q (sums ++ [v1]) t == prefix_sum y (Z.to_nat (t + 1)))%Q
              ∧ (zget 0%Q (sq ++ [v2]) t == prefix_sum y2 (Z.to_nat (t + 1)))%Q).
    { intros t Ht. destruct (decide (t = i)) as [->|Hne].
      - unfold i at 1 3. rewrite <- Hls at 1. rewrite <- Hlq at 1.
        by rewrite !zget_app_here.
      - rewrite !zget_app_l by (unfold i in *; lia). apply Hpre. lia. }
    set (ms1 := Matrices _ _).
    destruct Hwf as [Hwm Hwb].
    assert (Hwf1 : wf rows n ms1).
    { split; cbn; apply wf_mset; (lia || done). }
    assert (Hsame1 : same_outside 0 i i ms ms1).
    { intros r c Hrc. cbn.
      rewrite (mget_mset _ rows n), (mget_mset _ rows n) by (lia || done).
      destruct (decide (0 = r ∧ i = c)) as [[<- <-]|_]; [lia|done]. }
    assert (Hcell1 : (mget 0%Q (matrix ms1) 0 i == within y 0 i)%Q
                     ∧ mget 0 (backtrackMatrix ms1) 0 i = 0).
    { cbn. rewrite (mget_mset _ rows n), (mget_mset _ rows n) by (lia || done).
      destruct (decide (0 = 0 ∧ i = i)) as [_|Hn]; [|tauto]. split; [|done].
      apply (ssq_within (i + 1) y); try lia.
      - intros t Ht. by apply Hpre1.
      - intros t Ht. by apply Hpre1. }
    destruct (IH (seen ++ [d]) (sums ++ [v1]) (sq ++ [v2]) ms1)
      as (sums' & sq' & ms' & Hrun & Hpre' & Hwf' & Hsame' & Hcells').
    { by rewrite <- app_assoc. }
    { rewrite !length_app. cbn. lia. }
    { rewrite !length_app. cbn. lia. }
    { intros t Ht. apply Hpre1. rewrite length_app in Ht. cbn in Ht. lia. }
    { done. }
    replace (Z.of_nat (length (seen ++ [d]))) with (i + 1) in *
      by (rewrite length_app; cbn; lia).
    exists sums', sq', ms'. split; [done|]. split; [done|]. split; [done|]. split.
    + apply (same_outside_trans _ i (n - 1) i i (i + 1) (n - 1) ms ms1 ms');
        [done|done|intros; lia].
    + intros t Ht. destruct (decide (t = i)) as [->|Hne]; [|apply Hcells'; lia].
      destruct (Hsame' 0 i) as [-> ->]; [lia|done].
Qed.
End FirstRow.

Section Rows.
Context (n rows : Z) (y : Z → Q) (sums sumsOfSquares : list Q).
Hypothesis sorted : ∀ t t', 0 <= t → t <= t' → t' < n → (y t <= y t')%Q.
Hypothesis sums_prefix : ∀ t, 0 <= t < n →
  (zget 0%Q sums t == prefix_sum y (Z.to_nat (t + 1)))%Q.
Hypothesis squares_prefix : ∀ t, 0 <= t < n →
  (zget 0%Q sumsOfSquares t
   == prefix_sum (fun u => (y u * y u)%Q) (Z.to_nat (t + 1)))%Q.
Hypothesis Hrows : 1 <= rows <= n.
Local Abbreviation w := (fun j i => ssq j i sums sumsOfSquares).
Local Abbreviation cost_is := (ssq_within n y sums sumsOfSquares sums_prefix squares_prefix).

Lemma cost_diag (i : Z) : 0 <= i < n → (w i i == 0)%Q.
Proof. intros Hi. cbn beta. rewrite cost_is by lia. apply within_single. lia. Qed.

Lemma cost_mono (j j' i' i : Z) :
  0 <= j <= j' → j' <= i' → i' <= i < n → (w j' i' <= w j i)%Q.
Proof.
  intros H1 H2 H3. cbn beta. rewrite !cost_is by lia. by apply within_mono; lia.
Qed.

Lemma cost_monge (j1 j2 i1 i2 : Z) :
  0 <= j1 <= j2 → j2 <= i1 → i1 <= i2 < n →
  (w j1 i1 + w j2 i2 <= w j1 i2 + w j2 i1)%Q.
Proof.
  intros H1 H2 H3. cbn beta. rewrite !cost_is by lia.
  by apply (within_monge n y sorted).
Qed.

Lemma cost_same_zero (j i j' i' : Z) :
  (y j == y i)%Q → 0 <= j <= j' → j' <= i' → i' <= i < n → (w j' i' == 0)%Q.
Proof.
  intros Hs H1 H2 H3. cbn beta. rewrite cost_is by lia.
  by apply (within_same_zero n y sorted j i).
Qed.

Lemma cost_free (j i i' : Z) :
  0 <= j <= i → i < i' < n → (w j i' <= w j i)%Q → (y j == y i')%Q.
Proof.
  intros H1 H2. cbn beta. rewrite !cost_is by lia.
  by apply (within_free n y sorted).
Qed.

Lemma cost_tight (j1 j2 i1 i2 : Z) :
  0 <= j1 < j2 → j2 <= i1 → i1 < i2 < n →
  (w j1 i2 + w j2 i1 <= w j1 i1 + w j2 i2)%Q → (y j1 == y i2)%Q.
Proof.
  intros H1 H2 H3. cbn beta. rewrite !cost_is by lia.
  by apply (within_monge_tight n y sorted).
Qed.

Lemma row_ok_of_inv (c : nat) (ms : matrices) :
  (0 < c)%nat → Z.of_nat c < rows →
  rows_inv w rows n (Z.of_nat c) ms → row_ok w n (c - 1) ms.
Proof.
  intros Hc Hcr (Hwf & Hrow0 & Hdone & Hzero).
  destruct (decide (c = 1%nat)) as [->|Hne].
  - unfold row_ok. change (Z.of_nat (1 - 1)) with 0.
    split; [|split].
    + intros i Hi. by apply Hrow0.
    + intros i Hi. destruct (Hrow0 i Hi) as [_ ->].
      split; [lia|]. split; [done|lia].
    + intros i i' H1 H2 H3.
      destruct (Hrow0 i ltac:(lia)) as [_ ->].
      destruct (Hrow0 i' ltac:(lia)) as [_ ->]. done.
  - destruct (Hdone (c - 1)%nat ltac:(lia) ltac:(lia)) as [Hfull _].
    destruct (Hfull ltac:(lia)) as [Hcells Hmono].
    split; [|split].
    + intros i Hi. by apply Hcells.
    + intros i Hi. destruct (Hcells i Hi) as (_ & Hmin & _).
      split; [destruct Hmin; lia|]. split; [lia|done].
    + done.
Qed.

Lemma rows_loop_ok (todo : nat) :
  ∀ (c : nat) (ms : matrices),
    (0 < c)%nat → Z.of_nat c + Z.of_nat todo = rows →
    rows_inv w rows n (Z.of_nat c) ms →
    ∃ ms', rows_loop todo (Z.of_nat c) n sums sumsOfSquares ms = Some ms'
           ∧ rows_inv w rows n rows ms'.
Proof.
  induction todo as [|todo IH]; intros c ms Hc Hrun Hinv.
  - exists ms. split; [done|].
    assert (E : Z.of_nat c = rows) by lia. by rewrite E in Hinv.
  - cbn [Ckmeans.rows_loop a_add a_sub a_mul a_div exact].
    pose proof (row_ok_of_inv c ms Hc ltac:(lia) Hinv) as Hprev.
    destruct Hinv as (Hwf & Hrow0 & Hdone & Hzero).
    replace (Z.of_nat (length (matrix ms))) with rows by (destruct Hwf as [[? _] _]; lia).
    set (iMin := if Z.of_nat c <? rows - 1 then Z.of_nat c else n - 1).
    assert (HiMin : Z.of_nat c <= iMin <= n - 1).
    { unfold iMin. destruct (Z.ltb_spec (Z.of_nat c) (rows - 1)); lia. }
    destruct (fillMatrixColumn_ok n rows sums sumsOfSquares (fun j i => (y j == y i)%Q)
                cost_diag cost_mono cost_monge cost_same_zero cost_free cost_tight
                (same_value_join n y sorted) c Hc ltac:(lia)
                (S (Z.to_nat n)) iMin (n - 1) ms)
      as (ms1 & -> & Hwf1 & Hsame1 & Hcells1 & _ & _ & Hmono1);
      try done; try lia.
    { intros Hlt. left. apply Hzero. lia. }
    cbn [mbind option_bind].
    replace (Z.of_nat c + 1) with (Z.of_nat (S c)) by lia.
    apply IH; [lia|lia|].
    split; [done|]. split; [|split].
    + intros i Hi. destruct (Hsame1 0 i) as [-> ->]; [lia|]. by apply Hrow0.
    + intros q Hq Hqc. destruct (decide (q = c)) as [->|Hne].
      * split.
        -- intros Hlt. unfold iMin in *.
           destruct (Z.ltb_spec (Z.of_nat c) (rows - 1)); [|lia].
           split; [intros i Hi; apply Hcells1; lia|].
           intros i i' H1 H2 H3. apply Hmono1; lia.
        -- intros Hlast. apply Hcells1. lia.
      * destruct (Hdone q Hq ltac:(lia)) as [Hfull Hlast]. split.
        -- intros Hlt. destruct (Hfull Hlt) as [Hcells Hmono]. split.
           ++ intros i Hi. eapply cell_ok_other_row; [exact Hsame1|lia|].
              by apply Hcells.
           ++ intros i i' H1 H2 H3.
              destruct (Hsame1 (Z.of_nat q) i) as [_ ->]; [lia|].
              destruct (Hsame1 (Z.of_nat q) i') as [_ ->]; [lia|].
              by apply Hmono.
        -- intros Hl. eapply cell_ok_other_row; [exact Hsame1|lia|].
           by apply Hlast.
    + intros r col Hr. destruct (Hsame1 r col) as [_ ->]; [lia|].
      apply Hzero. lia.
Qed.
End Rows.

Lemma wf_makeMatrix {A} (zero : A) (rows n : Z) :
  0 <= rows → 0 <= n → wf_matrix rows n (makeMatrix zero rows n).
Proof.
  intros Hr Hn. unfold makeMatrix. split.
  - rewrite length_replicate. lia.
  - apply Forall_replicate. rewrite length_replicate. lia.
Qed.

Lemma zget_replicate {A} (d : A) (count : nat) (t : Z) :
  zget d (replicate count d) t = d.
Proof.
  unfold zget. destruct (t <? 0); [done|].
  destruct (replicate count d !! Z.to_nat t) as [v|] eqn:E; [|done].
  by apply lookup_replicate in E as [-> _].
Qed.

Lemma mget_makeMatrix (rows n r c : Z) : mget 0 (makeMatrix 0 rows n) r c = 0.
Proof.
  unfold mget, makeMatrix.
  assert (E : zget [] (replicate (Z.to_nat rows) (replicate (Z.to_nat n) 0)) r
              = replicate (Z.to_nat n) 0 ∨
              zget [] (replicate (Z.to_nat rows) (replicate (Z.to_nat n) 0)) r = []).
  { unfold zget. destruct (r <? 0); [by right|].
    destruct (replicate _ _ !! Z.to_nat r) as [v|] eqn:E; [|by right].
    apply lookup_replicate in E as [-> _]. by left. }
  destruct E as [-> | ->]; [apply zget_replicate|].
  unfold zget. by destruct (c <? 0).
Qed.

Section Fill.
Context (data : list Q) (rows : Z).
Local Abbreviation n := (Z.of_nat (length data)).
Hypothesis data_sorted : ∀ t t', 0 <= t → t <= t' → t' < n →
  (zget 0%Q data t <= zget 0%Q data t')%Q.
Hypothesis Hrows : 1 <= rows <= n.

(** [fillMatrices] returns, and leaves the two matrices filled with the
    least costs and the starts that attain them. *)
Lemma fillMatrices_ok :
  ∃ shift sums sumsOfSquares ms',
    fillMatrices data (Matrices (makeMatrix 0%Q rows n) (makeMatrix 0 rows n))
    = Some ms'
    ∧ (∀ t, 0 <= t < n →
            (zget 0%Q sums t
             == prefix_sum (shifted data shift) (Z.to_nat (t + 1)))%Q)
    ∧ (∀ t, 0 <= t < n →
            (zget 0%Q sumsOfSquares t
             == prefix_sum (fun u => (shifted data shift u * shifted data shift u)%Q)
                  (Z.to_nat (t + 1)))%Q)
    ∧ rows_inv (fun j i => ssq j i sums sumsOfSquares) rows n rows ms'.
Proof.
  set (ms := Matrices _ _).
  assert (Hwf : wf rows n ms).
  { split; cbn; apply wf_makeMatrix; lia. }
  unfold Ckmeans.fillMatrices. cbn [a_add a_sub a_mul a_div exact].
  rewrite (wf_row rows n (matrix ms) 0 (proj1 Hwf)) by lia.
  set (shift := zget 0%Q data (n / 2)).
  destruct (first_row_ok data shift rows ltac:(lia) data [] [] [] ms)
    as (sums & sq & ms0 & Hrun & Hpre & Hwf0 & Hsame0 & Hrow0);
    [done|done|done|cbn; intros; lia|done|].
  change (Z.of_nat (length [])) with 0 in *. rewrite Hrun.
  assert (Hs : ∀ t, 0 <= t < n →
             (zget 0%Q sums t == prefix_sum (shifted data shift) (Z.to_nat (t + 1)))%Q)
    by (intros t Ht; by apply Hpre).
  assert (Hq : ∀ t, 0 <= t < n →
             (zget 0%Q sq t
              == prefix_sum (fun u => (shifted data shift u * shifted data shift u)%Q)
                   (Z.to_nat (t + 1)))%Q)
    by (intros t Ht; by apply Hpre).
  assert (Hsorted : ∀ t t', 0 <= t → t <= t' → t' < n →
            (shifted data shift t <= shifted data shift t')%Q).
  { intros t t' H1 H2 H3. unfold shifted.
    pose proof (data_sorted t t' H1 H2 H3). lra. }
  destruct (rows_loop_ok n rows (shifted data shift) sums sq Hsorted Hs Hq Hrows
              (length (matrix ms) - 1) 1%nat ms0) as (ms' & Hloop & Hinv).
  { lia. }
  { destruct Hwf as [[Hlen _] _]. lia. }
  { split; [done|]. split; [|split].
    - intros i Hi. destruct (Hrow0 i Hi) as [Hv Hb]. split; [|done].
      rewrite Hv. cbn [opt]. symmetry.
      apply (ssq_within n (shifted data shift) sums sq Hs Hq); lia.
    - intros q Hq0 Hq1. lia.
    - intros r col Hr. destruct (Hsame0 r col) as [_ ->]; [lia|].
      apply mget_makeMatrix. }
  exists shift, sums, sq, ms'. done.
Qed.
End Fill.
End CkRows.

(** ** ckmeans: sorting, groups and the result *)


Module CkSort.
Import Descriptive Ckmeans CkSpec CkColumn.

Local Abbreviation ssq := (Ckmeans.ssq exact).
Local Abbreviation column_loop := (Ckmeans.column_loop exact).
Local Abbreviation fill_cell := (Ckmeans.fill_cell exact).
Local Abbreviation fillMatrixColumn := (Ckmeans.fillMatrixColumn exact).
Local Abbreviation first_row := (Ckmeans.first_row exact).
Local Abbreviation rows_loop := (Ckmeans.rows_loop exact).
Local Abbreviation fillMatrices := (Ckmeans.fillMatrices exact).
Local Abbreviation ckmeans := (Ckmeans.ckmeans exact).

Lemma sort_insert_perm (x : Q) (l : list Q) :
  sort_insert (fun a b => qsub a b) x l ≡ₚ x :: l.
Proof.
  induction l as [|y l IH]; [done|]. cbn [sort_insert].
  destruct (qle (qsub x y) 0); [done|]. rewrite IH. apply Permutation_swap.
Qed.

Lemma numericSort_perm (x : list Q) : numericSort x ≡ₚ x.
Proof.
  unfold numericSort. induction x as [|a x IH]; [done|]. cbn [js_sort].
  by rewrite sort_insert_perm, IH.
Qed.

Lemma sort_insert_sorted (x : Q) (l : list Q) :
  StronglySorted Qle l → StronglySorted Qle (sort_insert (fun a b => qsub a b) x l).
Proof.
  induction 1 as [|y l Hsorted IH Hy]; [repeat constructor|].
  cbn [sort_insert]. destruct (qle_spec (qsub x y) 0) as [Hle|Hgt].
  - unfold qsub in Hle. rewrite Qred_correct in Hle.
    constructor; [by constructor|]. constructor; [lra|].
    eapply Forall_impl; [exact Hy|]. intros z Hz. cbn beta in Hz. lra.
  - unfold qsub in Hgt. rewrite Qred_correct in Hgt.
    constructor; [done|]. rewrite sort_insert_perm. constructor; [lra|done].
Qed.

Lemma numericSort_sorted (x : list Q) : StronglySorted Qle (numericSort x).
Proof.
  unfold numericSort. induction x as [|a x IH]; [constructor|].
  cbn [js_sort]. by apply sort_insert_sorted.
Qed.

Lemma sorted_lookup (l : list Q) :
  StronglySorted Qle l →
  ∀ (i j : nat) (a b : Q), l !! i = Some a → l !! j = Some b → (i <= j)%nat →
                           (a <= b)%Q.
Proof.
  induction 1 as [|y l Hsorted IH Hy]; intros i j a b Ha Hb Hij; [done|].
  destruct i as [|i], j as [|j]; cbn in Ha, Hb; simplify_eq.
  - lra.
  - rewrite Forall_forall in Hy. apply Hy. by eapply list_elem_of_lookup_2.
  - lia.
  - eapply IH; [done|done|lia].
Qed.

Lemma numericSort_ordered (x : list Q) (t t' : Z) :
  0 <= t → t <= t' → t' < Z.of_nat (length (numericSort x)) →
  (zget 0%Q (numericSort x) t <= zget 0%Q (numericSort x) t')%Q.
Proof.
  intros H1 H2 H3. unfold zget.
  destruct (Z.ltb_spec t 0), (Z.ltb_spec t' 0); try lia.
  destruct (lookup_lt_is_Some_2 (numericSort x) (Z.to_nat t) ltac:(lia)) as [a Ha].
  destruct (lookup_lt_is_Some_2 (numericSort x) (Z.to_nat t') ltac:(lia)) as [b Hb].
  rewrite Ha, Hb. cbn.
  eapply (sorted_lookup _ (numericSort_sorted x)); [done|done|lia].
Qed.

Lemma numericSort_length (x : list Q) : length (numericSort x) = length x.
Proof. by rewrite numericSort_perm. Qed.

(** [uniqueCountSorted] counts one value exactly when all are the same. *)
Lemma uniqueCount_loop_ge (l : list Q) (v : Q) (c : Z) :
  c <= uniqueCount_loop l v c.
Proof.
  revert v c. induction l as [|a l IH]; intros v c; cbn; [lia|].
  destruct (negb (qeq a v)); [|done]. specialize (IH a (c + 1)). lia.
Qed.

Lemma uniqueCount_loop_same (l : list Q) (v : Q) (c : Z) :
  uniqueCount_loop l v c = c ↔ forallb (fun b => qeq b v) l = true.
Proof.
  revert v c. induction l as [|a l IH]; intros v c; cbn; [done|].
  destruct (qeq a v) eqn:E; cbn.
  - apply IH.
  - pose proof (uniqueCount_loop_ge l a (c + 1)). split; [lia|done].
Qed.

Lemma forallb_qeq (v : Q) (l : list Q) :
  forallb (fun b => qeq b v) l = true ↔ ∀ b, b ∈ l → (b == v)%Q.
Proof.
  induction l as [|a l IH]; cbn.
  - split; [|done]. intros _ b Hb. by apply elem_of_nil in Hb.
  - rewrite andb_true_iff, IH. split.
    + intros [Ha Hl] b Hb. apply elem_of_cons in Hb as [->|Hb]; [|by apply Hl].
      unfold qeq in Ha. by apply Qeq_bool_eq.
    + intros H. split.
      * unfold qeq. apply Qeq_eq_bool. apply H. by left.
      * intros b Hb. apply H. by right.
Qed.

Lemma all_same_spec (l : list Q) :
  all_same l = true ↔ l ≠ [] ∧ ∀ a b, a ∈ l → b ∈ l → (a == b)%Q.
Proof.
  destruct l as [|a l]; cbn [all_same]; [split; [done|by intros [? _]]|].
  rewrite forallb_qeq. split.
  - intros H. split; [done|]. intros b c Hb Hc.
    assert (Hall : ∀ z, z ∈ a :: l → (z == a)%Q).
    { intros z Hz. apply elem_of_cons in Hz as [->|Hz]; [reflexivity|by apply H]. }
    rewrite (Hall b Hb), (Hall c Hc). reflexivity.
  - intros [_ H] b Hb. apply H; [by right|by left].
Qed.

Lemma all_same_perm (l l' : list Q) : l ≡ₚ l' → all_same l = all_same l'.
Proof.
  intros Hp.
  assert (H : ∀ k k' : list Q, k ≡ₚ k' → all_same k = true → all_same k' = true).
  { intros k k' Hk. rewrite !all_same_spec. intros [Hne Hall]. split.
    - intros ->. by apply Permutation_nil_r in Hk.
    - intros a b Ha Hb. apply Hall; by rewrite Hk. }
  destruct (all_same l) eqn:E1, (all_same l') eqn:E2; try done.
  - by rewrite (H l l' Hp E1) in E2.
  - by rewrite (H l' l (symmetry Hp) E2) in E1.
Qed.

Lemma uniqueCountSorted_one (l : list Q) :
  uniqueCountSorted l = 1 ↔ all_same l = true.
Proof.
  destruct l as [|a l]; cbn [uniqueCountSorted all_same]; [done|].
  apply uniqueCount_loop_same.
Qed.

Lemma uniqueCount_numericSort (x : list Q) :
  (uniqueCountSorted (numericSort x) =? 1) = all_same x.
Proof.
  rewrite <- (all_same_perm _ _ (numericSort_perm x)).
  destruct (Z.eqb_spec (uniqueCountSorted (numericSort x)) 1) as [E|Hne].
  - symmetry. by apply uniqueCountSorted_one.
  - destruct (all_same (numericSort x)) eqn:E; [|done].
    by apply uniqueCountSorted_one in E.
Qed.
End CkSort.

Module CkGroups.
Import Descriptive Ckmeans CkSpec CkCost CkAlgebra CkColumn CkMatrix.

Local Abbreviation ssq := (Ckmeans.ssq exact).
Local Abbreviation column_loop := (Ckmeans.column_loop exact).
Local Abbreviation fill_cell := (Ckmeans.fill_cell exact).
Local Abbreviation fillMatrixColumn := (Ckmeans.fillMatrixColumn exact).
Local Abbreviation first_row := (Ckmeans.first_row exact).
Local Abbreviation rows_loop := (Ckmeans.rows_loop exact).
Local Abbreviation fillMatrices := (Ckmeans.fillMatrices exact).
Local Abbreviation ckmeans := (Ckmeans.ckmeans exact).

Lemma list_sum_app (l l' : list Q) :
  (list_sum (l ++ l') == list_sum l + list_sum l')%Q.
Proof.
  unfold list_sum. induction l as [|a l IH]; cbn [app foldr]; [ring|].
  rewrite IH. ring.
Qed.

Lemma sum_square_deviations (c : Q) (l : list Q) :
  (list_sum (map (fun v => (v - c) * (v - c)) l)
   == list_sum (map (fun v => v * v) l) - 2 * c * list_sum l
      + inject_Z (Z.of_nat (length l)) * c * c)%Q.
Proof.
  induction l as [|a l IH].
  { cbn [map length list_sum foldr]. change (inject_Z (Z.of_nat 0)) with 0%Q. ring. }
  cbn [map length list_sum foldr]. fold (list_sum (map (fun v => (v - c) * (v - c))%Q l)).
  fold (list_sum (map (fun v => v * v)%Q l)). fold (list_sum l).
  rewrite IH. rewrite Nat2Z.inj_succ. unfold Z.succ. rewrite inject_Z_succ. ring.
Qed.

Lemma sum_shifted (s : Q) (l : list Q) :
  (list_sum (map (fun v => v - s) l)
   == list_sum l - inject_Z (Z.of_nat (length l)) * s)%Q.
Proof.
  induction l as [|a l IH].
  { cbn [map length list_sum foldr]. change (inject_Z (Z.of_nat 0)) with 0%Q. ring. }
  cbn [map length list_sum foldr]. fold (list_sum (map (fun v => v - s)%Q l)).
  fold (list_sum l).
  rewrite IH. rewrite Nat2Z.inj_succ. unfold Z.succ. rewrite inject_Z_succ. ring.
Qed.

(** The within-group sum of squares from the sums of the shifted values. *)
Lemma wss_shifted (s : Q) (l : list Q) :
  l ≠ [] →
  (wss l
   == list_sum (map (fun v => (v - s) * (v - s)) l)
      - list_sum (map (fun v => v - s) l) * list_sum (map (fun v => v - s) l)
        / inject_Z (Z.of_nat (length l)))%Q.
Proof.
  intros Hl. unfold wss.
  rewrite (sum_square_deviations (list_mean l)), (sum_square_deviations s), sum_shifted.
  unfold list_mean.
  pose proof (inject_Z_pos (Z.of_nat (length l))) as Hm.
  destruct l as [|a l]; [done|]. specialize (Hm ltac:(cbn; lia)).
  set (m := inject_Z _) in *. field. lra.
Qed.

Lemma segment_list (f : Q → Q) (g : Z → Q) (data : list Q) (j : Z) (d : nat) :
  (∀ t, (g t == f (zget 0%Q data t))%Q) →
  0 <= j → j + Z.of_nat d < Z.of_nat (length data) →
  (segment_sum g j (j + Z.of_nat d)
   == list_sum (map f (take (S d) (drop (Z.to_nat j) data))))%Q.
Proof.
  intros Hg Hj. induction d as [|d IH]; intros Hn.
  - replace (j + Z.of_nat 0) with j by lia. rewrite segment_single by done.
    destruct (lookup_lt_is_Some_2 data (Z.to_nat j) ltac:(lia)) as [a Ha].
    rewrite Hg, (zget_lookup 0%Q data j a) by done.
    erewrite take_S_r; [|by rewrite lookup_drop, Nat.add_0_r].
    rewrite take_0. cbn [app map list_sum foldr]. ring.
  - replace (j + Z.of_nat (S d)) with (j + Z.of_nat d + 1) by lia.
    rewrite segment_right by lia. rewrite IH by lia.
    destruct (lookup_lt_is_Some_2 data (Z.to_nat (j + Z.of_nat d + 1)) ltac:(lia))
      as [a Ha].
    rewrite Hg, (zget_lookup 0%Q data _ a) by (lia || done).
    rewrite (take_S_r _ (S d) a).
    + rewrite map_app, list_sum_app. cbn [map list_sum foldr]. ring.
    + rewrite lookup_drop. rewrite <- Ha. f_equal. lia.
Qed.

Lemma wss_within (data : list Q) (s : Q) (j i : Z) :
  0 <= j <= i → i < Z.of_nat (length data) →
  (wss (take (Z.to_nat (i + 1 - j)) (drop (Z.to_nat j) data))
   == within (shifted data s) j i)%Q.
Proof.
  intros Hji Hn.
  set (g := take _ _).
  assert (Hlen : Z.of_nat (length g) = i - j + 1).
  { unfold g. rewrite length_take, length_drop. lia. }
  rewrite (wss_shifted s) by (intros E; rewrite E in Hlen; cbn in Hlen; lia).
  rewrite Hlen. unfold within.
  pose proof (segment_list (fun v => v - s)%Q (shifted data s) data j
                (Z.to_nat (i - j)) ltac:(by intros) ltac:(lia) ltac:(lia)) as H1.
  pose proof (segment_list (fun v => (v - s) * (v - s))%Q
                (fun t => (shifted data s t * shifted data s t)%Q) data j
                (Z.to_nat (i - j)) ltac:(by intros) ltac:(lia) ltac:(lia)) as H2.
  replace (j + Z.of_nat (Z.to_nat (i - j))) with i in H1, H2 by lia.
  replace (S (Z.to_nat (i - j))) with (Z.to_nat (i + 1 - j)) in H1, H2 by lia.
  fold g in H1, H2. rewrite H1, H2. reflexivity.
Qed.
End CkGroups.

Module CkBacktrack.
Import Descriptive Ckmeans CkOptimum CkInv CkSpec CkCost CkAlgebra CkColumn CkMatrix
  CkSums CkGroups.

Local Abbreviation ssq := (Ckmeans.ssq exact).
Local Abbreviation column_loop := (Ckmeans.column_loop exact).
Local Abbreviation fill_cell := (Ckmeans.fill_cell exact).
Local Abbreviation fillMatrixColumn := (Ckmeans.fillMatrixColumn exact).
Local Abbreviation first_row := (Ckmeans.first_row exact).
Local Abbreviation rows_loop := (Ckmeans.rows_loop exact).
Local Abbreviation fillMatrices := (Ckmeans.fillMatrices exact).
Local Abbreviation ckmeans := (Ckmeans.ckmeans exact).

Lemma total_wss_snoc (P : list (list Q)) (g : list Q) :
  (total_wss (P ++ [g]) == total_wss P + wss g)%Q.
Proof.
  unfold total_wss. rewrite map_app, list_sum_app. cbn [map list_sum foldr]. ring.
Qed.

Lemma concat_length_ge (P : list (list Q)) :
  Forall (fun g => g ≠ []) P → (length P <= length (concat P))%nat.
Proof.
  induction 1 as [|g P Hg _ IH]; [done|]. cbn [concat length].
  rewrite length_app. destruct g; [done|]. cbn [length]. lia.
Qed.

Lemma snoc_decompose {A} (P : list A) (m : nat) :
  length P = S m → ∃ P' g, P = P' ++ [g] ∧ length P' = m.
Proof.
  intros Hlen. destruct P as [|a P] using rev_ind; [done|].
  exists P, a. split; [done|]. rewrite length_app in Hlen. cbn in Hlen. lia.
Qed.

Lemma backtrack_step (c : nat) (r : Z) (data : list Q) (back : list (list Z))
    (acc : list (list Q)) :
  backtrack (S c) r data back acc
  = backtrack c
      (if (0 <? c)%nat then mget 0 back (Z.of_nat c) r - 1 else r) data back
      (list_slice data (mget 0 back (Z.of_nat c) r) (r + 1) :: acc).
Proof. reflexivity. Qed.

Section Backtrack.
Context (data : list Q) (rows : Z) (shift : Q) (sums sumsOfSquares : list Q).
Local Abbreviation n := (Z.of_nat (length data)).
Local Abbreviation w := (fun j i => ssq j i sums sumsOfSquares).
Local Abbreviation run :=
  (fun j i => take (Z.to_nat (i + 1 - j)) (drop (Z.to_nat j) data)).
Hypothesis sums_prefix : ∀ t, 0 <= t < n →
  (zget 0%Q sums t == prefix_sum (shifted data shift) (Z.to_nat (t + 1)))%Q.
Hypothesis squares_prefix : ∀ t, 0 <= t < n →
  (zget 0%Q sumsOfSquares t
   == prefix_sum (fun u => (shifted data shift u * shifted data shift u)%Q)
        (Z.to_nat (t + 1)))%Q.

Lemma cost_group (j i : Z) :
  0 <= j <= i → i < n → (w j i == wss (run j i))%Q.
Proof.
  intros Hji Hn. cbn beta.
  rewrite (ssq_within n (shifted data shift) sums sumsOfSquares
             sums_prefix squares_prefix) by lia.
  symmetry. by apply wss_within.
Qed.

Lemma list_slice_run (j i : Z) :
  0 <= j <= i → i < n → list_slice data j (i + 1) = run j i.
Proof.
  intros Hji Hn. unfold list_slice, slice_bound.
  destruct (Z.ltb_spec j 0), (Z.ltb_spec (i + 1) 0); try lia.
  by rewrite !Z.min_l by lia.
Qed.

Lemma run_nonempty (j i : Z) : 0 <= j <= i → i < n → run j i ≠ [].
Proof.
  intros Hji Hn E. apply (f_equal length) in E.
  rewrite length_take, length_drop in E. cbn in E. lia.
Qed.

(** No partition of the first [r + 1] values into [q + 1] non-empty groups
    costs less than the optimum of the dynamic programme. *)
Lemma partition_cost (q : nat) :
  ∀ (P : list (list Q)) (r : Z),
    length P = S q → Forall (fun g => g ≠ []) P →
    concat P = take (Z.to_nat (r + 1)) data → 0 <= r < n →
    (opt w q r <= total_wss P)%Q.
Proof.
  induction q as [|q IH]; intros P r Hlen Hne Hcat Hr.
  - destruct P as [|g [|? ?]]; try done. cbn [concat] in Hcat.
    rewrite app_nil_r in Hcat. subst g. cbn [opt].
    rewrite (cost_group 0 r) by lia. cbn beta.
    replace (r + 1 - 0) with (r + 1) by lia. change (Z.to_nat 0) with 0%nat.
    rewrite drop_0. unfold total_wss. cbn [map list_sum foldr]. lra.
  - destruct (snoc_decompose P (S q) Hlen) as (P' & g & -> & Hlen').
    apply Forall_app in Hne as [Hne' Hg]. rewrite Forall_singleton in Hg.
    rewrite concat_app in Hcat. cbn [concat] in Hcat. rewrite app_nil_r in Hcat.
    pose proof (concat_length_ge P' Hne') as Hge.
    pose proof (take_app_length (concat P') g) as Etake.
    pose proof (drop_app_length (concat P') g) as Edrop.
    assert (Hlencat : (length (concat P') + length g)%nat = Z.to_nat (r + 1)).
    { apply (f_equal length) in Hcat. rewrite length_app, length_take in Hcat. lia. }
    rewrite Hcat in Etake, Edrop.
    remember (length (concat P')) as m eqn:Em. clear Em.
    assert (Hgpos : (0 < length g)%nat).
    { destruct g as [|a g]; [by exfalso; apply Hg|cbn; lia]. }
    assert (Hj : Z.of_nat (S q) <= Z.of_nat m <= r) by lia.
    assert (HP' : concat P' = take (Z.to_nat (Z.of_nat m - 1 + 1)) data).
    { rewrite take_take in Etake. rewrite <- Etake. f_equal. lia. }
    assert (Hgrun : g = run (Z.of_nat m) r).
    { rewrite <- Edrop. cbn beta. rewrite take_drop_commute.
      rewrite Nat2Z.id. do 2 f_equal. lia. }
    set (j := Z.of_nat m) in *.
    specialize (IH P' (j - 1) Hlen' Hne' HP' ltac:(lia)).
    pose proof (CkDP.opt_le w (S q) r j ltac:(lia) ltac:(lia)) as Hopt.
    unfold cost_at in Hopt. replace (S q - 1)%nat with q in Hopt by lia.
    rewrite total_wss_snoc, Hgrun. rewrite <- (cost_group j r) by lia.
    cbn beta in *. lra.
Qed.

Context (ms : matrices) (Hrows : 1 <= rows <= n).
Hypothesis Hinv : rows_inv w rows n rows ms.

Lemma backtrack_ok (q : nat) :
  ∀ (r : Z) (acc : list (list Q)),
    Z.of_nat q <= r < n →
    Z.of_nat q < rows - 1 ∨ (Z.of_nat q = rows - 1 ∧ r = n - 1) →
    ∃ P, backtrack (S q) r data (backtrackMatrix ms) acc = P ++ acc
         ∧ length P = S q ∧ Forall (fun g => g ≠ []) P
         ∧ concat P = take (Z.to_nat (r + 1)) data
         ∧ (total_wss P == opt w q r)%Q.
Proof.
  destruct Hinv as (Hwf & Hrow0 & Hdone & _).
  induction q as [|q IH]; intros r acc Hr Hrow.
  - rewrite backtrack_step. change (Z.of_nat 0) with 0 in *.
    destruct (Hrow0 r ltac:(lia)) as [_ ->].
    change (0 <? 0)%nat with false. cbn [backtrack].
    rewrite (list_slice_run 0 r) by lia.
    exists [run 0 r]. split; [done|]. split; [done|].
    split; [constructor; [apply run_nonempty; lia|constructor]|].
    split.
    + cbn [concat]. rewrite app_nil_r. cbn beta.
      replace (r + 1 - 0) with (r + 1) by lia. change (Z.to_nat 0) with 0%nat.
      by rewrite drop_0.
    + cbn [opt]. rewrite (cost_group 0 r) by lia.
      unfold total_wss. cbn [map list_sum foldr]. lra.
  - rewrite backtrack_step.
    set (J := mget 0 (backtrackMatrix ms) (Z.of_nat (S q)) r).
    assert (Hmin : argmin w (S q) r J).
    { destruct (Hdone (S q) ltac:(lia) ltac:(lia)) as [Hfull Hlast].
      destruct Hrow as [Hlt|[Heq ->]].
      - destruct (Hfull Hlt) as [Hcells _].
        by destruct (Hcells r ltac:(lia)) as (_ & ? & _).
      - by destruct (Hlast Heq) as (_ & ? & _). }
    assert (HJ : Z.of_nat (S q) <= J <= r) by (by destruct Hmin).
    change (0 <? S q)%nat with true. cbv iota.
    rewrite (list_slice_run J r) by lia.
    destruct (IH (J - 1) (run J r :: acc) ltac:(lia) ltac:(lia))
      as (P' & Hrun & Hlen & Hne & Hcat & Hcost).
    exists (P' ++ [run J r]). split; [by rewrite Hrun, <- app_assoc|].
    split; [rewrite length_app; cbn; lia|].
    split; [apply Forall_app; split; [done|]; constructor;
            [apply run_nonempty; lia|constructor]|].
    split.
    + rewrite concat_app, Hcat. cbn [concat]. rewrite app_nil_r. cbn beta.
      replace (Z.to_nat (J - 1 + 1)) with (Z.to_nat J) by lia.
      rewrite take_take_drop. f_equal. lia.
    + rewrite total_wss_snoc, Hcost, <- (cost_group J r) by lia.
      pose proof (CkDP.argmin_eq w (S q) r J ltac:(lia) Hmin) as E.
      unfold cost_at in E. replace (S q - 1)%nat with q in E by lia.
      cbn beta in *. lra.
Qed.
End Backtrack.
End CkBacktrack.

Module CkmeansFacts.
Import Descriptive Ckmeans CkOptimum CkInv CkSpec CkMatrix CkRows CkSort CkBacktrack.

Local Abbreviation ssq := (Ckmeans.ssq exact).
Local Abbreviation column_loop := (Ckmeans.column_loop exact).
Local Abbreviation fill_cell := (Ckmeans.fill_cell exact).
Local Abbreviation fillMatrixColumn := (Ckmeans.fillMatrixColumn exact).
Local Abbreviation first_row := (Ckmeans.first_row exact).
Local Abbreviation rows_loop := (Ckmeans.rows_loop exact).
Local Abbreviation fillMatrices := (Ckmeans.fillMatrices exact).
Local Abbreviation ckmeans := (Ckmeans.ckmeans exact).

(** In exact arithmetic [ckmeans x nClusters] is optimal.  It throws when
    [nClusters] exceeds the number of values.  Otherwise, when all the values
    are the same number, it returns the sorted input as one cluster, whatever
    the count.  Otherwise, for a count of at least one cluster, it returns
    [nClusters] non-empty groups that, put one after the other, are the
    sorted input, and no partition of the sorted input into [nClusters]
    non-empty groups of consecutive values has a smaller total within-group
    sum of squares.  The sorted input is a sorted permutation of the
    input. *)
Lemma ckmeans_exact_optimal (x : list Q) (nClusters : Z) :
  (Z.of_nat (length x) < nClusters →
   ckmeans x nClusters
   = Throw (Error "cannot generate more classes than there are data values"))
  ∧ (nClusters <= Z.of_nat (length x) → all_same x = true →
     ckmeans x nClusters = Ret [numericSort x])
  ∧ (1 <= nClusters <= Z.of_nat (length x) → all_same x = false →
     ∃ groups,
       ckmeans x nClusters = Ret groups
       ∧ Z.of_nat (length groups) = nClusters
       ∧ Forall (fun g => g ≠ []) groups
       ∧ concat groups = numericSort x
       ∧ ∀ P, Z.of_nat (length P) = nClusters → Forall (fun g => g ≠ []) P →
              concat P = numericSort x →
              (total_wss groups <= total_wss P)%Q)
  ∧ numericSort x ≡ₚ x ∧ StronglySorted Qle (numericSort x).
Proof.
  split; [|split; [|split; [|split; [apply numericSort_perm|apply numericSort_sorted]]]].
  - intros Hk. unfold Ckmeans.ckmeans. cbn [a_add a_sub a_mul a_div exact]. by destruct (Z.ltb_spec (Z.of_nat (length x)) nClusters); [|lia].
  - intros Hk Hsame. unfold Ckmeans.ckmeans. cbn [a_add a_sub a_mul a_div exact].
    destruct (Z.ltb_spec (Z.of_nat (length x)) nClusters); [lia|].
    by rewrite uniqueCount_numericSort, Hsame.
  - intros Hk Hsame. unfold Ckmeans.ckmeans. cbn [a_add a_sub a_mul a_div exact].
    destruct (Z.ltb_spec (Z.of_nat (length x)) nClusters); [lia|].
    rewrite uniqueCount_numericSort, Hsame.
    destruct (Z.leb_spec nClusters 0); [lia|].
    set (sorted := numericSort x).
    assert (Hlen : Z.of_nat (length sorted) = Z.of_nat (length x)).
    { unfold sorted. by rewrite numericSort_length. }
    assert (Hrows : 1 <= nClusters <= Z.of_nat (length sorted)) by lia.
    destruct (fillMatrices_ok sorted nClusters (numericSort_ordered x) Hrows)
      as (shift & sums & sq & ms' & -> & Hs & Hq & Hinv).
    pose proof Hinv as ([_ [Hbl Hbrows]] & _).
    assert (Hrow0 : Z.of_nat (length (zget [] (backtrackMatrix ms') 0))
                    = Z.of_nat (length sorted)).
    { apply (wf_row nClusters); [done|lia]. }
    rewrite Hrow0.
    set (q := Z.to_nat (nClusters - 1)).
    replace (length (backtrackMatrix ms')) with (S q) by lia.
    destruct (backtrack_ok sorted nClusters shift sums sq Hs Hq ms' Hrows Hinv q
                (Z.of_nat (length sorted) - 1) []) as (P & -> & HPlen & HPne & HPcat & HPcost);
      [lia|right; lia|].
    assert (Htake : take (Z.to_nat (Z.of_nat (length sorted) - 1 + 1)) sorted = sorted).
    { apply take_ge. lia. }
    rewrite Htake in HPcat.
    exists P. rewrite app_nil_r. split; [done|]. split; [lia|]. split; [done|].
    split; [done|]. intros P2 Hlen2 Hne2 Hcat2.
    pose proof (partition_cost sorted shift sums sq Hs Hq q P2
                  (Z.of_nat (length sorted) - 1) ltac:(lia) Hne2
                  ltac:(by rewrite Htake) ltac:(lia)) as Hopt.
    lra.
Qed.

(** The guards of [ckmeans] come before any arithmetic. *)
Lemma ckmeans_guards (ar : arithmetic) (x : list Q) (nClusters : Z) :
  (Z.of_nat (length x) < nClusters →
   Ckmeans.ckmeans ar x nClusters
   = Throw (Error "cannot generate more classes than there are data values"))
  ∧ (nClusters <= Z.of_nat (length x) → all_same x = true →
     Ckmeans.ckmeans ar x nClusters = Ret [numericSort x]).
Proof.
  split.
  - intros Hk. unfold Ckmeans.ckmeans.
    by destruct (Z.ltb_spec (Z.of_nat (length x)) nClusters); [|lia].
  - intros Hk Hsame. unfold Ckmeans.ckmeans.
    destruct (Z.ltb_spec (Z.of_nat (length x)) nClusters); [lia|].
    by rewrite uniqueCount_numericSort, Hsame.
Qed.

(** C5 (ckmeans): in the arithmetic of the language the result is not
    always an optimum.  The four values 1000000001, 1000000003, 1000000004
    and 1 are doubles; [ckmeans] returns for them and three clusters the
    groups [[1], [1000000001, 1000000003], [1000000004]], whose within-group
    sum of squares is 2, while [[1], [1000000001], [1000000003, 1000000004]]
    is a partition of the sorted input into three non-empty groups with the
    sum 1/2, and is what the same function returns in exact arithmetic.  The
    guards do not depend on the arithmetic: the throw for more clusters than
    values, and the single cluster for values that are all the same; and on
    the example of the documentation the result in doubles is the documented
    one, which is optimal. *)
Theorem ckmeans_rounding_loses_optimum :
  let x := [1000000001; 1000000003; 1000000004; 1]%Q in
  let found := [[1]; [1000000001; 1000000003]; [1000000004]]%Q in
  let better := [[1]; [1000000001]; [1000000003; 1000000004]]%Q in
  let documented := [-1; 2; -1; 2; 4; 5; 6; -1; 2; -1]%Q in
  Forall Binary64.is_double x
  ∧ Ckmeans.ckmeans double x 3 = Ret found
  ∧ concat better = numericSort x
  ∧ length better = 3%nat
  ∧ Forall (fun g => g ≠ []) better
  ∧ (total_wss found == 2)%Q
  ∧ (total_wss better == 1 # 2)%Q
  ∧ Ckmeans.ckmeans exact x 3 = Ret better
  ∧ (∀ (ar : arithmetic) (y : list Q) (nClusters : Z),
       (Z.of_nat (length y) < nClusters →
        Ckmeans.ckmeans ar y nClusters
        = Throw (Error "cannot generate more classes than there are data values"))
       ∧ (nClusters <= Z.of_nat (length y) → all_same y = true →
          Ckmeans.ckmeans ar y nClusters = Ret [numericSort y]))
  ∧ Ckmeans.ckmeans double documented 3
    = Ret [[-1; -1; -1; -1]; [2; 2; 2]; [4; 5; 6]]%Q
  ∧ (∀ P, Z.of_nat (length P) = 3 → Forall (fun g => g ≠ []) P →
          concat P = numericSort documented →
          (total_wss [[-1; -1; -1; -1]; [2; 2; 2]; [4; 5; 6]]%Q
           <= total_wss P)%Q).
Proof.
  intros x found better documented.
  split; [by repeat constructor|].
  split; [by vm_compute|]. split; [by vm_compute|]. split; [done|].
  split; [by repeat constructor|].
  split; [by vm_compute|]. split; [by vm_compute|]. split; [by vm_compute|].
  split; [apply ckmeans_guards|]. split; [by vm_compute|].
  destruct (ckmeans_exact_optimal documented 3) as (_ & _ & Hgroups & _).
  destruct Hgroups as (groups & Hrun & _ & _ & _ & Hbest);
    [cbn; lia|reflexivity|].
  assert (E : ckmeans documented 3
              = Ret [[-1; -1; -1; -1]; [2; 2; 2]; [4; 5; 6]]%Q)
    by (vm_compute; reflexivity).
  rewrite E in Hrun. injection Hrun as <-. exact Hbest.
Qed.
End CkmeansFacts.

(** ** Finite numbers *)

Module FiniteNum.
Import CkSpec.

Lemma Qred_eq (a b : Q) : (a == b)%Q → Qred a = Qred b.
Proof. apply Qred_complete. Qed.

Lemma qsign_nonzero (b : Q) : ¬ (b == 0)%Q → qsign b ≠ Eq.
Proof. unfold qsign. rewrite <- Qeq_alt. done. Qed.

Lemma ndiv_fin (a b : Q) :
  ¬ (b == 0)%Q → ndiv (Fin a) (Fin b) = Fin (qdiv a b).
Proof.
  intros Hb. unfold ndiv. pose proof (qsign_nonzero b Hb).
  by destruct (qsign b).
Qed.

Lemma nofnat_nonzero (n : nat) : n ≠ 0%nat → ¬ (qofZ (Z.of_nat n) == 0)%Q.
Proof.
  intros Hn E. unfold qofZ in E. change 0%Q with (inject_Z 0) in E.
  rewrite inject_Z_injective in E. lia.
Qed.

Lemma list_sum_cons (a : Q) (l : list Q) :
  list_sum (a :: l) = (a + list_sum l)%Q.
Proof. reflexivity. Qed.

Lemma list_sum_app_eq (l l' : list Q) :
  (list_sum (l ++ l') == list_sum l + list_sum l')%Q.
Proof.
  unfold list_sum. induction l as [|a l IH]; cbn [app foldr]; [ring|].
  rewrite IH. ring.
Qed.
Lemma inject_nat_pos (n : nat) : n ≠ 0%nat → (0 < inject_Z (Z.of_nat n))%Q.
Proof.
  intros Hn. change 0%Q with (inject_Z 0). rewrite <- Zlt_Qlt. lia.
Qed.

Lemma inject_nat_succ (n : nat) :
  (inject_Z (Z.of_nat (S n)) == inject_Z (Z.of_nat n) + 1)%Q.
Proof. rewrite Nat2Z.inj_succ. unfold Z.succ. by rewrite inject_Z_plus. Qed.
End FiniteNum.

Module ExtremesFacts.
Import FiniteNum.

Lemma qlt_iff (a b : Q) : qlt a b = true ↔ (a < b)%Q.
Proof.
  unfold qlt. rewrite negb_true_iff. split.
  - intros E. apply Qnot_le_lt. intros H. apply Qle_bool_iff in H. congruence.
  - intros H. destruct (Qle_bool b a) eqn:E; [|done].
    apply Qle_bool_iff in E. lra.
Qed.

Lemma min_fold (rest : list Q) (a : Q) :
  ∃ m, fold_left (fun value xi => if nlt xi value then xi else value)
         (map Fin rest) (Fin a) = Fin m
       ∧ m ∈ a :: rest ∧ (m <= a)%Q ∧ ∀ y, y ∈ rest → (m <= y)%Q.
Proof.
  revert a. induction rest as [|x rest IH]; intros a.
  - exists a. split; [done|]. split; [by left|]. split; [lra|].
    intros y Hy. by apply elem_of_nil in Hy.
  - cbn [map fold_left nlt].
    destruct (qlt x a) eqn:E.
    + apply qlt_iff in E. destruct (IH x) as (m & -> & Hin & Hle & Hall).
      exists m. split; [done|]. split; [by right|]. split; [lra|].
      intros y Hy. apply elem_of_cons in Hy as [->|Hy]; [done|by apply Hall].
    + assert (Hax : (a <= x)%Q).
      { apply Qnot_lt_le. intros H. apply qlt_iff in H. congruence. }
      destruct (IH a) as (m & -> & Hin & Hle & Hall).
      exists m. split; [done|]. split.
      { apply elem_of_cons in Hin as [->|Hin]; [by left|by do 2 right]. }
      split; [done|].
      intros y Hy. apply elem_of_cons in Hy as [->|Hy]; [lra|by apply Hall].
Qed.

Lemma max_fold (rest : list Q) (a : Q) :
  ∃ m, fold_left (fun value xi => if ngt xi value then xi else value)
         (map Fin rest) (Fin a) = Fin m
       ∧ m ∈ a :: rest ∧ (a <= m)%Q ∧ ∀ y, y ∈ rest → (y <= m)%Q.
Proof.
  revert a. induction rest as [|x rest IH]; intros a.
  - exists a. split; [done|]. split; [by left|]. split; [lra|].
    intros y Hy. by apply elem_of_nil in Hy.
  - cbn [map fold_left ngt nlt].
    destruct (qlt a x) eqn:E.
    + apply qlt_iff in E. destruct (IH x) as (m & -> & Hin & Hle & Hall).
      exists m. split; [done|]. split; [by right|]. split; [lra|].
      intros y Hy. apply elem_of_cons in Hy as [->|Hy]; [done|by apply Hall].
    + assert (Hax : (x <= a)%Q).
      { apply Qnot_lt_le. intros H. apply qlt_iff in H. congruence. }
      destruct (IH a) as (m & -> & Hin & Hle & Hall).
      exists m. split; [done|]. split.
      { apply elem_of_cons in Hin as [->|Hin]; [by left|by do 2 right]. }
      split; [done|].
      intros y Hy. apply elem_of_cons in Hy as [->|Hy]; [lra|by apply Hall].
Qed.

(** X3.  [min] and [max] throw on an empty array; on a non-empty array of
    finite numbers [min] returns an element that no element is below and
    [max] an element that no element is above. *)
Theorem min_max_bounds (l : list Q) :
  Extremes.min [] = Throw (Error "min requires at least one data point")
  ∧ Extremes.max [] = Throw (Error "max requires at least one data point")
  ∧ (l ≠ [] →
     ∃ lo hi, Extremes.min (map Fin l) = Ret (Fin lo)
              ∧ Extremes.max (map Fin l) = Ret (Fin hi)
              ∧ lo ∈ l ∧ hi ∈ l
              ∧ ∀ y, y ∈ l → (lo <= y <= hi)%Q).
Proof.
  split; [done|]. split; [done|]. intros Hl.
  destruct l as [|a rest]; [done|]. cbn [map Extremes.min Extremes.max].
  destruct (min_fold rest a) as (lo & -> & Hlo & Hloa & Hlos).
  destruct (max_fold rest a) as (hi & -> & Hhi & Hhia & Hhis).
  exists lo, hi. split; [done|]. split; [done|]. split; [done|]. split; [done|].
  intros y Hy. apply elem_of_cons in Hy as [->|Hy]; [done|].
  split; [by apply Hlos|by apply Hhis].
Qed.

Lemma min_max_bounds_witness :
  ∃ lo hi, Extremes.min (map Fin [1; 5; -10; 100; 2]%Q) = Ret (Fin lo)
           ∧ Extremes.max (map Fin [1; 5; -10; 100; 2]%Q) = Ret (Fin hi)
           ∧ lo ∈ [1; 5; -10; 100; 2]%Q ∧ hi ∈ [1; 5; -10; 100; 2]%Q
           ∧ ∀ y, y ∈ [1; 5; -10; 100; 2]%Q → (lo <= y <= hi)%Q.
Proof. apply (min_max_bounds [1; 5; -10; 100; 2]%Q). done. Defined.

Lemma extent_fold (rest : list num) (lo hi : num) :
  fold_left
    (fun '(min, max) xi =>
       let max' := if ngt xi max then xi else max in
       let min' := if nlt xi min then xi else min in
       (min', max'))
    rest (lo, hi)
  = (fold_left (fun value xi => if nlt xi value then xi else value) rest lo,
     fold_left (fun value xi => if ngt xi value then xi else value) rest hi).
Proof.
  revert lo hi. induction rest as [|x rest IH]; intros lo hi; [done|].
  cbn [fold_left]. by rewrite IH.
Qed.

(** X4.  [extent] throws on an empty array and otherwise returns the pair
    of what [min] and [max] return, whatever the numbers are. *)
Theorem extent_is_min_max (x : list num) :
  Extremes.extent [] = Throw (Error "extent requires at least one data point")
  ∧ (x ≠ [] →
     ∃ lo hi, Extremes.extent x = Ret (lo, hi)
              ∧ Extremes.min x = Ret lo ∧ Extremes.max x = Ret hi).
Proof.
  split; [done|]. intros Hx. destruct x as [|x0 rest]; [done|].
  cbn [Extremes.extent Extremes.min Extremes.max]. rewrite extent_fold.
  by eexists _, _.
Qed.

Lemma extent_is_min_max_witness :
  ∃ lo hi, Extremes.extent [Fin 1; NaN; Fin 4] = Ret (lo, hi)
           ∧ Extremes.min [Fin 1; NaN; Fin 4] = Ret lo
           ∧ Extremes.max [Fin 1; NaN; Fin 4] = Ret hi.
Proof. apply (extent_is_min_max [Fin 1; NaN; Fin 4]). done. Defined.
End ExtremesFacts.

Module ChunkFacts.
Import Gamma Ckmeans Chunk.

Lemma list_slice_take_drop {A} (x : list A) (start k : Z) :
  0 <= start <= Z.of_nat (length x) → 0 <= k →
  list_slice x start (start + k) = take (Z.to_nat k) (drop (Z.to_nat start) x).
Proof.
  intros Hs Hk. unfold list_slice, slice_bound.
  destruct (Z.ltb_spec start 0), (Z.ltb_spec (start + k) 0); try lia.
  rewrite (Z.min_l start) by lia.
  destruct (decide (start + k <= Z.of_nat (length x))) as [Hle|Hgt].
  - rewrite Z.min_l by lia. f_equal. lia.
  - rewrite Z.min_r by lia.
    rewrite (take_ge _ (Z.to_nat k)) by (rewrite length_drop; lia).
    apply take_ge. rewrite length_drop. lia.
Qed.

Lemma chunk_loop_spec {A} (x : list A) (k : Z) (todo : nat) :
  1 <= k →
  ∀ start, 0 <= start <= Z.of_nat (length x) →
    Z.of_nat (length x) - start <= Z.of_nat todo →
    let chunks := chunk_loop todo x start k in
    concat chunks = drop (Z.to_nat start) x
    ∧ Forall (fun c => c ≠ [] ∧ Z.of_nat (length c) <= k) chunks
    ∧ ∀ i c, chunks !! i = Some c → (S i < length chunks)%nat →
             Z.of_nat (length c) = k.
Proof.
  intros Hk. induction todo as [|todo IH]; intros start Hs Htodo chunks; subst chunks.
  - cbn. split; [|split; [done|by intros ? ? ?]].
    rewrite drop_ge by lia. done.
  - cbn [chunk_loop]. destruct (Z.ltb_spec start (Z.of_nat (length x))) as [Hlt|Hge].
    + rewrite list_slice_take_drop by lia.
      destruct (decide (start + k <= Z.of_nat (length x))) as [Hin|Hout].
      * destruct (IH (start + k) ltac:(lia) ltac:(lia)) as (Hcat & Hall & Hfull).
        split; [|split].
        -- cbn [concat]. rewrite Hcat.
           replace (Z.to_nat (start + k)) with (Z.to_nat start + Z.to_nat k)%nat by lia.
           by rewrite <- drop_drop, take_drop.
        -- constructor; [|done]. rewrite length_take, length_drop. split; [|lia].
           intros E. apply (f_equal length) in E.
           rewrite length_take, length_drop in E. cbn in E. lia.
        -- intros [|i] c Hc Hi; cbn in Hc, Hi.
           ++ injection Hc as <-. rewrite length_take, length_drop. lia.
           ++ apply (Hfull i c Hc). lia.
      * assert (Hrest : chunk_loop todo x (start + k) k = []).
        { destruct todo; [done|]. cbn [chunk_loop].
          by destruct (Z.ltb_spec (start + k) (Z.of_nat (length x))); [lia|]. }
        rewrite Hrest. split; [|split].
        -- cbn [concat]. rewrite app_nil_r. apply take_ge. rewrite length_drop. lia.
        -- constructor; [|done]. rewrite length_take, length_drop. split; [|lia].
           intros E. apply (f_equal length) in E.
           rewrite length_take, length_drop in E. cbn in E. lia.
        -- intros [|i] c Hc Hi; cbn in Hc, Hi; [lia|done].
    + split; [|split; [done|by intros ? ? ?]].
      rewrite drop_ge by lia. done.
Qed.

(** X10.  [chunk] throws for a chunk size below 1 and for one that is not
    an integer.  For an integer size [k >= 1] it returns chunks that, put
    one after the other, are the input: none is empty, none is longer than
    [k], and all but the last have exactly [k] elements. *)
Theorem chunk_partitions {A} (x : list A) (q : Q) (k : Z) :
  ((q < 1)%Q →
   chunk x (Fin q) = Throw (Error "chunk size must be a positive number"))
  ∧ ((1 <= q)%Q → ¬ (inject_Z (Qfloor q) == q)%Q →
     chunk x (Fin q) = Throw (Error "chunk size must be an integer"))
  ∧ (1 <= k →
     ∃ chunks, chunk x (nofZ k) = Ret chunks
               ∧ concat chunks = x
               ∧ Forall (fun c => c ≠ [] ∧ Z.of_nat (length c) <= k) chunks
               ∧ ∀ i c, chunks !! i = Some c → (S i < length chunks)%nat →
                        Z.of_nat (length c) = k).
Proof.
  split; [|split].
  - intros Hq. unfold chunk. cbn [nlt].
    by destruct (ExtremesFacts.qlt_iff q 1) as [_ ->].
  - intros Hq Hint. unfold chunk. cbn [nlt nfloor nofZ neq].
    destruct (qlt q 1) eqn:E; [apply ExtremesFacts.qlt_iff in E; lra|].
    destruct (qeq (qofZ (Qfloor q)) q) eqn:E2; [|done].
    unfold qeq in E2. apply Qeq_bool_eq in E2. done.
  - intros Hk. unfold chunk, nofZ, qofZ. cbn [nlt nfloor nofZ neq].
    destruct (qlt (inject_Z k) 1) eqn:E.
    { apply ExtremesFacts.qlt_iff in E. change 1%Q with (inject_Z 1) in E.
      rewrite <- Zlt_Qlt in E. lia. }
    rewrite Qfloor_Z. unfold qofZ, qeq. rewrite Qeq_bool_refl. cbn [negb].
    destruct (chunk_loop_spec x k (length x) Hk 0 ltac:(lia) ltac:(lia))
      as (Hcat & Hall & Hfull).
    eexists. split; [done|]. split; [by rewrite Hcat|]. split; done.
Qed.

Lemma chunk_partitions_witness :
  chunk [1; 2; 3; 4; 5; 6; 7]%nat (Fin (1 # 2))
  = Throw (Error "chunk size must be a positive number")
  ∧ chunk [1; 2; 3; 4; 5; 6; 7]%nat (Fin (3 # 2))
    = Throw (Error "chunk size must be an integer")
  ∧ ∃ chunks, chunk [1; 2; 3; 4; 5; 6; 7]%nat (nofZ 3) = Ret chunks
              ∧ concat chunks = [1; 2; 3; 4; 5; 6; 7]%nat
              ∧ Forall (fun c => c ≠ [] ∧ Z.of_nat (length c) <= 3) chunks
              ∧ ∀ i c, chunks !! i = Some c → (S i < length chunks)%nat →
                       Z.of_nat (length c) = 3.
Proof.
  split; [|split].
  - apply (chunk_partitions [1; 2; 3; 4; 5; 6; 7]%nat (1 # 2) 1). reflexivity.
  - apply (chunk_partitions [1; 2; 3; 4; 5; 6; 7]%nat (3 # 2) 1).
    + intros H. discriminate H.
    + intros H. discriminate H.
  - apply (chunk_partitions [1; 2; 3; 4; 5; 6; 7]%nat 0 3). lia.
Defined.
End ChunkFacts.

Module RankFacts.
Import Descriptive Rank FiniteNum ExtremesFacts.

Lemma qle_iff (a b : Q) : qle a b = true ↔ (a <= b)%Q.
Proof. unfold qle. apply Qle_bool_iff. Qed.

Lemma nle_fin (a b : Q) : nle (Fin a) (Fin b) = true ↔ (a <= b)%Q.
Proof.
  unfold nle. cbn [nlt neq]. rewrite orb_true_iff, qlt_iff. unfold qeq.
  rewrite Qeq_bool_iff. split; [intros [?|?]; lra|].
  intros H. destruct (Qlt_le_dec a b); [by left|right; lra].
Qed.

Lemma ushr1_mid (lo hi : Z) :
  0 <= lo → lo <= hi → hi < 2 ^ 31 → ushr1 (lo + hi) = (lo + hi) / 2.
Proof.
  intros H1 H2 H3. unfold ushr1. rewrite Z.mod_small by lia.
  by rewrite Z.shiftr_div_pow2 by lia.
Qed.

Lemma neg_bitnot_succ (mid : Z) :
  0 <= mid < 2 ^ 31 - 1 → neg_bitnot mid = mid + 1.
Proof.
  intros H. unfold neg_bitnot, to_int32. rewrite Z.mod_small by lia. lia.
Qed.

Lemma at_index_lookup (x : list Q) (i : Z) (a : Q) :
  0 <= i → x !! Z.to_nat i = Some a → at_index x i = Fin a.
Proof.
  intros Hi Ha. unfold at_index. destruct (Z.ltb_spec i 0); [lia|]. by rewrite Ha.
Qed.

Section Search.
Context (x : list Q) (v : Q).
Hypothesis x_sorted : StronglySorted Qle x.
Hypothesis x_small : Z.of_nat (length x) < 2 ^ 31.

Lemma sorted_at (i j : nat) (a b : Q) :
  x !! i = Some a → x !! j = Some b → (i <= j)%nat → (a <= b)%Q.
Proof. by apply CkSort.sorted_lookup. Qed.

(** The two loops stop at the boundary that [test] draws in the sorted
    array: false before it, true from it on. *)
Lemma lowerBound_loop_spec (fuel : nat) :
  ∀ lo hi,
    0 <= lo → lo <= hi → hi <= Z.of_nat (length x) → hi - lo < Z.of_nat fuel →
    (∀ i a, x !! i = Some a → Z.of_nat i < lo → (a < v)%Q) →
    (∀ i a, x !! i = Some a → hi <= Z.of_nat i → (v <= a)%Q) →
    ∃ b, lowerBound_loop fuel x (Fin v) lo hi = Ret b
         ∧ 0 <= b <= Z.of_nat (length x)
         ∧ (∀ i a, x !! i = Some a → Z.of_nat i < b → (a < v)%Q)
         ∧ (∀ i a, x !! i = Some a → b <= Z.of_nat i → (v <= a)%Q).
Proof.
  induction fuel as [|fuel IH]; intros lo hi H0 Hle Hhi Hfuel Hlow Hhigh; [lia|].
  cbn [lowerBound_loop]. destruct (Z.ltb_spec lo hi) as [Hlt|Hge].
  - rewrite ushr1_mid by lia. set (mid := (lo + hi) / 2).
    assert (Hmid : lo <= mid < hi).
    { unfold mid. split; [apply Z.div_le_lower_bound; lia|].
      apply Z.div_lt_upper_bound; lia. }
    destruct (lookup_lt_is_Some_2 x (Z.to_nat mid) ltac:(lia)) as [a Ha].
    rewrite (at_index_lookup x mid a) by (lia || done).
    destruct (nle (Fin v) (Fin a)) eqn:E.
    + apply nle_fin in E. apply IH; try done; try lia.
      intros i b Hb Hi. pose proof (sorted_at (Z.to_nat mid) i a b Ha Hb ltac:(lia)).
      lra.
    + assert (Hav : (a < v)%Q).
      { apply Qnot_le_lt. intros H. apply nle_fin in H. congruence. }
      rewrite neg_bitnot_succ by lia. apply IH; try done; try lia.
      intros i b Hb Hi. pose proof (sorted_at i (Z.to_nat mid) b a Hb Ha ltac:(lia)).
      lra.
  - exists lo. split; [done|]. split; [lia|]. split; [done|].
    intros i a Ha Hi. apply (Hhigh i a Ha). lia.
Qed.

Lemma upperBound_loop_spec (fuel : nat) :
  ∀ lo hi,
    0 <= lo → lo <= hi → hi <= Z.of_nat (length x) → hi - lo < Z.of_nat fuel →
    (∀ i a, x !! i = Some a → Z.of_nat i < lo → (a <= v)%Q) →
    (∀ i a, x !! i = Some a → hi <= Z.of_nat i → (v < a)%Q) →
    ∃ b, upperBound_loop fuel x (Fin v) lo hi = Ret b
         ∧ 0 <= b <= Z.of_nat (length x)
         ∧ (∀ i a, x !! i = Some a → Z.of_nat i < b → (a <= v)%Q)
         ∧ (∀ i a, x !! i = Some a → b <= Z.of_nat i → (v < a)%Q).
Proof.
  induction fuel as [|fuel IH]; intros lo hi H0 Hle Hhi Hfuel Hlow Hhigh; [lia|].
  cbn [upperBound_loop]. destruct (Z.ltb_spec lo hi) as [Hlt|Hge].
  - rewrite ushr1_mid by lia. set (mid := (lo + hi) / 2).
    assert (Hmid : lo <= mid < hi).
    { unfold mid. split; [apply Z.div_le_lower_bound; lia|].
      apply Z.div_lt_upper_bound; lia. }
    destruct (lookup_lt_is_Some_2 x (Z.to_nat mid) ltac:(lia)) as [a Ha].
    rewrite (at_index_lookup x mid a) by (lia || done).
    unfold nge. destruct (nle (Fin a) (Fin v)) eqn:E.
    + apply nle_fin in E. rewrite neg_bitnot_succ by lia.
      apply IH; try done; try lia.
      intros i b Hb Hi. pose proof (sorted_at i (Z.to_nat mid) b a Hb Ha ltac:(lia)).
      lra.
    + assert (Hav : (v < a)%Q).
      { apply Qnot_le_lt. intros H. apply nle_fin in H. congruence. }
      apply IH; try done; try lia.
      intros i b Hb Hi. pose proof (sorted_at (Z.to_nat mid) i a b Ha Hb ltac:(lia)).
      lra.
  - exists lo. split; [done|]. split; [lia|]. split; [done|].
    intros i a Ha Hi. apply (Hhigh i a Ha). lia.
Qed.
End Search.

(** A boundary in a list is the number of elements that pass the test that
    holds before it and fails from it on. *)
Lemma filter_boundary (f : Q → bool) (x : list Q) (b : nat) :
  (b <= length x)%nat →
  (∀ i a, x !! i = Some a → (i < b)%nat → f a = true) →
  (∀ i a, x !! i = Some a → (b <= i)%nat → f a = false) →
  length (List.filter f x) = b.
Proof.
  revert b. induction x as [|a x IH]; intros b Hb Hlow Hhigh.
  - cbn in *. lia.
  - cbn [List.filter]. destruct b as [|b].
    + rewrite (Hhigh 0%nat a) by (done || lia).
      apply (IH 0%nat); [lia|intros; lia|].
      intros i c Hc _. apply (Hhigh (S i) c); [done|lia].
    + rewrite (Hlow 0%nat a) by (done || lia). cbn [length]. f_equal.
      apply IH; [cbn in Hb; lia| |].
      * intros i c Hc Hi. apply (Hlow (S i) c); [done|lia].
      * intros i c Hc Hi. apply (Hhigh (S i) c); [done|lia].
Qed.

Lemma boundary_count (f : Q → bool) (x : list Q) (b : nat) :
  boundary f x b → length (List.filter f x) = b.
Proof. intros (H1 & H2 & H3). by apply filter_boundary. Qed.

Lemma lowerBound_boundary (x : list Q) (v : Q) (fuel : nat) :
  StronglySorted Qle x → Z.of_nat (length x) < 2 ^ 31 →
  (length x < fuel)%nat →
  ∃ b, lowerBound fuel x (Fin v) = Ret (Z.of_nat b)
       ∧ boundary (fun a => qlt a v) x b.
Proof.
  intros Hsorted Hsmall Hfuel.
  destruct (lowerBound_loop_spec x v Hsorted Hsmall fuel 0 (Z.of_nat (length x)))
    as (b & Hrun & Hb & Hlow & Hhigh); try lia.
  { intros i a Ha Hi. apply lookup_lt_Some in Ha. lia. }
  exists (Z.to_nat b). unfold lowerBound. rewrite Hrun, Z2Nat.id by lia.
  split; [done|]. split; [lia|]. split.
  - intros i a Ha Hi. apply qlt_iff. apply (Hlow i a Ha). lia.
  - intros i a Ha Hi. destruct (qlt a v) eqn:E; [|done].
    apply qlt_iff in E. pose proof (Hhigh i a Ha ltac:(lia)). lra.
Qed.

Lemma upperBound_boundary (x : list Q) (v : Q) (fuel : nat) :
  StronglySorted Qle x → Z.of_nat (length x) < 2 ^ 31 →
  (length x < fuel)%nat →
  ∃ b, upperBound fuel x (Fin v) = Ret (Z.of_nat b)
       ∧ boundary (fun a => qle a v) x b.
Proof.
  intros Hsorted Hsmall Hfuel.
  destruct (upperBound_loop_spec x v Hsorted Hsmall fuel 0 (Z.of_nat (length x)))
    as (b & Hrun & Hb & Hlow & Hhigh); try lia.
  { intros i a Ha Hi. apply lookup_lt_Some in Ha. lia. }
  exists (Z.to_nat b). unfold upperBound. rewrite Hrun, Z2Nat.id by lia.
  split; [done|]. split; [lia|]. split.
  - intros i a Ha Hi. apply qle_iff. apply (Hlow i a Ha). lia.
  - intros i a Ha Hi. destruct (qle a v) eqn:E; [|done].
    apply qle_iff in E. pose proof (Hhigh i a Ha ltac:(lia)). lra.
Qed.

(** X11.  On a sorted array of fewer than [2^31] numbers, with fuel for one
    turn per element, [lowerBound] returns the number of elements below the
    value and [upperBound] the number of elements not above it. *)
Theorem bounds_count (x : list Q) (v : Q) (fuel : nat) :
  StronglySorted Qle x → Z.of_nat (length x) < 2 ^ 31 →
  (length x < fuel)%nat →
  lowerBound fuel x (Fin v) = Ret (Z.of_nat (count_below v x))
  ∧ upperBound fuel x (Fin v) = Ret (Z.of_nat (count_upto v x)).
Proof.
  intros Hsorted Hsmall Hfuel. split.
  - destruct (lowerBound_boundary x v fuel) as (b & -> & Hb); try done.
    unfold count_below. by rewrite (boundary_count _ x b).
  - destruct (upperBound_boundary x v fuel) as (b & -> & Hb); try done.
    unfold count_upto. by rewrite (boundary_count _ x b).
Qed.

Lemma bounds_count_witness :
  lowerBound 6 [1; 2; 3; 3; 5]%Q (Fin 3) = Ret 2
  ∧ upperBound 6 [1; 2; 3; 3; 5]%Q (Fin 3) = Ret 4.
Proof.
  apply (bounds_count [1; 2; 3; 3; 5]%Q 3 6).
  - repeat constructor; intros H; discriminate H.
  - reflexivity.
  - cbn. lia.
Defined.

Lemma existsb_lookup (f : Q → bool) (x : list Q) :
  existsb f x = true ↔ ∃ i a, x !! i = Some a ∧ f a = true.
Proof.
  rewrite existsb_exists. split.
  - intros (a & Hin & Ha). apply list_elem_of_In, list_elem_of_lookup in Hin.
    destruct Hin as [i Hi]. by exists i, a.
  - intros (i & a & Hi & Ha). exists a. split; [|done].
    apply list_elem_of_In. by eapply list_elem_of_lookup_2.
Qed.

Lemma qeq_iff (a b : Q) : qeq a b = true ↔ (a == b)%Q.
Proof. unfold qeq. apply Qeq_bool_iff. Qed.

Lemma count_perm (f : Q → bool) (x y : list Q) :
  x ≡ₚ y → length (List.filter f x) = length (List.filter f y).
Proof.
  induction 1 as [|a x y _ IH|a b x|x y z _ IH1 _ IH2]; cbn [List.filter].
  - done.
  - destruct (f a); cbn [length]; by rewrite IH.
  - by destruct (f a), (f b).
  - by rewrite IH1.
Qed.

Lemma existsb_perm (f : Q → bool) (x y : list Q) :
  x ≡ₚ y → existsb f x = existsb f y.
Proof.
  induction 1 as [|a x y _ IH|a b x|x y z _ IH1 _ IH2]; cbn [existsb].
  - done.
  - by rewrite IH.
  - by destruct (f a), (f b).
  - by rewrite IH1.
Qed.

Lemma rank_perm (v : Q) (x y : list Q) : x ≡ₚ y → rank v x = rank v y.
Proof.
  intros H. unfold rank, count_below, count_upto.
  by rewrite (existsb_perm _ x y H), (count_perm _ x y H), (count_perm _ x y H),
    (Permutation_length H).
Qed.

Lemma quantileRankSorted_rank (x : list Q) (v : Q) (fuel : nat) :
  StronglySorted Qle x → x ≠ [] → Z.of_nat (length x) < 2 ^ 31 →
  (length x < fuel)%nat →
  quantileRankSorted fuel x (Fin v) = Ret (Fin (Qred (rank v x))).
Proof.
  intros Hsorted Hne Hsmall Hfuel.
  destruct (lowerBound_boundary x v fuel) as (bl & Hl & Hbl); try done.
  destruct (upperBound_boundary x v fuel) as (bu & Hu & Hbu); try done.
  pose proof (boundary_count _ x bl Hbl) as Cl.
  pose proof (boundary_count _ x bu Hbu) as Cu.
  destruct Hbl as (Hl1 & Hl2 & Hl3). destruct Hbu as (Hu1 & Hu2 & Hu3).
  set (n := length x) in *.
  assert (Hn : n ≠ 0%nat) by (subst n; by destruct x).
  pose proof (nofnat_nonzero n Hn) as Hn0.
  pose proof (FiniteNum.inject_nat_pos n Hn) as Hnpos.
  (* whether the value occurs is decided by the element at the lower bound *)
  assert (Hpresent : ∀ a, x !! bl = Some a → (a == v)%Q →
            existsb (qeq v) x = true ∧ (bl < bu)%nat).
  { intros a Ha E. split.
    - apply existsb_lookup. exists bl, a. split; [done|]. apply qeq_iff. lra.
    - destruct (Nat.lt_ge_cases bl bu) as [?|Hge]; [done|].
      pose proof (Hu3 bl a Ha Hge) as H. 
      assert (qle a v = true) by (apply qle_iff; lra). congruence. }
  assert (Habsent : (∀ a, x !! bl = Some a → ¬ (a == v)%Q) →
            existsb (qeq v) x = false).
  { intros Hno. destruct (existsb (qeq v) x) eqn:E; [|done]. exfalso.
    apply existsb_lookup in E. destruct E as (i & a & Ha & E).
    apply qeq_iff in E. destruct (Nat.lt_ge_cases i bl) as [Hi|Hi].
    - pose proof (Hl2 i a Ha Hi) as H. apply qlt_iff in H. lra.
    - destruct (lookup_lt_is_Some_2 x bl) as [c Hc].
      { apply lookup_lt_Some in Ha. lia. }
      pose proof (Hl3 bl c Hc ltac:(lia)) as H.
      assert (v <= c)%Q.
      { apply Qnot_lt_le. intros H'. apply qlt_iff in H'. congruence. }
      pose proof (CkSort.sorted_lookup x Hsorted bl i c a Hc Ha Hi).
      apply (Hno c Hc). lra. }
  unfold rank. fold n. unfold count_below, count_upto. rewrite Cl, Cu.
  unfold quantileRankSorted. fold n.
  destruct (lookup_lt_is_Some_2 x 0 ltac:(lia)) as [a0 Ha0].
  destruct (lookup_lt_is_Some_2 x (n - 1) ltac:(lia)) as [al Hal].
  rewrite (at_index_lookup x 0 a0) by (lia || done).
  rewrite (at_index_lookup x (Z.of_nat n - 1) al)
    by (lia || by replace (Z.to_nat (Z.of_nat n - 1)) with (n - 1)%nat by lia).
  cbn [nlt ngt]. destruct (qlt v a0) eqn:E0.
  { (* below every value *)
    apply qlt_iff in E0.
    assert (bl = 0)%nat as ->.
    { destruct bl; [done|]. pose proof (Hl2 0%nat a0 Ha0 ltac:(lia)) as H.
      apply qlt_iff in H. lra. }
    rewrite Habsent.
    - apply (f_equal Ret), (f_equal Fin).
      transitivity (Qred 0); [reflexivity|apply Qred_eq].
      change (inject_Z (Z.of_nat 0)) with 0%Q. field. lra.
    - intros a Ha. rewrite Ha0 in Ha. injection Ha as <-. lra. }
  destruct (qlt al v) eqn:E1.
  { (* above every value *)
    apply qlt_iff in E1.
    assert (bl = n) as ->.
    { destruct (Nat.lt_ge_cases bl n) as [Hlt|?]; [|lia].
      pose proof (Hl3 (n - 1)%nat al Hal ltac:(lia)) as H.
      assert (qlt al v = true) by (by apply qlt_iff). congruence. }
    rewrite Habsent.
    - apply (f_equal Ret), (f_equal Fin).
      transitivity (Qred 1); [reflexivity|apply Qred_eq]. field. lra.
    - intros a Ha. apply lookup_lt_Some in Ha. lia. }
  rewrite Hl. cbn [mbind result_bind]. 
  destruct (Nat.lt_ge_cases bl n) as [Hbl|Hbl].
  2:{ (* the lower bound is the length: the value is absent *)
    assert (Hc : x !! bl = None) by (by apply lookup_ge_None_2).
    unfold at_index. destruct (Z.ltb_spec (Z.of_nat bl) 0); [lia|].
    rewrite Nat2Z.id, Hc. cbn [neq negb]. rewrite Habsent by (intros a; congruence).
    unfold nofZ. rewrite ndiv_fin by done. done. }
  destruct (lookup_lt_is_Some_2 x bl Hbl) as [c Hc].
  rewrite (at_index_lookup x (Z.of_nat bl) c) by (lia || by rewrite Nat2Z.id).
  cbn [neq]. destruct (qeq c v) eqn:Ecv; cbn [negb].
  2:{ rewrite Habsent.
      - unfold nofZ. by rewrite ndiv_fin by done.
      - intros a Ha E. rewrite Hc in Ha. injection Ha as <-.
        apply qeq_iff in E. congruence. }
  apply qeq_iff in Ecv. destruct (Hpresent c Hc Ecv) as [-> Hlu].
  rewrite Hu. cbn [mbind result_bind].
  destruct (Z.eqb_spec (Z.of_nat bu) (Z.of_nat bl + 1)) as [E|E].
  - unfold nofZ. rewrite ndiv_fin by done.
    apply (f_equal Ret), (f_equal Fin). unfold qdiv. apply Qred_eq. unfold qofZ.
    replace (Z.of_nat bu) with (Z.of_nat bl + 1) by done.
    replace (bl + bu + 1)%nat with (2 * (bl + 1))%nat by lia.
    rewrite !Nat2Z.inj_mul, !Nat2Z.inj_add, !inject_Z_mult, !inject_Z_plus.
    change (inject_Z (Z.of_nat 2)) with 2%Q. change (inject_Z (Z.of_nat 1)) with 1%Q.
    change (inject_Z 1) with 1%Q. field. lra.
  - unfold nofZ.
    assert (Hr : ¬ (qofZ (Z.of_nat bu - (Z.of_nat bl + 1) + 1) == 0)%Q).
    { unfold qofZ. change 0%Q with (inject_Z 0). rewrite inject_Z_injective. lia. }
    cbn [nmul]. rewrite (ndiv_fin _ 2) by done. rewrite (ndiv_fin _ _ Hr).
    rewrite ndiv_fin by done.
    apply (f_equal Ret), (f_equal Fin). unfold qdiv, qmul, qofZ in *.
    apply Qred_eq. rewrite !Qred_correct.
    rewrite !Nat2Z.inj_add, !inject_Z_plus, ?inject_Z_minus in *.
    change (inject_Z (Z.of_nat 1)) with 1%Q. change (inject_Z 1) with 1%Q in *.
    field. split; [lra|]. done.
Qed.


End RankFacts.

Module CombinationsFacts.
Import Ckmeans Combinations FiniteNum ChunkFacts.

Section Elements.
Context {A : Type}.

Lemma neq_one (q : Q) (k : Z) :
  (q == inject_Z k)%Q → neq (Fin q) (Fin 1) = (k =? 1).
Proof.
  intros Hq. cbn [neq]. unfold qeq. destruct (Z.eqb_spec k 1) as [->|Hk].
  - apply Qeq_bool_iff. by rewrite Hq.
  - destruct (Qeq_bool q 1) eqn:E; [|done]. apply Qeq_bool_iff in E.
    rewrite Hq in E. change 1%Q with (inject_Z 1) in E.
    rewrite inject_Z_injective in E. lia.
Qed.

Lemma pred_num (q : Q) (k : Z) :
  (q == inject_Z k)%Q → (qsub q 1 == inject_Z (k - 1))%Q.
Proof.
  intros Hq. unfold qsub. rewrite Qred_correct, Hq.
  unfold Z.sub. rewrite inject_Z_plus. done.
Qed.

Lemma slice_to_end (x : list A) (i : Z) :
  0 <= i <= Z.of_nat (length x) →
  list_slice x i (Z.of_nat (length x)) = drop (Z.to_nat i) x.
Proof.
  intros Hi.
  transitivity (list_slice x i (i + (Z.of_nat (length x) - i))); [f_equal; lia|].
  rewrite list_slice_take_drop by lia. apply take_ge. rewrite length_drop. lia.
Qed.

Lemma combinations_loop_spec (sub : Z → result (list (list A)))
    (subs : list A → list (list A)) (x : list A) (q : Q) (k : Z) :
  (q == inject_Z k)%Q →
  ∀ (suf pre : list A) (todo : nat) (acc : list (list A)),
    x = pre ++ suf → (length suf <= todo)%nat →
    (k ≠ 1 → ∀ xi rest pre', x = pre' ++ xi :: rest →
       sub (Z.of_nat (length pre')) = Ret (subs (xi :: rest))) →
    combinations_loop sub x (Fin q) todo (Z.of_nat (length pre)) acc
    = Ret (acc ++ (fix go (s : list A) : list (list A) :=
                     match s with
                     | [] => []
                     | xi :: rest =>
                         (if k =? 1 then [[xi]] else map (cons xi) (subs s))
                         ++ go rest
                     end) suf).
Proof.
  intros Hq. induction suf as [|xi rest IH]; intros pre todo acc Hx Htodo Hsub.
  - rewrite app_nil_r in *. subst pre.
    destruct todo as [|todo]; cbn [combinations_loop]; [done|].
    by rewrite Nat2Z.id, lookup_ge_None_2 by lia.
  - destruct todo as [|todo]; [cbn in Htodo; lia|]. cbn [combinations_loop].
    rewrite Nat2Z.id, Hx, list_lookup_middle by done. rewrite <- Hx.
    rewrite (neq_one q k Hq).
    replace (Z.of_nat (length pre) + 1) with (Z.of_nat (length (pre ++ [xi])))
      by (rewrite length_app; cbn [length]; lia).
    destruct (Z.eqb_spec k 1) as [Hk|Hk].
    + rewrite (IH (pre ++ [xi]) todo); try done.
      * by rewrite <- app_assoc.
      * by rewrite <- app_assoc.
      * cbn [length] in Htodo. lia.
    + rewrite (Hsub Hk xi rest pre Hx). cbn [mbind result_bind].
      rewrite (IH (pre ++ [xi]) todo); try done.
      * by rewrite <- app_assoc.
      * by rewrite <- app_assoc.
      * cbn [length] in Htodo. lia.
Qed.

Lemma choose_unfold (x : list A) (k : Z) :
  (fix go (s : list A) : list (list A) :=
     match s with
     | [] => []
     | xi :: rest =>
         (if k =? 1 then [[xi]]
          else map (cons xi) ((fun s => choose (tail s) (k - 1)) s))
         ++ go rest
     end) x = choose x k.
Proof. induction x as [|xi rest IH]; [done|]. cbn [choose tail]. by rewrite IH. Qed.

Lemma combinations_choose (fuel : nat) :
  ∀ (x : list A) (q : Q) (k : Z),
    (q == inject_Z k)%Q → (length x < fuel)%nat →
    combinations fuel x (Fin q) = Ret (choose x k).
Proof.
  induction fuel as [|fuel IH]; intros x q k Hq Hfuel; [lia|].
  cbn [combinations].
  rewrite (combinations_loop_spec _ (fun s => choose (tail s) (k - 1)) x q k Hq
             x [] (length x) []); [by rewrite choose_unfold|done|done|].
  intros Hk xi rest pre Hx. cbn [nsub tail].
  assert (Hlen : length x = (length pre + S (length rest))%nat).
  { rewrite Hx, length_app. done. }
  rewrite slice_to_end by lia.
  replace (Z.to_nat (Z.of_nat (length pre) + 1)) with (length (pre ++ [xi]))
    by (rewrite length_app; cbn [length]; lia).
  replace x with ((pre ++ [xi]) ++ rest) by (by rewrite <- app_assoc).
  rewrite drop_app_length. apply IH; [by apply pred_num|lia].
Qed.

Lemma choose_nonpos (x : list A) : ∀ k, k <= 0 → choose x k = [].
Proof.
  induction x as [|xi rest IH]; intros k Hk; [done|]. cbn [choose].
  destruct (Z.eqb_spec k 1); [lia|]. by rewrite !IH by lia.
Qed.

Lemma choose_elem (x : list A) :
  ∀ k c, 1 <= k →
    c ∈ choose x k ↔ sublist c x ∧ Z.of_nat (length c) = k.
Proof.
  induction x as [|xi rest IH]; intros k c Hk.
  - cbn [choose]. split; [by intros ?%elem_of_nil|].
    intros [->%sublist_nil_r Hc]. cbn in Hc. lia.
  - cbn [choose]. rewrite elem_of_app, sublist_cons_r, IH by done.
    destruct (Z.eqb_spec k 1) as [->|Hk1].
    + rewrite list_elem_of_singleton. split.
      * intros [->|[H1 H2]]; [|by split; [left|]].
        split; [|done]. right. exists []. split; [done|apply sublist_nil_l].
      * intros [[H1|(c' & -> & H1)] H2]; [by right|left].
        destruct c'; [done|cbn in H2; lia].
    + rewrite list_elem_of_fmap. split.
      * intros [(c' & -> & Hc')|[H1 H2]]; [|by split; [left|]].
        apply IH in Hc' as [H1 H2]; [|lia].
        split; [right; by exists c'|cbn [length]; lia].
      * intros [[H1|(c' & -> & H1)] H2]; [by right|left].
        exists c'. split; [done|]. apply IH; [lia|]. split; [done|].
        cbn [length] in H2. lia.
Qed.

Lemma choose_length (x : list A) :
  ∀ k, 1 <= k → length (choose x k) = binomial (length x) (Z.to_nat k).
Proof.
  induction x as [|xi rest IH]; intros k Hk.
  - cbn [choose length]. destruct (Z.to_nat k) eqn:E; [lia|done].
  - cbn [choose]. rewrite length_app.
    destruct (Z.to_nat k) as [|k'] eqn:E; [lia|]. cbn [length binomial].
    rewrite (IH k Hk), E. f_equal.
    destruct (Z.eqb_spec k 1) as [->|Hk1].
    + assert (k' = 0)%nat as -> by lia. by destruct (length rest).
    + rewrite length_map, IH by lia. f_equal. lia.
Qed.

Lemma choose_NoDup (x : list A) :
  NoDup x → ∀ k, NoDup (choose x k).
Proof.
  induction 1 as [|xi rest Hxi Hrest IH]; intros k; [constructor|].
  cbn [choose]. destruct (Z.le_gt_cases k 0) as [Hk|Hk].
  { destruct (Z.eqb_spec k 1); [lia|].
    rewrite !(choose_nonpos rest) by lia. constructor. }
  apply NoDup_app. split; [|split; [|apply IH]].
  - destruct (Z.eqb_spec k 1); [apply NoDup_singleton|].
    apply NoDup_fmap_2; [|apply IH]. by intros ?? [=].
  - intros c Hc Hc'. apply choose_elem in Hc' as [Hsub _]; [|lia].
    assert (xi ∈ c) as Hin.
    { destruct (Z.eqb_spec k 1).
      - apply list_elem_of_singleton in Hc as ->. by left.
      - apply list_elem_of_fmap in Hc as (c' & -> & _). by left. }
    apply Hxi. by eapply elem_of_sublist.
Qed.
Lemma multichoose_cons (k' : nat) (xi : A) (rest : list A) :
  multichoose (S k') (xi :: rest)
  = (match k' with
     | O => [[xi]]
     | S _ => map (cons xi) (multichoose k' (xi :: rest))
     end) ++ multichoose (S k') rest.
Proof. done. Qed.

Lemma multichoose_unfold (k' : nat) (x : list A) :
  (fix go (s : list A) : list (list A) :=
     match s with
     | [] => []
     | xi :: rest =>
         (if Z.of_nat (S k') =? 1 then [[xi]]
          else map (cons xi) (multichoose k' s))
         ++ go rest
     end) x = multichoose (S k') x.
Proof.
  induction x as [|xi rest IH]; [done|]. rewrite multichoose_cons, IH.
  f_equal. destruct k' as [|k'']; [done|].
  by destruct (Z.eqb_spec (Z.of_nat (S (S k''))) 1); [lia|].
Qed.

Lemma combinationsReplacement_multichoose (k' : nat) :
  ∀ (fuel : nat) (x : list A) (q : Q),
    (q == inject_Z (Z.of_nat (S k')))%Q → (k' < fuel)%nat →
    combinationsReplacement fuel x (Fin q) = Ret (multichoose (S k') x).
Proof.
  induction k' as [|k' IH]; intros fuel x q Hq Hfuel;
    (destruct fuel as [|fuel]; [lia|]); cbn [combinationsReplacement].
  - rewrite (combinations_loop_spec _ (fun s => multichoose 0 s) x q 1 Hq
               x [] (length x) []); [|done|done|done].
    by rewrite <- (multichoose_unfold 0 x).
  - rewrite (combinations_loop_spec _ (fun s => multichoose (S k') s) x q
               (Z.of_nat (S (S k'))) Hq x [] (length x) []); [|done|done|].
    { by rewrite <- (multichoose_unfold (S k') x). }
    intros _ xi rest pre Hx. cbn [nsub].
    assert (Hlen : length x = (length pre + S (length rest))%nat).
    { rewrite Hx, length_app. done. }
    rewrite slice_to_end, Nat2Z.id by lia. rewrite Hx at 1.
    rewrite drop_app_length. apply IH; [|lia].
    rewrite (pred_num q _ Hq). apply inject_Z_injective. lia.
Qed.

Lemma combinations_loop_stuck (sub : Z → result (list (list A)))
    (x : list A) (q : Q) (k : Z) :
  (q == inject_Z k)%Q → k ≠ 1 → x ≠ [] → sub 0 = OutOfFuel →
  combinations_loop sub x (Fin q) (length x) 0 [] = OutOfFuel.
Proof.
  intros Hq Hk Hx Hsub. destruct x as [|xi rest]; [done|].
  cbn [length combinations_loop]. change (Z.to_nat 0) with 0%nat.
  cbn [lookup list_lookup]. rewrite (neq_one q k Hq).
  destruct (Z.eqb_spec k 1); [lia|]. by rewrite Hsub.
Qed.

Lemma combinationsReplacement_diverges (fuel : nat) :
  ∀ (x : list A) (q : Q) (k : Z),
    (q == inject_Z k)%Q → k <= 0 → x ≠ [] →
    combinationsReplacement fuel x (Fin q) = OutOfFuel.
Proof.
  induction fuel as [|fuel IH]; intros x q k Hq Hk Hx; [done|].
  cbn [combinationsReplacement].
  apply (combinations_loop_stuck _ x q k); [done|lia|done|].
  rewrite slice_to_end by lia. change (Z.to_nat 0) with 0%nat. rewrite drop_0.
  cbn [nsub]. apply (IH x (qsub q 1) (k - 1)); [by apply pred_num|lia|done].
Qed.

Lemma sublist_replicate (c : list A) (m : nat) (a : A) :
  sublist c (replicate m a) → c = replicate (length c) a ∧ (length c <= m)%nat.
Proof.
  intros H. split.
  - symmetry. apply replicate_as_Forall. split; [done|]. apply Forall_forall.
    intros y Hy. pose proof (elem_of_sublist _ _ _ Hy H) as Hin.
    by apply elem_of_replicate in Hin as [-> _].
  - apply sublist_length in H. by rewrite length_replicate in H.
Qed.

Lemma sublist_replicate_le (j m : nat) (a : A) :
  (j <= m)%nat → sublist (replicate j a) (replicate m a).
Proof.
  intros H. replace m with ((m - j) + j)%nat by lia.
  rewrite replicate_add. apply sublist_inserts_l. done.
Qed.

Lemma each_times_mono (m : nat) (x : list A) :
  sublist (each_times m x) (each_times (S m) x).
Proof.
  unfold each_times. induction x as [|a x IH]; [done|]. cbn [map concat].
  apply sublist_app; [|done]. apply sublist_replicate_le. lia.
Qed.

Lemma each_times_shrink (m : nat) (x : list A) :
  ∀ c, sublist c (each_times (S m) x) → (length c <= m)%nat →
       sublist c (each_times m x).
Proof.
  unfold each_times. induction x as [|a x IH]; intros c Hc Hlen; [done|].
  cbn [map concat] in *. apply sublist_app_r in Hc as (c1 & c2 & -> & H1 & H2).
  rewrite length_app in Hlen. apply sublist_app; [|apply IH; [done|lia]].
  apply sublist_replicate in H1 as [-> _]. apply sublist_replicate_le. lia.
Qed.

Lemma multichoose_elem (k' : nat) :
  ∀ (x c : list A),
    c ∈ multichoose (S k') x
    ↔ length c = S k' ∧ sublist c (each_times (S k') x).
Proof.
  induction k' as [|k' IHk]; intros x; induction x as [|xi rest IHx]; intros c.
  - cbn. split; [by intros ?%elem_of_nil|]. by intros [? ->%sublist_nil_r].
  - rewrite multichoose_cons, elem_of_app, IHx, list_elem_of_singleton.
    unfold each_times. cbn [map concat replicate app]. fold (each_times 1 rest).
    rewrite sublist_cons_r. split.
    + intros [->|[H1 H2]]; [|by split; [|left]].
      split; [done|]. right. exists []. split; [done|apply sublist_nil_l].
    + intros [H1 [H2|(c' & -> & H2)]]; [by right|left].
      destruct c'; [done|cbn in H1; lia].
  - cbn. split; [by intros ?%elem_of_nil|]. by intros [? ->%sublist_nil_r].
  - rewrite multichoose_cons, elem_of_app, IHx, list_elem_of_fmap.
    assert (Hsplit : each_times (S (S k')) (xi :: rest)
              = xi :: (replicate (S k') xi ++ each_times (S (S k')) rest)) by done.
    assert (Hprev : each_times (S k') (xi :: rest)
              = replicate (S k') xi ++ each_times (S k') rest) by done.
    assert (Hfront : ∀ c', length c' = S k' →
              sublist c' (replicate (S k') xi ++ each_times (S (S k')) rest) →
              c' ∈ multichoose (S k') (xi :: rest)).
    { intros c' Hlen Hc'. apply IHk. split; [done|]. rewrite Hprev.
      apply sublist_app_r in Hc' as (c1 & c2 & -> & H1 & H2).
      rewrite length_app in Hlen.
      apply sublist_app; [done|]. apply each_times_shrink; [done|lia]. }
    split.
    + intros [(c' & -> & Hc')|[H1 H2]].
      * apply IHk in Hc' as [H1 H2]. split; [cbn [length]; lia|].
        rewrite Hsplit. apply sublist_skip. rewrite Hprev in H2.
        apply sublist_app_r in H2 as (c1 & c2 & -> & H2 & H3).
        apply sublist_app; [done|].
        etrans; [done|apply each_times_mono].
      * split; [done|]. rewrite Hsplit. apply sublist_cons.
        by apply sublist_inserts_l.
    + intros [Hlen Hc]. rewrite Hsplit in Hc.
      apply sublist_cons_r in Hc as [Hc|(c' & -> & Hc')].
      * apply sublist_app_r in Hc as (c1 & c2 & -> & H1 & H2).
        destruct c1 as [|a c1]; [by right|]. left.
        assert (a = xi) as ->.
        { assert (Ha : a ∈ replicate (S k') xi).
          { eapply elem_of_sublist; [|done]. by left. }
          by apply elem_of_replicate in Ha as [-> _]. }
        exists (c1 ++ c2). split; [done|]. apply Hfront.
        { cbn [length app] in Hlen. lia. }
        apply sublist_app; [|done]. etrans; [|done]. by apply sublist_cons.
      * left. exists c'. split; [done|]. apply Hfront; [|done].
        cbn [length] in Hlen. lia.
Qed.

Lemma multichoose_length (k' : nat) :
  ∀ x : list A,
    length (multichoose (S k') x) = binomial (length x + k') (S k').
Proof.
  assert (Hzero : ∀ n, binomial n (S n) = 0%nat).
  { induction n as [|n IH]; [done|]. cbn [binomial]. rewrite IH.
    clear IH. revert n. enough (∀ n m, (n < m)%nat → binomial n m = 0%nat) as H
      by (intros n; apply H; lia).
    induction n as [|n IH]; intros [|m] Hm; try lia; [done|].
    cbn [binomial]. rewrite !IH by lia. done. }
  induction k' as [|k' IHk]; intros x; induction x as [|xi rest IHx].
  - done.
  - rewrite multichoose_cons, length_app, IHx. cbn [length].
    rewrite !Nat.add_0_r. cbn [binomial]. by destruct (length rest).
  - cbn [length]. rewrite Nat.add_0_l. by rewrite Hzero.
  - rewrite multichoose_cons, length_app, length_map, IHx, IHk.
    cbn [length]. replace (S (length rest) + S k')%nat
      with (S (S (length rest) + k'))%nat by lia.
    cbn [binomial]. f_equal. f_equal. lia.
Qed.
End Elements.

(** X14.  With fuel beyond the length of the array, [combinations] of an
    integer [k >= 1] returns exactly the sub-sequences of [k] elements of
    the array: a list is returned if and only if it is one, there are
    [binomial n k] of them, and none comes twice when the elements are
    distinct.  For an integer [k0 <= 0] it returns no combination at all,
    not even the empty one. *)
Theorem combinations_sublists {A} (x : list A) (k k0 : Z) (fuel : nat) :
  (length x < fuel)%nat →
  (k0 <= 0 → combinations fuel x (Fin (inject_Z k0)) = Ret [])
  ∧ (1 <= k →
     ∃ cs, combinations fuel x (Fin (inject_Z k)) = Ret cs
           ∧ (∀ c, c ∈ cs ↔ sublist c x ∧ Z.of_nat (length c) = k)
           ∧ length cs = binomial (length x) (Z.to_nat k)
           ∧ (NoDup x → NoDup cs)).
Proof.
  intros Hfuel. split.
  - intros Hk0. rewrite (combinations_choose fuel x _ k0) by done.
    by rewrite choose_nonpos.
  - intros Hk. exists (choose x k).
    split; [by apply combinations_choose|].
    split; [intros c; by apply choose_elem|].
    split; [by apply choose_length|]. intros Hx. by apply choose_NoDup.
Qed.

Lemma combinations_sublists_witness :
  combinations 4 [1; 2; 3] (Fin (inject_Z 0)) = Ret []
  ∧ ∃ cs, combinations 4 [1; 2; 3] (Fin (inject_Z 2)) = Ret cs
          ∧ (∀ c, c ∈ cs ↔ sublist c [1; 2; 3] ∧ Z.of_nat (length c) = 2)
          ∧ length cs = binomial (length [1; 2; 3]) (Z.to_nat 2)
          ∧ (NoDup [1; 2; 3] → NoDup cs).
Proof.
  destruct (combinations_sublists [1; 2; 3] 2 0 4) as [H0 H2]; [cbn; lia|].
  split; [apply H0; lia|apply H2; lia].
Defined.

(** X15.  [combinationsReplacement] of an integer [k >= 1], with fuel for
    [k] nested calls, returns exactly the lists of [k] elements that are
    sub-sequences of the array with every element written [k] times: the
    selections of [k] elements in array order, an element being allowed
    more than once.  There are [binomial (n + k - 1) k] of them.  For an
    integer [k0 <= 0] and a non-empty array the recursion never ends:
    whatever the fuel, no result is returned. *)
Theorem combinationsReplacement_multisets {A} (x : list A) (k : nat)
    (k0 : Z) (fuel : nat) :
  (1 <= k <= fuel)%nat → k0 <= 0 → x ≠ [] →
  (∃ cs, combinationsReplacement fuel x (Fin (inject_Z (Z.of_nat k))) = Ret cs
         ∧ (∀ c, c ∈ cs ↔ length c = k ∧ sublist c (each_times k x))
         ∧ length cs = binomial (length x + k - 1) k)
  ∧ ∀ fuel0, combinationsReplacement fuel0 x (Fin (inject_Z k0)) = OutOfFuel.
Proof.
  intros Hk Hk0 Hx. split.
  - destruct k as [|k']; [lia|]. exists (multichoose (S k') x).
    split; [apply combinationsReplacement_multichoose; [done|lia]|].
    split; [apply multichoose_elem|].
    rewrite multichoose_length. f_equal. lia.
  - intros fuel0. by apply (combinationsReplacement_diverges fuel0 x _ k0).
Qed.

Lemma combinationsReplacement_multisets_witness :
  (∃ cs, combinationsReplacement 2 [1; 2] (Fin (inject_Z (Z.of_nat 2))) = Ret cs
         ∧ (∀ c, c ∈ cs ↔ length c = 2%nat ∧ sublist c (each_times 2 [1; 2]))
         ∧ length cs = binomial (length [1; 2] + 2 - 1) 2)
  ∧ ∀ fuel0, combinationsReplacement fuel0 [1; 2] (Fin (inject_Z 0)) = OutOfFuel.
Proof.
  apply (combinationsReplacement_multisets [1; 2] 2 0 2); [lia|lia|done].
Defined.
End CombinationsFacts.

Module SamplingFacts.
Import Permutation Sampling FiniteNum.

Lemma floor_in_range (r : Q) (n : nat) :
  (0 <= r < 1)%Q → n ≠ 0%nat →
  0 <= Qfloor (r * qofZ (Z.of_nat n)) < Z.of_nat n.
Proof.
  intros [H0 H1] Hn. unfold qofZ.
  pose proof (FiniteNum.inject_nat_pos n Hn) as Hpos.
  split.
  - change 0 with (Qfloor 0). apply Qfloor_resp_le. nra.
  - rewrite Zlt_Qlt. eapply Qle_lt_trans; [apply Qfloor_le|]. nra.
Qed.

Section Random.
Context {RS : Type} (Math_random : RS → Q * RS).

Lemma sample_loop_spec {A} (src : RS → Q * RS) (x : list A) (todo : nat) :
  in_unit_range src → x ≠ [] →
  ∀ rs, length (sample_loop src todo x rs).1 = todo
        ∧ ∀ v, v ∈ (sample_loop src todo x rs).1 → ∃ a, v = Some a ∧ a ∈ x.
Proof.
  intros Hsrc Hx. induction todo as [|todo IH]; intros rs.
  - split; [done|]. by intros v ?%elem_of_nil.
  - cbn [sample_loop]. pose proof (Hsrc rs) as Hr.
    destruct (src rs) as [r rs'] eqn:E. cbn [fst] in Hr.
    destruct (IH rs') as [Hlen Hin].
    destruct (sample_loop src todo x rs') as [sample rs''] eqn:E'.
    cbn [fst] in *. split; [by rewrite <- Hlen|].
    intros v Hv. apply elem_of_cons in Hv as [->|Hv]; [|by apply Hin].
    assert (Hn : length x ≠ 0%nat) by (by destruct x).
    pose proof (floor_in_range r (length x) Hr Hn) as Hidx.
    unfold item. destruct (Z.ltb_spec (Qfloor (r * qofZ (Z.of_nat (length x)))) 0);
      [lia|].
    destruct (lookup_lt_is_Some_2 x (Z.to_nat (Qfloor (r * qofZ (Z.of_nat (length x))))))
      as [a Ha]; [lia|].
    exists a. split; [done|]. by eapply list_elem_of_lookup_2.
Qed.

(** ** Exchanging two cells of an array *)

Lemma exchange_involutive (i j k : nat) : exchange i j (exchange i j k) = k.
Proof. unfold exchange. repeat case_decide; congruence. Qed.

Lemma exchange_below (i j k n : nat) :
  (i < n)%nat → (j < n)%nat → (k < n)%nat → (exchange i j k < n)%nat.
Proof. intros. unfold exchange. by repeat case_decide. Qed.

Lemma exchange_seq (i j n : nat) :
  (i < n)%nat → (j < n)%nat → map (exchange i j) (seq 0 n) ≡ₚ seq 0 n.
Proof.
  intros Hi Hj. apply NoDup_Permutation.
  - assert (Inj eq eq (exchange i j)) as Hinj.
    { intros a b E.
      by rewrite <- (exchange_involutive i j a), E, exchange_involutive. }
    apply (NoDup_fmap_2 (exchange i j)), NoDup_seq.
  - apply NoDup_seq.
  - intros k. rewrite list_elem_of_fmap. setoid_rewrite elem_of_seq. split.
    + intros (k' & -> & Hk'). split; [lia|]. apply exchange_below; lia.
    + intros Hk. exists (exchange i j k). rewrite exchange_involutive.
      split; [done|]. split; [lia|]. apply exchange_below; lia.
Qed.

Lemma arr_to_list_exchange {A} (x : jsarr A) (i j : Z) :
  0 <= i < len x → 0 <= j < len x →
  let x1 := arr_set x j (arr_get x i) in
  let x2 := arr_set x1 i (arr_get x j) in
  len x2 = len x ∧ arr_to_list x2 ≡ₚ arr_to_list x.
Proof.
  intros Hi Hj x1 x2.
  assert (Hlen : len x2 = len x).
  { unfold x2, x1, arr_set. cbn [len].
    destruct (Z.leb_spec (len x) j); [lia|].
    by destruct (Z.leb_spec (len x) i); [lia|]. }
  split; [done|]. unfold arr_to_list. rewrite Hlen.
  transitivity (map (fun k => arr_get x (Z.of_nat k))
                  (map (exchange (Z.to_nat i) (Z.to_nat j))
                     (seq 0 (Z.to_nat (len x)))));
    [|apply Permutation_map, exchange_seq; lia].
  rewrite map_map. apply Permutation_refl', map_ext_in.
  intros k _. unfold x2, x1. rewrite !KMeansFacts.arr_get_set. unfold exchange.
  repeat case_decide; try lia; try done; f_equal; lia.
Qed.

Lemma shuffle_loop_permutes {A} (src : RS → Q * RS) (todo : nat) :
  in_unit_range src →
  ∀ (x : jsarr A) (rs : RS),
    Z.of_nat todo <= len x →
    len (shuffle_loop src todo x rs).1 = len x
    ∧ arr_to_list (shuffle_loop src todo x rs).1 ≡ₚ arr_to_list x.
Proof.
  intros Hsrc. induction todo as [|todo IH]; intros x rs Hlen; [done|].
  cbn [shuffle_loop]. pose proof (Hsrc rs) as Hr.
  destruct (src rs) as [r rs'] eqn:E. cbn [fst] in Hr.
  pose proof (floor_in_range r (S todo) Hr ltac:(lia)) as Hidx.
  set (index := Qfloor (r * qofZ (Z.of_nat (S todo)))) in *.
  destruct (arr_to_list_exchange x index (Z.of_nat todo)) as [Hl Hp]; [lia|lia|].
  cbn zeta in Hl, Hp.
  destruct (IH (arr_set (arr_set x (Z.of_nat todo) (arr_get x index)) index
                  (arr_get x (Z.of_nat todo))) rs') as [Hl' Hp']; [lia|].
  split; [by rewrite Hl'|]. by rewrite Hp'.
Qed.

Lemma slice_fold_lookup {A} (x : jsarr A) (from k : Z) (count : nat) :
  ∀ s : nat,
    fold_right
      (fun (k : nat) (m : gmap Z A) =>
         match elems x !! (from + Z.of_nat k) with
         | Some v => <[Z.of_nat k := v]> m
         | None => m
         end)
      ∅ (seq s count) !! k
    = if decide (Z.of_nat s <= k < Z.of_nat s + Z.of_nat count)
      then elems x !! (from + k) else None.
Proof.
  induction count as [|count IH]; intros s; cbn [seq fold_right].
  - rewrite lookup_empty. case_decide; [lia|done].
  - destruct (decide (k = Z.of_nat s)) as [->|Hne].
    + destruct (elems x !! (from + Z.of_nat s)) as [v|] eqn:E.
      * rewrite lookup_insert_eq. case_decide; [done|lia].
      * rewrite IH. repeat case_decide; try lia; done.
    + assert (fold_right
                (fun (k : nat) (m : gmap Z A) =>
                   match elems x !! (from + Z.of_nat k) with
                   | Some v => <[Z.of_nat k := v]> m
                   | None => m
                   end)
                ∅ (seq (S s) count) !! k
              = if decide (Z.of_nat s <= k < Z.of_nat s + Z.of_nat (S count))
                then elems x !! (from + k) else None) as Hrest.
      { rewrite IH. repeat case_decide; try lia; done. }
      destruct (elems x !! (from + Z.of_nat s)); [|done].
      by rewrite lookup_insert_ne.
Qed.

Lemma arr_get_slice {A} (x : jsarr A) (n k : Z) :
  0 <= n → 0 <= len x →
  arr_get (arr_slice x 0 n) k
  = if decide (0 <= k < Z.min n (len x)) then arr_get x k else None.
Proof.
  intros Hn Hlen. unfold arr_slice, arr_get, slice_bound. cbn [elems].
  destruct (Z.ltb_spec 0 0); [lia|]. destruct (Z.ltb_spec n 0); [lia|].
  rewrite (Z.min_l 0), Z.sub_0_r, Z.max_l by lia.
  rewrite slice_fold_lookup. rewrite Z.add_0_l.
  repeat case_decide; try lia; done.
Qed.

Lemma len_slice {A} (x : jsarr A) (n : Z) :
  0 <= n → 0 <= len x → len (arr_slice x 0 n) = Z.min n (len x).
Proof.
  intros Hn Hlen. unfold arr_slice, slice_bound. cbn [len].
  destruct (Z.ltb_spec 0 0); [lia|]. destruct (Z.ltb_spec n 0); [lia|]. lia.
Qed.

Lemma arr_to_list_slice {A} (x : jsarr A) (n : Z) :
  0 <= n → 0 <= len x →
  arr_to_list (arr_slice x 0 n) = take (Z.to_nat n) (arr_to_list x).
Proof.
  intros Hn Hlen. unfold arr_to_list. rewrite len_slice by done.
  rewrite firstn_map, take_seq.
  replace (Z.to_nat (Z.min n (len x)))
    with (Init.Nat.min (Z.to_nat n) (Z.to_nat (len x))) by lia.
  apply map_ext_in. intros k Hk%in_seq. rewrite arr_get_slice by done.
  case_decide; [done|lia].
Qed.

Lemma arr_to_list_copy {A} (x : jsarr A) :
  0 <= len x → arr_to_list (arr_copy x) = arr_to_list x.
Proof.
  intros Hlen. unfold arr_copy. rewrite arr_to_list_slice by done.
  apply take_ge. unfold arr_to_list. rewrite length_map, length_seq. lia.
Qed.

Lemma shuffle_permutes {A} (x : jsarr A) (randomSource : option (RS → Q * RS))
    (rs : RS) :
  in_unit_range (default Math_random randomSource) → 0 <= len x →
  arr_to_list (shuffle Math_random x randomSource rs).1 ≡ₚ arr_to_list x.
Proof.
  intros Hsrc Hlen. unfold shuffle, shuffleInPlace.
  pose proof (len_slice x (len x) Hlen Hlen) as Hl. fold (arr_copy x) in Hl.
  destruct (shuffle_loop_permutes (default Math_random randomSource)
              (Z.to_nat (len (arr_copy x))) Hsrc (arr_copy x) rs) as [_ Hp];
    [lia|].
  by rewrite Hp, arr_to_list_copy.
Qed.
End Random.

(** X16.  With a source of draws in the range [0, 1), [shuffleInPlace] and
    [shuffle] return the elements of the array in some order, nothing lost
    and nothing twice, and [sample] returns the first [n] of such an order:
    [min n length] elements that, counted with multiplicity, all come from
    the array. *)
Theorem shuffle_is_permutation {RS A} (Math_random : RS → Q * RS)
    (x : jsarr A) (n : Z) (randomSource : option (RS → Q * RS)) (rs : RS) :
  in_unit_range (default Math_random randomSource) → 0 <= len x → 0 <= n →
  arr_to_list (shuffleInPlace Math_random x randomSource rs).1 ≡ₚ arr_to_list x
  ∧ arr_to_list (shuffle Math_random x randomSource rs).1 ≡ₚ arr_to_list x
  ∧ arr_to_list (sample Math_random x n randomSource rs).1 ⊆+ arr_to_list x
  ∧ len (sample Math_random x n randomSource rs).1 = Z.min n (len x).
Proof.
  intros Hsrc Hlen Hn. split; [|split].
  - unfold shuffleInPlace.
    by destruct (shuffle_loop_permutes (default Math_random randomSource)
                   (Z.to_nat (len x)) Hsrc x rs) as [_ Hp]; [lia|].
  - by apply shuffle_permutes.
  - pose proof (shuffle_permutes Math_random x randomSource rs Hsrc Hlen) as Hp.
    unfold sample.
    assert (Hl : len (shuffle Math_random x randomSource rs).1 = len x).
    { unfold shuffle, shuffleInPlace.
      pose proof (len_slice x (len x) Hlen Hlen) as Hl. fold (arr_copy x) in Hl.
      destruct (shuffle_loop_permutes (default Math_random randomSource)
                  (Z.to_nat (len (arr_copy x))) Hsrc (arr_copy x) rs) as [Hl' _];
        [lia|]. rewrite Hl'. lia. }
    destruct (shuffle Math_random x randomSource rs) as [shuffled rs'].
    cbn [fst] in *. split.
    + rewrite arr_to_list_slice by lia. rewrite <- Hp.
      apply sublist_submseteq, sublist_take.
    + rewrite len_slice by lia. lia.
Qed.

Lemma shuffle_is_permutation_witness :
  arr_to_list (shuffleInPlace half_source (arr_of_list [Some 1; Some 2; Some 3])
                 None 0%nat).1
  ≡ₚ arr_to_list (arr_of_list [Some 1; Some 2; Some 3])
  ∧ arr_to_list (shuffle half_source (arr_of_list [Some 1; Some 2; Some 3])
                   None 0%nat).1
    ≡ₚ arr_to_list (arr_of_list [Some 1; Some 2; Some 3])
  ∧ arr_to_list (sample half_source (arr_of_list [Some 1; Some 2; Some 3]) 2
                   None 0%nat).1
    ⊆+ arr_to_list (arr_of_list [Some 1; Some 2; Some 3])
  ∧ len (sample half_source (arr_of_list [Some 1; Some 2; Some 3]) 2
           None 0%nat).1
    = Z.min 2 (len (arr_of_list [Some 1; Some 2; Some 3])).
Proof.
  apply (shuffle_is_permutation half_source
           (arr_of_list [Some 1; Some 2; Some 3]) 2 None 0%nat).
  - intros rs. cbn. lra.
  - cbn. lia.
  - lia.
Defined.

(** X17.  [sampleWithReplacement] returns an empty sample from an empty
    array whatever [n] is; from a non-empty array, with a source of draws
    in the range [0, 1) and [n >= 0], it returns [n] items, each of them an
    element of the array. *)
Theorem sampleWithReplacement_draws {RS A} (Math_random : RS → Q * RS)
    (x : list A) (n : Z) (randomSource : option (RS → Q * RS)) (rs : RS) :
  (sampleWithReplacement Math_random (@nil A) n randomSource rs).1 = []
  ∧ (in_unit_range (default Math_random randomSource) → x ≠ [] → 0 <= n →
     Z.of_nat (length (sampleWithReplacement Math_random x n randomSource rs).1)
     = n
     ∧ ∀ v, v ∈ (sampleWithReplacement Math_random x n randomSource rs).1 →
            ∃ a, v = Some a ∧ a ∈ x).
Proof.
  split; [done|]. intros Hsrc Hx Hn. unfold sampleWithReplacement.
  destruct (Nat.eqb_spec (length x) 0) as [E|_]; [by destruct x|].
  destruct (sample_loop_spec (default Math_random randomSource) x (Z.to_nat n)
              Hsrc Hx rs) as [Hlen Hin].
  split; [rewrite Hlen; lia|done].
Qed.

Lemma sampleWithReplacement_draws_witness :
  Z.of_nat (length (sampleWithReplacement half_source [1; 2; 3; 4] 2 None
                      0%nat).1) = 2
  ∧ ∀ v, v ∈ (sampleWithReplacement half_source [1; 2; 3; 4] 2 None 0%nat).1 →
         ∃ a, v = Some a ∧ a ∈ [1; 2; 3; 4].
Proof.
  apply (sampleWithReplacement_draws half_source [1; 2; 3; 4] 2 None 0%nat).
  - intros rs. cbn. lra.
  - done.
  - lia.
Defined.
End SamplingFacts.

Module WilcoxonDistinct.
Import Descriptive Wilcoxon Rank Ties CkSpec FiniteNum RankFacts.

Lemma entry_insert_perm (e : entry) (l : list entry) :
  sort_insert (fun a b => qsub (e_value a) (e_value b)) e l ≡ₚ e :: l.
Proof.
  induction l as [|y l IH]; [done|]. cbn [sort_insert].
  destruct (qle _ 0); [done|]. rewrite IH. apply Permutation_swap.
Qed.

Lemma entry_sort_perm (l : list entry) :
  js_sort (fun a b => qsub (e_value a) (e_value b)) l ≡ₚ l.
Proof.
  induction l as [|e l IH]; [done|]. cbn [js_sort].
  by rewrite entry_insert_perm, IH.
Qed.

Lemma entry_insert_values (e : entry) (l : list entry) :
  map e_value (sort_insert (fun a b => qsub (e_value a) (e_value b)) e l)
  = sort_insert (fun a b => qsub a b) (e_value e) (map e_value l).
Proof.
  induction l as [|y l IH]; [done|]. cbn [sort_insert map].
  destruct (qle _ 0); [done|]. cbn [map]. by rewrite IH.
Qed.

Lemma entry_sort_values (l : list entry) :
  map e_value (js_sort (fun a b => qsub (e_value a) (e_value b)) l)
  = numericSort (map e_value l).
Proof.
  unfold numericSort. induction l as [|e l IH]; [done|]. cbn [js_sort map].
  by rewrite entry_insert_values, IH.
Qed.

Lemma pool_values (sampleX sampleY : list Q) :
  map e_value (pool sampleX sampleY) = numericSort (sampleX ++ sampleY).
Proof.
  unfold pool. rewrite entry_sort_values, map_app, !map_map. cbn [e_value].
  by rewrite !map_id.
Qed.

Lemma filter_perm {A} (f : A → bool) (x y : list A) :
  x ≡ₚ y → List.filter f x ≡ₚ List.filter f y.
Proof.
  induction 1 as [|a x y _ IH|a b x|x y z _ IH1 _ IH2]; cbn [List.filter].
  - done.
  - destruct (f a); by rewrite IH.
  - destruct (f a), (f b); try done. apply Permutation_swap.
  - by rewrite IH1.
Qed.

Lemma list_sum_perm (x y : list Q) : x ≡ₚ y → (list_sum x == list_sum y)%Q.
Proof.
  induction 1 as [|a x y _ IH|a b x|x y z _ IH1 _ IH2].
  - reflexivity.
  - rewrite !list_sum_cons, IH. reflexivity.
  - rewrite !list_sum_cons. ring.
  - by rewrite IH1.
Qed.

Lemma two_hits (f : Q → bool) (l : list Q) :
  ∀ (i j : nat) (a c : Q),
    l !! i = Some a → l !! j = Some c → (i < j)%nat →
    f a = true → f c = true → (2 <= length (List.filter f l))%nat.
Proof.
  induction l as [|x l IH]; intros i j a c Ha Hc Hij Hfa Hfc; [done|].
  destruct i as [|i].
  - cbn in Ha. injection Ha as ->. cbn [List.filter]. rewrite Hfa. cbn [length].
    destruct j as [|j]; [lia|]. cbn in Hc.
    enough (1 <= length (List.filter f l))%nat by lia.
    apply list_elem_of_lookup_2, list_elem_of_In in Hc.
    assert (Hin : In c (List.filter f l)) by (by apply filter_In).
    destruct (List.filter f l); [done|cbn; lia].
  - destruct j as [|j]; [lia|]. cbn in Ha, Hc. cbn [List.filter].
    pose proof (IH i j a c Ha Hc ltac:(lia) Hfa Hfc).
    destruct (f x); cbn [length]; lia.
Qed.

Lemma distinct_perm (x y : list Q) :
  x ≡ₚ y → distinct_values x → distinct_values y.
Proof. intros H Hx v. rewrite <- (count_perm _ x y H). apply Hx. Qed.

Lemma distinctb_spec (l : list Q) : distinctb l = true → distinct_values l.
Proof.
  induction l as [|a l IH]; intros H v; [cbn; lia|].
  cbn [distinctb] in H. apply andb_true_iff in H as [Ha Hl].
  cbn [List.filter]. destruct (qeq v a) eqn:E; [|by apply IH].
  cbn [length]. enough (List.filter (qeq v) l = []) as -> by (cbn; lia).
  apply qeq_iff in E. rewrite forallb_forall in Ha.
  clear IH Hl. induction l as [|c l IHl]; [done|]. cbn [List.filter].
  pose proof (Ha c ltac:(by left)) as Hc. apply negb_true_iff in Hc.
  destruct (qeq v c) eqn:E'.
  - apply qeq_iff in E'. assert (qeq a c = true) by (apply qeq_iff; lra).
    congruence.
  - apply IHl. intros x Hx. apply Ha. by right.
Qed.

Section Pool.
Context (V : list Q).
Hypothesis V_sorted : StronglySorted Qle V.
Hypothesis V_distinct : distinct_values V.

Lemma strictly_increasing (i j : nat) (a c : Q) :
  V !! i = Some a → V !! j = Some c → (i < j)%nat → (a < c)%Q.
Proof.
  intros Ha Hc Hij.
  pose proof (CkSort.sorted_lookup V V_sorted i j a c Ha Hc ltac:(lia)) as Hle.
  destruct (Qlt_le_dec a c) as [?|Hge]; [done|]. exfalso.
  pose proof (two_hits (qeq a) V i j a c Ha Hc Hij) as H.
  pose proof (V_distinct a).
  assert (2 <= length (List.filter (qeq a) V))%nat; [|lia].
  apply H; apply qeq_iff; lra.
Qed.

Lemma index_is_count (j : nat) (c : Q) :
  V !! j = Some c → count_below c V = j.
Proof.
  intros Hc. unfold count_below. apply filter_boundary.
  - apply lookup_lt_Some in Hc. lia.
  - intros i a Ha Hi. apply ExtremesFacts.qlt_iff.
    by apply (strictly_increasing i j).
  - intros i a Ha Hi. destruct (qlt a c) eqn:E; [|done].
    apply ExtremesFacts.qlt_iff in E.
    pose proof (CkSort.sorted_lookup V V_sorted j i c a Hc Ha Hi). lra.
Qed.
End Pool.

Lemma init_ranks_length (l : list entry) : ∀ r, length (init_ranks r l) = length l.
Proof. induction l as [|e l IH]; intros r; [done|]. cbn. by rewrite IH. Qed.

Lemma init_ranks_lookup (l : list entry) :
  ∀ (r : Z) (i : nat),
    init_ranks r l !! i
    = (fun e => set_rank e (qofZ (r + Z.of_nat i))) <$> l !! i.
Proof.
  induction l as [|e l IH]; intros r i; [done|]. destruct i as [|i].
  - cbn. by rewrite Z.add_0_r.
  - cbn [init_ranks]. rewrite !lookup_cons. rewrite IH.
    destruct (l !! i); [|done]. cbn. do 3 f_equal. lia.
Qed.

Lemma tie_loop_distinct (pooled : list entry) :
  (∀ i cur prev, pooled !! S i = Some cur → pooled !! i = Some prev →
                 qeq (e_value cur) (e_value prev) = false) →
  ∀ (todo i : nat) (r : Q),
    (1 <= i)%nat → (i + todo = length pooled)%nat →
    tie_loop todo i pooled [r] = Ret pooled.
Proof.
  intros Hadj. induction todo as [|todo IH]; intros i r Hi Hlen; [done|].
  cbn [tie_loop].
  destruct (lookup_lt_is_Some_2 pooled i ltac:(lia)) as [cur Hcur].
  destruct (lookup_lt_is_Some_2 pooled (i - 1) ltac:(lia)) as [prev Hprev].
  rewrite Hcur, Hprev.
  rewrite (Hadj (i - 1)%nat cur prev); [|by replace (S (i - 1)) with i by lia|done].
  cbn [length]. change (1 <? 1)%nat with false. cbv iota.
  apply IH; lia.
Qed.

Lemma rank_sum_ranks (g : Q → Q) (l : list entry) :
  ∀ (r : Z) (acc : Q),
    (∀ j e, l !! j = Some e →
            (g (e_value e) == inject_Z (r + Z.of_nat j) + 1)%Q) →
    (rank_sum (init_ranks r l) acc
     == acc + list_sum (map (fun e => g (e_value e)) (List.filter is_x l)))%Q.
Proof.
  induction l as [|e l IH]; intros r acc Hg.
  - cbn [init_ranks rank_sum List.filter map list_sum foldr]. ring.
  - cbn [init_ranks rank_sum List.filter].
    assert (Hrest : ∀ j e', l !! j = Some e' →
              (g (e_value e') == inject_Z (r + 1 + Z.of_nat j) + 1)%Q).
    { intros j e' He'. rewrite (Hg (S j) e' He'). apply Qplus_comp; [|done].
      apply inject_Z_injective. lia. }
    rewrite (IH (r + 1) _ Hrest).
    change (is_x (set_rank e (qofZ r))) with (is_x e).
    destruct (is_x e); [|reflexivity].
    cbn [map]. rewrite list_sum_cons. cbn [set_rank e_rank].
    rewrite (Hg 0%nat e eq_refl). unfold qadd, qofZ. rewrite !Qred_correct.
    rewrite Z.add_0_r. ring.
Qed.

Lemma filter_labels (sampleX sampleY : list Q) :
  List.filter is_x
    (map (fun x => Entry LX x 0) sampleX ++ map (fun y => Entry LY y 0) sampleY)
  = map (fun x => Entry LX x 0) sampleX.
Proof.
  rewrite List.filter_app.
  assert (H1 : ∀ l, List.filter is_x (map (fun x => Entry LX x 0) l)
                    = map (fun x => Entry LX x 0) l).
  { induction l as [|a l IH]; [done|]. cbn. by rewrite IH. }
  assert (H2 : ∀ l, List.filter is_x (map (fun y => Entry LY y 0) l) = []).
  { induction l as [|a l IH]; [done|]. cbn. by rewrite IH. }
  by rewrite H1, H2, app_nil_r.
Qed.

(** X23.  [wilcoxonRankSum] throws when a sample is empty.  When no value
    occurs twice in the two samples together, it returns the sum over the
    first sample of the ranks of its values in the pool, the rank of a
    value being one plus the number of pooled values below it. *)
Theorem wilcoxonRankSum_without_ties (sampleX sampleY : list Q) :
  (sampleX = [] ∨ sampleY = [] →
   wilcoxonRankSum sampleX sampleY = Throw (Error "Neither sample can be empty"))
  ∧ (sampleX ≠ [] → sampleY ≠ [] → distinct_values (sampleX ++ sampleY) →
     ∃ w, wilcoxonRankSum sampleX sampleY = Ret w
          ∧ (w == list_sum (map (rank_in (sampleX ++ sampleY)) sampleX))%Q).
Proof.
  split.
  { intros [-> | ->]; [done|]. unfold wilcoxonRankSum. cbn [length Nat.eqb].
    by rewrite orb_true_r. }
  intros HX HY Hdistinct. unfold wilcoxonRankSum.
  destruct (Nat.eqb_spec (length sampleX) 0) as [E|_]; [by destruct sampleX|].
  destruct (Nat.eqb_spec (length sampleY) 0) as [E|_]; [by destruct sampleY|].
  cbn [orb]. unfold ranked_pool.
  set (P := pool sampleX sampleY).
  assert (HV : map e_value P = numericSort (sampleX ++ sampleY))
    by apply pool_values.
  assert (Hsorted : StronglySorted Qle (map e_value P))
    by (rewrite HV; apply CkSort.numericSort_sorted).
  assert (Hperm : map e_value P ≡ₚ sampleX ++ sampleY)
    by (rewrite HV; apply CkSort.numericSort_perm).
  assert (Hd : distinct_values (map e_value P))
    by (apply (distinct_perm (sampleX ++ sampleY)); [by symmetry|done]).
  assert (HP : P ≡ₚ map (fun x => Entry LX x 0) sampleX
                    ++ map (fun y => Entry LY y 0) sampleY)
    by apply entry_sort_perm.
  assert (Hlen : length P ≠ 0%nat).
  { rewrite HP, length_app, !length_map. by destruct sampleX. }
  destruct (init_ranks 0 P) as [|e0 rest] eqn:Einit.
  { pose proof (init_ranks_length P 0) as H. rewrite Einit in H. cbn in H. lia. }
  rewrite <- Einit.
  rewrite tie_loop_distinct.
  - cbn [mbind result_bind]. eexists. split; [done|].
    rewrite (rank_sum_ranks (rank_in (sampleX ++ sampleY))).
    + rewrite Qplus_0_l. rewrite (list_sum_perm _
        (map (fun e => rank_in (sampleX ++ sampleY) (e_value e))
           (map (fun x => Entry LX x 0) sampleX))).
      * rewrite map_map. reflexivity.
      * apply Permutation_map. rewrite <- filter_labels with (sampleY := sampleY).
        by apply filter_perm.
    + intros j e He. unfold rank_in, count_below.
      rewrite <- (count_perm _ _ _ Hperm). fold (count_below (e_value e) (map e_value P)).
      rewrite (index_is_count (map e_value P) Hsorted Hd j).
      * rewrite Z.add_0_l. ring.
      * by rewrite list_lookup_fmap, He.
  - intros i cur prev Hcur Hprev.
    rewrite init_ranks_lookup in Hcur, Hprev.
    destruct (P !! S i) as [c|] eqn:Ec; [|done].
    destruct (P !! i) as [p|] eqn:Ep; [|done].
    cbn in Hcur, Hprev. injection Hcur as <-. injection Hprev as <-.
    cbn [set_rank e_value].
    destruct (qeq (e_value c) (e_value p)) eqn:E; [|done]. exfalso.
    apply qeq_iff in E.
    pose proof (strictly_increasing (map e_value P) Hsorted Hd i (S i)
                  (e_value p) (e_value c)) as H.
    rewrite !list_lookup_fmap, Ec, Ep in H. specialize (H eq_refl eq_refl ltac:(lia)).
    lra.
  - done.
  - rewrite init_ranks_length. lia.
Qed.

Lemma wilcoxonRankSum_without_ties_witness :
  wilcoxonRankSum [] [1]%Q = Throw (Error "Neither sample can be empty")
  ∧ ∃ w, wilcoxonRankSum [1; 4; 8]%Q [9; 12; 15]%Q = Ret w
         ∧ (w == list_sum (map (rank_in ([1; 4; 8] ++ [9; 12; 15])) [1; 4; 8]))%Q.
Proof.
  split.
  - apply (wilcoxonRankSum_without_ties [] [1]%Q). by left.
  - apply (wilcoxonRankSum_without_ties [1; 4; 8]%Q [9; 12; 15]%Q); [done|done|].
    by apply distinctb_spec.
Defined.
End WilcoxonDistinct.

Module ValuesFacts.
Import Ckmeans Values RankFacts.

Lemma existsb_qeq_proper (a c : Q) (l : list Q) :
  (a == c)%Q → existsb (qeq a) l = existsb (qeq c) l.
Proof.
  intros H. induction l as [|x l IH]; [done|]. cbn [existsb]. rewrite IH.
  f_equal. unfold qeq. destruct (Qeq_bool a x) eqn:E1, (Qeq_bool c x) eqn:E2;
    try done.
  - apply Qeq_bool_iff in E1. assert (c == x)%Q by lra.
    apply Qeq_bool_iff in H0. congruence.
  - apply Qeq_bool_iff in E2. assert (a == x)%Q by lra.
    apply Qeq_bool_iff in H0. congruence.
Qed.

Lemma values_head (a c : Q) (l : list Q) :
  (a == c)%Q → length (values_of (a :: l)) = length (values_of (c :: l)).
Proof.
  intros H. cbn [values_of]. rewrite (existsb_qeq_proper a c l H).
  by destruct (existsb (qeq c) l).
Qed.

Lemma values_cons_le (a : Q) (l : list Q) :
  (length (values_of (a :: l)) <= S (length (values_of l)))%nat.
Proof. cbn [values_of]. destruct (existsb (qeq a) l); cbn [length]; lia. Qed.

Lemma values_le_length (l : list Q) : (length (values_of l) <= length l)%nat.
Proof.
  induction l as [|a l IH]; [done|]. pose proof (values_cons_le a l).
  cbn [length]. lia.
Qed.

Lemma uniqueCount_loop_shift (l : list Q) :
  ∀ v c, uniqueCount_loop l v (c + 1) = uniqueCount_loop l v c + 1.
Proof.
  induction l as [|a l IH]; intros v c; [done|]. cbn [uniqueCount_loop].
  destruct (negb (qeq a v)); by rewrite !IH.
Qed.

Lemma uniqueCount_loop_le (l : list Q) :
  ∀ v c, uniqueCount_loop l v c <= c + Z.of_nat (length l).
Proof.
  induction l as [|a l IH]; intros v c; cbn [uniqueCount_loop length]; [lia|].
  destruct (negb (qeq a v)).
  - specialize (IH a (c + 1)). lia.
  - specialize (IH v c). lia.
Qed.

Lemma uniqueCount_loop_runs (l : list Q) :
  ∀ v, Z.of_nat (length (values_of (v :: l))) <= uniqueCount_loop l v 1.
Proof.
  induction l as [|a l IH]; intros v; [done|]. cbn [uniqueCount_loop].
  destruct (qeq a v) eqn:E; cbn [negb].
  - apply qeq_iff in E. specialize (IH v).
    assert (length (values_of (v :: a :: l)) = length (values_of (v :: l)));
      [|lia].
    cbn [values_of existsb].
    assert (qeq v a = true) as -> by (apply qeq_iff; lra). cbn [orb].
    change (length (values_of (a :: l)) = length (values_of (v :: l))).
    by apply values_head.
  - change 2 with (1 + 1). rewrite uniqueCount_loop_shift.
    specialize (IH a). pose proof (values_cons_le v (a :: l)). lia.
Qed.

Lemma uniqueCount_loop_sorted (l : list Q) :
  ∀ v, StronglySorted Qle (v :: l) →
       uniqueCount_loop l v 1 = Z.of_nat (length (values_of (v :: l))).
Proof.
  induction l as [|a l IH]; intros v Hsorted; [done|]. cbn [uniqueCount_loop].
  apply StronglySorted_inv in Hsorted as [Hrest Hv].
  destruct (qeq a v) eqn:E; cbn [negb].
  - apply qeq_iff in E. rewrite IH.
    + f_equal. cbn [values_of existsb].
      assert (qeq v a = true) as -> by (apply qeq_iff; lra). cbn [orb].
      change (length (values_of (v :: l)) = length (values_of (a :: l))).
      apply values_head. lra.
    + apply StronglySorted_inv in Hrest as [Hl Ha]. constructor; [done|].
      by apply Forall_inv_tail in Hv.
  - change 2 with (1 + 1). rewrite uniqueCount_loop_shift, IH by done.
    assert (existsb (qeq v) (a :: l) = false) as Hnew.
    { destruct (existsb (qeq v) (a :: l)) eqn:Ex; [|done]. exfalso.
      apply existsb_exists in Ex as (x & Hx & Hvx). apply qeq_iff in Hvx.
      rewrite Forall_forall in Hv. apply list_elem_of_In in Hx.
      pose proof (Hv a ltac:(by left)) as Hva.
      assert (Hax : (a <= x)%Q).
      { apply elem_of_cons in Hx as [->|Hx]; [lra|].
        apply StronglySorted_inv in Hrest as [_ Ha].
        rewrite Forall_forall in Ha. by apply Ha. }
      assert (a == v)%Q by lra. apply qeq_iff in H. congruence. }
    cbn [values_of] in *. rewrite Hnew. cbn [length]. lia.
Qed.

(** X25.  [uniqueCountSorted] counts the places where an element differs
    from the one before it.  On a sorted array that is the number of
    different values; on any array it is at least that number and at most
    the length. *)
Theorem uniqueCountSorted_counts_values (x : list Q) :
  Z.of_nat (length (values_of x)) <= uniqueCountSorted x <= Z.of_nat (length x)
  ∧ (StronglySorted Qle x →
     uniqueCountSorted x = Z.of_nat (length (values_of x))).
Proof.
  destruct x as [|v l]; [done|]. cbn [uniqueCountSorted]. split.
  - split; [apply uniqueCount_loop_runs|].
    pose proof (uniqueCount_loop_le l v 1). cbn [length]. lia.
  - apply uniqueCount_loop_sorted.
Qed.

Lemma uniqueCountSorted_counts_values_witness :
  uniqueCountSorted [1; 1; 2; 5; 5; 5]%Q
  = Z.of_nat (length (values_of [1; 1; 2; 5; 5; 5]%Q)).
Proof.
  apply (uniqueCountSorted_counts_values [1; 1; 2; 5; 5; 5]%Q).
  repeat constructor; intros H; discriminate H.
Defined.
End ValuesFacts.

Module SortedExtremesFacts.
Import Descriptive SortedExtremes FiniteNum.

(** X27.  On the sorted copy that [numericSort] makes of a non-empty array
    of finite numbers, [minSorted] and [maxSorted] return numbers equal to
    what [min] and [max] return on the array itself, and [extentSorted]
    returns the two together; on an empty array they return [undefined]
    where [min] and [max] throw. *)
Theorem sorted_extremes_agree (l : list Q) :
  extentSorted [] = (VUndef, VUndef)
  ∧ (l ≠ [] →
     ∃ lo hi lo' hi',
       extentSorted (map Fin (numericSort l)) = (VNum (Fin lo), VNum (Fin hi))
       ∧ minSorted (map Fin (numericSort l)) = VNum (Fin lo)
       ∧ maxSorted (map Fin (numericSort l)) = VNum (Fin hi)
       ∧ Extremes.min (map Fin l) = Ret (Fin lo')
       ∧ Extremes.max (map Fin l) = Ret (Fin hi')
       ∧ (lo == lo')%Q ∧ (hi == hi')%Q).
Proof.
  split; [done|]. intros Hl.
  pose proof (CkSort.numericSort_perm l) as Hperm.
  pose proof (CkSort.numericSort_sorted l) as Hsorted.
  pose proof (CkSort.numericSort_length l) as Hlen.
  set (s := numericSort l) in *.
  assert (Hn : length s ≠ 0%nat) by (rewrite Hlen; by destruct l).
  destruct (lookup_lt_is_Some_2 s 0 ltac:(lia)) as [lo Hlo].
  destruct (lookup_lt_is_Some_2 s (length s - 1) ltac:(lia)) as [hi Hhi].
  destruct l as [|a rest]; [done|].
  destruct (ExtremesFacts.min_fold rest a) as (lo' & Hmin & Hlo' & _ & Hlos).
  destruct (ExtremesFacts.max_fold rest a) as (hi' & Hmax & Hhi' & _ & Hhis).
  assert (Hmin_all : ∀ y, y ∈ a :: rest → (lo' <= y)%Q).
  { intros y Hy. apply elem_of_cons in Hy as [->|Hy]; [|by apply Hlos].
    destruct (ExtremesFacts.min_fold rest a) as (m & Hm & _ & Hma & _).
    rewrite Hmin in Hm. by injection Hm as <-. }
  assert (Hmax_all : ∀ y, y ∈ a :: rest → (y <= hi')%Q).
  { intros y Hy. apply elem_of_cons in Hy as [->|Hy]; [|by apply Hhis].
    destruct (ExtremesFacts.max_fold rest a) as (m & Hm & _ & Hma & _).
    rewrite Hmax in Hm. by injection Hm as <-. }
  exists lo, hi, lo', hi'.
  assert (Emin : minSorted (map Fin s) = VNum (Fin lo)).
  { unfold minSorted. by rewrite list_lookup_fmap, Hlo. }
  assert (Emax : maxSorted (map Fin s) = VNum (Fin hi)).
  { unfold maxSorted. destruct s as [|s0 s']; [done|]. cbn [map].
    change (Fin s0 :: map Fin s') with (map Fin (s0 :: s')).
    by rewrite length_map, list_lookup_fmap, Hhi. }
  split; [unfold extentSorted; by rewrite Emin, Emax|].
  split; [done|]. split; [done|].
  split; [by cbn [map Extremes.min]; rewrite Hmin|].
  split; [by cbn [map Extremes.max]; rewrite Hmax|].
  assert (Hin : ∀ y, y ∈ s ↔ y ∈ a :: rest) by (intros y; by rewrite Hperm).
  split.
  - apply Qle_antisym.
    + assert (Hl' : lo' ∈ s) by (by apply Hin).
      apply list_elem_of_lookup in Hl' as [i Hi].
      apply (CkSort.sorted_lookup s Hsorted 0 i lo lo' Hlo Hi). lia.
    + apply Hmin_all, Hin. by eapply list_elem_of_lookup_2.
  - apply Qle_antisym.
    + apply Hmax_all, Hin. by eapply list_elem_of_lookup_2.
    + assert (Hh' : hi' ∈ s) by (by apply Hin).
      apply list_elem_of_lookup in Hh' as [i Hi].
      apply (CkSort.sorted_lookup s Hsorted i (length s - 1) hi' hi Hi Hhi).
      apply lookup_lt_Some in Hi. lia.
Qed.

Lemma sorted_extremes_agree_witness :
  ∃ lo hi lo' hi',
    extentSorted (map Fin (numericSort [3; -1; 2]%Q))
    = (VNum (Fin lo), VNum (Fin hi))
    ∧ minSorted (map Fin (numericSort [3; -1; 2]%Q)) = VNum (Fin lo)
    ∧ maxSorted (map Fin (numericSort [3; -1; 2]%Q)) = VNum (Fin hi)
    ∧ Extremes.min (map Fin [3; -1; 2]%Q) = Ret (Fin lo')
    ∧ Extremes.max (map Fin [3; -1; 2]%Q) = Ret (Fin hi')
    ∧ (lo == lo')%Q ∧ (hi == hi')%Q.
Proof. apply (sorted_extremes_agree [3; -1; 2]%Q). done. Defined.
End SortedExtremesFacts.

Module ModeValues.
Import Descriptive Frequency RankFacts.

Lemma occurrences_app (v : Q) (l1 l2 : list Q) :
  occurrences v (l1 ++ l2) = (occurrences v l1 + occurrences v l2)%nat.
Proof. unfold occurrences. by rewrite List.filter_app, length_app. Qed.

Lemma occurrences_proper (v w : Q) (l : list Q) :
  (v == w)%Q → occurrences v l = occurrences w l.
Proof.
  intros H. unfold occurrences. induction l as [|a l IH]; [done|].
  cbn [List.filter].
  assert (qeq v a = qeq w a) as ->.
  { destruct (qeq v a) eqn:E1, (qeq w a) eqn:E2; try done.
    - apply qeq_iff in E1. assert (w == a)%Q by lra.
      apply qeq_iff in H0. congruence.
    - apply qeq_iff in E2. assert (v == a)%Q by lra.
      apply qeq_iff in H0. congruence. }
  destruct (qeq w a); cbn [length]; by rewrite IH.
Qed.

Lemma occurrences_none (v : Q) (l : list Q) :
  (∀ a, a ∈ l → ¬ (v == a)%Q) → occurrences v l = 0%nat.
Proof.
  intros H. unfold occurrences. induction l as [|a l IH]; [done|].
  cbn [List.filter]. destruct (qeq v a) eqn:E.
  - apply qeq_iff in E. destruct (H a); [by left|done].
  - apply IH. intros c Hc. apply H. by right.
Qed.

Lemma occurrences_pos (v : Q) (l : list Q) :
  v ∈ l → (1 <= occurrences v l)%nat.
Proof.
  intros H. unfold occurrences. induction l as [|a l IH];
    [by apply elem_of_nil in H|].
  cbn [List.filter]. apply elem_of_cons in H as [<-|H].
  - assert (qeq v v = true) as -> by (by apply qeq_iff). cbn [length]. lia.
  - specialize (IH H). destruct (qeq v a); cbn [length]; lia.
Qed.

Lemma occurrences_one (v c : Q) :
  occurrences v [c] = if qeq v c then 1%nat else 0%nat.
Proof. unfold occurrences. cbn. by destruct (qeq v c). Qed.

Lemma veq_vnum (a c : Q) : veq (vnum a) (vnum c) = qeq a c.
Proof. done. Qed.

Lemma mode_inv_step (P : list Q) (c : Q) (st : mode_state) :
  mode_inv P st → (∀ v, v ∈ P → (v <= c)%Q) →
  mode_inv (P ++ [c]) (modeSorted_step st (vnum c)).
Proof.
  intros (l & Hlast & Hl & Hmax & Hseen & Hbest) Hc.
  unfold modeSorted_step. rewrite Hlast, veq_vnum.
  pose proof (Hc l Hl) as Hlc.
  destruct (qeq c l) eqn:E; cbn [negb].
  - (* the run goes on *)
    apply qeq_iff in E. exists l. cbn [ms_last ms_seenThis ms_maxSeen ms_value].
    split; [done|]. split; [apply elem_of_app; by left|]. split.
    { intros v [Hv|Hv%list_elem_of_singleton]%elem_of_app; [by apply Hmax|].
      subst v. lra. }
    split.
    { rewrite occurrences_app, occurrences_one, Hseen.
      assert (qeq l c = true) as -> by (apply qeq_iff; lra). lia. }
    assert (Hsame : ∀ v, (v < l)%Q → occurrences v (P ++ [c]) = occurrences v P).
    { intros v Hv. rewrite occurrences_app, occurrences_one.
      destruct (qeq v c) eqn:Evc; [apply qeq_iff in Evc; lra|lia]. }
    destruct Hbest as [(H0 & HV & Hall)|(m & HV & Hm & Hml & Hocc & Hle & Hfirst)].
    + left. split; [done|]. split; [done|].
      intros v [Hv|Hv%list_elem_of_singleton]%elem_of_app; [by apply Hall|].
      subst v. done.
    + right. exists m. split; [done|]. split; [apply elem_of_app; by left|].
      split; [done|]. split; [by rewrite Hsame|]. split.
      * intros v Hv. rewrite Hsame by done. by apply Hle.
      * intros v Hv [Hin|Hin%list_elem_of_singleton]%elem_of_app Ho.
        -- apply Hfirst; [done|done|]. by rewrite <- Hsame.
        -- subst v. lra.
  - (* a new run starts; the finished one may be the new best *)
    assert (Hlt : (l < c)%Q).
    { destruct (Qlt_le_dec l c) as [?|Hge]; [done|].
      assert (c == l)%Q by lra. apply qeq_iff in H. congruence. }
    assert (Hold : ∀ v, (v < c)%Q → occurrences v (P ++ [c]) = occurrences v P).
    { intros v Hv. rewrite occurrences_app, occurrences_one.
      destruct (qeq v c) eqn:Evc; [apply qeq_iff in Evc; lra|lia]. }
    assert (Hnew : occurrences c (P ++ [c]) = 1%nat).
    { rewrite occurrences_app, occurrences_one, occurrences_none.
      - by assert (qeq c c = true) as -> by (by apply qeq_iff).
      - intros a Ha E'. pose proof (Hmax a Ha). lra. }
    assert (Hbetween : ∀ v, (l < v)%Q → (v < c)%Q → occurrences v P = 0%nat).
    { intros v Hv1 Hv2. apply occurrences_none. intros a Ha E'.
      pose proof (Hmax a Ha). lra. }
    assert (Hcmax : ∀ v, v ∈ P ++ [c] → (v <= c)%Q).
    { intros v [Hv|Hv%list_elem_of_singleton]%elem_of_app; [by apply Hc|].
      subst v. lra. }
    destruct (Nat.ltb_spec (ms_maxSeen st) (ms_seenThis st)) as [Hbetter|Hworse].
    + exists c. cbn [ms_last ms_seenThis ms_maxSeen ms_value].
      split; [done|]. split; [apply elem_of_app; right; by left|].
      split; [done|]. split; [done|]. right. exists l.
      split; [done|]. split; [apply elem_of_app; by left|]. split; [done|].
      split; [by rewrite Hold|]. split.
      * intros v Hv. rewrite Hold by done.
        destruct (Qlt_le_dec v l) as [Hvl|Hvl].
        -- destruct Hbest as [(H0 & _ & Hall)|(m & _ & _ & _ & _ & Hle & _)].
           ++ rewrite occurrences_none; [lia|].
              intros a Ha E'. pose proof (Hall a Ha). lra.
           ++ pose proof (Hle v Hvl). lia.
        -- destruct (Qlt_le_dec l v) as [Hlv|Hlv].
           ++ rewrite Hbetween by done. lia.
           ++ rewrite (occurrences_proper v l) by lra. lia.
      * intros v Hv Hin Ho. rewrite Hold in Ho by done.
        destruct (Qlt_le_dec v l) as [Hvl|Hvl]; [|done]. exfalso.
        destruct Hbest as [(H0 & _ & Hall)|(m & _ & _ & _ & _ & Hle & _)].
        -- rewrite occurrences_none in Ho; [lia|].
           intros a Ha E'. pose proof (Hall a Ha). lra.
        -- pose proof (Hle v Hvl). lia.
    + destruct Hbest as [(H0 & _ & _)|(m & HV & Hm & Hml & Hocc & Hle & Hfirst)].
      { pose proof (occurrences_pos l P Hl). lia. }
      exists c. cbn [ms_last ms_seenThis ms_maxSeen ms_value].
      split; [done|]. split; [apply elem_of_app; right; by left|].
      split; [done|]. split; [done|]. right. exists m.
      split; [done|]. split; [apply elem_of_app; by left|]. split; [lra|].
      split; [rewrite Hold by lra; done|]. split.
      * intros v Hv. rewrite Hold by done.
        destruct (Qlt_le_dec v l) as [Hvl|Hvl]; [by apply Hle|].
        destruct (Qlt_le_dec l v) as [Hlv|Hlv].
        -- rewrite Hbetween by done. lia.
        -- rewrite (occurrences_proper v l) by lra. lia.
      * intros v Hv Hin Ho. rewrite Hold in Ho by done.
        destruct (Qlt_le_dec v l) as [Hvl|Hvl]; [|lra].
        apply Hfirst; [done| |done].
        apply elem_of_app in Hin as [Hin|Hin%list_elem_of_singleton]; [done|].
        subst v. lra.
Qed.

Lemma mode_inv_fold (R : list Q) :
  ∀ (P : list Q) (st : mode_state),
    mode_inv P st → StronglySorted Qle (P ++ R) →
    mode_inv (P ++ R) (fold_left modeSorted_step (map vnum R) st).
Proof.
  induction R as [|c R IH]; intros P st Hinv Hsorted.
  - by rewrite app_nil_r.
  - cbn [map fold_left].
    replace (P ++ c :: R) with ((P ++ [c]) ++ R) in * by (by rewrite <- app_assoc).
    apply IH; [|done]. apply mode_inv_step; [done|].
    intros v Hv. apply list_elem_of_lookup in Hv as [i Hi].
    apply (CkSort.sorted_lookup _ Hsorted i (length P) v c).
    + rewrite lookup_app_l by (apply lookup_lt_Some in Hi;
        rewrite length_app; cbn; lia).
      by rewrite lookup_app_l by (by apply lookup_lt_Some in Hi).
    + rewrite lookup_app_l by (rewrite length_app; cbn; lia).
      by rewrite list_lookup_middle.
    + apply lookup_lt_Some in Hi. lia.
Qed.

Lemma modeSorted_least_most_frequent (S : list Q) :
  StronglySorted Qle S → S ≠ [] →
  ∃ m, modeSorted (map vnum S) = Ret (vnum m) ∧ m ∈ S
       ∧ (∀ v, (occurrences v S <= occurrences m S)%nat)
       ∧ (∀ v, v ∈ S → occurrences v S = occurrences m S → (m <= v)%Q).
Proof.
  intros Hsorted Hne. destruct S as [|x0 rest]; [done|].
  destruct rest as [|x1 rest].
  { exists x0. split; [done|]. split; [by left|]. split.
    - intros v. rewrite !occurrences_one.
      assert (qeq x0 x0 = true) as -> by (by apply qeq_iff).
      destruct (qeq v x0); lia.
    - intros v Hv%list_elem_of_singleton _. subst v. lra. }
  unfold modeSorted. cbn [map].
  change (vnum x1 :: map vnum rest) with (map vnum (x1 :: rest)).
  rewrite fold_left_app. cbn [fold_left].
  set (S := x0 :: x1 :: rest) in *.
  assert (Hinit : mode_inv [x0] (ModeState (vnum x0) (VNum NaN) 0 1)).
  { exists x0. cbn [ms_last ms_seenThis ms_maxSeen ms_value].
    split; [done|]. split; [by left|]. split.
    { intros v Hv%list_elem_of_singleton. subst v. lra. }
    split.
    { rewrite occurrences_one. by assert (qeq x0 x0 = true) as -> by (by apply qeq_iff). }
    left. split; [done|]. split; [done|].
    intros v Hv%list_elem_of_singleton. by subst v. }
  pose proof (mode_inv_fold (x1 :: rest) [x0] _ Hinit Hsorted) as Hinv.
  change ([x0] ++ x1 :: rest) with S in Hinv.
  destruct Hinv as (l & Hlast & Hl & Hmax & Hseen & Hbest).
  set (st := fold_left modeSorted_step (map vnum (x1 :: rest)) _) in *.
  unfold modeSorted_step. rewrite Hlast. cbn [veq vnum negb].
  change (VNum (Fin l)) with (vnum l).
  assert (Hafter : ∀ v, (l < v)%Q → occurrences v S = 0%nat).
  { intros v Hv. apply occurrences_none. intros a Ha E'.
    pose proof (Hmax a Ha). lra. }
  destruct (Nat.ltb_spec (ms_maxSeen st) (ms_seenThis st)) as [Hbetter|Hworse];
    cbn [ms_value].
  - exists l. split; [done|]. split; [done|]. split.
    + intros v. destruct (Qlt_le_dec v l) as [Hvl|Hvl].
      * destruct Hbest as [(H0 & _ & Hall)|(m & _ & _ & _ & _ & Hle & _)].
        -- rewrite occurrences_none; [lia|].
           intros a Ha E'. pose proof (Hall a Ha). lra.
        -- pose proof (Hle v Hvl). lia.
      * destruct (Qlt_le_dec l v) as [Hlv|Hlv].
        -- rewrite Hafter by done. lia.
        -- rewrite (occurrences_proper v l) by lra. lia.
    + intros v Hv Ho. destruct (Qlt_le_dec v l) as [Hvl|Hvl]; [|done]. exfalso.
      destruct Hbest as [(H0 & _ & Hall)|(m & _ & _ & _ & _ & Hle & _)].
      * pose proof (Hall v Hv). lra.
      * pose proof (Hle v Hvl). lia.
  - destruct Hbest as [(H0 & _ & _)|(m & HV & Hm & Hml & Hocc & Hle & Hfirst)].
    { pose proof (occurrences_pos l S Hl). lia. }
    exists m. split; [by rewrite HV|]. split; [done|]. split.
    + intros v. rewrite Hocc. destruct (Qlt_le_dec v l) as [Hvl|Hvl];
        [by apply Hle|].
      destruct (Qlt_le_dec l v) as [Hlv|Hlv].
      * rewrite Hafter by done. lia.
      * rewrite (occurrences_proper v l) by lra. lia.
    + intros v Hv Ho. rewrite Hocc in Ho.
      destruct (Qlt_le_dec v l) as [Hvl|Hvl]; [by apply Hfirst|]. lra.
Qed.

Lemma qeq_trans_l (a c v : Q) : qeq a c = true → qeq a v = qeq c v.
Proof.
  intros H%qeq_iff. destruct (qeq a v) eqn:E1, (qeq c v) eqn:E2; try done.
  - apply qeq_iff in E1. assert (c == v)%Q by lra.
    apply qeq_iff in H0. congruence.
  - apply qeq_iff in E2. assert (a == v)%Q by lra.
    apply qeq_iff in H0. congruence.
Qed.

Lemma index_get_set (index : list (Q * nat)) (key v : Q) (c : nat) :
  index_get (index_set index key c) v
  = if qeq key v then Some c else index_get index v.
Proof.
  induction index as [|[k c0] index IH]; cbn [index_set index_get]; [done|].
  destruct (qeq k key) eqn:E; cbn [index_get].
  - rewrite <- (qeq_trans_l k key v E). by destruct (qeq k v).
  - rewrite IH. destruct (qeq k v) eqn:E'; [|done].
    destruct (qeq key v) eqn:E''; [|done].
    apply qeq_iff in E', E''. assert (k == key)%Q by lra.
    apply qeq_iff in H. congruence.
Qed.

Lemma occurrences_snoc (v c : Q) (P : list Q) :
  occurrences v (P ++ [c])
  = (occurrences v P + if qeq v c then 1 else 0)%nat.
Proof. by rewrite occurrences_app, occurrences_one. Qed.

Lemma modeFast_loop_most_frequent (R : list Q) :
  ∀ (P : list Q) (index : list (Q * nat)) (mode : val) (modeCount : nat),
    (∀ v, index_get index v
          = if (occurrences v P =? 0)%nat then None else Some (occurrences v P)) →
    (∀ v, (occurrences v P <= modeCount)%nat) →
    (modeCount = 0%nat ∧ P = []
     ∨ ∃ m, mode = vnum m ∧ m ∈ P ∧ occurrences m P = modeCount) →
    ∃ mode' modeCount',
      modeFast_loop R index mode modeCount = (mode', modeCount')
      ∧ (∀ v, (occurrences v (P ++ R) <= modeCount')%nat)
      ∧ (modeCount' = 0%nat ∧ P ++ R = []
         ∨ ∃ m, mode' = vnum m ∧ m ∈ P ++ R
                ∧ occurrences m (P ++ R) = modeCount').
Proof.
  induction R as [|xi R IH]; intros P index mode modeCount Hindex Hmax Hmode.
  - rewrite app_nil_r. by exists mode, modeCount.
  - cbn [modeFast_loop].
    replace (P ++ xi :: R) with ((P ++ [xi]) ++ R) by (by rewrite <- app_assoc).
    set (newCount := match index_get index xi with
                     | Some c => S c | None => 1%nat end).
    assert (Hnew : newCount = occurrences xi (P ++ [xi])).
    { unfold newCount. rewrite Hindex, occurrences_snoc.
      assert (qeq xi xi = true) as -> by (by apply qeq_iff).
      destruct (Nat.eqb_spec (occurrences xi P) 0); lia. }
    assert (Hindex' : ∀ v, index_get (index_set index xi newCount) v
              = if (occurrences v (P ++ [xi]) =? 0)%nat then None
                else Some (occurrences v (P ++ [xi]))).
    { intros v. rewrite index_get_set, occurrences_snoc.
      destruct (qeq xi v) eqn:E.
      - assert (qeq v xi = true) as -> by (apply qeq_iff; apply qeq_iff in E; lra).
        rewrite Hnew, occurrences_snoc.
        assert (qeq xi xi = true) as -> by (by apply qeq_iff).
        rewrite (occurrences_proper v xi) by (apply qeq_iff in E; lra).
        destruct (Nat.eqb_spec (occurrences xi P + 1) 0); [lia|done].
      - assert (qeq v xi = false) as ->.
        { destruct (qeq v xi) eqn:E'; [|done]. apply qeq_iff in E'.
          assert (xi == v)%Q by lra. apply qeq_iff in H. congruence. }
        rewrite Nat.add_0_r. apply Hindex. }
    destruct (Nat.ltb_spec modeCount newCount) as [Hlt|Hge].
    + apply IH; [done| |].
      * intros v. rewrite occurrences_snoc. destruct (qeq v xi) eqn:E.
        -- apply qeq_iff in E. rewrite (occurrences_proper v xi) by done.
           rewrite Hnew, occurrences_snoc.
           assert (qeq xi xi = true) as -> by (by apply qeq_iff). lia.
        -- pose proof (Hmax v). lia.
      * right. exists xi. split; [done|]. split; [|done].
        apply elem_of_app. right. by left.
    + apply IH; [done| |].
      * intros v. rewrite occurrences_snoc. destruct (qeq v xi) eqn:E.
        -- apply qeq_iff in E. rewrite (occurrences_proper v xi) by done.
           rewrite Hnew, occurrences_snoc in Hge.
           assert (qeq xi xi = true) as Hr by (by apply qeq_iff).
           rewrite Hr in Hge. lia.
        -- pose proof (Hmax v). lia.
      * destruct Hmode as [[H0 _]|(m & -> & Hm & Hocc)].
        { rewrite Hnew, occurrences_snoc in Hge.
          assert (qeq xi xi = true) as Hr by (by apply qeq_iff).
          rewrite Hr in Hge. lia. }
        right. exists m. split; [done|]. split; [apply elem_of_app; by left|].
        rewrite occurrences_snoc. destruct (qeq m xi) eqn:E; [|lia]. exfalso.
        apply qeq_iff in E. rewrite Hnew, occurrences_snoc in Hge.
        assert (qeq xi xi = true) as Hr by (by apply qeq_iff).
        rewrite Hr, <- (occurrences_proper m xi) in Hge by done. lia.
Qed.

(** X29.  [mode] and [modeFast] throw on an empty array.  On a non-empty
    array both return one of its values that no value occurs more often
    than, and [mode] returns the least of the values that occur that
    often. *)
Theorem mode_most_frequent (x : list Q) :
  mode [] = Throw (Error "mode requires at least one data point")
  ∧ modeFast [] = Throw (Error "mode requires at last one data point")
  ∧ (x ≠ [] →
     ∃ m m',
       mode x = Ret (vnum m) ∧ modeFast x = Ret (vnum m')
       ∧ m ∈ x ∧ m' ∈ x
       ∧ (∀ v, (occurrences v x <= occurrences m x)%nat)
       ∧ (∀ v, (occurrences v x <= occurrences m' x)%nat)
       ∧ (∀ v, v ∈ x → occurrences v x = occurrences m x → (m <= v)%Q)).
Proof.
  split; [done|]. split; [done|]. intros Hx.
  pose proof (CkSort.numericSort_perm x) as Hperm.
  destruct (modeSorted_least_most_frequent (numericSort x))
    as (m & Hrun & Hm & Hmax & Hleast).
  { apply CkSort.numericSort_sorted. }
  { intros E. rewrite E in Hperm. symmetry in Hperm.
    by apply Permutation_nil_r in Hperm. }
  assert (Hocc : ∀ v, occurrences v (numericSort x) = occurrences v x).
  { intros v. apply count_perm, Hperm. }
  destruct (modeFast_loop_most_frequent x [] [] VUndef 0)
    as (mode' & modeCount' & Hfast & Hmax' & Hmode'); [done|done|by left|].
  cbn [app] in *.
  destruct Hmode' as [[_ ->]|(m' & -> & Hm' & Hocc')]; [done|].
  exists m, m'. split; [done|]. split.
  { unfold modeFast. rewrite Hfast.
    pose proof (occurrences_pos m' x Hm').
    by destruct (Nat.eqb_spec modeCount' 0); [lia|]. }
  split; [by rewrite <- Hperm|]. split; [done|]. split.
  { intros v. rewrite <- !Hocc. apply Hmax. }
  split.
  { intros v. rewrite Hocc'. apply Hmax'. }
  intros v Hv Ho. apply Hleast; [by rewrite Hperm|by rewrite !Hocc].
Qed.

Lemma mode_most_frequent_witness :
  ∃ m m',
    mode [3; 1; 2; 3; 1]%Q = Ret (vnum m)
    ∧ modeFast [3; 1; 2; 3; 1]%Q = Ret (vnum m')
    ∧ m ∈ [3; 1; 2; 3; 1]%Q ∧ m' ∈ [3; 1; 2; 3; 1]%Q
    ∧ (∀ v, (occurrences v [3; 1; 2; 3; 1]%Q
             <= occurrences m [3; 1; 2; 3; 1]%Q)%nat)
    ∧ (∀ v, (occurrences v [3; 1; 2; 3; 1]%Q
             <= occurrences m' [3; 1; 2; 3; 1]%Q)%nat)
    ∧ (∀ v, v ∈ [3; 1; 2; 3; 1]%Q →
            occurrences v [3; 1; 2; 3; 1]%Q = occurrences m [3; 1; 2; 3; 1]%Q →
            (m <= v)%Q).
Proof. apply (mode_most_frequent [3; 1; 2; 3; 1]%Q). done. Defined.
End ModeValues.

Module SelectionFacts.
Import Descriptive Quantile Selection QuantileFacts FiniteNum.

(** ** Arrays of finite numbers *)

Lemma jsarr_eq {A} (a c : jsarr A) : elems a = elems c → len a = len c → a = c.
Proof. destruct a, c. cbn. by intros -> ->. Qed.

Lemma array_len (l : list Q) : len (array_of l) = Z.of_nat (length l).
Proof. unfold array_of, arr_of_list. cbn [len]. by rewrite length_map. Qed.

Lemma array_lookup (l : list Q) (i : Z) :
  elems (array_of l) !! i
  = if i <? 0 then None else Fin <$> l !! Z.to_nat i.
Proof.
  unfold array_of, arr_of_list. cbn [elems]. rewrite arr_of_list_from_lookup.
  destruct (Z.ltb_spec i 0); [done|]. rewrite Z.sub_0_r, list_lookup_fmap.
  by destruct (l !! Z.to_nat i).
Qed.

Lemma array_get (l : list Q) (i : Z) :
  0 <= i → arr_get (array_of l) i = Fin <$> l !! Z.to_nat i.
Proof.
  intros Hi. unfold arr_get. rewrite array_lookup.
  by destruct (Z.ltb_spec i 0); [lia|].
Qed.

Lemma array_set (l : list Q) (i : Z) (q : Q) :
  0 <= i < Z.of_nat (length l) →
  arr_set (array_of l) i (Some (Fin q)) = array_of (<[Z.to_nat i := q]> l).
Proof.
  intros Hi. apply jsarr_eq.
  - unfold arr_set. cbn [elems]. apply map_eq. intros k.
    rewrite array_lookup. destruct (decide (i = k)) as [->|Hne].
    + rewrite lookup_insert_eq. destruct (Z.ltb_spec k 0); [lia|].
      by rewrite list_lookup_insert_eq by lia.
    + rewrite lookup_insert_ne by done. rewrite array_lookup.
      destruct (Z.ltb_spec k 0); [done|].
      by rewrite list_lookup_insert_ne by lia.
  - unfold arr_set. cbn [len]. rewrite !array_len, length_insert.
    by destruct (Z.leb_spec (Z.of_nat (length l)) i); [lia|].
Qed.

Lemma array_copy (l : list Q) : arr_copy (array_of l) = array_of l.
Proof.
  apply jsarr_eq.
  - apply map_eq. intros k.
    pose proof (SamplingFacts.arr_get_slice (array_of l) (len (array_of l)) k)
      as H. unfold arr_get in H. unfold arr_copy.
    rewrite H by (rewrite array_len; lia). clear H.
    rewrite Z.min_id, array_len. case_decide as Hk; [done|].
    rewrite array_lookup. destruct (Z.ltb_spec k 0); [done|].
    by rewrite lookup_ge_None_2 by lia.
  - unfold arr_copy. rewrite SamplingFacts.len_slice by (rewrite array_len; lia).
    lia.
Qed.

(** ** Running the operations on a store that holds a list *)

Lemma run_bind {A B} (m : M A) (k : A → M B) (h h' : heap) (a : A) :
  m h = (Ret a, h') → (m ≫= k) h = k a h'.
Proof. intros H. unfold mbind, M_bind, seq_bind. by rewrite H. Qed.

Section Store.
Context (arr : loc) (h0 : heap).

Lemma holding_again (l l' : list Q) :
  <[arr := array_of l']> (holding arr h0 l) = holding arr h0 l'.
Proof. unfold holding. by rewrite insert_insert_eq. Qed.

Lemma load_holding (l : list Q) (i : Z) :
  0 <= i →
  load arr i (holding arr h0 l)
  = (Ret (Fin <$> l !! Z.to_nat i), holding arr h0 l).
Proof.
  intros Hi. unfold load, holding. rewrite lookup_insert_eq.
  by rewrite array_get.
Qed.

Lemma length_holding (l : list Q) :
  length_of arr (holding arr h0 l)
  = (Ret (Z.of_nat (length l)), holding arr h0 l).
Proof.
  unfold length_of, holding. by rewrite lookup_insert_eq, array_len.
Qed.

Lemma read_holding (l : list Q) :
  read arr (holding arr h0 l) = (Ret (array_of l), holding arr h0 l).
Proof. unfold read, holding. by rewrite lookup_insert_eq. Qed.

Lemma store_holding (l : list Q) (i : Z) (q : Q) :
  0 <= i < Z.of_nat (length l) →
  store arr i (Some (Fin q)) (holding arr h0 l)
  = (Ret tt, holding arr h0 (<[Z.to_nat i := q]> l)).
Proof.
  intros Hi. unfold store. unfold holding at 1. rewrite lookup_insert_eq.
  fold (holding arr h0 l). by rewrite array_set, holding_again.
Qed.

Lemma swap_holding (l : list Q) (i j : Z) :
  0 <= i < Z.of_nat (length l) → 0 <= j < Z.of_nat (length l) →
  swap arr i j (holding arr h0 l)
  = (Ret tt, holding arr h0 (swapped l (Z.to_nat i) (Z.to_nat j))).
Proof.
  intros Hi Hj. unfold swap, swapped.
  destruct (lookup_lt_is_Some_2 l (Z.to_nat i) ltac:(lia)) as [a Ha].
  destruct (lookup_lt_is_Some_2 l (Z.to_nat j) ltac:(lia)) as [c Hc].
  rewrite Ha, Hc.
  rewrite (run_bind _ _ _ _ _ (load_holding l i ltac:(lia))), Ha.
  rewrite (run_bind _ _ _ _ _ (load_holding l j ltac:(lia))), Hc.
  cbn [fmap option_fmap option_map].
  rewrite (run_bind _ _ _ _ _ (store_holding l i c Hi)).
  by rewrite store_holding by (rewrite length_insert; lia).
Qed.
End Store.

(** ** Exchanging two elements of a list *)

Lemma swapped_length (l : list Q) (i j : nat) :
  length (swapped l i j) = length l.
Proof.
  unfold swapped. destruct (l !! i), (l !! j); try done.
  by rewrite !length_insert.
Qed.

Lemma swapped_lookup (l : list Q) (i j x : nat) :
  (i < length l)%nat → (j < length l)%nat →
  swapped l i j !! x = l !! Sampling.exchange i j x.
Proof.
  intros Hi Hj. unfold swapped, Sampling.exchange.
  destruct (lookup_lt_is_Some_2 l i Hi) as [a Ha].
  destruct (lookup_lt_is_Some_2 l j Hj) as [c Hc]. rewrite Ha, Hc.
  destruct (decide (x = j)) as [->|Hxj].
  - rewrite list_lookup_insert_eq by (by rewrite length_insert).
    repeat case_decide; subst; congruence.
  - rewrite list_lookup_insert_ne by done.
    destruct (decide (x = i)) as [->|Hxi].
    + rewrite list_lookup_insert_eq by done.
      repeat case_decide; subst; congruence.
    + rewrite list_lookup_insert_ne by done.
      repeat case_decide; subst; congruence.
Qed.

Lemma list_as_map (l : list Q) :
  l = map (fun x => nth x l 0%Q) (seq 0 (length l)).
Proof.
  apply list_eq. intros i. rewrite list_lookup_fmap.
  destruct (decide (i < length l)%nat) as [Hi|Hi].
  - rewrite lookup_seq_lt by done. cbn.
    destruct (lookup_lt_is_Some_2 l i Hi) as [a Ha]. rewrite Ha.
    f_equal. apply nth_lookup_Some with (d := 0%Q) in Ha. by rewrite Ha.
  - rewrite lookup_seq_ge by lia. by rewrite lookup_ge_None_2 by lia.
Qed.

Lemma swapped_perm (l : list Q) (i j : nat) :
  (i < length l)%nat → (j < length l)%nat → swapped l i j ≡ₚ l.
Proof.
  intros Hi Hj. rewrite (list_as_map l) at 2.
  rewrite (list_as_map (swapped l i j)), swapped_length.
  transitivity (map (fun x => nth x l 0%Q)
                  (map (Sampling.exchange i j) (seq 0 (length l))));
    [|apply Permutation_map, SamplingFacts.exchange_seq; done].
  rewrite map_map. apply Permutation_refl', map_ext_in. intros x Hx%in_seq.
  pose proof (swapped_lookup l i j x Hi Hj) as H.
  assert (Hx' : (Sampling.exchange i j x < length l)%nat)
    by (apply SamplingFacts.exchange_below; lia).
  destruct (lookup_lt_is_Some_2 l _ Hx') as [a Ha]. rewrite Ha in H.
  apply nth_lookup_Some with (d := 0%Q) in H, Ha. by rewrite H, Ha.
Qed.

(** ** Rearrangements inside a range *)

Lemma rearranged_refl (left right : Z) (l : list Q) : rearranged left right l l.
Proof.
  split; [done|]. split; [done|]. split; [done|].
  intros y c Hy Hc. by exists y.
Qed.

Lemma rearranged_trans (left right : Z) (l1 l2 l3 : list Q) :
  rearranged left right l1 l2 → rearranged left right l2 l3 →
  rearranged left right l1 l3.
Proof.
  intros (L1 & P1 & O1 & I1) (L2 & P2 & O2 & I2).
  split; [congruence|]. split; [by rewrite P2|]. split.
  - intros x Hx. by rewrite O2, O1.
  - intros y c Hy Hc. destruct (I2 y c Hy Hc) as (y' & Hy' & Hc').
    by apply (I1 y' c).
Qed.

Lemma rearranged_wider (left right left' right' : Z) (l l' : list Q) :
  left' <= left → right <= right' →
  rearranged left right l l' → rearranged left' right' l l'.
Proof.
  intros Hl Hr (L & P & O & I). split; [done|]. split; [done|]. split.
  - intros x Hx. apply O. lia.
  - intros y c Hy Hc.
    destruct (decide (left <= Z.of_nat y <= right)) as [Hin|Hout].
    + destruct (I y c Hin Hc) as (y' & Hy' & Hc'). exists y'. split; [lia|done].
    + exists y. split; [done|]. by rewrite <- O.
Qed.

Lemma rearranged_swapped (left right : Z) (l : list Q) (i j : nat) :
  left <= Z.of_nat i <= right → left <= Z.of_nat j <= right →
  (i < length l)%nat → (j < length l)%nat →
  rearranged left right l (swapped l i j).
Proof.
  intros Hi Hj Li Lj. split; [apply swapped_length|].
  split; [by apply swapped_perm|]. split.
  - intros x Hx. rewrite swapped_lookup by done. f_equal.
    unfold Sampling.exchange. repeat case_decide; try done; subst; lia.
  - intros y c Hy Hc. rewrite swapped_lookup in Hc by done.
    exists (Sampling.exchange i j y). split; [|done].
    unfold Sampling.exchange. repeat case_decide; lia.
Qed.

(** ** The two scans *)

Lemma vlt_fin (a t : Q) : vlt (Some (Fin a)) (Some (Fin t)) = qlt a t.
Proof. done. Qed.

Lemma vgt_fin (a t : Q) : vgt (Some (Fin a)) (Some (Fin t)) = qlt t a.
Proof. done. Qed.

Section Scan.
Context (arr : loc) (h0 : heap) (l : list Q) (t : Q).

(** [scan_up] stops at the first element from [i] on that is not below
    [t]; there is one at [s] at the latest. *)
Lemma scan_up_stops (fuel : nat) :
  ∀ (i s : Z) (c : Q),
    0 <= i → i <= s → l !! Z.to_nat s = Some c → (t <= c)%Q →
    s - i < Z.of_nat fuel →
    ∃ i' c',
      scan_up fuel arr (Some (Fin t)) i (holding arr h0 l)
      = (Ret i', holding arr h0 l)
      ∧ i <= i' <= s ∧ l !! Z.to_nat i' = Some c' ∧ (t <= c')%Q
      ∧ ∀ (x : nat) (a : Q), i <= Z.of_nat x < i' → l !! x = Some a → (a < t)%Q.
Proof.
  induction fuel as [|fuel IH]; intros i s c Hi His Hs Hc Hfuel; [lia|].
  cbn [scan_up].
  assert (Hin : (Z.to_nat i < length l)%nat).
  { apply lookup_lt_Some in Hs. lia. }
  destruct (lookup_lt_is_Some_2 l _ Hin) as [a Ha].
  rewrite (run_bind _ _ _ _ _ (load_holding arr h0 l i Hi)), Ha.
  cbn [fmap option_fmap option_map]. rewrite vlt_fin.
  destruct (qlt a t) eqn:E.
  - apply ExtremesFacts.qlt_iff in E.
    assert (i < s).
    { destruct (decide (i = s)) as [->|]; [|lia]. rewrite Hs in Ha.
      injection Ha as ->. lra. }
    destruct (IH (i + 1) s c) as (i' & c' & Hrun & Hr & Hc' & Htc & Hbelow);
      [lia|lia|done|done|lia|].
    exists i', c'. split; [done|]. split; [lia|]. split; [done|]. split; [done|].
    intros x a' Hx Ha'. destruct (decide (Z.of_nat x = i)) as [Hxi|Hxi].
    + subst i. rewrite Nat2Z.id in Ha. rewrite Ha in Ha'. by injection Ha' as <-.
    + apply (Hbelow x a'); [lia|done].
  - exists i, a. split; [done|]. split; [lia|]. split; [done|]. split.
    + apply Qnot_lt_le. intros H. apply ExtremesFacts.qlt_iff in H. congruence.
    + intros x a' Hx. lia.
Qed.

Lemma scan_down_stops (fuel : nat) :
  ∀ (j s : Z) (c : Q),
    0 <= s → s <= j → (Z.to_nat j < length l)%nat →
    l !! Z.to_nat s = Some c → (c <= t)%Q →
    j - s < Z.of_nat fuel →
    ∃ j' c',
      scan_down fuel arr (Some (Fin t)) j (holding arr h0 l)
      = (Ret j', holding arr h0 l)
      ∧ s <= j' <= j ∧ l !! Z.to_nat j' = Some c' ∧ (c' <= t)%Q
      ∧ ∀ (x : nat) (a : Q), j' < Z.of_nat x <= j → l !! x = Some a → (t < a)%Q.
Proof.
  induction fuel as [|fuel IH]; intros j s c Hs0 Hsj Hj Hs Hc Hfuel; [lia|].
  cbn [scan_down].
  destruct (lookup_lt_is_Some_2 l _ Hj) as [a Ha].
  rewrite (run_bind _ _ _ _ _ (load_holding arr h0 l j ltac:(lia))), Ha.
  cbn [fmap option_fmap option_map]. rewrite vgt_fin.
  destruct (qlt t a) eqn:E.
  - apply ExtremesFacts.qlt_iff in E.
    assert (s < j).
    { destruct (decide (s = j)) as [->|]; [|lia]. rewrite Hs in Ha.
      injection Ha as ->. lra. }
    destruct (IH (j - 1) s c) as (j' & c' & Hrun & Hr & Hc' & Htc & Habove);
      [lia|lia|lia|done|done|lia|].
    exists j', c'. split; [done|]. split; [lia|]. split; [done|]. split; [done|].
    intros x a' Hx Ha'. destruct (decide (Z.of_nat x = j)) as [Hxj|Hxj].
    + subst j. rewrite Nat2Z.id in Ha. rewrite Ha in Ha'. by injection Ha' as <-.
    + apply (Habove x a'); [lia|done].
  - exists j, a. split; [done|]. split; [lia|]. split; [done|]. split.
    + apply Qnot_lt_le. intros H. apply ExtremesFacts.qlt_iff in H. congruence.
    + intros x a' Hx. lia.
Qed.
End Scan.

(** ** The partition loop *)

Section Partition.
Context (arr : loc) (h0 : heap) (t : Q) (left right : Z).

Local Abbreviation split_at := (Selection.split_at t left right).

Lemma partition_loop_splits (fuel : nat) :
  ∀ (l : list Q) (i j : Z) (ai aj : Q),
    0 <= left → left <= i → j <= right → right < Z.of_nat (length l) →
    i <= right → left <= j →
    l !! Z.to_nat i = Some ai → l !! Z.to_nat j = Some aj →
    (t <= ai)%Q → (aj <= t)%Q → split_at l i j →
    (0 < fuel)%nat → j - i < Z.of_nat fuel →
    ∃ (l' : list Q) (i' j' : Z) (cj : Q),
      partition_loop fuel arr (Some (Fin t)) i j (holding arr h0 l)
      = (Ret (i', j'), holding arr h0 l')
      ∧ rearranged i j l l'
      ∧ j' <= i' ∧ i <= i' <= right ∧ left <= j' <= j
      ∧ (i < j → j' < j ∧ i < i'
                 ∧ l' !! Z.to_nat i = Some aj ∧ l' !! Z.to_nat j = Some ai)
      ∧ l' !! Z.to_nat j' = Some cj ∧ (cj <= t)%Q
      ∧ split_at l' i' j'.
Proof.
  induction fuel as [|fuel IH];
    intros l i j ai aj H0 Hli Hjr Hlen Hir Hlj Hai Haj Htai Htaj [Hlow Hhigh]
      Hfuel0 Hfuel; [lia|].
  cbn [partition_loop]. destruct (Z.ltb_spec i j) as [Hij|Hij].
  2:{ exists l, i, j, aj. split; [done|]. split; [apply rearranged_refl|].
      split; [lia|]. split; [lia|]. split; [lia|]. split; [lia|].
      split; [done|]. split; [done|]. by split. }
  rewrite (run_bind _ _ _ _ _ (swap_holding arr h0 l i j ltac:(lia) ltac:(lia))).
  set (l1 := swapped l (Z.to_nat i) (Z.to_nat j)).
  assert (Hl1 : ∀ x, l1 !! x = l !! Sampling.exchange (Z.to_nat i) (Z.to_nat j) x).
  { intros x. apply swapped_lookup; lia. }
  assert (Hlen1 : length l1 = length l) by apply swapped_length.
  assert (Hl1i : l1 !! Z.to_nat i = Some aj).
  { rewrite Hl1. unfold Sampling.exchange. by rewrite decide_True. }
  assert (Hl1j : l1 !! Z.to_nat j = Some ai).
  { rewrite Hl1. unfold Sampling.exchange.
    rewrite decide_False by lia. by rewrite decide_True. }
  assert (Hl1o : ∀ x : nat, Z.of_nat x ≠ i → Z.of_nat x ≠ j → l1 !! x = l !! x).
  { intros x Hxi Hxj. rewrite Hl1. unfold Sampling.exchange.
    by rewrite !decide_False by lia. }
  destruct (scan_up_stops arr h0 l1 t fuel (i + 1) j ai)
    as (i1 & ci & Hup & Hi1 & Hci & Htci & Hbelow); [lia|lia|done|done|lia|].
  rewrite (run_bind _ _ _ _ _ Hup).
  destruct (scan_down_stops arr h0 l1 t fuel (j - 1) i aj)
    as (j1 & cj & Hdown & Hj1 & Hcj & Htcj & Habove);
    [lia|lia|lia|done|done|lia|].
  rewrite (run_bind _ _ _ _ _ Hdown).
  destruct (IH l1 i1 j1 ci cj) as (l' & i' & j' & cj' & Hrun & Hre & Hcross
      & Hi' & Hj' & Hinner & Hcj' & Htcj' & Hsplit);
    try done; try lia.
  { split.
    - intros x a Hx Ha. destruct (decide (Z.of_nat x < i)) as [Hxi|Hxi].
      + apply (Hlow x a); [lia|]. rewrite <- Hl1o by lia. done.
      + destruct (decide (Z.of_nat x = i)) as [E|E].
        * rewrite <- E, Nat2Z.id in Hl1i. rewrite Hl1i in Ha. by injection Ha as <-.
        * apply Qlt_le_weak. apply (Hbelow x a); [lia|done].
    - intros y c Hy Hc. destruct (decide (j < Z.of_nat y)) as [Hyj|Hyj].
      + apply (Hhigh y c); [lia|]. rewrite <- Hl1o by lia. done.
      + destruct (decide (Z.of_nat y = j)) as [E|E].
        * rewrite <- E, Nat2Z.id in Hl1j. rewrite Hl1j in Hc. by injection Hc as <-.
        * apply Qlt_le_weak. apply (Habove y c); [lia|done]. }
  exists l', i', j', cj'. split; [done|].
  assert (Hswap : rearranged i j l l1).
  { apply rearranged_swapped; lia. }
  split.
  { apply (rearranged_trans _ _ _ l1); [done|].
    apply (rearranged_wider i1 j1); [lia|lia|done]. }
  split; [done|]. split; [lia|]. split; [lia|]. split.
  { intros _. split; [lia|]. split; [lia|].
    destruct Hre as (_ & _ & O & _).
    split; (rewrite O; [done|lia]). }
  by split.
Qed.
End Partition.

(** ** The selection loop *)

Section Select.
Context (Math_log Math_exp Math_sqrt : Q → Q).
Context (arr : loc) (h0 : heap) (k : Z).

Local Abbreviation quickselect_loop :=
  (quickselect_loop Math_log Math_exp Math_sqrt).

Lemma ret_run {A} (a : A) (h : heap) : ret a h = (Ret a, h).
Proof. done. Qed.

Lemma placed_at_end (l : list Q) (left right : Z) :
  0 <= k < Z.of_nat (length l) →
  (left <= k <= right ∨ (left = k + 1 ∧ right = k - 1)) →
  ¬ left < right →
  ordered_before l left → ordered_after l right →
  placed (Z.to_nat k) l.
Proof.
  intros Hk Hrange Hdone Hbefore Hafter.
  destruct (lookup_lt_is_Some_2 l (Z.to_nat k) ltac:(lia)) as [t Ht].
  exists t. split; [done|]. destruct Hrange as [Hrange|[-> ->]].
  - assert (left = k) by lia. assert (right = k) by lia. subst left right.
    split.
    + intros x a Hx Ha. apply (Hbefore x (Z.to_nat k) a t); [lia|done|done].
    + intros y c Hy Hc. apply (Hafter (Z.to_nat k) y t c); [lia|done|done].
  - split.
    + intros x a Hx Ha. apply (Hafter x (Z.to_nat k) a t); [lia|done|done].
    + intros y c Hy Hc. apply (Hbefore (Z.to_nat k) y t c); [lia|done|done].
Qed.

Lemma quickselect_loop_places (fuel : nat) :
  ∀ (l : list Q) (left right : Z),
    0 <= left → right < Z.of_nat (length l) → 0 <= k < Z.of_nat (length l) →
    (left <= k <= right ∨ (left = k + 1 ∧ right = k - 1)) →
    right - left <= 600 →
    ordered_before l left → ordered_after l right →
    (1 <= fuel)%nat → right - left + 1 < Z.of_nat fuel →
    ∃ l',
      quickselect_loop fuel arr k left right (holding arr h0 l)
      = (Ret tt, holding arr h0 l')
      ∧ rearranged left right l l'
      ∧ placed (Z.to_nat k) l'.
Proof.
  induction fuel as [|fuel IH];
    intros l left right Hl0 Hrlen Hk Hrange Hsmall Hbefore Hafter Hfuel1 Hfuel;
    [lia|].
  cbn [Quantile.quickselect_loop]. destruct (Z.ltb_spec left right) as [Hlr|Hlr].
  2:{ exists l. split; [done|]. split; [apply rearranged_refl|].
      apply (placed_at_end l left right); try done. lia. }
  destruct Hrange as [Hrange|[? ?]]; [|lia].
  destruct (Z.ltb_spec 600 (right - left)) as [?|_]; [lia|].
  rewrite (run_bind _ _ _ _ _ (ret_run tt _)).
  (* t = arr[k] *)
  destruct (lookup_lt_is_Some_2 l (Z.to_nat k) ltac:(lia)) as [t Ht].
  rewrite (run_bind _ _ _ _ _ (load_holding arr h0 l k ltac:(lia))), Ht.
  cbn [fmap option_fmap option_map].
  (* swap(arr, left, k) *)
  rewrite (run_bind _ _ _ _ _ (swap_holding arr h0 l left k ltac:(lia) ltac:(lia))).
  set (l1 := swapped l (Z.to_nat left) (Z.to_nat k)).
  assert (Hre1 : rearranged left right l l1) by (apply rearranged_swapped; lia).
  assert (Hlen1 : length l1 = length l) by apply swapped_length.
  assert (Hl1 : ∀ x, l1 !! x
            = l !! Sampling.exchange (Z.to_nat left) (Z.to_nat k) x).
  { intros x. apply swapped_lookup; lia. }
  assert (Hl1left : l1 !! Z.to_nat left = Some t).
  { rewrite Hl1. unfold Sampling.exchange. by rewrite decide_True. }
  (* if (arr[right] > t) swap(arr, left, right) *)
  destruct (lookup_lt_is_Some_2 l1 (Z.to_nat right) ltac:(lia)) as [ar Har].
  rewrite (run_bind _ _ _ _ _ (load_holding arr h0 l1 right ltac:(lia))), Har.
  cbn [fmap option_fmap option_map]. rewrite vgt_fin.
  assert (∃ l2 al2 ar2,
            (if qlt t ar then swap arr left right else ret tt) (holding arr h0 l1)
            = (Ret tt, holding arr h0 l2)
            ∧ rearranged left right l l2
            ∧ l2 !! Z.to_nat left = Some al2 ∧ l2 !! Z.to_nat right = Some ar2
            ∧ (t <= al2)%Q ∧ (ar2 <= t)%Q
            ∧ ((al2 == t)%Q ∨ (ar2 == t)%Q))
    as (l2 & al2 & ar2 & Hrun2 & Hre2 & Hl2left & Hl2right & Htal & Htar & Hpivot).
  { destruct (qlt t ar) eqn:E.
    - apply ExtremesFacts.qlt_iff in E.
      exists (swapped l1 (Z.to_nat left) (Z.to_nat right)), ar, t.
      split; [apply swap_holding; lia|]. split.
      { apply (rearranged_trans _ _ _ l1); [done|].
        apply rearranged_swapped; lia. }
      rewrite !swapped_lookup by lia. unfold Sampling.exchange.
      rewrite decide_True by done.
      rewrite (decide_False (P := Z.to_nat right = Z.to_nat left)) by lia.
      rewrite decide_True by done.
      split; [done|]. split; [done|]. split; [lra|]. split; [lra|].
      right. reflexivity.
    - exists l1, t, ar. split; [done|]. split; [done|].
      split; [done|]. split; [done|]. split; [lra|]. split.
      + apply Qnot_lt_le. intros H. apply ExtremesFacts.qlt_iff in H. congruence.
      + left. reflexivity. }
  rewrite (run_bind _ _ _ _ _ Hrun2).
  assert (Hlen2 : length l2 = length l) by apply Hre2.
  (* the partition loop *)
  destruct (partition_loop_splits arr h0 t left right fuel l2 left right al2 ar2)
    as (l3 & i' & j' & cj & Hrun3 & Hre3 & Hcross & Hi' & Hj' & Hinner & Hcj
        & Htcj & Hlow & Hhigh); try done; try lia.
  { split; intros ? ? ?; lia. }
  rewrite (run_bind _ _ _ _ _ Hrun3). cbv beta iota.
  destruct (Hinner Hlr) as (Hj'r & Hi'l & Hl3left & Hl3right).
  assert (Hlen3 : length l3 = length l) by (destruct Hre3 as [-> _]; done).
  (* if (arr[left] === t) swap(arr, left, j) else swap(arr, ++j, right) *)
  rewrite (run_bind _ _ _ _ _ (load_holding arr h0 l3 left ltac:(lia))), Hl3left.
  cbn [fmap option_fmap option_map veq neq].
  assert (∃ l4 jp tp,
            (if qeq ar2 t
             then swap arr left j' ≫= (λ _ : (), ret j')
             else swap arr (j' + 1) right ≫= (λ _ : (), ret (j' + 1)))
              (holding arr h0 l3)
            = (Ret jp, holding arr h0 l4)
            ∧ rearranged left right l l4
            ∧ left <= jp <= right
            ∧ l4 !! Z.to_nat jp = Some tp ∧ (tp == t)%Q
            ∧ split_at t left right l4 jp jp)
    as (l4 & jp & tp & Hrun4 & Hre4 & Hjp & Hl4jp & Htp & Hlow4 & Hhigh4).
  { assert (Hre23 : rearranged left right l l3).
    { apply (rearranged_trans _ _ _ l2); [done|done]. }
    destruct (qeq ar2 t) eqn:E.
    - apply RankFacts.qeq_iff in E.
      exists (swapped l3 (Z.to_nat left) (Z.to_nat j')), j', ar2.
      split.
      { rewrite (run_bind _ _ _ _ _
                   (swap_holding arr h0 l3 left j' ltac:(lia) ltac:(lia))).
        done. }
      split.
      { apply (rearranged_trans _ _ _ l3); [done|].
        apply rearranged_swapped; lia. }
      split; [lia|].
      assert (Hl4 : ∀ x, swapped l3 (Z.to_nat left) (Z.to_nat j') !! x
                = l3 !! Sampling.exchange (Z.to_nat left) (Z.to_nat j') x).
      { intros x. apply swapped_lookup; lia. }
      split.
      { rewrite Hl4. unfold Sampling.exchange.
        destruct (decide (Z.to_nat j' = Z.to_nat left)) as [->|]; [done|].
        by rewrite decide_True. }
      split; [done|]. split.
      + intros x a Hx Ha. rewrite Hl4 in Ha. unfold Sampling.exchange in Ha.
        destruct (decide (x = Z.to_nat left)) as [->|Hxl].
        * rewrite Hcj in Ha. by injection Ha as <-.
        * rewrite decide_False in Ha by lia.
          apply (Hlow x a); [lia|done].
      + intros y c Hy Hc. rewrite Hl4 in Hc. unfold Sampling.exchange in Hc.
        rewrite !decide_False in Hc by lia. apply (Hhigh y c); [lia|done].
    - assert (Hneq : ¬ (ar2 == t)%Q).
      { intros H. apply RankFacts.qeq_iff in H. congruence. }
      (* the pivot is at the right end *)
      assert (Hpr : (al2 == t)%Q) by (destruct Hpivot; [done|by destruct Hneq]).
      destruct (lookup_lt_is_Some_2 l3 (Z.to_nat (j' + 1)) ltac:(lia))
        as [cn Hcn].
      exists (swapped l3 (Z.to_nat (j' + 1)) (Z.to_nat right)), (j' + 1), al2.
      split.
      { rewrite (run_bind _ _ _ _ _
                   (swap_holding arr h0 l3 (j' + 1) right ltac:(lia) ltac:(lia))).
        done. }
      split.
      { apply (rearranged_trans _ _ _ l3); [done|].
        apply rearranged_swapped; lia. }
      split; [lia|].
      assert (Hl4 : ∀ x, swapped l3 (Z.to_nat (j' + 1)) (Z.to_nat right) !! x
                = l3 !! Sampling.exchange (Z.to_nat (j' + 1)) (Z.to_nat right) x).
      { intros x. apply swapped_lookup; lia. }
      split.
      { rewrite Hl4. unfold Sampling.exchange. by rewrite decide_True. }
      split; [done|]. split.
      + intros x a Hx Ha. rewrite Hl4 in Ha. unfold Sampling.exchange in Ha.
        rewrite !decide_False in Ha by lia.
        destruct (decide (Z.of_nat x = j')) as [Hxj|Hxj].
        * rewrite <- Hxj, Nat2Z.id in Hcj. rewrite Hcj in Ha. by injection Ha as <-.
        * apply (Hlow x a); [lia|done].
      + intros y c Hy Hc. rewrite Hl4 in Hc. unfold Sampling.exchange in Hc.
        rewrite decide_False in Hc by lia.
        destruct (decide (y = Z.to_nat right)) as [->|Hyr].
        * apply (Hhigh (Z.to_nat (j' + 1)) c); [lia|done].
        * apply (Hhigh y c); [lia|done]. }
  rewrite (run_bind _ _ _ _ _ Hrun4).
  assert (Hlen4 : length l4 = length l) by (destruct Hre4 as [-> _]; done).
  destruct Hre4 as (_ & Hperm4 & Hout4 & Hin4).
  (* the next range *)
  set (left' := if jp <=? k then jp + 1 else left).
  set (right' := if k <=? jp then jp - 1 else right).
  assert (Hsame : ∀ (x : nat) (a : Q), left <= Z.of_nat x <= right →
            l4 !! x = Some a → (Z.of_nat x <= jp → (a <= t)%Q)
                               ∧ (jp <= Z.of_nat x → (t <= a)%Q)).
  { intros x a Hx Ha. split; intros Hxj.
    - destruct (decide (Z.of_nat x = jp)) as [E|E].
      + rewrite <- E, Nat2Z.id in Hl4jp. rewrite Hl4jp in Ha. injection Ha as <-. lra.
      + apply (Hlow4 x a); [lia|done].
    - destruct (decide (Z.of_nat x = jp)) as [E|E].
      + rewrite <- E, Nat2Z.id in Hl4jp. rewrite Hl4jp in Ha. injection Ha as <-. lra.
      + apply (Hhigh4 x a); [lia|done]. }
  destruct (IH l4 left' right') as (l' & Hrun & Hre & Hplaced).
  - unfold left'. destruct (jp <=? k); lia.
  - unfold right'. destruct (k <=? jp); lia.
  - lia.
  - unfold left', right'.
    destruct (Z.leb_spec jp k), (Z.leb_spec k jp); lia.
  - unfold left', right'.
    destruct (Z.leb_spec jp k), (Z.leb_spec k jp); lia.
  - (* ordered_before l4 left' *)
    intros x y a c Hxy Ha Hc.
    destruct (decide (Z.of_nat x < left)) as [Hxl|Hxl].
    + (* x is before the range *)
      rewrite Hout4 in Ha by lia.
      assert (left <= Z.of_nat y) by (unfold left' in Hxy; destruct (jp <=? k); lia).
      destruct (decide (Z.of_nat y <= right)) as [Hyr|Hyr].
      * destruct (Hin4 y c ltac:(lia) Hc) as (y' & Hy' & Hc').
        apply (Hbefore x y' a c); [lia|done|done].
      * rewrite Hout4 in Hc by lia. apply (Hbefore x y a c); [lia|done|done].
    + (* x is in the range, at or before the pivot *)
      assert (Hl' : left' = jp + 1).
      { unfold left' in *. destruct (Z.leb_spec jp k); [done|lia]. }
      assert (Hxa : (a <= t)%Q).
      { apply (Hsame x a); [split; [lia|]|done|]; lia. }
      destruct (decide (Z.of_nat y <= right)) as [Hyr|Hyr].
      * assert (t <= c)%Q; [|lra]. apply (Hsame y c); [lia|done|lia].
      * rewrite Hout4 in Hc by lia.
        destruct (Hin4 x a ltac:(lia) Ha) as (x' & Hx' & Ha').
        apply (Hafter x' y a c); [lia|done|done].
  - (* ordered_after l4 right' *)
    intros x y a c Hxy Ha Hc.
    destruct (decide (right < Z.of_nat y)) as [Hyr|Hyr].
    + rewrite Hout4 in Hc by lia.
      assert (Z.of_nat x <= right) by (unfold right' in Hxy; destruct (k <=? jp); lia).
      destruct (decide (left <= Z.of_nat x)) as [Hxl|Hxl].
      * destruct (Hin4 x a ltac:(lia) Ha) as (x' & Hx' & Ha').
        apply (Hafter x' y a c); [lia|done|done].
      * rewrite Hout4 in Ha by lia. apply (Hafter x y a c); [lia|done|done].
    + assert (Hr' : right' = jp - 1).
      { unfold right' in *. destruct (Z.leb_spec k jp); [done|lia]. }
      assert (Hyc : (t <= c)%Q).
      { apply (Hsame y c); [split; [lia|]|done|]; lia. }
      destruct (decide (left <= Z.of_nat x)) as [Hxl|Hxl].
      * assert (a <= t)%Q; [|lra]. apply (Hsame x a); [lia|done|lia].
      * rewrite Hout4 in Ha by lia.
        destruct (Hin4 y c ltac:(lia) Hc) as (y' & Hy' & Hc').
        apply (Hbefore x y' a c); [lia|done|done].
  - unfold left', right'. destruct (Z.leb_spec jp k), (Z.leb_spec k jp); lia.
  - unfold left', right'. destruct (Z.leb_spec jp k), (Z.leb_spec k jp); lia.
  - exists l'. split; [done|]. split; [|done].
    apply (rearranged_trans _ _ _ l4).
    + by split; [|split; [|split]].
    + apply (rearranged_wider left' right'); [| |done].
      * unfold left'. destruct (jp <=? k); lia.
      * unfold right'. destruct (k <=? jp); lia.
Qed.
End Select.

(** ** A placed element is the element of the sorted copy *)

Lemma filter_count_most (f : Q → bool) (l : list Q) (k : nat) :
  (∀ i a, (k <= i)%nat → l !! i = Some a → f a = false) →
  (length (List.filter f l) <= k)%nat.
Proof.
  revert k. induction l as [|a l IH]; intros k H; cbn [List.filter length]; [lia|].
  destruct k as [|k].
  - rewrite (H 0%nat a) by (done || lia).
    apply (IH 0%nat). intros i c _ Hc. apply (H (S i) c); [lia|done].
  - assert (length (List.filter f l) <= k)%nat.
    { apply IH. intros i c Hi Hc. apply (H (S i) c); [lia|done]. }
    destruct (f a); cbn [length]; lia.
Qed.

Lemma filter_count_least (f : Q → bool) (l : list Q) (k : nat) :
  (k <= length l)%nat →
  (∀ i a, (i < k)%nat → l !! i = Some a → f a = true) →
  (k <= length (List.filter f l))%nat.
Proof.
  revert k. induction l as [|a l IH]; intros k Hk H; cbn [List.filter length] in *;
    [lia|].
  destruct k as [|k]; [lia|].
  rewrite (H 0%nat a) by (done || lia). cbn [length].
  assert (k <= length (List.filter f l))%nat; [|lia].
  apply IH; [lia|]. intros i c Hi Hc. apply (H (S i) c); [lia|done].
Qed.

Lemma qle_true (a c : Q) : qle a c = true ↔ (a <= c)%Q.
Proof. apply RankFacts.qle_iff. Qed.

Lemma placed_sorted (k : nat) (l s : list Q) :
  placed k l → l ≡ₚ s → StronglySorted Qle s →
  ∃ a c, l !! k = Some a ∧ s !! k = Some c ∧ (a == c)%Q.
Proof.
  intros (t & Ht & Hlow & Hhigh) Hperm Hsorted.
  assert (Hk : (k < length s)%nat).
  { rewrite <- Hperm. by eapply lookup_lt_Some. }
  destruct (lookup_lt_is_Some_2 s k Hk) as [c Hc].
  exists t, c. split; [done|]. split; [done|].
  apply Qle_antisym.
  - (* at most [k] elements are below [t] *)
    apply Qnot_lt_le. intros Hlt.
    assert (H1 : (length (List.filter (fun a => qlt a t) l) <= k)%nat).
    { apply filter_count_most. intros i a Hi Ha.
      destruct (qlt a t) eqn:E; [|done]. apply ExtremesFacts.qlt_iff in E.
      destruct (decide (i = k)) as [->|].
      - rewrite Ht in Ha. injection Ha as <-. lra.
      - pose proof (Hhigh i a ltac:(lia) Ha). lra. }
    assert (H2 : (S k <= length (List.filter (fun a => qlt a t) s))%nat).
    { apply filter_count_least; [lia|]. intros i a Hi Ha.
      apply ExtremesFacts.qlt_iff.
      pose proof (CkSort.sorted_lookup s Hsorted i k a c Ha Hc ltac:(lia)). lra. }
    rewrite (RankFacts.count_perm _ _ _ Hperm) in H1. lia.
  - (* at least [k + 1] elements are at most [t] *)
    apply Qnot_lt_le. intros Hlt.
    assert (H1 : (S k <= length (List.filter (fun a => qle a t) l))%nat).
    { apply filter_count_least; [by apply Nat.le_succ_l; eapply lookup_lt_Some|].
      intros i a Hi Ha. apply qle_true.
      destruct (decide (i = k)) as [->|].
      - rewrite Ht in Ha. injection Ha as <-. lra.
      - apply (Hlow i a); [lia|done]. }
    assert (H2 : (length (List.filter (fun a => qle a t) s) <= k)%nat).
    { apply filter_count_most. intros i a Hi Ha.
      destruct (qle a t) eqn:E; [|done]. apply qle_true in E.
      pose proof (CkSort.sorted_lookup s Hsorted k i c a Hc Ha ltac:(lia)). lra. }
    rewrite (RankFacts.count_perm _ _ _ Hperm) in H1. lia.
Qed.

(** ** quickselect and quantileSelect on a short array *)

Section Quickselect.
Context (Math_log Math_exp Math_sqrt : Q → Q).
Context (arr : loc) (h0 : heap).

Local Abbreviation quickselect := (quickselect Math_log Math_exp Math_sqrt).
Local Abbreviation quantileSelect :=
  (quantileSelect Math_log Math_exp Math_sqrt).

Lemma quickselect_places (fuel : nat) (l : list Q) (k left : Z) :
  (length l <= 601)%nat → (length l < fuel)%nat →
  0 <= left <= k → k < Z.of_nat (length l) →
  ordered_before l left →
  ∃ l',
    quickselect fuel arr k left (Z.of_nat (length l) - 1) (holding arr h0 l)
    = (Ret tt, holding arr h0 l')
    ∧ rearranged left (Z.of_nat (length l) - 1) l l'
    ∧ placed (Z.to_nat k) l'.
Proof.
  intros Hshort Hfuel Hleft Hk Hbefore. unfold Quantile.quickselect.
  assert (Hright : right_or_last arr (Z.of_nat (length l) - 1) (holding arr h0 l)
                   = (Ret (Z.of_nat (length l) - 1), holding arr h0 l)).
  { unfold right_or_last. destruct (Z.eqb_spec (Z.of_nat (length l) - 1) 0); [|done].
    by rewrite (run_bind _ _ _ _ _ (length_holding arr h0 l)). }
  rewrite (run_bind _ _ _ _ _ Hright).
  apply quickselect_loop_places; try lia; try done.
  intros x y a c Hxy _ Hc. apply lookup_lt_Some in Hc. lia.
Qed.

Lemma placed_kept (k : Z) (l l' : list Q) :
  0 <= k → placed (Z.to_nat k) l →
  rearranged (k + 1) (Z.of_nat (length l) - 1) l l' →
  placed (Z.to_nat k) l'.
Proof.
  intros Hk (t & Ht & Hlow & Hhigh) (Hlen & _ & Hout & Hin).
  exists t. split; [|split].
  - rewrite Hout by lia. done.
  - intros x a Hx Ha. rewrite Hout in Ha by lia. by apply (Hlow x a).
  - intros y c Hy Hc.
    destruct (decide (k + 1 <= Z.of_nat y <= Z.of_nat (length l) - 1)) as [Hr|Hr].
    + destruct (Hin y c Hr Hc) as (y' & Hy' & Hc'). apply (Hhigh y' c); [lia|done].
    + rewrite Hout in Hc by done. by apply (Hhigh y c).
Qed.

Lemma quantileSelect_places (fuel : nat) (l : list Q) (q : Q) :
  (length l <= 601)%nat → (length l < fuel)%nat →
  0 <= Qfloor q < Z.of_nat (length l) →
  (q_is_int q = false → Qfloor q + 1 < Z.of_nat (length l)) →
  ∃ l',
    quantileSelect fuel arr q 0 (Z.of_nat (length l) - 1) (holding arr h0 l)
    = (Ret tt, holding arr h0 l')
    ∧ l' ≡ₚ l
    ∧ placed (Z.to_nat (Qfloor q)) l'
    ∧ (q_is_int q = false → placed (Z.to_nat (Qfloor q + 1)) l').
Proof.
  intros Hshort Hfuel Hk Hnext. unfold Quantile.quantileSelect.
  destruct (quickselect_places fuel l (Qfloor q) 0) as (l1 & Hrun1 & Hre1 & Hp1);
    try done; try lia.
  { intros x y a c Hxy. lia. }
  destruct (q_is_int q) eqn:Hint.
  - exists l1. split; [done|]. split; [apply Hre1|]. split; done.
  - specialize (Hnext eq_refl).
    assert (Hlen1 : length l1 = length l) by apply Hre1.
    rewrite (run_bind _ _ _ _ _ Hrun1). rewrite <- Hlen1.
    destruct (quickselect_places fuel l1 (Qfloor q + 1) (Qfloor q + 1))
      as (l2 & Hrun2 & Hre2 & Hp2); try lia.
    { destruct Hp1 as (t & Ht & Hlow & Hhigh). intros x y a c Hxy Ha Hc.
      assert (t <= c)%Q by (apply (Hhigh y c); [lia|done]).
      destruct (decide (x = Z.to_nat (Qfloor q))) as [->|].
      - rewrite Ht in Ha. by injection Ha as <-.
      - assert (a <= t)%Q by (apply (Hlow x a); [lia|done]). lra. }
    exists l2. split; [done|]. split.
    { transitivity l1; [apply Hre2|apply Hre1]. }
    split; [|done]. by apply (placed_kept _ l1); [lia| |].
Qed.
End Quickselect.

(** ** What quantileSorted reads *)

Lemma index_minus_half (idx : Q) (k : Z) :
  (idx == inject_Z k)%Q → - 2 ^ 52 < k < 2 ^ 52 →
  (Binary64.minus idx (1 # 2) == inject_Z k - (1 # 2))%Q.
Proof.
  intros Hidx Hk. unfold Binary64.minus.
  assert (E : (idx - (1 # 2) == inject_Z k - (1 # 2))%Q) by (by rewrite Hidx).
  rewrite (Binary64Facts.nearest_proper _ _ E).
  by apply Binary64Facts.nearest_half_integer.
Qed.

Lemma floor_between (z : Z) (q : Q) :
  (inject_Z z <= q < inject_Z (z + 1))%Q → Qfloor q = z.
Proof.
  intros [Hlow Hhigh]. pose proof (Qfloor_le q) as H1.
  pose proof (Qlt_floor q) as H2.
  assert (z < Qfloor q + 1) by (rewrite Zlt_Qlt; lra).
  assert (Qfloor q < z + 1) by (rewrite Zlt_Qlt; lra). lia.
Qed.

Lemma half_below (z : Z) :
  (inject_Z (z - 1) <= inject_Z z - (1 # 2) < inject_Z (z - 1 + 1))%Q.
Proof.
  unfold Z.sub. rewrite !inject_Z_plus, inject_Z_opp.
  change (inject_Z 1) with 1%Q. change (inject_Z (-1)) with (-1)%Q. lra.
Qed.

(** The index between two elements: its floor and that it is no integer. *)
Lemma half_index (idx : Q) (n : Z) :
  q_is_int idx = true → 1 <= Qfloor idx < n → n <= 2 ^ 52 →
  Qfloor (Binary64.minus idx (1 # 2)) = Qfloor idx - 1
  ∧ q_is_int (Binary64.minus idx (1 # 2)) = false.
Proof.
  intros Hint Hr Hn. pose proof (q_is_int_floor _ Hint) as Hidx.
  pose proof (index_minus_half idx (Qfloor idx) Hidx ltac:(lia)) as Hhalf.
  pose proof (half_below (Qfloor idx)) as Hb.
  assert (Hfl : Qfloor (Binary64.minus idx (1 # 2)) = Qfloor idx - 1).
  { apply floor_between. rewrite Hhalf. exact Hb. }
  split; [done|]. unfold q_is_int.
  destruct (qeq_spec (qofZ (Qfloor (Binary64.minus idx (1 # 2))))
              (Binary64.minus idx (1 # 2))) as [E|_]; [|done].
  exfalso. rewrite Hfl, Hhalf in E. unfold qofZ in E.
  unfold Z.sub in E. rewrite inject_Z_plus, inject_Z_opp in E.
  change (inject_Z 1) with 1%Q in E. lra.
Qed.

Lemma quantileIndex_range (n : Z) (p : Q) :
  0 < n <= 2 ^ 52 → (0 <= p <= 1)%Q → Binary64.is_double p →
  0 <= Qfloor (quantileIndex n p) < n
  ∧ (q_is_int (quantileIndex n p) = false → Qfloor (quantileIndex n p) + 1 < n).
Proof.
  intros Hn [Hp0 Hp1] Hd. unfold quantileIndex.
  destruct (qeq_spec p 1) as [E1|N1].
  { unfold qofZ. rewrite Qfloor_Z. split; [lia|]. unfold q_is_int, qofZ.
    rewrite Qfloor_Z. by destruct (qeq_spec (inject_Z (n - 1)) (inject_Z (n - 1))). }
  destruct (qeq_spec p 0) as [E0|N0].
  { change (Qfloor 0) with 0. split; [lia|done]. }
  assert (Hp0' : (0 < p)%Q).
  { apply Qle_lteq in Hp0 as [?|E]; [done|]. symmetry in E. done. }
  assert (Hp1' : (p < 1)%Q).
  { apply Qle_lteq in Hp1 as [?|E]; [done|]. done. }
  assert (Hn' : 0 < n < 2 ^ 53) by lia.
  destruct (q_is_int (Binary64.times (qofZ n) p)) eqn:Hint; cbn [negb].
  - pose proof (integer_index_range n p Hn' Hd Hp0' Hp1' Hint) as Hr.
    destruct (Z.even n).
    + destruct (half_index _ n Hint Hr ltac:(lia)) as [-> Hnint].
      split; lia.
    + split; [lia|congruence].
  - pose proof (ceiling_index_range n p Hn' Hd Hp0' Hp1') as Hr.
    unfold qofZ at 1 3. rewrite Qfloor_Z. split; [lia|]. unfold q_is_int, qofZ.
    rewrite Qfloor_Z.
    by destruct (qeq_spec (inject_Z (Qceiling (Binary64.times (inject_Z n) p) - 1))
                          (inject_Z (Qceiling (Binary64.times (inject_Z n) p) - 1))).
Qed.

Lemma same_value_refl (v : val) : same_value v v.
Proof. by destruct v as [[q| | |]|]. Qed.

Lemma same_value_lookup (l1 l2 : list Q) (k : Z) :
  0 <= k → agree_at l1 l2 k →
  same_value (arr_get (array_of l1) k) (arr_get (array_of l2) k).
Proof.
  intros Hk (a & c & Ha & Hc & E). rewrite !array_get, Ha, Hc by done. done.
Qed.

(** The average of equal numbers is one double. *)
Lemma average_proper (a1 a2 c1 c2 : Q) :
  (a1 == c1)%Q → (a2 == c2)%Q →
  Binary64.div (Binary64.add (Fin a1) (Fin a2)) (Fin 2)
  = Binary64.div (Binary64.add (Fin c1) (Fin c2)) (Fin 2).
Proof.
  intros E1 E2. unfold Binary64.add. cbn [nadd]. unfold qadd.
  by rewrite (Qred_complete (a1 + a2) (c1 + c2)) by (by rewrite E1, E2).
Qed.

Lemma quantileSorted_agree (l1 l2 : list Q) (p : Q) :
  length l1 = length l2 → l1 ≠ [] → Z.of_nat (length l1) <= 2 ^ 52 →
  (0 <= p <= 1)%Q → Binary64.is_double p →
  agree_at l1 l2 (Qfloor (quantileIndex (Z.of_nat (length l1)) p)) →
  (q_is_int (quantileIndex (Z.of_nat (length l1)) p) = false →
   agree_at l1 l2 (Qfloor (quantileIndex (Z.of_nat (length l1)) p) + 1)) →
  ∃ v w,
    quantileSorted (array_of l1) p = Ret v
    ∧ quantileSorted (array_of l2) p = Ret w
    ∧ same_value v w.
Proof.
  intros Hlen Hne Hsize [Hp0 Hp1] Hd Hfirst Hsecond.
  assert (Hn : 0 < Z.of_nat (length l1)) by (destruct l1; [done|cbn [length]; lia]).
  pose proof (quantileIndex_range _ p (conj Hn Hsize) (conj Hp0 Hp1) Hd)
    as [Hr Hr'].
  revert Hfirst Hsecond Hr Hr'.
  unfold quantileSorted, quantileIndex. rewrite !array_len, <- Hlen.
  set (n := Z.of_nat (length l1)) in *.
  destruct (Z.eqb_spec n 0) as [?|_]; [lia|].
  destruct (qlt_spec p 0) as [?|_]; [lra|].
  destruct (qlt_spec 1 p) as [?|_]; [lra|]. cbn [orb].
  destruct (qeq_spec p 1) as [E1|N1].
  { unfold qofZ. rewrite Qfloor_Z. intros Hfirst _ Hr _.
    eexists _, _. split; [done|]. split; [done|].
    by apply same_value_lookup; [lia|]. }
  destruct (qeq_spec p 0) as [E0|N0].
  { change (Qfloor 0) with 0. intros Hfirst _ Hr _.
    eexists _, _. split; [done|]. split; [done|].
    by apply same_value_lookup. }
  assert (Hp0' : (0 < p)%Q).
  { apply Qle_lteq in Hp0 as [?|E]; [done|]. symmetry in E. done. }
  assert (Hp1' : (p < 1)%Q).
  { apply Qle_lteq in Hp1 as [?|E]; [done|]. done. }
  destruct (q_is_int (Binary64.times (qofZ n) p)) eqn:Hint; cbn [negb].
  - pose proof (integer_index_range n p ltac:(lia) Hd Hp0' Hp1' Hint) as Hri.
    destruct (Z.even n).
    + destruct (half_index _ n Hint Hri ltac:(lia)) as [Hfl Hnint].
      rewrite Hnint, Hfl. intros Hfirst Hsecond Hr Hr'.
      specialize (Hsecond eq_refl). specialize (Hr' eq_refl).
      replace (Qfloor (Binary64.times (qofZ n) p) - 1 + 1)
        with (Qfloor (Binary64.times (qofZ n) p)) in Hsecond by lia.
      destruct Hfirst as (a1 & c1 & Ha1 & Hc1 & E1).
      destruct Hsecond as (a2 & c2 & Ha2 & Hc2 & E2).
      rewrite !array_get, Ha1, Hc1, Ha2, Hc2 by lia.
      cbn [fmap option_fmap option_map to_num].
      eexists _, _. split; [done|]. split; [done|].
      rewrite (average_proper a1 a2 c1 c2 E1 E2). apply same_value_refl.
    + intros Hfirst _ Hr _.
      eexists _, _. split; [done|]. split; [done|].
      by apply same_value_lookup; [lia|].
  - unfold qofZ in *. rewrite !Qfloor_Z. intros Hfirst _ Hr _.
    eexists _, _. split; [done|]. split; [done|].
    by apply same_value_lookup; [lia|].
Qed.
End SelectionFacts.

Module QuantileValues.
Import Descriptive Quantile Selection QuantileFacts SelectionFacts.

(** X30. On a sample of at most 601 finite numbers and for a double [p]
    with 0 <= p <= 1, [quantile(x, p)] returns, given fuel beyond the length
    of the sample, the value that [quantileSorted] returns on the sorted copy
    of the sample (where two elements are averaged, the same two values),
    and leaves the array it was given as it was. *)
Theorem quantile_selects_sorted_value
    (Math_log Math_exp Math_sqrt : Q → Q)
    (x : loc) (h : heap) (sample : list Q) (p : Q) (fuel : nat) :
  h !! x = Some (array_of sample) →
  sample ≠ [] → (length sample <= 601)%nat → (length sample < fuel)%nat →
  (0 <= p <= 1)%Q → Binary64.is_double p →
  ∃ (v w : val) (h' : heap),
    quantile Math_log Math_exp Math_sqrt fuel x (PNum p) h = (Ret (QNum v), h')
    ∧ h' !! x = Some (array_of sample)
    ∧ quantileSorted (array_of (numericSort sample)) p = Ret w
    ∧ same_value v w.
Proof.
  intros Hx Hne Hshort Hfuel Hp Hd. unfold quantile.
  set (copy := fresh (dom h)).
  assert (Hcopy : slice_copy x h = (Ret copy, holding copy h sample)).
  { unfold slice_copy. rewrite Hx. by rewrite array_copy. }
  assert (Hfresh : copy ≠ x).
  { intros E. apply (is_fresh (dom h)). fold copy. rewrite E.
    apply elem_of_dom. by eexists. }
  rewrite (run_bind _ _ _ _ _ Hcopy).
  rewrite (run_bind _ _ _ _ _ (length_holding copy h sample)).
  assert (Hn : 0 < Z.of_nat (length sample))
    by (destruct sample; [done|cbn [length]; lia]).
  assert (Hsize : Z.of_nat (length sample) <= 2 ^ 52) by lia.
  destruct (quantileIndex_range (Z.of_nat (length sample)) p (conj Hn Hsize)
              Hp Hd) as [Hr Hr'].
  destruct (quantileSelect_places Math_log Math_exp Math_sqrt copy h fuel sample
              (quantileIndex (Z.of_nat (length sample)) p))
    as (l' & Hrun & Hperm & Hfirst & Hsecond); try done.
  rewrite (run_bind _ _ _ _ _ Hrun).
  rewrite (run_bind _ _ _ _ _ (read_holding copy h l')).
  assert (Hlen : length l' = length (numericSort sample)).
  { by rewrite Hperm, CkSort.numericSort_length. }
  assert (Hagree : ∀ k : Z, 0 <= k → placed (Z.to_nat k) l' →
            agree_at l' (numericSort sample) k).
  { intros k Hk Hplaced.
    apply (placed_sorted _ l' (numericSort sample)); [done| |].
    - by rewrite Hperm, CkSort.numericSort_perm.
    - apply CkSort.numericSort_sorted. }
  assert (Hlen' : length l' = length sample) by (by rewrite Hperm).
  destruct (quantileSorted_agree l' (numericSort sample) p)
    as (v & w & Hv & Hw & Hsame); try done.
  - intros ->. by rewrite <- Hlen' in Hn.
  - by rewrite Hlen'.
  - rewrite Hlen'. apply Hagree; [lia|done].
  - rewrite Hlen'. intros Hint. apply Hagree; [lia|by apply Hsecond].
  - exists v, w, (holding copy h l'). split; [|split; [|done]].
    + unfold lift. rewrite Hv. done.
    + unfold holding. by rewrite lookup_insert_ne.
Qed.

Lemma quantile_selects_sorted_value_witness :
  ∃ (v w : val) (h' : heap),
    quantile (fun q => q) (fun q => q) (fun q => q) 6 1%positive (PNum (1 # 2))
      {[1%positive := array_of [3; 1; 2; 5; 4]%Q]} = (Ret (QNum v), h')
    ∧ h' !! 1%positive = Some (array_of [3; 1; 2; 5; 4]%Q)
    ∧ quantileSorted (array_of (numericSort [3; 1; 2; 5; 4]%Q)) (1 # 2) = Ret w
    ∧ same_value v w.
Proof.
  apply (quantile_selects_sorted_value (fun q => q) (fun q => q) (fun q => q)
           1%positive {[1%positive := array_of [3; 1; 2; 5; 4]%Q]}
           [3; 1; 2; 5; 4]%Q (1 # 2) 6).
  - apply lookup_singleton_eq.
  - done.
  - cbn [length]. lia.
  - cbn [length]. lia.
  - split; [discriminate|discriminate].
  - by vm_compute.
Defined.
End QuantileValues.
